(** * EoN: stochastic epidemic simulation on networks

    A shallow embedding of [EoN/simulation.py]: the event queue, the
    indexed set, the event-driven and Gillespie SIR/SIS engines and the
    percolation-based reachability, together with the properties
    established about them.

    Conventions of the embedding.
    - Python numbers that are times or rates are rationals extended with
      [float('Inf')] (type [num]); arithmetic on them is exact.
    - The process-wide [random] generator is an explicit stream of draws
      ([Rng]) and a cursor kept in the state.
    - A raised Python exception is the [Raise] outcome of the state and error
      monad [M]; the state reached when the exception was raised is kept,
      since Python mutates its objects in place.
    - Loops that Python runs until a condition fails take a fuel argument;
      running out of fuel is the pseudo-exception [OutOfFuel]. *)

From Stdlib Require Import QArith Qround Lqa ZArith Lia.
From stdpp Require Import base option list gmap sets strings.

Set Default Proof Using "Type".

(** ** Python values, exceptions and the state/error monad *)

(** Node identifiers are numbers: hashable values that cannot be iterated
    over.  Graphs whose nodes are strings or tuples are outside the
    embedding. *)
Definition node := nat.

(** The exceptions of the code.  [EoNError] is the class that the
    statements [raise EoNError(...)] name; [simulation.py] neither defines
    nor imports it, so what such a statement raises is the [NameError] of
    the unbound name. *)
Inductive exn :=
| IndexError
| KeyError
| ZeroDivisionError
| TypeError
| ValueError
| AssertionError
| NetworkXError
| UnboundLocalError
| NameError (name : string)
| EoNError (msg : string)
| OutOfFuel.

Inductive result (A : Type) :=
| Ok (a : A)
| Raise (e : exn).
Arguments Ok {A} a.
Arguments Raise {A} e.

Definition M (St A : Type) : Type := St -> result A * St.

Definition ret {St A} (a : A) : M St A := fun s => (Ok a, s).
Definition raise {St A} (e : exn) : M St A := fun s => (Raise e, s).
Definition bind {St A B} (m : M St A) (k : A -> M St B) : M St B :=
  fun s => match m s with
           | (Ok a, s') => k a s'
           | (Raise e, s') => (Raise e, s')
           end.
Definition gets {St A} (f : St -> A) : M St A := fun s => (Ok (f s), s).
Definition modify {St} (f : St -> St) : M St unit := fun s => (Ok tt, f s).
Definition lift {St A} (r : result A) : M St A := fun s => (r, s).

Declare Scope py_scope.
Delimit Scope py_scope with py.
Notation "'let!' x ':=' m 'in' k" := (bind m (fun x => k))
  (at level 10, x pattern, m at level 100, k at level 200,
   format "'[v' 'let!'  x  ':='  m  'in' '/' k ']'") : py_scope.
Notation "m ';;' k" := (bind m (fun _ => k))
  (at level 100, k at level 200, right associativity) : py_scope.
Open Scope py_scope.

(** [for x in l: body x] *)
Fixpoint for_ {St A} (l : list A) (body : A -> M St unit) : M St unit :=
  match l with
  | [] => ret tt
  | x :: l' => body x ;; for_ l' body
  end.

(** [assert b] *)
Definition assert {St} (b : bool) : M St unit :=
  if b then ret tt else raise AssertionError.

(** ** Numbers: rationals with [float('Inf')] *)

Inductive num :=
| Fin (q : Q)
| Inf.

Definition Qltb (x y : Q) : bool := negb (Qle_bool y x).

(** [x < y] *)
Definition num_lt (x y : num) : bool :=
  match x, y with
  | Fin a, Fin b => Qltb a b
  | Fin _, Inf => true
  | Inf, _ => false
  end.

(** [x <= y], as a proposition, for the statements *)
Definition num_le (x y : num) : Prop :=
  match x, y with
  | Fin a, Fin b => (a <= b)%Q
  | _, Inf => True
  | Inf, Fin _ => False
  end.

Definition num_add (x y : num) : num :=
  match x, y with
  | Fin a, Fin b => Fin (a + b)
  | _, _ => Inf
  end.

(** Python's [min(x, y)]: [y] when [y < x], else [x]. *)
Definition num_min (x y : num) : num := if num_lt y x then y else x.
(** Python's [max(x, y)]: [y] when [y > x], else [x]. *)
Definition num_max (x y : num) : num := if num_lt x y then y else x.

(** ** The random generator

    One call of the underlying generator yields a [uniform] sample of
    [random.random()]; [unit_exp i] stands for [-log(1 - uniform i)], the
    numerator of [random.expovariate]. *)

Record Rng := {
  uniform : nat -> Q;
  unit_exp : nat -> Q
}.

(** ** [class Event] and [class myQueue], over [heapq] *)

Record Event (H : Type) := mkEvent {
  time : num;
  function : H
}.
Arguments mkEvent {H} time function.
Arguments time {H} e.
Arguments function {H} e.

(** [Event.__lt__] *)
Definition Event_lt {H} (self other : Event H) : bool :=
  num_lt (time self) (time other).

Module heapq.
Section Heapq.
Context {A : Type} (lt : A -> A -> bool).

(** The [while pos > startpos] loop of [_siftdown]; [pos] decreases at
      every iteration. *)
Fixpoint siftdown_loop (fuel : nat) (heap : list A) (startpos pos : nat)
      (newitem : A) : list A :=
    match fuel with
    | O => <[pos := newitem]> heap
    | S fuel' =>
        if decide (startpos < pos)%nat then
          let parentpos := ((pos - 1) / 2)%nat in
          match heap !! parentpos with
          | Some parent =>
              if lt newitem parent
              then siftdown_loop fuel' (<[pos := parent]> heap) startpos
                     parentpos newitem
              else <[pos := newitem]> heap
          | None => <[pos := newitem]> heap
          end
        else <[pos := newitem]> heap
    end.

Definition _siftdown (heap : list A) (startpos pos : nat) : list A :=
    match heap !! pos with
    | Some newitem => siftdown_loop (S pos) heap startpos pos newitem
    | None => heap
    end.

(** The [while childpos < endpos] loop of [_siftup]; returns the heap and
      the position of the hole. *)
Fixpoint siftup_loop (fuel : nat) (heap : list A) (pos : nat)
      : list A * nat :=
    match fuel with
    | O => (heap, pos)
    | S fuel' =>
        let endpos := length heap in
        let childpos := (2 * pos + 1)%nat in
        if decide (childpos < endpos)%nat then
          let rightpos := (childpos + 1)%nat in
          let childpos :=
            match heap !! childpos, heap !! rightpos with
            | Some c, Some r => if negb (lt c r) then rightpos else childpos
            | _, _ => childpos
            end in
          match heap !! childpos with
          | Some c => siftup_loop fuel' (<[pos := c]> heap) childpos
          | None => (heap, pos)
          end
        else (heap, pos)
    end.

Definition _siftup (heap : list A) (pos : nat) : list A :=
    match heap !! pos with
    | Some newitem =>
        let '(heap', pos') := siftup_loop (length heap) heap pos in
        _siftdown (<[pos' := newitem]> heap') pos pos'
    | None => heap
    end.

(** [heappush(heap, item)] *)
Definition heappush (heap : list A) (item : A) : list A :=
    let heap := heap ++ [item] in
    _siftdown heap 0 (length heap - 1).

(** [heappop(heap)]: [None] stands for the [IndexError] of [heap.pop()] on
      an empty list. *)
Definition heappop (heap : list A) : option (A * list A) :=
    match last heap with
    | None => None
    | Some lastelt =>
        let heap := removelast heap in
        match heap with
        | [] => Some (lastelt, heap)
        | returnitem :: _ => Some (returnitem, _siftup (<[0%nat := lastelt]> heap) 0)
        end
    end.
End Heapq.
End heapq.

Record myQueue (H : Type) := mk_myQueue {
  _Q_ : list (Event H);
  tmax : num
}.
Arguments mk_myQueue {H} _ _.
Arguments _Q_ {H} m.
Arguments tmax {H} m.

Module Queue.
Section Queue.
Context {H : Type}.

(** [myQueue.__init__] *)
Definition init (tmax : num) : myQueue H := mk_myQueue [] tmax.

(** [myQueue.add] *)
Definition add (self : myQueue H) (event : Event H) : myQueue H :=
    if num_lt (time event) (tmax self)
    then mk_myQueue (heapq.heappush Event_lt (_Q_ self) event) (tmax self)
    else self.

(** [myQueue.__len__] *)
Definition len (self : myQueue H) : nat := length (_Q_ self).

(** [myQueue.pop_and_run], for a queue stored in a state [St] whose events
      are run by [call]. *)
Definition pop_and_run {St} (getQ : St -> myQueue H)
      (setQ : myQueue H -> St -> St) (call : H -> num -> M St unit)
      : M St unit :=
    let! self := gets getQ in
    match heapq.heappop Event_lt (_Q_ self) with
    | None => raise IndexError
    | Some (event, heap) =>
        modify (setQ (mk_myQueue heap (tmax self))) ;;
        call (function event) (time event)
    end.
End Queue.
End Queue.

(** ** The [random] module

    A state that contains the generator exposes it through [HasRandom]. *)

Record RandomState := mkRandom {
  draws : Rng;
  cursor : nat
}.

Class HasRandom (St : Type) := {
  get_random : St -> RandomState;
  set_random : RandomState -> St -> St
}.

Module random.
Section Random.
Context {St : Type} `{HasRandom St}.

(** One call of the underlying generator: the cursor advances. *)
Definition next : M St nat :=
  fun s =>
    let r := get_random s in
    (Ok (cursor r), set_random (mkRandom (draws r) (S (cursor r))) s).

(** [random.random()] *)
Definition random : M St Q :=
  let! i := next in
  let! r := gets get_random in
  ret (uniform (draws r) i).

(** [random.expovariate(lambd)], that is [-log(1 - random())/lambd]: the
    draw is made before the division.  The quotient is the exact one: the
    rounding of the floating-point division, and its overflow to [inf] for
    a [lambd] next to zero, are outside the embedding. *)
Definition expovariate (lambd : Q) : M St Q :=
  let! i := next in
  let! r := gets get_random in
  if Qeq_bool lambd 0 then raise ZeroDivisionError
  else ret (unit_exp (draws r) i / lambd)%Q.

(** [int(random() * n)], the index drawn by [randint], [choice] and
    [sample]; [int] truncates towards zero. *)
Definition below (n : nat) : M St Z :=
  let! u := random in
  let x := (u * inject_Z (Z.of_nat n))%Q in
  ret (Z.quot (Qnum x) (Z.pos (Qden x))).

(** The position that a Python index [i] denotes in a sequence of length
    [n], negative indices counting from the end. *)
Definition position (n : nat) (i : Z) : result nat :=
  let j := if (i <? 0)%Z then (Z.of_nat n + i)%Z else i in
  if ((j <? 0) || (Z.of_nat n <=? j))%Z then Raise IndexError
  else Ok (Z.to_nat j).

(** [seq[i]] *)
Definition index {A} (l : list A) (i : Z) : result A :=
  match position (length l) i with
  | Ok j => match l !! j with
            | Some x => Ok x
            | None => Raise IndexError
            end
  | Raise e => Raise e
  end.

(** [seq[i] = x] *)
Definition set_index {A} (l : list A) (i : Z) (x : A) : result (list A) :=
  match position (length l) i with
  | Ok j => Ok (<[j := x]> l)
  | Raise e => Raise e
  end.

(** [random.randint(0, n - 1)]; an empty range is a [ValueError]. *)
Definition randint0 (n : Z) : M St Z :=
  if (n <=? 0)%Z then raise ValueError
  else below (Z.to_nat n).

(** [random.choice(seq)] *)
Definition choice {A} (l : list A) : M St A :=
  let! i := below (length l) in
  lift (index l i).

(** The selection loop of [random.sample] over the pool. *)
Fixpoint sample_loop {A} (k : nat) (pool : list A) (n : nat)
    : M St (list A) :=
  match k with
  | O => ret []
  | S k' =>
      let! j := below n in
      let! x := lift (index pool j) in
      let! last := lift (index pool (Z.of_nat n - 1)) in
      let! pool := lift (set_index pool j last) in
      let! rest := sample_loop k' pool (n - 1) in
      ret (x :: rest)
  end.

(** [random.sample(population, k)], by the pool algorithm. *)
Definition sample {A} (population : list A) (k : Z) : M St (list A) :=
  if ((k <? 0) || (Z.of_nat (length population) <? k))%Z
  then raise ValueError
  else sample_loop (Z.to_nat k) population (length population).
End Random.
End random.

(** ** [class _ListDict_] *)

Record _ListDict_ := mkListDict {
  item_to_position : gmap node nat;
  items : list node
}.

Module ListDict.

(** [_ListDict_.__init__] *)
Definition init : _ListDict_ := mkListDict ∅ [].

(** [_ListDict_.__len__] *)
Definition len (self : _ListDict_) : nat := length (items self).

(** [_ListDict_.add] *)
Definition add (self : _ListDict_) (item : node) : _ListDict_ :=
  match item_to_position self !! item with
  | Some _ => self
  | None =>
      let items' := items self ++ [item] in
      mkListDict (<[item := (length items' - 1)%nat]> (item_to_position self))
                 items'
  end.

(** [_ListDict_.remove]: the container after the call, and what the call
    raised, if anything. *)
Definition remove (self : _ListDict_) (item : node)
    : result unit * _ListDict_ :=
  match item_to_position self !! item with
  | None => (Raise KeyError, self)
  | Some position =>
      let self := mkListDict (delete item (item_to_position self)) (items self) in
      match last (items self) with
      | None => (Raise IndexError, self)
      | Some last_item =>
          let self := mkListDict (item_to_position self)
                                 (removelast (items self)) in
          if decide (position ≠ length (items self)) then
            if decide (position < length (items self))%nat then
              (Ok tt,
               mkListDict (<[last_item := position]> (item_to_position self))
                          (<[position := last_item]> (items self)))
            else (Raise IndexError, self)
          else (Ok tt, self)
      end
  end.

(** [_ListDict_.choose_random] *)
Definition choose_random {St} `{HasRandom St} (self : _ListDict_)
    : M St node :=
  random.choice (items self).

End ListDict.

(** ** The graph contract (networkx)

    [G_nodes] is [G.nodes()], [G_adj u] the neighbours [G.neighbors(u)]
    of a node [u] (the successors in a [DiGraph]); the attribute tables are
    [G.edge[u][v][name]] and [G.node[u][name]]. *)

Record Graph := mkGraph {
  G_nodes : list node;
  G_adj : node -> list node;
  G_edge : node -> node -> string -> option Q;
  G_node : node -> string -> option Q
}.

Module nx.

Definition has_node (G : Graph) (n : node) : bool :=
  bool_decide (n ∈ G_nodes G).

Definition order (G : Graph) : nat := length (G_nodes G).

(** [G.neighbors(n)] raises on a node that is not in the graph. *)
Definition neighbors (G : Graph) (n : node) : result (list node) :=
  if has_node G n then Ok (G_adj G n) else Raise NetworkXError.

(** Breadth-first closure under [G_adj]; [fuel] bounds the number of
    rounds. *)
Fixpoint closure (G : Graph) (fuel : nat) (seen : gset node)
    (frontier : list node) : gset node :=
  match fuel with
  | O => seen
  | S fuel' =>
      let next :=
        filter (fun v => v ∉ seen)
               (remove_dups (flat_map (G_adj G) frontier)) in
      match next with
      | [] => seen
      | _ => closure G fuel' (seen ∪ list_to_set next) next
      end
  end.

(** [nx.descendants(G, source)]: the nodes reachable from [source], without
    [source] itself. *)
Definition descendants (G : Graph) (source : node) : result (gset node) :=
  if has_node G source
  then Ok (closure G (order G) {[source]} [source] ∖ {[source]})
  else Raise NetworkXError.

(** [nx.ancestors(G, source)] is [descendants] in the reversed graph. *)
Definition reverse (G : Graph) : Graph :=
  mkGraph (G_nodes G)
          (fun v => filter (fun u => v ∈ G_adj G u) (G_nodes G))
          (fun u v => G_edge G v u) (G_node G).

Definition ancestors (G : Graph) (source : node) : result (gset node) :=
  descendants (reverse G) source.

End nx.

(** What a networkx [Graph] guarantees: its nodes are distinct, neighbour
    lists are distinct nodes of the graph, and adjacency is symmetric. *)
Record simple_graph (G : Graph) : Prop := {
  nodes_NoDup : NoDup (G_nodes G);
  adj_NoDup : forall u, NoDup (G_adj G u);
  adj_nodes : forall u v, v ∈ G_adj G u -> u ∈ G_nodes G /\ v ∈ G_nodes G;
  adj_sym : forall u v, v ∈ G_adj G u -> u ∈ G_adj G v
}.

Definition no_selfloops (G : Graph) : Prop := forall u, u ∉ G_adj G u.

(** The arguments [initial_infecteds], [source] and [target] are either one
    identifier ([a_node u]: the number [u], whether or not it is a node of
    the graph) or an iterable of identifiers ([an_iterable l]: a list, a
    tuple or a set of numbers, visited in the order [l]). *)
Inductive node_or_nodes :=
| a_node (u : node)
| an_iterable (l : list node).

(** [G.has_node(x)] on such an argument: an iterable is not a node. *)
Definition has_node_arg (G : Graph) (x : node_or_nodes) : bool :=
  match x with
  | a_node u => nx.has_node G u
  | an_iterable _ => false
  end.

(** Iterating over such an argument ([set(x)], [for u in x], [len(x)]): a
    number is not iterable, and Python raises [TypeError]. *)
Definition iterate (x : node_or_nodes) : result (list node) :=
  match x with
  | a_node _ => Raise TypeError
  | an_iterable l => Ok l
  end.

(** ** Percolation *)

#[global] Instance RandomState_HasRandom : HasRandom RandomState :=
  {| get_random := fun r => r; set_random := fun r _ => r |}.

Module DiGraph.

(** [nx.DiGraph()] *)
Definition empty : Graph :=
  mkGraph [] (fun _ => []) (fun _ _ _ => None) (fun _ _ => None).

Definition with_node (H : Graph) (u : node) : list node :=
  if bool_decide (u ∈ G_nodes H) then G_nodes H else G_nodes H ++ [u].

(** [H.add_node(u, name = x)] *)
Definition add_node (H : Graph) (u : node) (name : string) (x : Q) : Graph :=
  mkGraph (with_node H u) (G_adj H) (G_edge H)
    (fun n a => if bool_decide (n = u /\ a = name) then Some x
                else G_node H n a).

(** [H.add_edge(u, v, name = x)] *)
Definition add_edge (H : Graph) (u v : node) (name : string) (x : Q)
    : Graph :=
  let H' := mkGraph (with_node H u) (G_adj H) (G_edge H) (G_node H) in
  mkGraph (with_node H' v)
    (fun n => if bool_decide (n = u /\ v ∉ G_adj H u) then G_adj H u ++ [v]
              else G_adj H n)
    (fun n m a => if bool_decide (n = u /\ m = v /\ a = name) then Some x
                  else G_edge H n m a)
    (G_node H).

End DiGraph.

(** [directed_percolate_network(G, tau, gamma)]; the graph under
    construction is threaded through the loops. *)
Definition directed_percolate_network (G : Graph) (tau gamma : Q)
    : M RandomState Graph :=
  let H := DiGraph.empty in
  let fix over_neighbors (u : node) (duration : Q) (vs : list node)
      (H : Graph) : M RandomState Graph :=
    match vs with
    | [] => ret H
    | v :: vs' =>
        let! time_to_infect := random.expovariate tau in
        let H := if Qltb time_to_infect duration
                 then DiGraph.add_edge H u v "delay" time_to_infect
                 else H in
        over_neighbors u duration vs' H
    end in
  let fix over_nodes (us : list node) (H : Graph) : M RandomState Graph :=
    match us with
    | [] => ret H
    | u :: us' =>
        let! duration := random.expovariate gamma in
        let H := DiGraph.add_node H u "duration" duration in
        let! vs := lift (nx.neighbors G u) in
        let! H := over_neighbors u duration vs H in
        over_nodes us' H
    end in
  over_nodes (G_nodes G) H.

(** The union of [f node] over the nodes of [l]. *)
Fixpoint union_over (f : node -> result (gset node)) (l : list node)
    (acc : gset node) : result (gset node) :=
  match l with
  | [] => Ok acc
  | node :: l' =>
      match f node with
      | Ok d => union_over f l' (acc ∪ d)
      | Raise e => Raise e
      end
  end.

(** [_out_component_(G, source)] *)
Definition _out_component_ (G : Graph) (source : node_or_nodes)
    : result (gset node) :=
  match (if has_node_arg G source
         then match source with
              | a_node u => Ok [u]
              | an_iterable l => Ok l
              end
         else match iterate source with
              | Ok l => Ok (remove_dups l)
              | Raise e => Raise e
              end) with
  | Ok source_nodes => union_over (nx.descendants G) source_nodes ∅
  | Raise e => Raise e
  end.

(** [_in_component_(G, target)] *)
Definition _in_component_ (G : Graph) (target : node_or_nodes)
    : result (gset node) :=
  match (if has_node_arg G target
         then match target with
              | a_node u => Ok [u]
              | an_iterable l => Ok l
              end
         else match iterate target with
              | Ok l => Ok (remove_dups l)
              | Raise e => Raise e
              end) with
  | Ok target_nodes => union_over (nx.ancestors G) target_nodes ∅
  | Raise e => Raise e
  end.

(** [get_infected_nodes(G, tau, gamma, initial_infecteds)]; the percolated
    network [H] is returned next to the result, for the statements. *)
Definition get_infected_nodes (G : Graph) (tau gamma : Q)
    (initial_infecteds : option node_or_nodes)
    : M RandomState (Graph * gset node) :=
  let! initial_infecteds :=
    match initial_infecteds with
    | None =>
        let! u := random.choice (G_nodes G) in
        ret (an_iterable [u])
    | Some x =>
        if has_node_arg G x
        then match x with
             | a_node u => ret (an_iterable [u])
             | an_iterable _ => ret x
             end
        else ret x
    end in
  let! H := directed_percolate_network G tau gamma in
  let! infected_nodes := lift (_out_component_ G initial_infecteds) in
  ret (H, infected_nodes).

(** ** Shared pieces of the simulation engines *)

(** Node status: the strings ['S'], ['I'] and ['R']. *)
Inductive status_t := sS | sI | sR.

#[global] Instance status_t_eq_dec : EqDecision status_t.
Proof. solve_decision. Defined.

(** A [defaultdict]: reading a missing key stores the default under it. *)
Definition dd_read {K V St} `{Countable K} (get : St -> gmap K V)
    (set : gmap K V -> St -> St) (dflt : V) (k : K) : M St V :=
  fun s =>
    match get s !! k with
    | Some v => (Ok v, s)
    | None => (Ok dflt, set (<[k := dflt]> (get s)) s)
    end.

Definition dd_write {K V St} `{Countable K} (get : St -> gmap K V)
    (set : gmap K V -> St -> St) (k : K) (v : V) : M St unit :=
  modify (fun s => set (<[k := v]> (get s)) s).

(** [l[-1]] *)
Definition last_of {St A} (get : St -> list A) : M St A :=
  fun s =>
    match last (get s) with
    | Some x => (Ok x, s)
    | None => (Raise IndexError, s)
    end.

(** Python 2 [round]: halves go away from zero. *)
Definition py_round (x : Q) : Z :=
  if Qle_bool 0 x then Qfloor (x + (1 # 2))
  else (- Qfloor (- x + (1 # 2)))%Z.

(** The choice of the initial infecteds that opens every engine:
[[
    if initial_infecteds is None:
        if rho is None: initial_number = 1
        else: initial_number = int(round(G.order()*rho))
        initial_infecteds = random.sample(G.nodes(), initial_number)
    elif G.has_node(initial_infecteds):
        initial_infecteds = [initial_infecteds]
]] *)
Definition choose_initial_infecteds {St} `{HasRandom St} (G : Graph)
    (initial_infecteds : option node_or_nodes) (rho : option Q)
    : M St node_or_nodes :=
  match initial_infecteds with
  | None =>
      let initial_number :=
        match rho with
        | None => 1%Z
        | Some rho => py_round (inject_Z (Z.of_nat (nx.order G)) * rho)
        end in
      let! l := random.sample (G_nodes G) initial_number in
      ret (an_iterable l)
  | Some x =>
      if has_node_arg G x
      then match x with
           | a_node u => ret (an_iterable [u])
           | an_iterable _ => ret x
           end
      else ret x
  end.

(** [_get_rate_functions]: an attribute that is missing is a [KeyError]. *)
Definition _get_rate_functions (G : Graph) (tau gamma : Q)
    (transmission_weight recovery_weight : option string)
    : (node -> node -> result Q) * (node -> result Q) :=
  let trans_rate_fxn :=
    match transmission_weight with
    | None => fun x y => Ok tau
    | Some w => fun x y =>
        match G_edge G x y w with
        | Some a => Ok (tau * a)%Q
        | None => Raise KeyError
        end
    end in
  let rec_rate_fxn :=
    match recovery_weight with
    | None => fun x => Ok gamma
    | Some w => fun x =>
        match G_node G x w with
        | Some a => Ok (gamma * a)%Q
        | None => Raise KeyError
        end
    end in
  (trans_rate_fxn, rec_rate_fxn).

(** A function body that works on local objects [L] created from the
    generator: the generator is the only state that survives the call; the
    final locals are returned next to the result, for the statements. *)
Definition with_locals {L A} `{HasRandom L} (new : RandomState -> L)
    (body : M L A) : M RandomState (A * L) :=
  fun r =>
    let '(res, l) := body (new r) in
    (match res with
     | Ok a => Ok (a, l)
     | Raise e => Raise e
     end, get_random l).

(** ** Event-driven SIR: [fast_SIR], [fast_nonMarkov_SIR] *)

Module FastSIR.

(** What an event calls: the [process_trans] argument of
    [fast_nonMarkov_SIR] for an initial infection of [u],
    [_process_trans_SIR_] for a transmission to [v] found by
    [_find_trans_SIR_], [_process_rec_SIR_] for a recovery.  All events share
    the lists and dictionaries of the run, which are the fields of [state]. *)
Inductive handler :=
| initial_trans (u : node)
| trans (v : node)
| rec (node : node).

Record state := mkState {
  times : list num;
  S_ : list Z;
  I_ : list Z;
  R_ : list Z;
  Q_ : myQueue handler;
  status : gmap node status_t;
  rec_time : gmap node num;
  pred_inf_time : gmap node num;
  rand : RandomState
}.

Definition set_times f s :=
  mkState (f (times s)) (S_ s) (I_ s) (R_ s) (Q_ s) (status s) (rec_time s)
          (pred_inf_time s) (rand s).
Definition set_S f s :=
  mkState (times s) (f (S_ s)) (I_ s) (R_ s) (Q_ s) (status s) (rec_time s)
          (pred_inf_time s) (rand s).
Definition set_I f s :=
  mkState (times s) (S_ s) (f (I_ s)) (R_ s) (Q_ s) (status s) (rec_time s)
          (pred_inf_time s) (rand s).
Definition set_R f s :=
  mkState (times s) (S_ s) (I_ s) (f (R_ s)) (Q_ s) (status s) (rec_time s)
          (pred_inf_time s) (rand s).
Definition set_Q q s :=
  mkState (times s) (S_ s) (I_ s) (R_ s) q (status s) (rec_time s)
          (pred_inf_time s) (rand s).
Definition set_status m s :=
  mkState (times s) (S_ s) (I_ s) (R_ s) (Q_ s) m (rec_time s)
          (pred_inf_time s) (rand s).
Definition set_rec_time m s :=
  mkState (times s) (S_ s) (I_ s) (R_ s) (Q_ s) (status s) m
          (pred_inf_time s) (rand s).
Definition set_pred_inf_time m s :=
  mkState (times s) (S_ s) (I_ s) (R_ s) (Q_ s) (status s) (rec_time s)
          m (rand s).
Definition set_rand r s :=
  mkState (times s) (S_ s) (I_ s) (R_ s) (Q_ s) (status s) (rec_time s)
          (pred_inf_time s) r.

#[global] Instance state_HasRandom : HasRandom state :=
  {| get_random := rand; set_random := set_rand |}.

(** [status[u]], [rec_time[u]], [pred_inf_time[u]] with their defaults *)
Definition status_read := dd_read status set_status sS.
Definition rec_time_read := dd_read rec_time set_rec_time (Fin (-1)).
Definition pred_inf_time_read := dd_read pred_inf_time set_pred_inf_time Inf.

(** [Q.add(event)] *)
Definition Q_add (event : Event handler) : M state unit :=
  modify (fun s => set_Q (Queue.add (Q_ s) event) s).

(** [_find_trans_SIR_(Q, t, tau, source, target, status, pred_inf_time,
    source_rec_time, trans_event_args)] *)
Definition _find_trans_SIR_ (t : num) (tau : Q) (source target : node)
    (source_rec_time : num) : M state unit :=
  let! s := status_read target in
  if decide (s = sS) then
    let! delay := random.expovariate tau in
    let inf_time := num_add t (Fin delay) in
    let! p := pred_inf_time_read target in
    if num_lt inf_time (num_min source_rec_time p) then
      let event := mkEvent inf_time (trans target) in
      Q_add event ;;
      dd_write pred_inf_time set_pred_inf_time target inf_time
    else ret tt
  else ret tt.

(** [_process_trans_SIR_(time, G, node, times, S, I, R, Q, status, rec_time,
    pred_inf_time, trans_rate_fxn, rec_rate_fxn)] *)
Definition _process_trans_SIR_ (G : Graph)
    (trans_rate_fxn : node -> node -> result Q)
    (rec_rate_fxn : node -> result Q) (time : num) (node : node)
    : M state unit :=
  let! s := status_read node in
  if decide (s = sS) then
    dd_write status set_status node sI ;;
    modify (set_times (fun l => l ++ [time])) ;;
    (let! s := last_of S_ in modify (set_S (fun l => l ++ [s - 1]%Z))) ;;
    (let! i := last_of I_ in modify (set_I (fun l => l ++ [i + 1]%Z))) ;;
    (let! r := last_of R_ in modify (set_R (fun l => l ++ [r]))) ;;
    let! rate := lift (rec_rate_fxn node) in
    let! d := random.expovariate rate in
    dd_write rec_time set_rec_time node (num_add time (Fin d)) ;;
    let! rt := rec_time_read node in
    Q_add (mkEvent rt (rec node)) ;;
    let! vs := lift (nx.neighbors G node) in
    for_ vs (fun v =>
      let! tau := lift (trans_rate_fxn node v) in
      let! rt := rec_time_read node in
      _find_trans_SIR_ time tau node v rt)
  else ret tt.

(** [_process_rec_SIR_(time, node, times, S, I, R, status)] *)
Definition _process_rec_SIR_ (time : num) (node : node) : M state unit :=
  modify (set_times (fun l => l ++ [time])) ;;
  (let! s := last_of S_ in modify (set_S (fun l => l ++ [s]))) ;;
  (let! i := last_of I_ in modify (set_I (fun l => l ++ [i - 1]%Z))) ;;
  (let! r := last_of R_ in modify (set_R (fun l => l ++ [r + 1]%Z))) ;;
  dd_write status set_status node sR.

(** [event.function(event.time, *event.args)] *)
Definition call (G : Graph) (process_trans : num -> node -> M state unit)
    (trans_rate_fxn : node -> node -> result Q)
    (rec_rate_fxn : node -> result Q) (h : handler) (time : num)
    : M state unit :=
  match h with
  | initial_trans u => process_trans time u
  | trans v => _process_trans_SIR_ G trans_rate_fxn rec_rate_fxn time v
  | rec node => _process_rec_SIR_ time node
  end.

(** [Q.pop_and_run()] *)
Definition pop_and_run (G : Graph)
    (process_trans : num -> node -> M state unit)
    (trans_rate_fxn : node -> node -> result Q)
    (rec_rate_fxn : node -> result Q) : M state unit :=
  Queue.pop_and_run Q_ set_Q
    (call G process_trans trans_rate_fxn rec_rate_fxn).

(** [while Q: Q.pop_and_run()] *)
Fixpoint run_queue (fuel : nat) (step : M state unit) : M state unit :=
  let! n := gets (fun s => Queue.len (Q_ s)) in
  if decide (n = 0%nat) then ret tt
  else match fuel with
       | O => raise OutOfFuel
       | S fuel' => step ;; run_queue fuel' step
       end.

(** What the functions return: the four arrays and, when
    [return_full_data] is set, the two dictionaries. *)
Record output := mkOutput {
  out_times : list num;
  out_S : list Z;
  out_I : list Z;
  out_R : list Z;
  out_infection_time : option (gmap node num);
  out_recovery_time : option (gmap node num)
}.

(** The objects that [fast_nonMarkov_SIR] creates before its loops. *)
Definition new (G : Graph) (tmax : num) (r : RandomState) : state :=
  mkState [Fin 0] [Z.of_nat (nx.order G)] [0%Z] [0%Z] (Queue.init tmax)
          ∅ ∅ ∅ r.

(** The body of [fast_nonMarkov_SIR] once [Q is None] has selected the
    supported branch. *)
Definition fast_nonMarkov_SIR_body (fuel : nat) (G : Graph)
    (process_trans : num -> node -> M state unit)
    (trans_rate_fxn : node -> node -> result Q)
    (rec_rate_fxn : node -> result Q)
    (initial_infecteds : option node_or_nodes) (rho : option Q)
    (return_full_data : bool) : M state output :=
  let! initial_infecteds := choose_initial_infecteds G initial_infecteds rho in
  let! us := lift (iterate initial_infecteds) in
  for_ us (fun u =>
    let newevent := mkEvent (Fin 0) (initial_trans u) in
    dd_write pred_inf_time set_pred_inf_time u (Fin 0) ;;
    Q_add newevent) ;;
  run_queue fuel
    (pop_and_run G process_trans trans_rate_fxn rec_rate_fxn) ;;
  let n := length us in
  let! s := gets (fun s => s) in
  let status_of node := default sS (status s !! node) in
  ret (mkOutput (drop n (times s)) (drop n (S_ s)) (drop n (I_ s))
         (drop n (R_ s))
         (if return_full_data
          then Some (filter (fun '(node, _) => status_of node ≠ sS)
                            (pred_inf_time s))
          else None)
         (if return_full_data
          then Some (filter (fun '(node, _) => status_of node ≠ sS)
                            (rec_time s))
          else None)).

(** [fast_nonMarkov_SIR(G, process_trans, args, initial_infecteds, rho,
    tmax, return_full_data, Q)]; [args] is what [process_trans] and the
    events of [_find_trans_SIR_] are closed over. *)
Definition fast_nonMarkov_SIR (fuel : nat) (G : Graph)
    (process_trans : num -> node -> M state unit)
    (trans_rate_fxn : node -> node -> result Q)
    (rec_rate_fxn : node -> result Q)
    (initial_infecteds : option node_or_nodes) (rho : option Q)
    (tmax : num) (return_full_data : bool)
    (Q : option (list (Event handler)))
    : M RandomState (output * state) :=
  if bool_decide (rho ≠ None /\ initial_infecteds ≠ None) then
    raise (NameError "EoNError")
  else
    match Q with
    | None =>
        with_locals (new G tmax)
          (fast_nonMarkov_SIR_body fuel G process_trans trans_rate_fxn
             rec_rate_fxn initial_infecteds rho return_full_data)
    | Some _ => raise (NameError "EoNError")
    end.

(** [fast_SIR(G, tau, gamma, initial_infecteds, rho, tmax,
    transmission_weight, recovery_weight, return_full_data)] *)
Definition fast_SIR (fuel : nat) (G : Graph) (tau gamma : Q)
    (initial_infecteds : option node_or_nodes) (rho : option Q)
    (tmax : num) (transmission_weight recovery_weight : option string)
    (return_full_data : bool) : M RandomState (output * state) :=
  let '(trans_rate_fxn, rec_rate_fxn) :=
    _get_rate_functions G tau gamma transmission_weight recovery_weight in
  fast_nonMarkov_SIR fuel G
    (_process_trans_SIR_ G trans_rate_fxn rec_rate_fxn)
    trans_rate_fxn rec_rate_fxn initial_infecteds rho tmax
    return_full_data None.

End FastSIR.

(** ** Event-driven SIS: [fast_SIS] *)

Module FastSIS.

(** The source of a transmission: a node, or the string
    ['initial_condition'] ([None]). *)
Definition source_t := option node.

Inductive handler :=
| trans (source : source_t) (target : node)
| rec (node : node).

Record state := mkState {
  times : list num;
  S_ : list Z;
  I_ : list Z;
  Q_ : myQueue handler;
  status : gmap node status_t;
  rec_time : gmap source_t num;
  infection_times : gmap node (list num);
  recovery_times : gmap node (list num);
  rand : RandomState
}.

Definition set_times f s :=
  mkState (f (times s)) (S_ s) (I_ s) (Q_ s) (status s) (rec_time s)
          (infection_times s) (recovery_times s) (rand s).
Definition set_S f s :=
  mkState (times s) (f (S_ s)) (I_ s) (Q_ s) (status s) (rec_time s)
          (infection_times s) (recovery_times s) (rand s).
Definition set_I f s :=
  mkState (times s) (S_ s) (f (I_ s)) (Q_ s) (status s) (rec_time s)
          (infection_times s) (recovery_times s) (rand s).
Definition set_Q q s :=
  mkState (times s) (S_ s) (I_ s) q (status s) (rec_time s)
          (infection_times s) (recovery_times s) (rand s).
Definition set_status m s :=
  mkState (times s) (S_ s) (I_ s) (Q_ s) m (rec_time s)
          (infection_times s) (recovery_times s) (rand s).
Definition set_rec_time m s :=
  mkState (times s) (S_ s) (I_ s) (Q_ s) (status s) m
          (infection_times s) (recovery_times s) (rand s).
Definition set_infection_times m s :=
  mkState (times s) (S_ s) (I_ s) (Q_ s) (status s) (rec_time s)
          m (recovery_times s) (rand s).
Definition set_rand r s :=
  mkState (times s) (S_ s) (I_ s) (Q_ s) (status s) (rec_time s)
          (infection_times s) (recovery_times s) r.

#[global] Instance state_HasRandom : HasRandom state :=
  {| get_random := rand; set_random := set_rand |}.

Definition status_read := dd_read status set_status sS.
Definition rec_time_read := dd_read rec_time set_rec_time (Fin (-1)).

Definition Q_add (event : Event handler) : M state unit :=
  modify (fun s => set_Q (Queue.add (Q_ s) event) s).

(** [_find_next_trans_SIS_(Q, time, tau, source, target, status, rec_time,
    trans_event_args)] *)
Definition _find_next_trans_SIS_ (time : num) (tau : Q)
    (source target : node) : M state unit :=
  let! s := status_read source in
  assert (bool_decide (s = sI)) ;;
  let! rt := rec_time_read (Some target) in
  let! rs := rec_time_read (Some source) in
  if num_lt rt rs then
    let! rt := rec_time_read (Some target) in
    let! d := random.expovariate tau in
    let transmission_time := num_add (num_max time rt) (Fin d) in
    let! rs := rec_time_read (Some source) in
    if num_lt transmission_time rs then
      Q_add (mkEvent transmission_time (trans (Some source) target))
    else ret tt
  else ret tt.

(** [_process_trans_SIS_(time, G, source, target, times, infection_times,
    S, I, Q, status, rec_time, trans_rate_fxn, rec_rate_fxn)] *)
Definition _process_trans_SIS_ (G : Graph)
    (trans_rate_fxn : node -> node -> result Q)
    (rec_rate_fxn : node -> result Q) (time : num) (source : source_t)
    (target : node) : M state unit :=
  (let! s := status_read target in
   if decide (s = sS) then
     dd_write status set_status target sI ;;
     (let! i := last_of I_ in modify (set_I (fun l => l ++ [i + 1]%Z))) ;;
     (let! s := last_of S_ in modify (set_S (fun l => l ++ [s - 1]%Z))) ;;
     modify (set_times (fun l => l ++ [time])) ;;
     let! rate := lift (rec_rate_fxn target) in
     let! d := random.expovariate rate in
     dd_write rec_time set_rec_time (Some target) (num_add time (Fin d)) ;;
     let! rt := rec_time_read (Some target) in
     Q_add (mkEvent rt (rec target)) ;;
     let! vs := lift (nx.neighbors G target) in
     for_ vs (fun v =>
       let! tau := lift (trans_rate_fxn target v) in
       _find_next_trans_SIS_ time tau target v) ;;
     let! l := dd_read infection_times set_infection_times [] target in
     dd_write infection_times set_infection_times target (l ++ [time])
   else ret tt) ;;
  match source with
  | Some source =>
      let! tau := lift (trans_rate_fxn source target) in
      _find_next_trans_SIS_ time tau source target
  | None => ret tt
  end.

(** [_process_rec_SIS_(time, node, times, S, I, status)] *)
Definition _process_rec_SIS_ (time : num) (node : node) : M state unit :=
  modify (set_times (fun l => l ++ [time])) ;;
  (let! s := last_of S_ in modify (set_S (fun l => l ++ [s + 1]%Z))) ;;
  (let! i := last_of I_ in modify (set_I (fun l => l ++ [i - 1]%Z))) ;;
  dd_write status set_status node sS.

Definition call (G : Graph) (trans_rate_fxn : node -> node -> result Q)
    (rec_rate_fxn : node -> result Q) (h : handler) (time : num)
    : M state unit :=
  match h with
  | trans source target =>
      _process_trans_SIS_ G trans_rate_fxn rec_rate_fxn time source target
  | rec node => _process_rec_SIS_ time node
  end.

(** [Q.pop_and_run()] *)
Definition pop_and_run (G : Graph)
    (trans_rate_fxn : node -> node -> result Q)
    (rec_rate_fxn : node -> result Q) : M state unit :=
  Queue.pop_and_run Q_ set_Q (call G trans_rate_fxn rec_rate_fxn).

(** [while Q: Q.pop_and_run()] *)
Fixpoint run_queue (fuel : nat) (step : M state unit) : M state unit :=
  let! n := gets (fun s => Queue.len (Q_ s)) in
  if decide (n = 0%nat) then ret tt
  else match fuel with
       | O => raise OutOfFuel
       | S fuel' => step ;; run_queue fuel' step
       end.

Record output := mkOutput {
  out_times : list num;
  out_S : list Z;
  out_I : list Z;
  out_infection_times : option (gmap node (list num));
  out_recovery_times : option (gmap node (list num))
}.

(** The objects that [fast_SIS] creates before its loops. *)
Definition new (G : Graph) (tmax : num) (r : RandomState) : state :=
  mkState [Fin 0] [Z.of_nat (nx.order G)] [0%Z] (Queue.init tmax)
          ∅ {[ None := Fin 0 ]} ∅ ∅ r.

Definition fast_SIS_body (fuel : nat) (G : Graph)
    (trans_rate_fxn : node -> node -> result Q)
    (rec_rate_fxn : node -> result Q)
    (initial_infecteds : option node_or_nodes) (rho : option Q)
    (return_full_data : bool) : M state output :=
  let! initial_infecteds := choose_initial_infecteds G initial_infecteds rho in
  let! us := lift (iterate initial_infecteds) in
  for_ us (fun u => Q_add (mkEvent (Fin 0) (trans None u))) ;;
  run_queue fuel (pop_and_run G trans_rate_fxn rec_rate_fxn) ;;
  let n := length us in
  let! s := gets (fun s => s) in
  ret (mkOutput (drop n (times s)) (drop n (S_ s)) (drop n (I_ s))
         (if return_full_data then Some (infection_times s) else None)
         (if return_full_data then Some (recovery_times s) else None)).

(** [fast_SIS(G, tau, gamma, initial_infecteds, rho, tmax,
    transmission_weight, recovery_weight, return_full_data)] *)
Definition fast_SIS (fuel : nat) (G : Graph) (tau gamma : Q)
    (initial_infecteds : option node_or_nodes) (rho : option Q)
    (tmax : num) (transmission_weight recovery_weight : option string)
    (return_full_data : bool) : M RandomState (output * state) :=
  if bool_decide (rho ≠ None /\ initial_infecteds ≠ None) then
    raise (NameError "EoNError")
  else
    let '(trans_rate_fxn, rec_rate_fxn) :=
      _get_rate_functions G tau gamma transmission_weight recovery_weight in
    with_locals (new G tmax)
      (fast_SIS_body fuel G trans_rate_fxn rec_rate_fxn initial_infecteds
         rho return_full_data).

End FastSIS.

(** ** Gillespie SIR and SIS: [Gillespie_SIR], [Gillespie_SIS] *)

Module Gillespie.

(** The lists and dictionaries of a run, and the local variables of the
    main loop ([total_trans_rate], [total_rec_rate], [total_rate],
    [next_time]). *)
Record state := mkState {
  times : list num;
  S_ : list Z;
  I_ : list Z;
  R_ : list Z;
  status : gmap node status_t;
  infected : list node;
  infected_neighbor_count : gmap node Z;
  risk_group : gmap Z _ListDict_;
  infection_times : gmap node (list num);
  recovery_times : gmap node (list num);
  total_trans_rate : Q;
  total_rec_rate : Q;
  total_rate : Q;
  next_time : num;
  rand : RandomState
}.

Definition set_times f s :=
  mkState (f (times s)) (S_ s) (I_ s) (R_ s) (status s) (infected s)
    (infected_neighbor_count s) (risk_group s) (infection_times s)
    (recovery_times s) (total_trans_rate s) (total_rec_rate s)
    (total_rate s) (next_time s) (rand s).
Definition set_S f s :=
  mkState (times s) (f (S_ s)) (I_ s) (R_ s) (status s) (infected s)
    (infected_neighbor_count s) (risk_group s) (infection_times s)
    (recovery_times s) (total_trans_rate s) (total_rec_rate s)
    (total_rate s) (next_time s) (rand s).
Definition set_I f s :=
  mkState (times s) (S_ s) (f (I_ s)) (R_ s) (status s) (infected s)
    (infected_neighbor_count s) (risk_group s) (infection_times s)
    (recovery_times s) (total_trans_rate s) (total_rec_rate s)
    (total_rate s) (next_time s) (rand s).
Definition set_R f s :=
  mkState (times s) (S_ s) (I_ s) (f (R_ s)) (status s) (infected s)
    (infected_neighbor_count s) (risk_group s) (infection_times s)
    (recovery_times s) (total_trans_rate s) (total_rec_rate s)
    (total_rate s) (next_time s) (rand s).
Definition set_status m s :=
  mkState (times s) (S_ s) (I_ s) (R_ s) m (infected s)
    (infected_neighbor_count s) (risk_group s) (infection_times s)
    (recovery_times s) (total_trans_rate s) (total_rec_rate s)
    (total_rate s) (next_time s) (rand s).
Definition set_infected l s :=
  mkState (times s) (S_ s) (I_ s) (R_ s) (status s) l
    (infected_neighbor_count s) (risk_group s) (infection_times s)
    (recovery_times s) (total_trans_rate s) (total_rec_rate s)
    (total_rate s) (next_time s) (rand s).
Definition set_infected_neighbor_count m s :=
  mkState (times s) (S_ s) (I_ s) (R_ s) (status s) (infected s)
    m (risk_group s) (infection_times s)
    (recovery_times s) (total_trans_rate s) (total_rec_rate s)
    (total_rate s) (next_time s) (rand s).
Definition set_risk_group m s :=
  mkState (times s) (S_ s) (I_ s) (R_ s) (status s) (infected s)
    (infected_neighbor_count s) m (infection_times s)
    (recovery_times s) (total_trans_rate s) (total_rec_rate s)
    (total_rate s) (next_time s) (rand s).
Definition set_infection_times m s :=
  mkState (times s) (S_ s) (I_ s) (R_ s) (status s) (infected s)
    (infected_neighbor_count s) (risk_group s) m
    (recovery_times s) (total_trans_rate s) (total_rec_rate s)
    (total_rate s) (next_time s) (rand s).
Definition set_recovery_times m s :=
  mkState (times s) (S_ s) (I_ s) (R_ s) (status s) (infected s)
    (infected_neighbor_count s) (risk_group s) (infection_times s)
    m (total_trans_rate s) (total_rec_rate s)
    (total_rate s) (next_time s) (rand s).
Definition set_total_trans_rate x s :=
  mkState (times s) (S_ s) (I_ s) (R_ s) (status s) (infected s)
    (infected_neighbor_count s) (risk_group s) (infection_times s)
    (recovery_times s) x (total_rec_rate s)
    (total_rate s) (next_time s) (rand s).
Definition set_total_rec_rate x s :=
  mkState (times s) (S_ s) (I_ s) (R_ s) (status s) (infected s)
    (infected_neighbor_count s) (risk_group s) (infection_times s)
    (recovery_times s) (total_trans_rate s) x
    (total_rate s) (next_time s) (rand s).
Definition set_total_rate x s :=
  mkState (times s) (S_ s) (I_ s) (R_ s) (status s) (infected s)
    (infected_neighbor_count s) (risk_group s) (infection_times s)
    (recovery_times s) (total_trans_rate s) (total_rec_rate s)
    x (next_time s) (rand s).
Definition set_next_time x s :=
  mkState (times s) (S_ s) (I_ s) (R_ s) (status s) (infected s)
    (infected_neighbor_count s) (risk_group s) (infection_times s)
    (recovery_times s) (total_trans_rate s) (total_rec_rate s)
    (total_rate s) x (rand s).
Definition set_rand r s :=
  mkState (times s) (S_ s) (I_ s) (R_ s) (status s) (infected s)
    (infected_neighbor_count s) (risk_group s) (infection_times s)
    (recovery_times s) (total_trans_rate s) (total_rec_rate s)
    (total_rate s) (next_time s) r.

#[global] Instance state_HasRandom : HasRandom state :=
  {| get_random := rand; set_random := set_rand |}.

Definition status_read := dd_read status set_status sS.
Definition count_read :=
  dd_read infected_neighbor_count set_infected_neighbor_count 0%Z.
Definition count_write :=
  dd_write infected_neighbor_count set_infected_neighbor_count.

(** [risk_group[k].remove(item)]: the container stored under [k] is
    mutated in place, also when the call raises. *)
Definition risk_group_remove (k : Z) (item : node) : M state unit :=
  let! ld := dd_read risk_group set_risk_group ListDict.init k in
  let '(res, ld') := ListDict.remove ld item in
  dd_write risk_group set_risk_group k ld' ;;
  lift res.

(** [risk_group[k].add(item)] *)
Definition risk_group_add (k : Z) (item : node) : M state unit :=
  let! ld := dd_read risk_group set_risk_group ListDict.init k in
  dd_write risk_group set_risk_group k (ListDict.add ld item).

(** [risk_group.keys()] *)
Definition keys (rg : gmap Z _ListDict_) : list Z := (map_to_list rg).*1.

(** [sum(n*len(risk_group[n]) for n in risk_group.keys())] *)
Definition risk_sum (rg : gmap Z _ListDict_) : Z :=
  foldr Z.add 0%Z
    ((fun '(n, ld) => (n * Z.of_nat (ListDict.len ld))%Z) <$> map_to_list rg).

(** [d[node].append(x)] on a [defaultdict] of lists *)
Definition append_to (get : state -> gmap node (list num))
    (set : gmap node (list num) -> state -> state) (node : node) (x : num)
    : M state unit :=
  let! l := dd_read get set [] node in
  dd_write get set node (l ++ [x]).

(** The body of the loop [for neighbor in G.neighbors(node)] of
    [_Gillespie_Initialize_]. *)
Definition Initialize_neighbor (neighbor : node) : M state unit :=
  let! s := status_read neighbor in
  if decide (s = sS) then
    (let! c := count_read neighbor in
     count_write neighbor (c + 1)%Z) ;;
    (let! c := count_read neighbor in
     if (1 <? c)%Z then
       let! c := count_read neighbor in
       risk_group_remove (c - 1) neighbor
     else ret tt) ;;
    let! c := count_read neighbor in
    risk_group_add c neighbor
  else ret tt.

(** [_Gillespie_Initialize_(G, initial_infecteds, infection_times,
    return_full_data, SIR)]: fills the objects of the run. *)
Definition _Gillespie_Initialize_ (G : Graph) (initial_infecteds : list node)
    (return_full_data : bool) : M state unit :=
  modify (set_times (fun _ => [Fin 0])) ;;
  modify (set_S (fun _ =>
    [(Z.of_nat (nx.order G) - Z.of_nat (length initial_infecteds))%Z])) ;;
  modify (set_I (fun _ => [Z.of_nat (length initial_infecteds)])) ;;
  modify (set_R (fun _ => [0%Z])) ;;
  modify (set_status ∅) ;;
  modify (set_infected initial_infecteds) ;;
  modify (set_infected_neighbor_count ∅) ;;
  modify (set_risk_group ∅) ;;
  for_ initial_infecteds (fun node =>
    dd_write status set_status node sI) ;;
  for_ initial_infecteds (fun node =>
    let! vs := lift (nx.neighbors G node) in
    for_ vs Initialize_neighbor) ;;
  if return_full_data then
    for_ initial_infecteds (fun node =>
      append_to infection_times set_infection_times node (Fin 0))
  else ret tt.

(** The scan [for n in risk_group.keys(): r -= n*len(risk_group[n]); if
    r<0: break]; [n] is the value of the loop variable so far. *)
Fixpoint scan (rg : gmap Z _ListDict_) (ks : list Z) (r : Q) (n : option Z)
    : option Z :=
  match ks with
  | [] => n
  | k :: ks' =>
      let len := match rg !! k with
                 | Some ld => ListDict.len ld
                 | None => 0%nat
                 end in
      let r := (r - inject_Z (k * Z.of_nat len))%Q in
      if Qltb r 0 then Some k else scan rg ks' r (Some k)
  end.

(** The body of the loop [for neighbor in G.neighbors(recipient)] of
    [_Gillespie_Infect_]. *)
Definition Infect_neighbor (neighbor : node) : M state unit :=
  let! s := status_read neighbor in
  if decide (s = sS) then
    (let! c := count_read neighbor in
     if (0 <? c)%Z then
       let! c := count_read neighbor in
       risk_group_remove c neighbor
     else ret tt) ;;
    (let! c := count_read neighbor in
     count_write neighbor (c + 1)%Z) ;;
    let! c := count_read neighbor in
    risk_group_add c neighbor
  else ret tt.

(** [_Gillespie_Infect_(G, S, I, R, times, infected, current_time,
    infected_neighbor_count, risk_group, status, infection_times,
    return_full_data, SIR)] *)
Definition _Gillespie_Infect_ (G : Graph) (current_time : num) (SIR : bool)
    : M state unit :=
  let! u := random.random in
  let! rg := gets risk_group in
  let r := (u * inject_Z (risk_sum rg))%Q in
  match scan rg (keys rg) r None with
  | None => raise UnboundLocalError
  | Some n =>
      let! ld := dd_read risk_group set_risk_group ListDict.init n in
      let! recipient := ListDict.choose_random ld in
      (let! s := status_read recipient in
       assert (bool_decide (s = sS))) ;;
      risk_group_remove n recipient ;;
      modify (fun s => set_infected (infected s ++ [recipient]) s) ;;
      append_to infection_times set_infection_times recipient
                current_time ;;
      dd_write status set_status recipient sI ;;
      (let! s := last_of S_ in modify (set_S (fun l => l ++ [s - 1]%Z))) ;;
      (let! i := last_of I_ in modify (set_I (fun l => l ++ [i + 1]%Z))) ;;
      modify (set_times (fun l => l ++ [current_time])) ;;
      (if SIR
       then let! r := last_of R_ in modify (set_R (fun l => l ++ [r]))
       else ret tt) ;;
      let! vs := lift (nx.neighbors G recipient) in
      for_ vs Infect_neighbor
  end.

(** The opening of both recovery functions:
[[
    assert(I[-1]==len(infected))
    index = random.randint(0,I[-1]-1)
    infected[index], infected[-1] = infected[-1], infected[index]
    recovering_node = infected.pop()
]] *)
Definition pop_random_infected : M state node :=
  (let! i := last_of I_ in
   let! l := gets infected in
   assert (bool_decide (i = Z.of_nat (length l)))) ;;
  let! i := last_of I_ in
  let! index := random.randint0 i in
  let! l := gets infected in
  let! a := lift (random.index l (-1)) in
  let! b := lift (random.index l index) in
  let! l := lift (random.set_index l index a) in
  let! l := lift (random.set_index l (-1) b) in
  modify (set_infected l) ;;
  let! recovering_node := last_of infected in
  modify (fun s => set_infected (removelast (infected s)) s) ;;
  ret recovering_node.

(** The statements that lower the risk of a susceptible [neighbor] in both
    recovery functions. *)
Definition lower_risk (neighbor : node) : M state unit :=
  (let! c := count_read neighbor in
   risk_group_remove c neighbor) ;;
  (let! c := count_read neighbor in
   count_write neighbor (c - 1)%Z) ;;
  let! c := count_read neighbor in
  if (0 <? c)%Z then
    let! c := count_read neighbor in
    risk_group_add c neighbor
  else ret tt.

(** The body of the loop [for neighbor in G.neighbors(recovering_node)] of
    [_Gillespie_Recover_SIR_]. *)
Definition Recover_SIR_neighbor (neighbor : node) : M state unit :=
  let! s := status_read neighbor in
  if decide (s = sS) then lower_risk neighbor else ret tt.

(** [_Gillespie_Recover_SIR_(G, S, I, R, times, infected, current_time,
    status, infected_neighbor_count, risk_group, recovery_times,
    return_full_data)] *)
Definition _Gillespie_Recover_SIR_ (G : Graph) (current_time : num)
    (return_full_data : bool) : M state unit :=
  let! recovering_node := pop_random_infected in
  (let! i := last_of I_ in modify (set_I (fun l => l ++ [i - 1]%Z))) ;;
  dd_write status set_status recovering_node sR ;;
  (let! s := last_of S_ in modify (set_S (fun l => l ++ [s]))) ;;
  (let! r := last_of R_ in modify (set_R (fun l => l ++ [r + 1]%Z))) ;;
  modify (set_times (fun l => l ++ [current_time])) ;;
  let! vs := lift (nx.neighbors G recovering_node) in
  for_ vs Recover_SIR_neighbor ;;
  if return_full_data then
    append_to recovery_times set_recovery_times recovering_node current_time
  else ret tt.

(** The body of the loop [for neighbor in G.neighbors(recovering_node)] of
    [_Gillespie_Recover_SIS_]. *)
Definition Recover_SIS_neighbor (recovering_node neighbor : node)
    : M state unit :=
  if decide (neighbor = recovering_node) then ret tt
  else
    let! s := status_read neighbor in
    if decide (s = sI) then
      let! c := count_read recovering_node in
      count_write recovering_node (c + 1)%Z
    else lower_risk neighbor.

(** [_Gillespie_Recover_SIS_(G, S, I, times, infected, current_time, status,
    infected_neighbor_count, risk_group, recovery_times,
    return_full_data)] *)
Definition _Gillespie_Recover_SIS_ (G : Graph) (current_time : num)
    (return_full_data : bool) : M state unit :=
  let! recovering_node := pop_random_infected in
  (let! i := last_of I_ in modify (set_I (fun l => l ++ [i - 1]%Z))) ;;
  dd_write status set_status recovering_node sS ;;
  (let! s := last_of S_ in modify (set_S (fun l => l ++ [s + 1]%Z))) ;;
  modify (set_times (fun l => l ++ [current_time])) ;;
  count_write recovering_node 0%Z ;;
  let! vs := lift (nx.neighbors G recovering_node) in
  for_ vs (Recover_SIS_neighbor recovering_node) ;;
  (let! c := count_read recovering_node in
   if (0 <? c)%Z then
     let! c := count_read recovering_node in
     risk_group_add c recovering_node
   else ret tt) ;;
  if return_full_data then
    append_to recovery_times set_recovery_times recovering_node current_time
  else ret tt.

(** [total_trans_rate = tau*sum(...)], [total_rate = total_rec_rate +
    total_trans_rate] *)
Definition update_rates (tau : Q) : M state unit :=
  modify (fun s =>
    set_total_trans_rate (tau * inject_Z (risk_sum (risk_group s)))%Q s) ;;
  modify (fun s =>
    set_total_rate (total_rec_rate s + total_trans_rate s)%Q s).

(** The statements of [Gillespie_SIR] and [Gillespie_SIS] between the choice
    of the initial infecteds and the [while] loop. *)
Definition prepare (G : Graph) (tau gamma : Q) (initial_infecteds : list node)
    (return_full_data : bool) : M state unit :=
  _Gillespie_Initialize_ G initial_infecteds return_full_data ;;
  modify (fun s =>
    set_total_trans_rate (tau * inject_Z (risk_sum (risk_group s)))%Q s) ;;
  modify (fun s =>
    set_total_rec_rate
      (gamma * inject_Z (Z.of_nat (length (infected s))))%Q s) ;;
  modify (fun s =>
    set_total_rate (total_rec_rate s + total_trans_rate s)%Q s) ;;
  let! t := last_of times in
  let! rate := gets total_rate in
  let! d := random.expovariate rate in
  modify (set_next_time (num_add t (Fin d))).

(** One iteration of the [while] loop of [Gillespie_SIR]. *)
Definition SIR_iteration (G : Graph) (tau gamma : Q)
    (return_full_data : bool) : M state unit :=
  let! u := random.random in
  let! total := gets total_rate in
  let r := (u * total)%Q in
  let! rec_rate := gets total_rec_rate in
  let! next := gets next_time in
  (if Qltb r rec_rate then
     _Gillespie_Recover_SIR_ G next return_full_data ;;
     let! i := last_of I_ in
     modify (set_total_rec_rate (gamma * inject_Z i)%Q)
   else _Gillespie_Infect_ G next true) ;;
  update_rates tau ;;
  let! total := gets total_rate in
  if Qltb 0 total then
    let! d := random.expovariate total in
    modify (fun s => set_next_time (num_add (next_time s) (Fin d)) s)
  else ret tt.

(** One iteration of the [while] loop of [Gillespie_SIS]. *)
Definition SIS_iteration (G : Graph) (tau gamma : Q)
    (return_full_data : bool) : M state unit :=
  let! u := random.random in
  let! total := gets total_rate in
  let r := (u * total)%Q in
  let! rec_rate := gets total_rec_rate in
  let! next := gets next_time in
  (if Qltb r rec_rate then
     _Gillespie_Recover_SIS_ G next return_full_data ;;
     let! i := last_of I_ in
     modify (set_total_rec_rate (gamma * inject_Z i)%Q)
   else _Gillespie_Infect_ G next false) ;;
  update_rates tau ;;
  let! total := gets total_rate in
  if Qltb 0 total then
    let! d := random.expovariate total in
    modify (fun s => set_next_time (num_add (next_time s) (Fin d)) s)
  else modify (set_next_time Inf).

(** [next_time<tmax and infected] *)
Definition continue (tmax : num) (s : state) : bool :=
  num_lt (next_time s) tmax && negb (bool_decide (infected s = [])).

(** [while next_time<tmax and infected: ...] *)
Fixpoint while (fuel : nat) (tmax : num) (iteration : M state unit)
    : M state unit :=
  let! go := gets (continue tmax) in
  if go then
    match fuel with
    | O => raise OutOfFuel
    | S fuel' => iteration ;; while fuel' tmax iteration
    end
  else ret tt.

Record SIR_output := mkSIR {
  out_times : list num;
  out_S : list Z;
  out_I : list Z;
  out_R : list Z;
  out_infection_time : option (gmap node num);
  out_recovery_time : option (gmap node num)
}.

Record SIS_output := mkSIS {
  sis_times : list num;
  sis_S : list Z;
  sis_I : list Z;
  sis_infection_times : option (gmap node (list num));
  sis_recovery_times : option (gmap node (list num))
}.

(** The objects of a run before [_Gillespie_Initialize_] fills them. *)
Definition new (r : RandomState) : state :=
  mkState [] [] [] [] ∅ [] ∅ ∅ ∅ ∅ 0 0 0 (Fin 0) r.

(** [{node: L[0] for node, L in d.items()}] *)
Definition firsts (d : gmap node (list num)) : result (gmap node num) :=
  if bool_decide (map_Forall (fun _ l => l ≠ []) d)
  then Ok (omap head d)
  else Raise IndexError.

Definition Gillespie_SIR_body (fuel : nat) (G : Graph) (tau gamma : Q)
    (initial_infecteds : option node_or_nodes) (rho : option Q)
    (tmax : num) (return_full_data : bool) : M state SIR_output :=
  let! initial_infecteds := choose_initial_infecteds G initial_infecteds rho in
  let! us := lift (iterate initial_infecteds) in
  prepare G tau gamma us return_full_data ;;
  while fuel tmax (SIR_iteration G tau gamma return_full_data) ;;
  let! s := gets (fun s => s) in
  if return_full_data then
    let! infection_time := lift (firsts (infection_times s)) in
    let! recovery_time := lift (firsts (recovery_times s)) in
    ret (mkSIR (times s) (S_ s) (I_ s) (R_ s) (Some infection_time)
               (Some recovery_time))
  else ret (mkSIR (times s) (S_ s) (I_ s) (R_ s) None None).

(** [Gillespie_SIR(G, tau, gamma, initial_infecteds, rho, tmax,
    return_full_data)] *)
Definition Gillespie_SIR (fuel : nat) (G : Graph) (tau gamma : Q)
    (initial_infecteds : option node_or_nodes) (rho : option Q)
    (tmax : num) (return_full_data : bool)
    : M RandomState (SIR_output * state) :=
  if bool_decide (rho ≠ None /\ initial_infecteds ≠ None) then
    raise (NameError "EoNError")
  else
    with_locals new
      (Gillespie_SIR_body fuel G tau gamma initial_infecteds rho tmax
         return_full_data).

Definition Gillespie_SIS_body (fuel : nat) (G : Graph) (tau gamma : Q)
    (initial_infecteds : option node_or_nodes) (rho : option Q)
    (tmax : num) (return_full_data : bool) : M state SIS_output :=
  let! initial_infecteds := choose_initial_infecteds G initial_infecteds rho in
  let! us := lift (iterate initial_infecteds) in
  prepare G tau gamma us return_full_data ;;
  while fuel tmax (SIS_iteration G tau gamma return_full_data) ;;
  let! s := gets (fun s => s) in
  ret (mkSIS (times s) (S_ s) (I_ s)
         (if return_full_data then Some (infection_times s) else None)
         (if return_full_data then Some (recovery_times s) else None)).

(** [Gillespie_SIS(G, tau, gamma, initial_infecteds, rho, tmax,
    return_full_data)] *)
Definition Gillespie_SIS (fuel : nat) (G : Graph) (tau gamma : Q)
    (initial_infecteds : option node_or_nodes) (rho : option Q)
    (tmax : num) (return_full_data : bool)
    : M RandomState (SIS_output * state) :=
  if bool_decide (rho ≠ None /\ initial_infecteds ≠ None) then
    raise (NameError "EoNError")
  else
    with_locals new
      (Gillespie_SIS_body fuel G tau gamma initial_infecteds rho tmax
         return_full_data).

End Gillespie.

(** ** Discrete-time SIR: [discrete_SIR_epidemic] and its callers *)

(** A call, from code whose state is [St], of a function that may use the
    generator and nothing else of the state. *)
Definition using_generator {St A} `{HasRandom St} (m : M RandomState A)
    : M St A :=
  fun s => let '(a, r) := m (get_random s) in (a, set_random r s).

(** [_simple_test_transmission_(u, v, p)] *)
Definition _simple_test_transmission_ (u v : node) (p : Q)
    : M RandomState bool :=
  let! x := random.random in
  ret (Qltb x p).

Module Discrete.

(** The lists and dictionaries of one run; [new_infecteds] is the list
    that each round of the loop builds. *)
Record state := mkState {
  t_ : list Z;
  S_ : list Z;
  I_ : list Z;
  R_ : list Z;
  susceptible : gmap node bool;
  new_infecteds : list node;
  infection_time : gmap node Z;
  recovery_time : gmap node Z;
  rand : RandomState
}.

Definition set_t f s :=
  mkState (f (t_ s)) (S_ s) (I_ s) (R_ s) (susceptible s) (new_infecteds s)
          (infection_time s) (recovery_time s) (rand s).
Definition set_S f s :=
  mkState (t_ s) (f (S_ s)) (I_ s) (R_ s) (susceptible s) (new_infecteds s)
          (infection_time s) (recovery_time s) (rand s).
Definition set_I f s :=
  mkState (t_ s) (S_ s) (f (I_ s)) (R_ s) (susceptible s) (new_infecteds s)
          (infection_time s) (recovery_time s) (rand s).
Definition set_R f s :=
  mkState (t_ s) (S_ s) (I_ s) (f (R_ s)) (susceptible s) (new_infecteds s)
          (infection_time s) (recovery_time s) (rand s).
Definition set_susceptible m s :=
  mkState (t_ s) (S_ s) (I_ s) (R_ s) m (new_infecteds s)
          (infection_time s) (recovery_time s) (rand s).
Definition set_new_infecteds f s :=
  mkState (t_ s) (S_ s) (I_ s) (R_ s) (susceptible s) (f (new_infecteds s))
          (infection_time s) (recovery_time s) (rand s).
Definition set_infection_time m s :=
  mkState (t_ s) (S_ s) (I_ s) (R_ s) (susceptible s) (new_infecteds s)
          m (recovery_time s) (rand s).
Definition set_recovery_time m s :=
  mkState (t_ s) (S_ s) (I_ s) (R_ s) (susceptible s) (new_infecteds s)
          (infection_time s) m (rand s).
Definition set_rand r s :=
  mkState (t_ s) (S_ s) (I_ s) (R_ s) (susceptible s) (new_infecteds s)
          (infection_time s) (recovery_time s) r.

#[global] Instance state_HasRandom : HasRandom state :=
  {| get_random := rand; set_random := set_rand |}.

(** [susceptible[v]], [True] by default *)
Definition susceptible_read := dd_read susceptible set_susceptible true.

(** The body of [for v in G.neighbors(u)]:
[[
    if susceptible[v] and test_transmission(u, v, *args):
        new_infecteds.append(v)
        susceptible[v] = False
]] *)
Definition try_transmission
    (test_transmission : node -> node -> M RandomState bool) (u v : node)
    : M state unit :=
  let! sus := susceptible_read v in
  let! transmits :=
    if sus then using_generator (test_transmission u v) else ret false in
  if transmits then
    modify (set_new_infecteds (fun l => l ++ [v])) ;;
    dd_write susceptible set_susceptible v false
  else ret tt.

(** The body of [for u in infecteds] *)
Definition infect_from (G : Graph)
    (test_transmission : node -> node -> M RandomState bool)
    (return_full_data : bool) (u : node) : M state unit :=
  let! vs := lift (nx.neighbors G u) in
  for_ vs (try_transmission test_transmission u) ;;
  if return_full_data then
    (let! now := last_of t_ in
     dd_write infection_time set_infection_time u now) ;;
    (let! now := last_of t_ in
     dd_write recovery_time set_recovery_time u (now + 1)%Z)
  else ret tt.

(** [while infecteds: ...] *)
Fixpoint while_infecteds (fuel : nat) (G : Graph)
    (test_transmission : node -> node -> M RandomState bool)
    (return_full_data : bool) (infecteds : list node) : M state unit :=
  match infecteds with
  | [] => ret tt
  | _ :: _ =>
      match fuel with
      | O => raise OutOfFuel
      | S fuel' =>
          modify (set_new_infecteds (fun _ => [])) ;;
          for_ infecteds (infect_from G test_transmission return_full_data) ;;
          let! infecteds := gets new_infecteds in
          (let! r := last_of R_ in
           let! i := last_of I_ in
           modify (set_R (fun l => l ++ [r + i]%Z))) ;;
          modify (set_I (fun l => l ++ [Z.of_nat (length infecteds)])) ;;
          (let! s := last_of S_ in
           let! i := last_of I_ in
           modify (set_S (fun l => l ++ [s - i]%Z))) ;;
          (let! now := last_of t_ in
           modify (set_t (fun l => l ++ [now + 1]%Z))) ;;
          while_infecteds fuel' G test_transmission return_full_data
            infecteds
      end
  end.

(** What the function returns: the four arrays and, when
    [return_full_data] is set, the two dictionaries. *)
Record output := mkOutput {
  out_t : list Z;
  out_S : list Z;
  out_I : list Z;
  out_R : list Z;
  out_infection_time : option (gmap node Z);
  out_recovery_time : option (gmap node Z)
}.

(** The objects that the function creates before its loops. *)
Definition new (G : Graph) (infecteds : list node) (r : RandomState)
    : state :=
  let N := Z.of_nat (nx.order G) in
  let n := Z.of_nat (length infecteds) in
  mkState [0%Z] [(N - n)%Z] [n] [0%Z] ∅ [] ∅ ∅ r.

Definition body (fuel : nat) (G : Graph)
    (test_transmission : node -> node -> M RandomState bool)
    (return_full_data : bool) (infecteds : list node) : M state output :=
  for_ infecteds (fun u => dd_write susceptible set_susceptible u false) ;;
  while_infecteds fuel G test_transmission return_full_data infecteds ;;
  let! s := gets (fun s => s) in
  ret (mkOutput (t_ s) (S_ s) (I_ s) (R_ s)
         (if return_full_data then Some (infection_time s) else None)
         (if return_full_data then Some (recovery_time s) else None)).

(** The first lines of [discrete_SIR_epidemic], of
    [percolation_based_discrete_SIR_epidemic] and of [get_infected_nodes]:
[[
    if initial_infecteds is None:
        initial_infecteds=[random.choice(G.nodes())]
    elif G.has_node(initial_infecteds):
        initial_infecteds=[initial_infecteds]
]] *)
Definition choose_initial (G : Graph)
    (initial_infecteds : option node_or_nodes) : M RandomState node_or_nodes :=
  match initial_infecteds with
  | None =>
      let! u := random.choice (G_nodes G) in
      ret (an_iterable [u])
  | Some x =>
      if has_node_arg G x
      then match x with
           | a_node u => ret (an_iterable [u])
           | an_iterable _ => ret x
           end
      else ret x
  end.

(** [discrete_SIR_epidemic(G, test_transmission, args, initial_infecteds,
    return_full_data)]; [args] is what [test_transmission] is closed
    over. *)
Definition discrete_SIR_epidemic (fuel : nat) (G : Graph)
    (test_transmission : node -> node -> M RandomState bool)
    (initial_infecteds : option node_or_nodes) (return_full_data : bool)
    : M RandomState (output * state) :=
  let! initial_infecteds := choose_initial G initial_infecteds in
  let! infecteds := lift (iterate initial_infecteds) in
  with_locals (new G infecteds)
    (body fuel G test_transmission return_full_data infecteds).

(** [basic_discrete_SIR_epidemic(G, p, initial_infecteds,
    return_full_data)] *)
Definition basic_discrete_SIR_epidemic (fuel : nat) (G : Graph) (p : Q)
    (initial_infecteds : option node_or_nodes) (return_full_data : bool)
    : M RandomState (output * state) :=
  discrete_SIR_epidemic fuel G
    (fun u v => _simple_test_transmission_ u v p)
    initial_infecteds return_full_data.

End Discrete.

(** ** [nonMarkov_directed_percolate_network]

    [xi] and [zeta] are dictionaries, [transmission] a function of their
    values that may use the generator. *)

Module DiGraph0.

(** [H.add_node(u)] *)
Definition add_node (H : Graph) (u : node) : Graph :=
  mkGraph (DiGraph.with_node H u) (G_adj H) (G_edge H) (G_node H).

(** [H.add_edge(u, v)] *)
Definition add_edge (H : Graph) (u v : node) : Graph :=
  let H' := mkGraph (DiGraph.with_node H u) (G_adj H) (G_edge H) (G_node H) in
  mkGraph (DiGraph.with_node H' v)
    (fun n => if bool_decide (n = u /\ v ∉ G_adj H u) then G_adj H u ++ [v]
              else G_adj H n)
    (G_edge H) (G_node H).

End DiGraph0.

(** [d[k]] on a dictionary *)
Definition dict_get {K V} `{Countable K} (d : gmap K V) (k : K) : result V :=
  match d !! k with
  | Some v => Ok v
  | None => Raise KeyError
  end.

Section NonMarkov.
Context {X Y : Type}.

(** The loop [for v in G.neighbors(u)] *)
Definition nonMarkov_neighbors (xi : gmap node X) (zeta : gmap node Y)
    (transmission : X -> Y -> M RandomState bool) :=
  fix over_neighbors (u : node) (vs : list node) (H : Graph)
      : M RandomState Graph :=
    match vs with
    | [] => ret H
    | v :: vs' =>
        let! a := lift (dict_get xi u) in
        let! b := lift (dict_get zeta v) in
        let! transmits := transmission a b in
        let H := if transmits then DiGraph0.add_edge H u v else H in
        over_neighbors u vs' H
    end.

(** The loop [for u in G.nodes()] *)
Definition nonMarkov_nodes (G : Graph) (xi : gmap node X)
    (zeta : gmap node Y) (transmission : X -> Y -> M RandomState bool) :=
  fix over_nodes (us : list node) (H : Graph) : M RandomState Graph :=
    match us with
    | [] => ret H
    | u :: us' =>
        let H := DiGraph0.add_node H u in
        let! vs := lift (nx.neighbors G u) in
        let! H := nonMarkov_neighbors xi zeta transmission u vs H in
        over_nodes us' H
    end.

(** [nonMarkov_directed_percolate_network(G, xi, zeta, transmission)] *)
Definition nonMarkov_directed_percolate_network (G : Graph)
    (xi : gmap node X) (zeta : gmap node Y)
    (transmission : X -> Y -> M RandomState bool) : M RandomState Graph :=
  nonMarkov_nodes G xi zeta transmission (G_nodes G) DiGraph.empty.

End NonMarkov.

(** ** Bond percolation: [percolate_network] and the epidemic on its result

    An undirected [nx.Graph] keeps each edge in the neighbour lists of both
    ends. *)

Module UGraph.

(** [H.add_nodes_from(nodes)] *)
Definition add_nodes_from (H : Graph) (nodes : list node) : Graph :=
  mkGraph
    (foldl (fun l u => if bool_decide (u ∈ l) then l else l ++ [u])
           (G_nodes H) nodes)
    (G_adj H) (G_edge H) (G_node H).

Definition with_neighbor (l : list node) (v : node) : list node :=
  if bool_decide (v ∈ l) then l else l ++ [v].

(** [H.add_edge(u, v)] *)
Definition add_edge (H : Graph) (u v : node) : Graph :=
  let H' := mkGraph (DiGraph.with_node H u) (G_adj H) (G_edge H) (G_node H) in
  mkGraph (DiGraph.with_node H' v)
    (fun n =>
       let l := G_adj H n in
       let l := if bool_decide (n = u) then with_neighbor l v else l in
       if bool_decide (n = v) then with_neighbor l u else l)
    (G_edge H) (G_node H).

(** [H.has_edge(u, v)] *)
Definition has_edge (H : Graph) (u v : node) : bool :=
  bool_decide (v ∈ G_adj H u).

(** [G.edges_iter()]: every edge once, from the end that comes first in
    [G.nodes()]. *)
Fixpoint edges_from (G : Graph) (seen : list node) (nodes : list node)
    : list (node * node) :=
  match nodes with
  | [] => []
  | n :: nodes' =>
      ((fun nbr => (n, nbr)) <$> filter (fun nbr => nbr ∉ seen) (G_adj G n))
      ++ edges_from G (seen ++ [n]) nodes'
  end.

Definition edges_iter (G : Graph) : list (node * node) :=
  edges_from G [] (G_nodes G).

End UGraph.

(** The loop [for edge in G.edges_iter()] of [percolate_network] *)
Definition percolate_edges (p : Q) :=
  fix over_edges (edges : list (node * node)) (H : Graph)
      : M RandomState Graph :=
    match edges with
    | [] => ret H
    | (u, v) :: edges' =>
        let! x := random.random in
        let H := if Qltb x p then UGraph.add_edge H u v else H in
        over_edges edges' H
    end.

(** [percolate_network(G, p)] *)
Definition percolate_network (G : Graph) (p : Q) : M RandomState Graph :=
  let H := DiGraph.empty in
  let H := UGraph.add_nodes_from H (G_nodes G) in
  percolate_edges p (UGraph.edges_iter G) H.

(** [_edge_exists_(u, v, H)] *)
Definition _edge_exists_ (u v : node) (H : Graph) : M RandomState bool :=
  ret (UGraph.has_edge H u v).

(** [percolation_based_discrete_SIR_epidemic(G, p, initial_infecteds,
    return_full_data)] *)
Definition percolation_based_discrete_SIR_epidemic (fuel : nat) (G : Graph)
    (p : Q) (initial_infecteds : option node_or_nodes)
    (return_full_data : bool)
    : M RandomState (Discrete.output * Discrete.state) :=
  let! initial_infecteds := Discrete.choose_initial G initial_infecteds in
  let! H := percolate_network G p in
  Discrete.discrete_SIR_epidemic fuel H (fun u v => _edge_exists_ u v H)
    (Some initial_infecteds) return_full_data.

(** * Specification vocabulary *)

(** ** Event queue *)

(** What a client can do to a queue: [add] an event, or pop one (the event
    popped is run by the caller; what it adds shows up as further [add]s). *)
Inductive queue_op (H : Type) :=
| q_add (event : Event H)
| q_pop.
Arguments q_add {H} event.
Arguments q_pop {H}.

Fixpoint queue_run {H} (self : myQueue H) (ops : list (queue_op H))
    : myQueue H :=
  match ops with
  | [] => self
  | q_add event :: ops' => queue_run (Queue.add self event) ops'
  | q_pop :: ops' =>
      match heapq.heappop Event_lt (_Q_ self) with
      | Some (_, heap) => queue_run (mk_myQueue heap (tmax self)) ops'
      | None => queue_run self ops'
      end
  end.

(** ** Indexed set *)

(** The two halves of a [_ListDict_] describe each other. *)
Definition ListDict_wf (self : _ListDict_) : Prop :=
  forall x i, item_to_position self !! x = Some i <-> items self !! i = Some x.

(** Every stored event lies before the horizon. *)
Definition queue_below {H} (self : myQueue H) : Prop :=
  forall x, x ∈ _Q_ self -> ~ num_le (tmax self) (time x).

(** ** Percolation *)

(** [v] can be reached from one of [sources] along the out-edges of [H];
    every source reaches itself. *)
Definition reachable_in (H : Graph) (sources : list node) (v : node) : Prop :=
  exists u, u ∈ sources /\ rtc (fun a b => b ∈ G_adj H a) u v.

(** Sample inputs. *)
Definition no_attrs2 : node -> node -> string -> option Q := fun _ _ _ => None.
Definition no_attrs1 : node -> string -> option Q := fun _ _ => None.

(** The path graph on the nodes 0 and 1. *)
Definition path2 : Graph :=
  mkGraph [0; 1]%nat
    (fun u => if decide (u = 0%nat) then [1%nat]
              else if decide (u = 1%nat) then [0%nat] else [])
    no_attrs2 no_attrs1.

(** The graph with the single node 0 and no edge. *)
Definition single : Graph :=
  mkGraph [0%nat] (fun _ => []) no_attrs2 no_attrs1.

(** A generator whose uniform draws are all [u] and whose exponential
    numerators are 1, 2, 3, ... *)
Definition steady (u : Q) : RandomState :=
  mkRandom {| uniform := fun _ => u;
              unit_exp := fun i => inject_Z (Z.of_nat (S i)) |} 0.

(** A generator all of whose draws are constant. *)
Definition constant (u e : Q) : RandomState :=
  mkRandom {| uniform := fun _ => u; unit_exp := fun _ => e |} 0.

(** ** Reasoning about computations *)

(** [m] leaves the view [f] of the state alone, whatever its outcome. *)
Definition frame {St A B} (f : St -> B) (m : M St A) : Prop :=
  forall s, f (m s).2 = f s.

(** [m] keeps [Inv], whatever its outcome. *)
Definition keeps {St A} (Inv : St -> Prop) (m : M St A) : Prop :=
  forall s, Inv s -> Inv (m s).2.

(** When [m] returns from [s], [post] holds of its value and final state. *)
Definition returns {St A} (m : M St A) (post : A -> St -> Prop) (s : St)
    : Prop :=
  match m s with
  | (Ok a, s') => post a s'
  | (Raise _, _) => True
  end.

(** When [m] is run from [s] it returns, and [post] holds of its value and
    final state. *)
Definition succeeds {St A} (m : M St A) (post : A -> St -> Prop) (s : St)
    : Prop :=
  exists a s', m s = (Ok a, s') /\ post a s'.

(** [m], run from [s], either returns with [post] or raises an exception
    among [exc]. *)
Definition outcome {St A} (m : M St A) (post : A -> St -> Prop)
    (exc : exn -> Prop) (s : St) : Prop :=
  match m s with
  | (Ok a, s') => post a s'
  | (Raise e, _) => exc e
  end.

(** ** Event-driven SIR *)

(** The node that a transmission event of the queue is aimed at. *)
Definition FastSIR_target (h : FastSIR.handler) : option node :=
  match h with
  | FastSIR.initial_trans u => Some u
  | FastSIR.trans v => Some v
  | FastSIR.rec _ => None
  end.

(** [pred_inf_time[v]] and [status[v]], with their defaults. *)
Definition FastSIR_pred (s : FastSIR.state) (v : node) : num :=
  default Inf (FastSIR.pred_inf_time s !! v).
Definition FastSIR_status (s : FastSIR.state) (v : node) : status_t :=
  default sS (FastSIR.status s !! v).

(** [pred_inf_time[v]] is at most the time of every transmission event of
    the queue that is aimed at [v]. *)
Definition pred_inf_time_bounds_queue (s : FastSIR.state) : Prop :=
  forall (e : Event FastSIR.handler) (v : node),
    e ∈ _Q_ (FastSIR.Q_ s) -> FastSIR_target (function e) = Some v ->
    num_le (FastSIR_pred s v) (time e).

(** What [pred_inf_time_bounds_queue] reads of the state. *)
Definition view_QP (s : FastSIR.state) :=
  (FastSIR.Q_ s, FastSIR.pred_inf_time s).

(** While the initial infections are being queued, every event of the queue
    is an initial infection at time 0 of a node predicted at time 0. *)
Definition queued_initial (s : FastSIR.state) : Prop :=
  forall e, e ∈ _Q_ (FastSIR.Q_ s) ->
    exists u, e = mkEvent (Fin 0) (FastSIR.initial_trans u) /\
              FastSIR_pred s u = Fin 0.

(** ** Trajectories *)

(** The samples of an SIR trajectory are aligned and each adds up to [N]. *)
Definition conserved3 (N : Z) (times : list num) (S I R : list Z) : Prop :=
  length times = length S /\ length S = length I /\ length I = length R /\
  forall t s i r,
    S !! t = Some s -> I !! t = Some i -> R !! t = Some r ->
    (s + i + r = N)%Z.

(** The samples of an SIS trajectory are aligned and each adds up to [N]. *)
Definition conserved2 (N : Z) (times : list num) (S I : list Z) : Prop :=
  length times = length S /\ length S = length I /\
  forall t s i, S !! t = Some s -> I !! t = Some i -> (s + i = N)%Z.

(** The trajectory lists of each engine. *)
Definition FastSIR_traj (s : FastSIR.state) :=
  (FastSIR.times s, FastSIR.S_ s, FastSIR.I_ s, FastSIR.R_ s).
Definition FastSIS_traj (s : FastSIS.state) :=
  (FastSIS.times s, FastSIS.S_ s, FastSIS.I_ s).
Definition Gillespie_traj (s : Gillespie.state) :=
  (Gillespie.times s, Gillespie.S_ s, Gillespie.I_ s, Gillespie.R_ s).

Definition FastSIR_conserved (N : Z) (s : FastSIR.state) : Prop :=
  conserved3 N (FastSIR.times s) (FastSIR.S_ s) (FastSIR.I_ s)
             (FastSIR.R_ s).
Definition FastSIS_conserved (N : Z) (s : FastSIS.state) : Prop :=
  conserved2 N (FastSIS.times s) (FastSIS.S_ s) (FastSIS.I_ s).
Definition Gillespie_conserved3 (N : Z) (s : Gillespie.state) : Prop :=
  conserved3 N (Gillespie.times s) (Gillespie.S_ s) (Gillespie.I_ s)
             (Gillespie.R_ s).
Definition Gillespie_conserved2 (N : Z) (s : Gillespie.state) : Prop :=
  conserved2 N (Gillespie.times s) (Gillespie.S_ s) (Gillespie.I_ s).

(** ** Gillespie: risk strata *)

(** [status[v]] and [infected_neighbor_count[v]] with their defaults, and
    the members of [risk_group[k]]. *)
Definition status_of (m : gmap node status_t) (v : node) : status_t :=
  default sS (m !! v).
Definition count_of (m : gmap node Z) (v : node) : Z := default 0%Z (m !! v).
Definition group_of (m : gmap Z _ListDict_) (k : Z) : list node :=
  match m !! k with
  | Some ld => items ld
  | None => []
  end.
Definition G_status (s : Gillespie.state) : node -> status_t :=
  status_of (Gillespie.status s).
Definition G_count (s : Gillespie.state) : node -> Z :=
  count_of (Gillespie.infected_neighbor_count s).
Definition G_group (s : Gillespie.state) : Z -> list node :=
  group_of (Gillespie.risk_group s).

(** Every stratum is a well-formed indexed set. *)
Definition rg_wf (m : gmap Z _ListDict_) : Prop :=
  forall k ld, m !! k = Some ld -> ListDict_wf ld.

(** The number of infected neighbours of [v]. *)
Definition infected_neighbors (G : Graph) (st : node -> status_t) (v : node)
    : nat :=
  length (filter (fun u => st u = sI) (G_adj G v)).

(** The adjacent (infected, susceptible) pairs of nodes. *)
Definition IS_pairs (G : Graph) (st : node -> status_t)
    : list (node * node) :=
  flat_map
    (fun u => (fun v => (u, v)) <$> filter (fun v => st v = sS) (G_adj G u))
    (filter (fun u => st u = sI) (G_nodes G)).

(** The strata hold exactly the susceptible nodes of the graph that are
    [tracked], each in the stratum of its count, when that is positive. *)
Definition strata_ok (G : Graph) (tracked : node -> Prop)
    (s : Gillespie.state) : Prop :=
  rg_wf (Gillespie.risk_group s) /\
  forall k v,
    v ∈ G_group s k <->
    (1 <= k)%Z /\ v ∈ G_nodes G /\ G_status s v = sS /\ G_count s v = k /\
    tracked v.

(** The count of every susceptible node of the graph is [expected]. *)
Definition counts_ok (G : Graph) (expected : node -> Z)
    (s : Gillespie.state) : Prop :=
  forall v, v ∈ G_nodes G -> G_status s v = sS -> G_count s v = expected v.

(** The list [infected] holds distinct nodes of the graph, all of status
    ['I']. *)
Definition infected_ok (G : Graph) (s : Gillespie.state) : Prop :=
  NoDup (Gillespie.infected s) /\
  forall u, u ∈ Gillespie.infected s -> u ∈ G_nodes G /\ G_status s u = sI.

(** The invariant of the Gillespie loops at an iteration boundary. *)
Definition Gillespie_inv (G : Graph) (s : Gillespie.state) : Prop :=
  strata_ok G (fun _ => True) s /\
  counts_ok G (fun v => Z.of_nat (infected_neighbors G (G_status s) v)) s /\
  infected_ok G s.

(** Nobody is recovered: the statuses of an SIS run. *)
Definition no_recovered (s : Gillespie.state) : Prop :=
  forall v, G_status s v <> sR.

(** How [initial_infecteds] lists the initial nodes [us]. *)
Definition lists_initial (G : Graph) (x : node_or_nodes) (us : list node)
    : Prop :=
  match x with
  | a_node u => u ∈ G_nodes G /\ us = [u]
  | an_iterable l => us = l
  end.

(** The indicator of a decidable proposition. *)
Definition ind (P : Prop) `{Decision P} : Z := if decide P then 1%Z else 0%Z.

(** The sum of [f x] over the elements [x] of [l]. *)
Definition sumZ {A} (f : A -> Z) (l : list A) : Z :=
  foldr (fun x acc => (f x + acc)%Z) 0%Z l.

(** What the invariant of the Gillespie loops reads of the state. *)
Definition G_core (s : Gillespie.state) :=
  (Gillespie.status s, Gillespie.infected s,
   Gillespie.infected_neighbor_count s, Gillespie.risk_group s).

(** [st] with the status of [r] changed to [x]. *)
Definition with_status (st : node -> status_t) (r : node) (x : status_t)
    : node -> status_t :=
  fun w => if decide (w = r) then x else st w.

(** ** Gillespie SIS: the iteration boundaries

    The states in which the [while] loop of [Gillespie_SIS] tests its
    condition: the one that the statements before the loop leave, and the
    one that each iteration leaves. [s0] holds the objects before
    [_Gillespie_Initialize_] fills them. *)
Inductive Gillespie_SIS_boundary (G : Graph) (tau gamma : Q)
    (initial_infecteds : list node) (return_full_data : bool) (tmax : num)
    (s0 : Gillespie.state) : Gillespie.state -> Prop :=
| boundary_initial s :
    Gillespie.prepare G tau gamma initial_infecteds return_full_data s0
    = (Ok tt, s) ->
    Gillespie_SIS_boundary G tau gamma initial_infecteds return_full_data
      tmax s0 s
| boundary_next s s' :
    Gillespie_SIS_boundary G tau gamma initial_infecteds return_full_data
      tmax s0 s ->
    Gillespie.continue tmax s = true ->
    Gillespie.SIS_iteration G tau gamma return_full_data s = (Ok tt, s') ->
    Gillespie_SIS_boundary G tau gamma initial_infecteds return_full_data
      tmax s0 s'.

(** [sum(n*len(risk_group[n]) for n in risk_group.keys())] is the number of
    adjacent (infected, susceptible) pairs. *)
Definition risk_groups_count_pairs (G : Graph) (s : Gillespie.state) : Prop :=
  Gillespie.risk_sum (Gillespie.risk_group s)
  = Z.of_nat (length (IS_pairs G (G_status s))).

(** ** Runs without transmission *)

(** The uniform draws of the generator lie in [[0, 1)], as those of
    [random.random()] do. *)
Definition unit_draws (r : RandomState) : Prop :=
  forall i, (0 <= uniform (draws r) i)%Q /\ (uniform (draws r) i < 1)%Q.

(** The invariant of the loop of [Gillespie_SIR] when nothing is
    transmitted: the nodes that are or were infected are the initial ones
    [us], those that are not in [infected] any more are counted by [R[-1]],
    and the recovery rate is the total rate. *)
Definition Gillespie_quiet (G : Graph) (gamma : Q) (us : list node)
    (s : Gillespie.state) : Prop :=
  Gillespie_inv G s /\
  (exists r, last (Gillespie.R_ s) = Some r /\
     (r + Z.of_nat (length (Gillespie.infected s)) = Z.of_nat (length us))%Z) /\
  last (Gillespie.I_ s) = Some (Z.of_nat (length (Gillespie.infected s))) /\
  (exists x, last (Gillespie.S_ s) = Some x) /\
  (forall w, G_status s w
             = if decide (w ∈ us)
               then if decide (w ∈ Gillespie.infected s) then sI else sR
               else sS) /\
  (Gillespie.total_rec_rate s
   == gamma * inject_Z (Z.of_nat (length (Gillespie.infected s))))%Q /\
  (Gillespie.total_rate s == Gillespie.total_rec_rate s)%Q /\
  exists t, Gillespie.next_time s = Fin t.

(** Every list of [infection_times] and [recovery_times] has an entry, so
    that [L[0]] is defined for each. *)
Definition times_recorded (s : Gillespie.state) : Prop :=
  map_Forall (fun _ l => l ≠ []) (Gillespie.infection_times s) /\
  map_Forall (fun _ l => l ≠ []) (Gillespie.recovery_times s).

(** The exception of [random.expovariate(0)]. *)
Definition division_by_zero (e : exn) : Prop := e = ZeroDivisionError.

(** ** Vocabulary of the further properties *)

(** [initial_number]: how many initial infecteds [random.sample] is asked
    for when [initial_infecteds] is [None]. *)
Definition initial_number (G : Graph) (rho : option Q) : Z :=
  match rho with
  | None => 1%Z
  | Some rho => py_round (inject_Z (Z.of_nat (nx.order G)) * rho)
  end.

(** A state gives back the generator that was stored in it. *)
Definition stores_generator (St : Type) `{HasRandom St} : Prop :=
  forall r (s : St), get_random (set_random r s) = r.

(** The heap invariant of [heapq]: no item is less than its parent, the
    parent of position [i] being position [(i-1)>>1]. *)
Definition heap_ordered {A} (lt : A -> A -> bool) (l : list A) : Prop :=
  forall i c p,
    (0 < i)%nat -> l !! i = Some c -> l !! ((i - 1) / 2)%nat = Some p ->
    lt c p = false.

(** What the heap needs of [__lt__]: [not b < a] is a preorder that
    [a < b] implies. *)
Definition orders {A} (lt : A -> A -> bool) : Prop :=
  (forall a b, lt a b = true -> lt b a = false) /\
  (forall a b c, lt b a = false -> lt c b = false -> lt c a = false).

(** The heap invariant around a hole at [pos]: it holds of every pair that
    does not involve [pos], and the children of [pos] are not less than its
    parent. *)
Definition heap_hole {A} (lt : A -> A -> bool) (l : list A) (pos : nat)
    : Prop :=
  (forall i c p,
     (0 < i)%nat -> i ≠ pos -> ((i - 1) / 2)%nat ≠ pos ->
     l !! i = Some c -> l !! ((i - 1) / 2)%nat = Some p -> lt c p = false) /\
  (forall i c p,
     ((i - 1) / 2)%nat = pos -> (0 < i)%nat -> (0 < pos)%nat ->
     l !! i = Some c -> l !! ((pos - 1) / 2)%nat = Some p -> lt c p = false).

(** The exponential draws of the generator are not negative, as
    [-log(1 - u)] is for [u] in [[0, 1)]. *)
Definition exp_draws (r : RandomState) : Prop :=
  forall i, (0 <= unit_exp (draws r) i)%Q.

Definition nondecreasing (l : list num) : Prop :=
  forall i j x y,
    (i <= j)%nat -> l !! i = Some x -> l !! j = Some y -> num_le x y.

(** Every time of [l] is at least 0 and, time 0 apart, before [tmax]. *)
Definition within (tmax : num) (l : list num) : Prop :=
  forall t, t ∈ l -> num_le (Fin 0) t /\ (t = Fin 0 \/ num_lt t tmax = true).

(** The clock of the event-driven SIR engine at time [now]: the recorded
    times are in order and not after [now], the queue is a heap of events
    that are not before [now]. *)
Definition FastSIR_clock (now : num) (s : FastSIR.state) : Prop :=
  num_le (Fin 0) now /\
  nondecreasing (FastSIR.times s) /\
  within (tmax (FastSIR.Q_ s)) (FastSIR.times s) /\
  (forall t, t ∈ FastSIR.times s -> num_le t now) /\
  heap_ordered Event_lt (_Q_ (FastSIR.Q_ s)) /\
  (forall e, e ∈ _Q_ (FastSIR.Q_ s) ->
     num_le now (time e) /\ num_lt (time e) (tmax (FastSIR.Q_ s)) = true) /\
  exp_draws (FastSIR.rand s).

(** What [FastSIR_clock] reads of the state. *)
Definition FastSIR_view_clock (s : FastSIR.state) :=
  (FastSIR.times s, FastSIR.Q_ s, draws (FastSIR.rand s)).

(** ** Discrete-time SIR *)

(** The arrays of a discrete-time run: [t] is [0, 1, ..., n], the three
    counts add up to [N] at every step, the nodes infected at one step are
    the ones that recover at the next, and nobody is infected at the last
    step. *)
Definition generations (N : Z) (t S I R : list Z) : Prop :=
  t = Z.of_nat <$> seq 0 (length t) /\
  length S = length t /\ length I = length t /\ length R = length t /\
  (forall k s i r,
     S !! k = Some s -> I !! k = Some i -> R !! k = Some r ->
     (0 <= i)%Z /\ (s + i + r = N)%Z) /\
  (forall k i r r',
     I !! k = Some i -> R !! k = Some r -> R !! (k + 1)%nat = Some r' ->
     r' = (r + i)%Z) /\
  last I = Some 0%Z.

Definition Discrete_traj (s : Discrete.state) :=
  (Discrete.t_ s, Discrete.S_ s, Discrete.I_ s, Discrete.R_ s).

(** The invariant of the loop of [discrete_SIR_epidemic], which is
    [generations] but for the last entry of [I], the number [i] of nodes
    that are infected at the moment. *)
Definition Discrete_inv (N : Z) (i : Z) (s : Discrete.state) : Prop :=
  Discrete.t_ s = Z.of_nat <$> seq 0 (length (Discrete.t_ s)) /\
  length (Discrete.S_ s) = length (Discrete.t_ s) /\
  length (Discrete.I_ s) = length (Discrete.t_ s) /\
  length (Discrete.R_ s) = length (Discrete.t_ s) /\
  (forall k s' i' r',
     Discrete.S_ s !! k = Some s' -> Discrete.I_ s !! k = Some i' ->
     Discrete.R_ s !! k = Some r' -> (0 <= i')%Z /\ (s' + i' + r' = N)%Z) /\
  (forall k i' r r',
     Discrete.I_ s !! k = Some i' -> Discrete.R_ s !! k = Some r ->
     Discrete.R_ s !! (k + 1)%nat = Some r' -> r' = (r + i')%Z) /\
  last (Discrete.I_ s) = Some i.

(** [susceptible[v]], with its default. *)
Definition Discrete_sus (s : Discrete.state) (v : node) : bool :=
  default true (Discrete.susceptible s !! v).

(** The number of nodes of [G] that are still susceptible. *)
Definition count_susceptible (G : Graph) (s : Discrete.state) : nat :=
  length (filter (fun v => Discrete_sus s v = true) (G_nodes G)).

(** A [test_transmission] that always answers. *)
Definition total_test (test : node -> node -> M RandomState bool) : Prop :=
  forall u v r, exists b r', test u v r = (Ok b, r').

(** The neighbours of the nodes of [G] are nodes of [G]. *)
Definition neighbors_are_nodes (G : Graph) : Prop :=
  forall u v, u ∈ G_nodes G -> v ∈ G_adj G u -> v ∈ G_nodes G.

(** The state of [discrete_SIR_epidemic] within a round that started with
    [c] susceptible nodes: the nodes infected in this round are nodes of
    [G], and they are no longer counted as susceptible. *)
Definition Discrete_round (G : Graph) (c : nat) (s : Discrete.state) : Prop :=
  (forall v, v ∈ Discrete.new_infecteds s -> v ∈ G_nodes G) /\
  (count_susceptible G s + length (Discrete.new_infecteds s) <= c)%nat /\
  Discrete.t_ s ≠ [] /\ Discrete.S_ s ≠ [] /\ Discrete.I_ s ≠ [] /\
  Discrete.R_ s ≠ [].

(** The state of [discrete_SIR_epidemic] in its first round when nothing
    is transmitted and the nodes [done] have been gone through: the arrays
    are as they were created, no node has been infected, and exactly the
    nodes [done] have their times recorded when [full] is set. *)
Definition Discrete_quiet (G : Graph) (us : list node) (full : bool)
    (done : list node) (s : Discrete.state) : Prop :=
  Discrete_traj s
  = ([0%Z], [(Z.of_nat (nx.order G) - Z.of_nat (length us))%Z],
     [Z.of_nat (length us)], [0%Z]) /\
  Discrete.new_infecteds s = [] /\
  unit_draws (Discrete.rand s) /\
  forall u,
    Discrete.infection_time s !! u
    = (if decide (full = true /\ u ∈ done) then Some 0%Z else None) /\
    Discrete.recovery_time s !! u
    = (if decide (full = true /\ u ∈ done) then Some 1%Z else None).

(** ** Directed percolation *)

(** The two loops of [directed_percolate_network], by name. *)
Definition percolate_neighbors (tau : Q) :=
  fix over_neighbors (u : node) (duration : Q) (vs : list node)
      (H : Graph) : M RandomState Graph :=
    match vs with
    | [] => ret H
    | v :: vs' =>
        let! time_to_infect := random.expovariate tau in
        let H := if Qltb time_to_infect duration
                 then DiGraph.add_edge H u v "delay" time_to_infect
                 else H in
        over_neighbors u duration vs' H
    end.

Definition percolate_nodes (G : Graph) (tau gamma : Q) :=
  fix over_nodes (us : list node) (H : Graph) : M RandomState Graph :=
    match us with
    | [] => ret H
    | u :: us' =>
        let! duration := random.expovariate gamma in
        let H := DiGraph.add_node H u "duration" duration in
        let! vs := lift (nx.neighbors G u) in
        let! H := percolate_neighbors tau u duration vs H in
        over_nodes us' H
    end.

(** Every edge [u -> v] of [H] is an edge of [G] that leaves a node of
    [sources], and its delay is less than the duration of [u]. *)
Definition edges_transmit (G : Graph) (sources : list node) (H : Graph)
    : Prop :=
  forall u v,
    v ∈ G_adj H u ->
    u ∈ sources /\ v ∈ G_adj G u /\
    exists d t,
      G_node H u "duration" = Some d /\ G_edge H u v "delay" = Some t /\
      (t < d)%Q.

(** What [directed_percolate_network] has built when it has gone through
    the nodes [done]. *)
Definition percolated (G : Graph) (done : list node) (H : Graph) : Prop :=
  NoDup (G_nodes H) /\
  (forall u, u ∈ done -> u ∈ G_nodes H) /\
  (forall w, w ∈ G_nodes H ->
             w ∈ done \/ exists u, u ∈ done /\ w ∈ G_adj G u) /\
  edges_transmit G done H.

(** [u] would transmit to [v]: [transmission(xi[u], zeta[v])] is [f] of the
    two values and holds. *)
Definition would_transmit {X Y} (xi : gmap node X) (zeta : gmap node Y)
    (f : X -> Y -> bool) (u v : node) : Prop :=
  exists a b, xi !! u = Some a /\ zeta !! v = Some b /\ f a b = true.

(** What [nonMarkov_directed_percolate_network] has built when it has
    added the nodes [seen], has gone through the nodes [done] and, for the
    node [u] it is at, through the neighbours [vdone]. *)
Definition nonMarkov_built {X Y} (G : Graph) (xi : gmap node X)
    (zeta : gmap node Y) (f : X -> Y -> bool) (seen done : list node)
    (u : node) (vdone : list node) (H : Graph) : Prop :=
  NoDup (G_nodes H) /\
  (forall w, w ∈ seen -> w ∈ G_nodes H) /\
  (forall w, w ∈ G_nodes H -> w ∈ G_nodes G) /\
  (forall x y,
     y ∈ G_adj H x <->
     (x ∈ done /\ y ∈ G_adj G x /\ would_transmit xi zeta f x y) \/
     (x = u /\ y ∈ vdone /\ would_transmit xi zeta f x y)).

(** ** Bond percolation *)

(** [H] is a symmetric subgraph of [G] on the nodes of [G], without
    repeated neighbours. *)
Definition spanning_subgraph (G H : Graph) : Prop :=
  G_nodes H = G_nodes G /\
  (forall u v, v ∈ G_adj H u -> v ∈ G_adj G u) /\
  (forall u v, v ∈ G_adj H u -> u ∈ G_adj H v) /\
  (forall u, NoDup (G_adj H u)).

(** ** Discrete-time SIR as a breadth-first search *)

(** [v] is the end of a walk of [k] steps that starts in [us]. *)
Fixpoint reach (G : Graph) (us : list node) (k : nat) (v : node) : Prop :=
  match k with
  | O => v ∈ us
  | S k' => exists u, reach G us k' u /\ v ∈ G_adj G u
  end.

(** The distance of [v] from [us] is [k]. *)
Definition at_distance (G : Graph) (us : list node) (k : nat) (v : node)
    : Prop :=
  reach G us k v /\ forall j, (j < k)%nat -> ~ reach G us j v.

(** A [test_transmission] that says yes for every neighbour. *)
Definition answers_yes (G : Graph)
    (test : node -> node -> M RandomState bool) : Prop :=
  forall u v r, v ∈ G_adj G u -> exists r', test u v r = (Ok true, r').

(** [l] lists, each once, the nodes at distance [k] from [us]. *)
Definition lists_distance (G : Graph) (us : list node) (k : nat)
    (l : list node) : Prop :=
  NoDup l /\ forall v, v ∈ l <-> at_distance G us k v.

(** What the arrays and dictionaries of [discrete_SIR_epidemic] record
    when the rounds before round [k] have been made: [I[j]] counts the
    nodes at distance [j], and with [full] the infection time of the nodes
    nearer than [k], or among [done], is their distance. *)
Definition Discrete_recorded (G : Graph) (us : list node) (full : bool)
    (k : nat) (done : list node) (s : Discrete.state) : Prop :=
  length (Discrete.I_ s) = S k /\
  last (Discrete.t_ s) = Some (Z.of_nat k) /\
  (forall j i,
     Discrete.I_ s !! j = Some i ->
     exists l, lists_distance G us j l /\ i = Z.of_nat (length l)) /\
  (full = true ->
   forall v j,
     Discrete.infection_time s !! v = Some j <->
     exists j', j = Z.of_nat j' /\ at_distance G us j' v /\
                ((j' < k)%nat \/ (j' = k /\ v ∈ done))).

(** The state of round [k] when the nodes [done] of the round's
    infecteds have been gone through and, for the node [u] that the round
    is at, the neighbours [vdone]. *)
Definition Discrete_bfs (G : Graph) (us : list node) (full : bool)
    (k : nat) (done : list node) (u : node) (vdone : list node)
    (s : Discrete.state) : Prop :=
  NoDup (Discrete.new_infecteds s) /\
  (forall v, v ∈ Discrete.new_infecteds s -> at_distance G us (S k) v) /\
  (forall v,
     Discrete_sus s v = false <->
     (exists j, (j <= k)%nat /\ at_distance G us j v) \/
     v ∈ Discrete.new_infecteds s) /\
  (forall x v,
     (x ∈ done /\ v ∈ G_adj G x) \/ (x = u /\ v ∈ vdone) ->
     Discrete_sus s v = false) /\
  Discrete_recorded G us full k done s.


(** ** Gillespie: the clock *)

(** What the clock of the Gillespie loops reads of the state. *)
Definition Gillespie_view_clock (s : Gillespie.state) :=
  (Gillespie.times s, Gillespie.next_time s, draws (Gillespie.rand s)).

(** The recorded times are 0 followed by event times that are in order,
    not negative, before [horizon] and not after [next_time]. *)
Definition Gillespie_clock (horizon : num) (s : Gillespie.state) : Prop :=
  exp_draws (Gillespie.rand s) /\
  num_le (Fin 0) (Gillespie.next_time s) /\
  exists later,
    Gillespie.times s = Fin 0 :: later /\
    nondecreasing later /\
    forall t, t ∈ later ->
              num_le (Fin 0) t /\ num_le t (Gillespie.next_time s) /\
              num_lt t horizon = true.

(** The numbers of infected neighbours and the keys of [risk_group] are not
    negative. *)
Definition risk_nonneg (s : Gillespie.state) : Prop :=
  (forall v c, Gillespie.infected_neighbor_count s !! v = Some c ->
               (0 <= c)%Z) /\
  (forall k ld, Gillespie.risk_group s !! k = Some ld -> (0 <= k)%Z).

Definition Gillespie_view_risk (s : Gillespie.state) :=
  (Gillespie.infected_neighbor_count s, Gillespie.risk_group s).

(** ** Event-driven SIS: the clock *)

(** The clock of the event-driven SIS engine at time [now]: the recorded
    times are in order and not after [now], the queue is a heap of events
    that are not before [now]. *)
Definition FastSIS_clock (now : num) (s : FastSIS.state) : Prop :=
  num_le (Fin 0) now /\
  nondecreasing (FastSIS.times s) /\
  within (tmax (FastSIS.Q_ s)) (FastSIS.times s) /\
  (forall t, t ∈ FastSIS.times s -> num_le t now) /\
  heap_ordered Event_lt (_Q_ (FastSIS.Q_ s)) /\
  (forall e, e ∈ _Q_ (FastSIS.Q_ s) ->
     num_le now (time e) /\ num_lt (time e) (tmax (FastSIS.Q_ s)) = true) /\
  exp_draws (FastSIS.rand s).

(** What [FastSIS_clock] reads of the state. *)
Definition FastSIS_view_clock (s : FastSIS.state) :=
  (FastSIS.times s, FastSIS.Q_ s, draws (FastSIS.rand s)).

(** ** Gillespie: the run as a whole *)




(** ** Event-driven SIR: the run as a whole *)

(** What a susceptible node can still add to the queue: its recovery and
    one transmission to each neighbour. *)
Definition FastSIR_weight (G : Graph) (s : FastSIR.state) (v : node) : nat :=
  if decide (FastSIR_status s v = sS) then S (length (G_adj G v)) else 0%nat.

(** A bound on the number of events that are still to be run. *)
Definition FastSIR_left (G : Graph) (s : FastSIR.state) : nat :=
  length (_Q_ (FastSIR.Q_ s))
  + sum_list_with (FastSIR_weight G s) (G_nodes G).

(** The queued infections are aimed at nodes of the graph, and the arrays
    are not empty. *)
Definition FastSIR_sound (G : Graph) (s : FastSIR.state) : Prop :=
  (forall e u, e ∈ _Q_ (FastSIR.Q_ s) ->
               FastSIR_target (function e) = Some u -> u ∈ G_nodes G) /\
  (exists x, last (FastSIR.S_ s) = Some x) /\
  (exists i, last (FastSIR.I_ s) = Some i) /\
  (exists r, last (FastSIR.R_ s) = Some r).

(** The number of events of a run with initial infecteds [us]: one
    infection for each of them and, for every node, its recovery and one
    transmission to each neighbour. *)
Definition events_bound (G : Graph) (us : list node) : nat :=
  length us + sum_list_with (fun v => S (length (G_adj G v))) (G_nodes G).

(** ** Event-driven SIR: the dictionaries of times *)

(** The nodes that have left status ['S'] are the keys of [rec_time]; each
    of them has a predicted infection time, which is not after its recovery
    time; and the recoveries in the queue are of such nodes. *)
Definition FastSIR_dated (s : FastSIR.state) : Prop :=
  (forall u, FastSIR_status s u <> sS <-> is_Some (FastSIR.rec_time s !! u)) /\
  (forall u r, FastSIR.rec_time s !! u = Some r ->
               exists p, FastSIR.pred_inf_time s !! u = Some p /\
                         num_le p r) /\
  (forall e u, e ∈ _Q_ (FastSIR.Q_ s) -> function e = FastSIR.rec u ->
               is_Some (FastSIR.rec_time s !! u)).

(** The full data of a run: the two dictionaries have the same keys, and
    no node recovers before it is infected. *)
Definition infected_then_recovered (infection_time recovery_time
    : gmap node num) : Prop :=
  (forall u, is_Some (infection_time !! u) <-> is_Some (recovery_time !! u)) /\
  (forall u t t', infection_time !! u = Some t ->
                  recovery_time !! u = Some t' -> num_le t t').

(** What [FastSIR_dated] reads of the state, the statuses apart. *)
Definition FastSIR_dated_view (s : FastSIR.state) :=
  (FastSIR.Q_ s, FastSIR.rec_time s, FastSIR.pred_inf_time s).

(** What a run keeps from one event to the next. *)
Definition FastSIR_dated_run (s : FastSIR.state) : Prop :=
  queue_below (FastSIR.Q_ s) /\ pred_inf_time_bounds_queue s /\
  FastSIR_dated s /\ exp_draws (FastSIR.rand s).

(** * Properties *)

(** ** Numbers *)

Lemma Qltb_lt (x y : Q) : Qltb x y = true <-> (x < y)%Q.
Proof.
  unfold Qltb. rewrite negb_true_iff.
  destruct (Qle_bool y x) eqn:E.
  - apply Qle_bool_iff in E. split; [discriminate|]. intros. lra.
  - split; [|reflexivity]. intros _.
    destruct (Qlt_le_dec x y) as [L|L]; [exact L|].
    apply Qle_bool_iff in L. congruence.
Qed.

Lemma Qltb_ge (x y : Q) : Qltb x y = false <-> (y <= x)%Q.
Proof.
  unfold Qltb. rewrite negb_false_iff. apply Qle_bool_iff.
Qed.

Lemma num_lt_false (x y : num) : num_lt x y = false <-> num_le y x.
Proof.
  destruct x, y; simpl; try tauto; try (split; [discriminate|tauto]).
  apply Qltb_ge.
Qed.

Lemma num_lt_true (x y : num) : num_lt x y = true <-> ~ num_le y x.
Proof.
  rewrite <- num_lt_false. destruct (num_lt x y); split; congruence.
Qed.

Lemma num_le_refl (x : num) : num_le x x.
Proof. destruct x; simpl; [lra|exact I]. Qed.

Lemma num_le_trans (x y z : num) : num_le x y -> num_le y z -> num_le x z.
Proof. destruct x, y, z; simpl; try tauto; lra. Qed.

Lemma num_lt_le (x y : num) : num_lt x y = true -> num_le x y.
Proof.
  destruct x, y; simpl; try tauto; try discriminate.
  rewrite Qltb_lt. lra.
Qed.

Lemma num_lt_min_r (x a b : num) :
  num_lt x (num_min a b) = true -> num_lt x b = true.
Proof.
  unfold num_min. destruct (num_lt b a) eqn:E; [tauto|].
  apply num_lt_false in E. intros L. apply num_lt_true in L.
  apply num_lt_true. intros L'. apply L. eapply num_le_trans; eauto.
Qed.

(** ** The heap of [heapq] is a rearrangement of what was pushed *)

Section HeapFacts.
Context {A : Type} (lt : A -> A -> bool).
Implicit Types (heap l : list A).

Lemma insert_cons_perm l j (a b : A) :
  l !! j = Some b -> b :: <[j := a]> l ≡ₚ a :: l.
Proof.
  revert j. induction l as [|c l IH]; intros [|j] Hj; simplify_eq/=.
  - apply perm_swap.
  - rewrite perm_swap, (IH _ Hj). apply perm_swap.
Qed.

Lemma insert_swap_perm l i j (a b : A) :
  i ≠ j -> l !! i = Some a -> l !! j = Some b ->
  <[i := b]> (<[j := a]> l) ≡ₚ l.
Proof.
  revert i j. induction l as [|c l IH]; intros [|i] [|j] Hij Hi Hj;
    simplify_eq/=.
  - by apply insert_cons_perm.
  - by apply insert_cons_perm.
  - f_equiv. apply IH; auto.
Qed.

Lemma insert_move_perm l i j (p x : A) :
  i ≠ j -> l !! i = Some p -> (j < length l)%nat ->
  <[i := x]> (<[j := p]> l) ≡ₚ <[j := x]> l.
Proof.
  intros Hij Hi Hj.
  rewrite <- (list_insert_insert_eq l j p x).
  apply insert_swap_perm; auto.
  - rewrite list_lookup_insert_ne by auto. exact Hi.
  - by rewrite list_lookup_insert_eq.
Qed.

Lemma siftdown_loop_perm fuel heap startpos pos newitem l :
  (pos < length heap)%nat ->
  <[pos := newitem]> heap ≡ₚ l ->
  heapq.siftdown_loop lt fuel heap startpos pos newitem ≡ₚ l.
Proof.
  revert heap pos. induction fuel as [|fuel IH]; intros heap pos Hpos Hl;
    cbn [heapq.siftdown_loop]; [exact Hl|].
  case_decide as Hsp; [|exact Hl].
  destruct (heap !! ((pos - 1) / 2)%nat) as [parent|] eqn:Hparent;
    [|exact Hl].
  destruct (lt newitem parent); [|exact Hl].
  assert ((pos - 1) / 2 < pos)%nat as Hlt.
  { apply (Nat.le_lt_trans _ (pos - 1)); [|lia].
    apply Nat.Div0.div_le_upper_bound. lia. }
  apply IH.
  - rewrite length_insert. lia.
  - rewrite <- Hl. apply insert_move_perm; auto. lia.
Qed.

Lemma siftdown_perm heap startpos pos :
  heapq._siftdown lt heap startpos pos ≡ₚ heap.
Proof.
  unfold heapq._siftdown.
  destruct (heap !! pos) as [newitem|] eqn:Hpos; [|done].
  apply siftdown_loop_perm.
  - eapply lookup_lt_Some; eauto.
  - by rewrite list_insert_id.
Qed.

Lemma siftup_loop_perm fuel heap pos newitem l heap' pos' :
  (pos < length heap)%nat ->
  <[pos := newitem]> heap ≡ₚ l ->
  heapq.siftup_loop lt fuel heap pos = (heap', pos') ->
  <[pos' := newitem]> heap' ≡ₚ l.
Proof.
  revert heap pos. induction fuel as [|fuel IH]; intros heap pos Hpos Hl;
    cbn [heapq.siftup_loop]; [by intros [= <- <-]|].
  cbv zeta.
  case_decide as Hc; [|by intros [= <- <-]].
  set (childpos := match heap !! (2 * pos + 1)%nat,
                         heap !! (2 * pos + 1 + 1)%nat with
                   | Some c, Some r =>
                       if negb (lt c r) then (2 * pos + 1 + 1)%nat
                       else (2 * pos + 1)%nat
                   | _, _ => (2 * pos + 1)%nat
                   end).
  assert (pos < childpos)%nat as Hlt.
  { unfold childpos.
    destruct (heap !! (2 * pos + 1)%nat), (heap !! (2 * pos + 1 + 1)%nat);
      try lia. destruct (negb _); lia. }
  destruct (heap !! childpos) as [c|] eqn:Hchild; [|by intros [= <- <-]].
  intros Hloop. eapply IH; [| |exact Hloop].
  - rewrite length_insert. eapply lookup_lt_Some; eauto.
  - rewrite <- Hl. apply insert_move_perm; auto. lia.
Qed.

Lemma siftup_perm heap pos : heapq._siftup lt heap pos ≡ₚ heap.
Proof.
  unfold heapq._siftup.
  destruct (heap !! pos) as [newitem|] eqn:Hpos; [|done].
  destruct (heapq.siftup_loop lt (length heap) heap pos) as [heap' pos'] eqn:E.
  rewrite siftdown_perm.
  eapply siftup_loop_perm; [| |exact E].
  - eapply lookup_lt_Some; eauto.
  - by rewrite list_insert_id.
Qed.

Lemma heappush_perm heap item :
  heapq.heappush lt heap item ≡ₚ item :: heap.
Proof.
  unfold heapq.heappush. rewrite siftdown_perm.
  by rewrite Permutation_app_comm.
Qed.

Lemma last_removelast l (x : A) :
  last l = Some x -> l = removelast l ++ [x].
Proof.
  intros Hl. destruct (decide (l = [])) as [->|Hne]; [done|].
  rewrite (app_removelast_last x Hne) at 1.
  f_equal. f_equal. rewrite last_lookup in Hl.
  destruct l as [|a l]; [done|].
  clear Hne. revert a Hl. induction l as [|b l IH]; intros a Hl.
  - by simplify_eq/=.
  - simpl in *. by apply IH.
Qed.

Lemma heappop_None heap : heapq.heappop lt heap = None <-> heap = [].
Proof.
  unfold heapq.heappop. split.
  - destruct (last heap) as [x|] eqn:Hl.
    + destruct (removelast heap); discriminate.
    + intros _. by apply last_None.
  - by intros ->.
Qed.

Lemma heappop_perm heap item heap' :
  heapq.heappop lt heap = Some (item, heap') -> heap ≡ₚ item :: heap'.
Proof.
  unfold heapq.heappop.
  destruct (last heap) as [lastelt|] eqn:Hl; [|discriminate].
  apply last_removelast in Hl.
  destruct (removelast heap) as [|returnitem rest] eqn:Hr.
  - intros [= <- <-]. by rewrite Hl.
  - intros [= <- <-]. rewrite siftup_perm. simpl.
    rewrite Hl. simpl. f_equiv. by rewrite Permutation_app_comm.
Qed.

End HeapFacts.

(** ** [myQueue] *)

Section QueueFacts.
Context {H : Type}.
Implicit Types (self : myQueue H) (event : Event H).

Lemma queue_add_tmax self event : tmax (Queue.add self event) = tmax self.
Proof. unfold Queue.add. by destruct (num_lt _ _). Qed.

Lemma queue_add_dropped self event :
  num_le (tmax self) (time event) -> Queue.add self event = self.
Proof.
  intros Hle. apply num_lt_false in Hle. unfold Queue.add. by rewrite Hle.
Qed.

Lemma queue_add_kept self event :
  ~ num_le (tmax self) (time event) ->
  Queue.add self event
  = mk_myQueue (heapq.heappush Event_lt (_Q_ self) event) (tmax self).
Proof.
  intros Hlt. apply num_lt_true in Hlt. unfold Queue.add. by rewrite Hlt.
Qed.

Lemma queue_add_elem self event x :
  x ∈ _Q_ (Queue.add self event) ->
  (x = event /\ ~ num_le (tmax self) (time event)) \/ x ∈ _Q_ self.
Proof.
  unfold Queue.add. destruct (num_lt _ _) eqn:E; [|by right].
  simpl. rewrite heappush_perm. intros [->|Hx]%elem_of_cons; [left|by right].
  split; [done|]. by apply num_lt_true.
Qed.

Lemma queue_add_below self event :
  queue_below self -> queue_below (Queue.add self event).
Proof.
  intros Hb x Hx. rewrite queue_add_tmax.
  apply queue_add_elem in Hx as [[-> Hlt]|Hx]; [done|]. by apply Hb.
Qed.

Lemma queue_pop_below self event heap :
  queue_below self ->
  heapq.heappop Event_lt (_Q_ self) = Some (event, heap) ->
  queue_below (mk_myQueue heap (tmax self)).
Proof.
  intros Hb Hpop x Hx. simpl in *. apply Hb.
  rewrite (heappop_perm _ _ _ _ Hpop). by right.
Qed.

Lemma queue_run_tmax self ops : tmax (queue_run self ops) = tmax self.
Proof.
  revert self. induction ops as [|[event|] ops IH]; intros self; simpl.
  - done.
  - by rewrite IH, queue_add_tmax.
  - destruct (heapq.heappop _ _) as [[? heap]|]; by rewrite IH.
Qed.

Lemma queue_run_below self ops :
  queue_below self -> queue_below (queue_run self ops).
Proof.
  revert self. induction ops as [|[event|] ops IH]; intros self Hb; simpl.
  - done.
  - by apply IH, queue_add_below.
  - destruct (heapq.heappop _ _) as [[event heap]|] eqn:Hpop.
    + eapply IH, queue_pop_below; eauto.
    + by apply IH.
Qed.

Lemma queue_init_below tmax : queue_below (Queue.init (H := H) tmax).
Proof. intros x Hx. simpl in Hx. by apply elem_of_nil in Hx. Qed.

(** C7: [myQueue.add(event)] leaves the queue as it is when
    [event.time >= tmax] and otherwise pushes the event on the heap, which
    then holds the event and what it held before; hence whatever sequence of
    [add]s and pops a queue created with [tmax] goes through, no event with
    time [>= tmax] is ever stored in it. *)
Theorem myQueue_add_respects_tmax self event :
  (num_le (tmax self) (time event) -> Queue.add self event = self) /\
  (~ num_le (tmax self) (time event) ->
     Queue.add self event
     = mk_myQueue (heapq.heappush Event_lt (_Q_ self) event) (tmax self) /\
     _Q_ (Queue.add self event) ≡ₚ event :: _Q_ self) /\
  (forall (ops : list (queue_op H)) (x : Event H),
     x ∈ _Q_ (queue_run (Queue.init (tmax self)) ops) ->
     ~ num_le (tmax self) (time x)).
Proof.
  split; [apply queue_add_dropped|]. split.
  - intros Hlt. rewrite (queue_add_kept _ _ Hlt). split; [done|].
    simpl. apply heappush_perm.
  - intros ops x Hx.
    pose proof (queue_run_below _ ops (queue_init_below (tmax self))) as Hb.
    specialize (Hb x Hx). by rewrite queue_run_tmax in Hb.
Qed.

(** C10: [myQueue.pop_and_run()] on an empty queue raises [IndexError];
    whatever the handlers are, none is called and nothing changes, so the
    queue is still empty. *)
Theorem pop_and_run_empty_queue {St} (getQ : St -> myQueue H)
    (setQ : myQueue H -> St -> St) (call : H -> num -> M St unit) (s : St) :
  _Q_ (getQ s) = [] ->
  Queue.pop_and_run getQ setQ call s = (Raise IndexError, s) /\
  _Q_ (getQ (Queue.pop_and_run getQ setQ call s).2) = [].
Proof.
  intros Hempty. unfold Queue.pop_and_run, bind, gets. simpl.
  rewrite Hempty. simpl. done.
Qed.

End QueueFacts.

Lemma pop_and_run_empty_queue_witness :
  let s := FastSIR.new single (Fin 1) (steady 0) in
  let call := FastSIR.call single (fun _ _ => raise ValueError)
                (fun _ _ => Ok 1%Q) (fun _ => Ok 1%Q) in
  Queue.pop_and_run FastSIR.Q_ FastSIR.set_Q call s = (Raise IndexError, s) /\
  _Q_ (FastSIR.Q_ (Queue.pop_and_run FastSIR.Q_ FastSIR.set_Q call s).2) = [].
Proof.
  intros s call. apply (pop_and_run_empty_queue FastSIR.Q_ FastSIR.set_Q call s).
  reflexivity.
Defined.

(** ** [_ListDict_] *)

Lemma ListDict_wf_elem self x :
  ListDict_wf self -> x ∈ items self <-> is_Some (item_to_position self !! x).
Proof.
  intros Hwf. rewrite list_elem_of_lookup. split.
  - intros [i Hi]. exists i. by apply Hwf.
  - intros [i Hi]. exists i. by apply Hwf.
Qed.

Lemma ListDict_wf_NoDup self : ListDict_wf self -> NoDup (items self).
Proof.
  intros Hwf. apply NoDup_alt. intros i j x Hi Hj.
  apply Hwf in Hi, Hj. congruence.
Qed.

Lemma ListDict_wf_init : ListDict_wf ListDict.init.
Proof. intros x i. simpl. by rewrite lookup_empty, lookup_nil. Qed.

Lemma ListDict_add_present self item :
  is_Some (item_to_position self !! item) -> ListDict.add self item = self.
Proof. intros [i Hi]. unfold ListDict.add. by rewrite Hi. Qed.

Lemma ListDict_add_absent self item :
  item_to_position self !! item = None ->
  ListDict.add self item
  = mkListDict (<[item := length (items self)]> (item_to_position self))
               (items self ++ [item]).
Proof.
  intros Hi. unfold ListDict.add. rewrite Hi. f_equal. f_equal.
  rewrite length_app. simpl. lia.
Qed.

Lemma ListDict_wf_add self item :
  ListDict_wf self -> ListDict_wf (ListDict.add self item).
Proof.
  intros Hwf.
  destruct (item_to_position self !! item) as [p|] eqn:Hp.
  { by rewrite ListDict_add_present. }
  rewrite ListDict_add_absent by done. intros x i. simpl.
  destruct (decide (x = item)) as [->|Hx].
  - rewrite lookup_insert_eq. split.
    + intros [= <-]. by rewrite list_lookup_middle.
    + intros Hi. f_equal. symmetry.
      destruct (decide (i < length (items self))%nat) as [Hlt|Hge].
      * rewrite lookup_app_l in Hi by done. apply Hwf in Hi. congruence.
      * apply lookup_lt_Some in Hi as Hlen. rewrite length_app in Hlen.
        simpl in Hlen. lia.
  - rewrite lookup_insert_ne by done. rewrite (Hwf x i). split.
    + intros Hi. rewrite lookup_app_l; [done|]. by eapply lookup_lt_Some.
    + intros Hi.
      destruct (decide (i < length (items self))%nat) as [Hlt|Hge].
      * by rewrite lookup_app_l in Hi.
      * rewrite lookup_app_r in Hi by lia.
        destruct (i - length (items self))%nat; simplify_eq/=.
Qed.

Lemma ListDict_add_elem self item x :
  ListDict_wf self ->
  x ∈ items (ListDict.add self item) <-> x = item \/ x ∈ items self.
Proof.
  intros Hwf.
  destruct (item_to_position self !! item) as [p|] eqn:Hp.
  - rewrite ListDict_add_present by eauto. split; [by right|].
    intros [->|]; [|done]. apply ListDict_wf_elem; eauto.
  - rewrite ListDict_add_absent by done. simpl.
    rewrite elem_of_app, list_elem_of_singleton. tauto.
Qed.

(** C9: [_ListDict_.remove(item)] with an item that is not stored raises
    [KeyError] and leaves both the items array and the item-to-position
    mapping as they were. *)
Theorem ListDict_remove_absent self item :
  ListDict_wf self -> item ∉ items self ->
  ListDict.remove self item = (Raise KeyError, self).
Proof.
  intros Hwf Hnot. unfold ListDict.remove.
  destruct (item_to_position self !! item) as [p|] eqn:Hp; [|done].
  exfalso. apply Hnot. apply ListDict_wf_elem; eauto.
Qed.

Lemma ListDict_remove_absent_witness :
  let self := ListDict.add (ListDict.add ListDict.init 4%nat) 7%nat in
  ListDict.remove self 5%nat = (Raise KeyError, self).
Proof.
  intros self. apply (ListDict_remove_absent self 5%nat).
  - unfold self. apply ListDict_wf_add, ListDict_wf_add, ListDict_wf_init.
  - unfold self. vm_compute. intros Hin.
    repeat (apply elem_of_cons in Hin as [Hin|Hin]; [discriminate Hin|]).
    by apply elem_of_nil in Hin.
Defined.

(** ** Configuration errors *)

(** C6: each of [fast_SIR], [fast_nonMarkov_SIR], [fast_SIS],
    [Gillespie_SIR] and [Gillespie_SIS] called with both [initial_infecteds]
    and [rho] given stops at its first statement, before any object of the
    run is created and before any random draw; no trajectory is returned.
    But the exception is not [EoNError]: the statement
    [raise EoNError(...)] names a class that [simulation.py] never binds,
    and what the caller receives is [NameError]. *)
Theorem both_initial_infecteds_and_rho_is_NameError
    (fuel : nat) (G : Graph) (tau gamma : Q) (x : node_or_nodes) (rho : Q)
    (tmax : num) (tw rw : option string) (full : bool) (r : RandomState)
    (process_trans : num -> node -> M FastSIR.state unit)
    (trans_rate_fxn : node -> node -> result Q)
    (rec_rate_fxn : node -> result Q)
    (Q : option (list (Event FastSIR.handler))) :
  let err := NameError "EoNError" in
  (forall msg, err ≠ EoNError msg) /\
  FastSIR.fast_SIR fuel G tau gamma (Some x) (Some rho) tmax tw rw full r
    = (Raise err, r) /\
  FastSIR.fast_nonMarkov_SIR fuel G process_trans trans_rate_fxn rec_rate_fxn
    (Some x) (Some rho) tmax full Q r = (Raise err, r) /\
  FastSIS.fast_SIS fuel G tau gamma (Some x) (Some rho) tmax tw rw full r
    = (Raise err, r) /\
  Gillespie.Gillespie_SIR fuel G tau gamma (Some x) (Some rho) tmax full r
    = (Raise err, r) /\
  Gillespie.Gillespie_SIS fuel G tau gamma (Some x) (Some rho) tmax full r
    = (Raise err, r).
Proof.
  intros err. split; [done|]. repeat apply conj; reflexivity.
Qed.

(** ** Stale transmission events *)

(** C8: in event-driven SIR, a transmission event whose target is no longer
    ['S'] does nothing: [_process_trans_SIR_] returns at once, and the
    status, the four trajectory lists, [rec_time], [pred_inf_time], the
    queue and the generator are what they were. *)
Theorem process_trans_SIR_stale (G : Graph)
    (trans_rate_fxn : node -> node -> result Q)
    (rec_rate_fxn : node -> result Q) (time : num) (node : node)
    (s : FastSIR.state) :
  default sS (FastSIR.status s !! node) ≠ sS ->
  FastSIR._process_trans_SIR_ G trans_rate_fxn rec_rate_fxn time node s
  = (Ok tt, s).
Proof.
  intros Hst. unfold FastSIR._process_trans_SIR_, bind.
  unfold FastSIR.status_read, dd_read.
  destruct (FastSIR.status s !! node) as [st|] eqn:E; simpl in Hst; [|done].
  by destruct (decide (st = sS)).
Qed.

Lemma process_trans_SIR_stale_witness :
  let s := FastSIR.set_status {[ 0%nat := sI ]}
             (FastSIR.new path2 Inf (steady 0)) in
  FastSIR._process_trans_SIR_ path2 (fun _ _ => Ok 1%Q) (fun _ => Ok 1%Q)
    (Fin 2) 0%nat s = (Ok tt, s).
Proof.
  intros s.
  apply (process_trans_SIR_stale path2 (fun _ _ => Ok 1%Q) (fun _ => Ok 1%Q)
           (Fin 2) 0%nat s).
  vm_compute. discriminate.
Defined.

(** ** Percolation *)

(** C1, where the code departs from it: on the path 0 - 1 with a draw that
    leaves the percolated network [H] without any edge,
    [get_infected_nodes] started from node 0 returns [{1}].  Node 0, which
    reaches itself in [H], is missing, and node 1, which nothing reaches
    in [H], is reported: the out-component is taken in [G], not in [H], and
    does not contain its source. *)
Theorem get_infected_nodes_on_path2 :
  match get_infected_nodes path2 1 1 (Some (a_node 0%nat)) (constant 0 1) with
  | (Ok (H, infected_nodes), _) =>
      infected_nodes = {[ 1%nat ]} /\
      reachable_in H [0%nat] 0%nat /\
      ~ reachable_in H [0%nat] 1%nat
  | (Raise _, _) => False
  end.
Proof.
  vm_compute get_infected_nodes. split; [|split].
  - reflexivity.
  - exists 0%nat. split; [by left|]. apply rtc_refl.
  - intros (u & Hu & Hreach). apply list_elem_of_singleton in Hu as ->.
    apply rtc_inv in Hreach as [Heq|(b & Hb & _)]; [discriminate|].
    simpl in Hb. by apply elem_of_nil in Hb.
Qed.

(** ** Computations: frames and invariants *)

Section MonadFacts.
Context {St : Type}.

Lemma bind_Ok {A B} (m : M St A) (k : A -> M St B) s a s' :
  m s = (Ok a, s') -> bind m k s = k a s'.
Proof. intros E. unfold bind. by rewrite E. Qed.

Lemma bind_Raise {A B} (m : M St A) (k : A -> M St B) s e s' :
  m s = (Raise e, s') -> bind m k s = (Raise e, s').
Proof. intros E. unfold bind. by rewrite E. Qed.

Lemma bind_inv_Ok {A B} (m : M St A) (k : A -> M St B) s b s'' :
  bind m k s = (Ok b, s'') ->
  exists a s', m s = (Ok a, s') /\ k a s' = (Ok b, s'').
Proof.
  unfold bind. destruct (m s) as [[a|e] s']; [eauto|discriminate].
Qed.

Lemma for_app {A} (l1 l2 : list A) (body : A -> M St unit) s :
  for_ (l1 ++ l2) body s = (for_ l1 body ;; for_ l2 body) s.
Proof.
  revert s. induction l1 as [|x l1 IH]; intros s; [reflexivity|].
  cbn [for_ app]. unfold bind in *.
  destruct (body x s) as [[[]|e] s']; [apply IH|done].
Qed.

Section Frame.
Context {B : Type} (f : St -> B).

Lemma frame_ret {A} (a : A) : frame f (ret a).
Proof. by intros s. Qed.

Lemma frame_raise {A} e : frame f (raise (A := A) e).
Proof. by intros s. Qed.

Lemma frame_lift {A} (r : result A) : frame f (lift r).
Proof. by intros s. Qed.

Lemma frame_gets {A} (g : St -> A) : frame f (gets g).
Proof. by intros s. Qed.

Lemma frame_assert b : frame f (assert b).
Proof. intros s. by destruct b. Qed.

Lemma frame_modify (g : St -> St) :
  (forall s, f (g s) = f s) -> frame f (modify g).
Proof. intros Hg s. apply Hg. Qed.

Lemma frame_bind {A C} (m : M St A) (k : A -> M St C) :
  frame f m -> (forall a, frame f (k a)) -> frame f (bind m k).
Proof.
  intros Hm Hk s. unfold bind. specialize (Hm s).
  destruct (m s) as [[a|e] s']; simpl in *; [|done].
  by rewrite Hk.
Qed.

Lemma frame_for {A} (l : list A) (body : A -> M St unit) :
  (forall x, frame f (body x)) -> frame f (for_ l body).
Proof.
  intros Hb. induction l as [|x l IH]; simpl.
  - apply frame_ret.
  - apply frame_bind; auto.
Qed.

Lemma frame_last_of {A} (g : St -> list A) : frame f (last_of g).
Proof. intros s. unfold last_of. by destruct (last (g s)). Qed.

Lemma frame_dd_read {K V} `{Countable K} (get : St -> gmap K V)
    (set : gmap K V -> St -> St) dflt k :
  (forall m s, f (set m s) = f s) -> frame f (dd_read get set dflt k).
Proof. intros Hset s. unfold dd_read. destruct (get s !! k); simpl; auto. Qed.

Lemma frame_dd_write {K V} `{Countable K} (get : St -> gmap K V)
    (set : gmap K V -> St -> St) k v :
  (forall m s, f (set m s) = f s) -> frame f (dd_write get set k v).
Proof. intros Hset s. apply Hset. Qed.

Context `{HasRandom St}.
Hypothesis frame_set_random : forall r s, f (set_random r s) = f s.

Lemma frame_next : frame f random.next.
Proof using frame_set_random. intros s. apply frame_set_random. Qed.

Lemma frame_random : frame f random.random.
Proof using frame_set_random.
  apply frame_bind; [apply frame_next|]. intros i.
  apply frame_bind; [apply frame_gets|]. intros r. apply frame_ret.
Qed.

Lemma frame_expovariate lambd : frame f (random.expovariate lambd).
Proof using frame_set_random.
  apply frame_bind; [apply frame_next|]. intros i.
  apply frame_bind; [apply frame_gets|]. intros r.
  destruct (Qeq_bool lambd 0); [apply frame_raise|apply frame_ret].
Qed.

Lemma frame_below n : frame f (random.below n).
Proof using frame_set_random.
  apply frame_bind; [apply frame_random|]. intros u. apply frame_ret.
Qed.

Lemma frame_randint0 n : frame f (random.randint0 n).
Proof using frame_set_random.
  unfold random.randint0.
  destruct (n <=? 0)%Z; [apply frame_raise|apply frame_below].
Qed.

Lemma frame_choice {A} (l : list A) : frame f (random.choice l).
Proof using frame_set_random.
  apply frame_bind; [apply frame_below|]. intros i. apply frame_lift.
Qed.

Lemma frame_sample_loop {A} k (pool : list A) n :
  frame f (random.sample_loop k pool n).
Proof using frame_set_random.
  revert pool n. induction k as [|k IH]; intros pool n; simpl.
  - apply frame_ret.
  - apply frame_bind; [apply frame_below|]. intros j.
    apply frame_bind; [apply frame_lift|]. intros x.
    apply frame_bind; [apply frame_lift|]. intros y.
    apply frame_bind; [apply frame_lift|]. intros pool'.
    apply frame_bind; [apply IH|]. intros rest. apply frame_ret.
Qed.

Lemma frame_sample {A} (population : list A) k :
  frame f (random.sample population k).
Proof using frame_set_random.
  unfold random.sample.
  destruct (_ || _); [apply frame_raise|apply frame_sample_loop].
Qed.

Lemma frame_choose_initial_infecteds G x rho :
  frame f (choose_initial_infecteds G x rho).
Proof using frame_set_random.
  unfold choose_initial_infecteds. destruct x as [x|].
  - destruct (has_node_arg G x); [destruct x|]; apply frame_ret.
  - apply frame_bind; [apply frame_sample|]. intros l. apply frame_ret.
Qed.

End Frame.

Lemma frame_keeps {A B} (f : St -> B) (Inv : St -> Prop) (m : M St A) :
  (forall s s', f s' = f s -> Inv s -> Inv s') -> frame f m -> keeps Inv m.
Proof. intros Hf Hm s Hs. eapply Hf; [apply Hm|done]. Qed.

Lemma keeps_ret {A} Inv (a : A) : keeps (St := St) Inv (ret a).
Proof. by intros s. Qed.

Lemma keeps_bind {A C} Inv (m : M St A) (k : A -> M St C) :
  keeps Inv m -> (forall a, keeps Inv (k a)) -> keeps Inv (bind m k).
Proof.
  intros Hm Hk s Hs. unfold bind. specialize (Hm s Hs).
  destruct (m s) as [[a|e] s']; simpl in *; [|done].
  by apply Hk.
Qed.

Lemma keeps_for {A} Inv (l : list A) (body : A -> M St unit) :
  (forall x, keeps Inv (body x)) -> keeps Inv (for_ l body).
Proof.
  intros Hb. induction l as [|x l IH]; simpl.
  - apply keeps_ret.
  - apply keeps_bind; auto.
Qed.

Lemma returns_bind {A C} (m : M St A) (k : A -> M St C) post s :
  returns (bind m k) post s <-> returns m (fun a s' => returns (k a) post s') s.
Proof. unfold returns, bind. by destruct (m s) as [[a|e] s']. Qed.

Lemma returns_mono {A} (m : M St A) (post post' : A -> St -> Prop) s :
  (forall a s', post a s' -> post' a s') ->
  returns m post s -> returns m post' s.
Proof. unfold returns. destruct (m s) as [[a|e] s']; auto. Qed.

Lemma returns_for {A} (Inv : St -> Prop) (l : list A)
    (body : A -> M St unit) s :
  (forall x s, Inv s -> returns (body x) (fun _ => Inv) s) ->
  Inv s -> returns (for_ l body) (fun _ => Inv) s.
Proof.
  intros Hb. revert s. induction l as [|x l IH]; intros s Hs; simpl.
  - done.
  - apply returns_bind. eapply returns_mono; [|by apply Hb].
    intros a s' Hs'. by apply IH.
Qed.

Lemma returns_frame {A B} (f : St -> B) (m : M St A) s :
  frame f m -> returns m (fun _ s' => f s' = f s) s.
Proof. intros Hm. unfold returns. specialize (Hm s). by destruct (m s) as [[a|e] s']. Qed.

End MonadFacts.

Ltac frame_step :=
  first
    [ apply frame_ret | apply frame_raise | apply frame_lift
    | apply frame_gets | apply frame_assert | apply frame_last_of
    | apply frame_bind; [|intros ?]
    | apply frame_for; intros ?
    | apply frame_modify; intros ?; reflexivity
    | apply frame_dd_read; intros ? ?; reflexivity
    | apply frame_dd_write; intros ? ?; reflexivity
    | apply frame_expovariate; intros ? ?; reflexivity
    | apply frame_random; intros ? ?; reflexivity
    | apply frame_randint0; intros ? ?; reflexivity
    | apply frame_choice; intros ? ?; reflexivity
    | apply frame_choose_initial_infecteds; intros ? ?; reflexivity
    | match goal with
      | |- frame _ (if ?b then _ else _) => destruct b
      | |- frame _ (match ?x with _ => _ end) => destruct x
      end ].

Ltac solve_frame := repeat frame_step.

(** ** Event-driven SIR: the predicted infection times bound the queue *)

Section PredInfTime.
Import FastSIR.
Context (G : Graph) (trans_rate_fxn : node -> node -> result Q)
        (rec_rate_fxn : node -> result Q).

Lemma bounds_queue_view s s' :
  view_QP s' = view_QP s ->
  pred_inf_time_bounds_queue s -> pred_inf_time_bounds_queue s'.
Proof.
  unfold view_QP, pred_inf_time_bounds_queue, FastSIR_pred.
  intros [= -> ->]. done.
Qed.

Lemma keeps_bounds_frame {A} (m : M state A) :
  frame view_QP m -> keeps pred_inf_time_bounds_queue m.
Proof. apply frame_keeps. apply bounds_queue_view. Qed.

Lemma keeps_pred_inf_time_read v :
  keeps pred_inf_time_bounds_queue (pred_inf_time_read v).
Proof.
  intros s Hs. unfold pred_inf_time_read, dd_read.
  destruct (pred_inf_time s !! v) eqn:E; simpl; [done|].
  intros e w He Hw. specialize (Hs e w He Hw).
  unfold FastSIR_pred in *. simpl.
  destruct (decide (v = w)) as [->|Hne].
  - rewrite lookup_insert_eq. by rewrite E in Hs.
  - by rewrite lookup_insert_ne.
Qed.

Lemma pred_inf_time_read_value v s :
  (pred_inf_time_read v s).1 = Ok (FastSIR_pred s v) /\
  FastSIR_pred (pred_inf_time_read v s).2 v = FastSIR_pred s v.
Proof.
  unfold pred_inf_time_read, dd_read, FastSIR_pred.
  destruct (pred_inf_time s !! v) eqn:E; simpl.
  - by rewrite E.
  - by rewrite lookup_insert_eq.
Qed.

Lemma keeps_Q_add_rec t u :
  keeps pred_inf_time_bounds_queue (Q_add (mkEvent t (rec u))).
Proof.
  intros s Hs e v He Hv. simpl in He.
  apply queue_add_elem in He as [[-> _]|He]; [done|].
  by apply Hs.
Qed.

(** The two statements that schedule a transmission, taken together. *)
Lemma keeps_schedule_trans inf_time target h s :
  FastSIR_target h = Some target ->
  num_lt inf_time (FastSIR_pred s target) = true ->
  pred_inf_time_bounds_queue s ->
  pred_inf_time_bounds_queue
    ((Q_add (mkEvent inf_time h) ;;
      dd_write pred_inf_time set_pred_inf_time target inf_time) s).2.
Proof.
  intros Hh Hlt Hs e v He Hv. simpl in He.
  unfold FastSIR_pred. simpl.
  destruct (decide (target = v)) as [->|Hne].
  - rewrite lookup_insert_eq. simpl.
    apply queue_add_elem in He as [[-> _]|He]; [apply num_le_refl|].
    eapply num_le_trans; [by apply num_lt_le|]. by apply Hs.
  - rewrite lookup_insert_ne by done.
    apply queue_add_elem in He as [[-> _]|He]; [|by apply Hs].
    simpl in Hv. congruence.
Qed.

Lemma keeps_find_trans t tau source target source_rec_time :
  keeps pred_inf_time_bounds_queue
    (_find_trans_SIR_ t tau source target source_rec_time).
Proof.
  unfold _find_trans_SIR_.
  apply keeps_bind; [apply keeps_bounds_frame; solve_frame|]. intros st.
  destruct (decide (st = sS)); [|apply keeps_ret].
  apply keeps_bind; [apply keeps_bounds_frame; solve_frame|]. intros delay.
  intros s Hs. unfold bind at 1.
  destruct (pred_inf_time_read_value target s) as [Hval Hpred].
  pose proof (keeps_pred_inf_time_read target s Hs) as Hs'.
  destruct (pred_inf_time_read target s) as [[p|err] s']; simpl in *;
    [|done].
  injection Hval as ->.
  destruct (num_lt _ (num_min _ _)) eqn:Hlt; [|done].
  apply keeps_schedule_trans; [done| |done].
  rewrite Hpred. by eapply num_lt_min_r.
Qed.

Lemma keeps_process_trans t u :
  keeps pred_inf_time_bounds_queue
    (_process_trans_SIR_ G trans_rate_fxn rec_rate_fxn t u).
Proof.
  unfold _process_trans_SIR_.
  apply keeps_bind; [apply keeps_bounds_frame; solve_frame|]. intros st.
  destruct (decide (st = sS)); [|apply keeps_ret].
  do 7 (apply keeps_bind; [apply keeps_bounds_frame; solve_frame|];
        intros ?).
  apply keeps_bind; [apply keeps_bounds_frame; solve_frame|]. intros ?.
  apply keeps_bind; [apply keeps_bounds_frame; solve_frame|]. intros rt.
  apply keeps_bind; [apply keeps_Q_add_rec|]. intros ?.
  apply keeps_bind; [apply keeps_bounds_frame; solve_frame|]. intros vs.
  apply keeps_for. intros v.
  apply keeps_bind; [apply keeps_bounds_frame; solve_frame|]. intros tau.
  apply keeps_bind; [apply keeps_bounds_frame; solve_frame|]. intros rt'.
  apply keeps_find_trans.
Qed.

Lemma keeps_process_rec t u :
  keeps pred_inf_time_bounds_queue (_process_rec_SIR_ t u).
Proof. apply keeps_bounds_frame. unfold _process_rec_SIR_. solve_frame. Qed.

Lemma keeps_pop_and_run :
  keeps pred_inf_time_bounds_queue
    (pop_and_run G (_process_trans_SIR_ G trans_rate_fxn rec_rate_fxn)
       trans_rate_fxn rec_rate_fxn).
Proof.
  intros s Hs. unfold pop_and_run, Queue.pop_and_run, bind, gets. simpl.
  destruct (heapq.heappop Event_lt (_Q_ (Q_ s))) as [[event heap]|] eqn:Hpop;
    [|done].
  unfold modify. simpl.
  assert (pred_inf_time_bounds_queue
            (set_Q (mk_myQueue heap (tmax (Q_ s))) s)) as Hs'.
  { intros e v He Hv. simpl in He. apply (Hs e v); [|done].
    rewrite (heappop_perm _ _ _ _ Hpop). by right. }
  destruct (function event) as [u|v|u]; simpl.
  - by apply keeps_process_trans.
  - by apply keeps_process_trans.
  - by apply keeps_process_rec.
Qed.

Lemma keeps_run_queue fuel (step : M state unit) Inv :
  keeps Inv step -> keeps Inv (run_queue fuel step).
Proof.
  intros Hstep. induction fuel as [|fuel IH]; simpl.
  - intros s Hs. unfold bind, gets. simpl. by case_decide.
  - intros s Hs. unfold bind at 1. unfold gets. simpl.
    case_decide; [done|]. by apply keeps_bind.
Qed.

Lemma queued_initial_bounds s :
  queued_initial s -> pred_inf_time_bounds_queue s.
Proof.
  intros Hs e v He Hv. destruct (Hs e He) as (u & -> & Hu).
  simpl in *. injection Hv as <-. rewrite Hu. apply num_le_refl.
Qed.

Lemma keeps_queue_initial us :
  keeps queued_initial
    (for_ us (fun u =>
       let newevent := mkEvent (Fin 0) (initial_trans u) in
       dd_write pred_inf_time set_pred_inf_time u (Fin 0) ;;
       Q_add newevent)).
Proof.
  apply keeps_for. intros u s Hs e He. simpl in He.
  assert (forall w, FastSIR_pred s w = Fin 0 ->
            FastSIR_pred (set_pred_inf_time
              (<[u := Fin 0]> (pred_inf_time s)) s) w = Fin 0) as Hpred.
  { intros w Hw. unfold FastSIR_pred in *. simpl.
    destruct (decide (u = w)) as [->|Hne].
    - by rewrite lookup_insert_eq.
    - by rewrite lookup_insert_ne. }
  apply queue_add_elem in He as [[-> _]|He].
  - exists u. split; [done|]. unfold FastSIR_pred. simpl.
    by rewrite lookup_insert_eq.
  - destruct (Hs e He) as (w & -> & Hw). exists w. split; [done|].
    by apply Hpred.
Qed.

(** C4: in event-driven SIR with the default handler, [pred_inf_time[v]] is
    at most the time of every transmission event of the queue aimed at [v],
    at every event boundary.  [pop_and_run] keeps the property, whatever it
    pops and however the handler ends; and it holds of the state in which
    the body of [fast_nonMarkov_SIR] stops, for every amount of fuel: after
    the initialisation (no fuel), after each further [pop_and_run] (one more
    unit of fuel), and when the queue has drained. *)
Theorem pred_inf_time_below_queued_transmissions :
  keeps pred_inf_time_bounds_queue
    (pop_and_run G (_process_trans_SIR_ G trans_rate_fxn rec_rate_fxn)
       trans_rate_fxn rec_rate_fxn) /\
  forall fuel initial_infecteds rho return_full_data tmax r,
    pred_inf_time_bounds_queue
      (fast_nonMarkov_SIR_body fuel G
         (_process_trans_SIR_ G trans_rate_fxn rec_rate_fxn)
         trans_rate_fxn rec_rate_fxn initial_infecteds rho return_full_data
         (new G tmax r)).2.
Proof.
  split; [apply keeps_pop_and_run|].
  intros fuel x rho full tmax r.
  assert (queued_initial (new G tmax r)) as H0.
  { intros e He. simpl in He. by apply elem_of_nil in He. }
  revert H0. generalize (new G tmax r). intros s Hs.
  unfold fast_nonMarkov_SIR_body.
  assert (keeps queued_initial (choose_initial_infecteds G x rho)) as Hc.
  { apply (frame_keeps view_QP); [|solve_frame].
    unfold view_QP, queued_initial, FastSIR_pred. by intros ? ? [= -> ->]. }
  unfold bind at 1. specialize (Hc s Hs).
  destruct (choose_initial_infecteds G x rho s) as [[x'|e] s1]; simpl in Hc;
    [|by apply queued_initial_bounds].
  unfold bind at 1. unfold lift at 1.
  destruct (iterate x') as [us|e]; [|by apply queued_initial_bounds].
  unfold bind at 1.
  pose proof (keeps_queue_initial us s1 Hc) as Hq.
  apply queued_initial_bounds in Hq.
  destruct (for_ us _ s1) as [[[]|e] s2]; simpl in Hq; [|done].
  apply keeps_bind; [|intros ?; apply keeps_bounds_frame; solve_frame|done].
  apply keeps_run_queue, keeps_pop_and_run.
Qed.

End PredInfTime.

(** ** Partial correctness, step by step *)

Section ReturnsFacts.
Context {St : Type}.

Lemma returns_ret {A} (a : A) (post : A -> St -> Prop) s :
  post a s -> returns (ret a) post s.
Proof. done. Qed.

Lemma returns_raise {A} e (post : A -> St -> Prop) s :
  returns (raise e) post s.
Proof. done. Qed.

Lemma returns_Ok {A} (m : M St A) post s a s' :
  returns m post s -> m s = (Ok a, s') -> post a s'.
Proof. unfold returns. intros Hm E. by rewrite E in Hm. Qed.

Lemma returns_bind_frame {A C B} (f : St -> B) (m : M St A)
    (k : A -> M St C) post s :
  frame f m ->
  (forall a s', f s' = f s -> returns (k a) post s') ->
  returns (bind m k) post s.
Proof.
  intros Hm Hk. specialize (Hm s). specialize (fun a => Hk a (m s).2 Hm).
  unfold returns, bind in *. destruct (m s) as [[a|e] s']; [|done].
  apply Hk.
Qed.

Lemma returns_of_frame {A B} (f : St -> B) (m : M St A)
    (post : St -> Prop) s :
  frame f m -> (forall s', f s' = f s -> post s') ->
  returns m (fun _ => post) s.
Proof.
  intros Hm Hpost. unfold returns. specialize (Hm s).
  destruct (m s) as [[a|e] s']; [|done]. by apply Hpost.
Qed.

Lemma returns_modify_then {C} (g : St -> St) (k : M St C) post s :
  returns k post (g s) -> returns (modify g ;; k) post s.
Proof. done. Qed.

Lemma returns_gets_then {A C} (g : St -> A) (k : A -> M St C) post s :
  returns (k (g s)) post s -> returns (bind (gets g) k) post s.
Proof. done. Qed.

Lemma returns_lift_then {A C} (r : result A) (k : A -> M St C) post s :
  (forall a, r = Ok a -> returns (k a) post s) ->
  returns (bind (lift r) k) post s.
Proof. intros Hk. destruct r as [a|e]; [|done]. by apply Hk. Qed.

(** [l.append(g(l[-1]))], followed by [k] *)
Lemma returns_append_then {A C} (get : St -> list A)
    (set : (list A -> list A) -> St -> St) (g : A -> A) (k : M St C)
    post s :
  (forall x, last (get s) = Some x ->
             returns k post (set (fun l => l ++ [g x]) s)) ->
  returns ((let! x := last_of get in
            modify (set (fun l => l ++ [g x]))) ;; k) post s.
Proof.
  intros Hk. unfold returns, bind, last_of, modify.
  destruct (last (get s)) as [x|] eqn:E; [|done].
  by apply Hk.
Qed.

Lemma returns_append {A} (get : St -> list A)
    (set : (list A -> list A) -> St -> St) (g : A -> A)
    (post : unit -> St -> Prop) s :
  (forall x, last (get s) = Some x -> post tt (set (fun l => l ++ [g x]) s)) ->
  returns (let! x := last_of get in
           modify (set (fun l => l ++ [g x]))) post s.
Proof.
  intros Hk. unfold returns, bind, last_of, modify.
  destruct (last (get s)) as [x|] eqn:E; [|done].
  by apply Hk.
Qed.

End ReturnsFacts.

(** ** Conservation of the population along the trajectories *)

Lemma conserved3_snoc N times S I R t s i r s' i' r' :
  conserved3 N times S I R ->
  last S = Some s -> last I = Some i -> last R = Some r ->
  (s' + i' + r' = s + i + r)%Z ->
  conserved3 N (times ++ [t]) (S ++ [s']) (I ++ [i']) (R ++ [r']).
Proof.
  intros (Ht & HSI & HIR & Hsum) HS HI HR Heq.
  rewrite last_lookup in HS, HI, HR.
  repeat split; rewrite ?length_app; simpl; try lia.
  intros k a b c Ha Hb Hc.
  destruct (decide (k < length S)%nat) as [Hlt|Hge].
  - rewrite lookup_app_l in Ha, Hb, Hc by lia. eauto.
  - apply lookup_lt_Some in Ha as Hlen. rewrite length_app in Hlen.
    simpl in Hlen. assert (k = length S) as -> by lia.
    rewrite list_lookup_middle in Ha by done.
    rewrite list_lookup_middle in Hb by lia.
    rewrite list_lookup_middle in Hc by lia.
    simplify_eq.
    rewrite Heq. apply (Hsum (pred (length S))); [done| |].
    + by rewrite HSI.
    + by rewrite HSI, HIR.
Qed.

Lemma conserved2_snoc N times S I t s i s' i' :
  conserved2 N times S I ->
  last S = Some s -> last I = Some i ->
  (s' + i' = s + i)%Z ->
  conserved2 N (times ++ [t]) (S ++ [s']) (I ++ [i']).
Proof.
  intros (Ht & HSI & Hsum) HS HI Heq.
  rewrite last_lookup in HS, HI.
  repeat split; rewrite ?length_app; simpl; try lia.
  intros k a b Ha Hb.
  destruct (decide (k < length S)%nat) as [Hlt|Hge].
  - rewrite lookup_app_l in Ha, Hb by lia. eauto.
  - apply lookup_lt_Some in Ha as Hlen. rewrite length_app in Hlen.
    simpl in Hlen. assert (k = length S) as -> by lia.
    rewrite list_lookup_middle in Ha by done.
    rewrite list_lookup_middle in Hb by lia.
    simplify_eq.
    rewrite Heq. apply (Hsum (pred (length S))); [done|].
    by rewrite HSI.
Qed.

Lemma conserved3_drop N n times S I R :
  conserved3 N times S I R ->
  conserved3 N (drop n times) (drop n S) (drop n I) (drop n R).
Proof.
  intros (Ht & HSI & HIR & Hsum).
  repeat split; rewrite ?length_drop; try lia.
  intros k a b c. rewrite !lookup_drop. apply Hsum.
Qed.

Lemma conserved2_drop N n times S I :
  conserved2 N times S I ->
  conserved2 N (drop n times) (drop n S) (drop n I).
Proof.
  intros (Ht & HSI & Hsum).
  repeat split; rewrite ?length_drop; try lia.
  intros k a b. rewrite !lookup_drop. apply Hsum.
Qed.

Lemma conserved3_init N a b c t :
  (a + b + c = N)%Z -> conserved3 N [t] [a] [b] [c].
Proof.
  intros Hsum. repeat split; try done.
  intros [|k] s i r; simpl; [|done]. by intros [= <-] [= <-] [= <-].
Qed.

Lemma conserved2_init N a b t :
  (a + b = N)%Z -> conserved2 N [t] [a] [b].
Proof.
  intros Hsum. repeat split; try done.
  intros [|k] s i; simpl; [|done]. by intros [= <-] [= <-].
Qed.

Section FastSIRConservation.
Import FastSIR.
Context (G : Graph) (N : Z).

Ltac traj_eqs :=
  unfold FastSIR_conserved, FastSIR_traj in *;
  repeat match goal with s : state |- _ => destruct s end;
  simpl in *; simplify_eq.

Lemma FastSIR_conserved_frame {A} (m : M state A) s :
  frame FastSIR_traj m -> FastSIR_conserved N s ->
  returns m (fun _ => FastSIR_conserved N) s.
Proof.
  intros Hm Hs. apply (returns_of_frame FastSIR_traj); [done|].
  intros s' E. by traj_eqs.
Qed.

Lemma FastSIR_process_trans_conserved tf rf t u s :
  FastSIR_conserved N s ->
  returns (_process_trans_SIR_ G tf rf t u) (fun _ => FastSIR_conserved N) s.
Proof.
  intros Hs. unfold _process_trans_SIR_.
  apply (returns_bind_frame FastSIR_traj); [solve_frame|]. intros st s1 E1.
  destruct (decide (st = sS)); [|apply returns_ret; by traj_eqs].
  apply (returns_bind_frame FastSIR_traj); [solve_frame|]. intros ? s2 E2.
  apply returns_modify_then.
  apply returns_append_then. intros x Hx.
  apply returns_append_then. intros y Hy.
  apply returns_append_then. intros z Hz.
  apply (returns_of_frame FastSIR_traj); [solve_frame|]. intros s' E'.
  traj_eqs. eapply conserved3_snoc; eauto. lia.
Qed.

Lemma FastSIR_process_rec_conserved t u s :
  FastSIR_conserved N s ->
  returns (_process_rec_SIR_ t u) (fun _ => FastSIR_conserved N) s.
Proof.
  intros Hs. unfold _process_rec_SIR_.
  apply returns_modify_then.
  apply returns_append_then. intros x Hx.
  apply returns_append_then. intros y Hy.
  apply returns_append_then. intros z Hz.
  apply (returns_of_frame FastSIR_traj); [solve_frame|]. intros s' E'.
  traj_eqs. eapply conserved3_snoc; eauto. lia.
Qed.

Lemma FastSIR_pop_and_run_conserved tf rf s :
  FastSIR_conserved N s ->
  returns (pop_and_run G (_process_trans_SIR_ G tf rf) tf rf)
          (fun _ => FastSIR_conserved N) s.
Proof.
  intros Hs. unfold pop_and_run, Queue.pop_and_run.
  apply returns_gets_then.
  destruct (heapq.heappop _ _) as [[event heap]|]; [|done].
  apply returns_modify_then.
  destruct (function event); simpl.
  - apply FastSIR_process_trans_conserved. by traj_eqs.
  - apply FastSIR_process_trans_conserved. by traj_eqs.
  - apply FastSIR_process_rec_conserved. by traj_eqs.
Qed.

Lemma FastSIR_run_queue_returns fuel step (Inv : state -> Prop) s :
  (forall s, Inv s -> returns step (fun _ => Inv) s) ->
  Inv s -> returns (run_queue fuel step) (fun _ => Inv) s.
Proof.
  intros Hstep. revert s. induction fuel as [|fuel IH]; intros s Hs; simpl.
  - apply returns_gets_then. by case_decide.
  - apply returns_gets_then. case_decide; [done|].
    apply returns_bind. eapply returns_mono; [|by apply Hstep].
    intros a s' Hs'. by apply IH.
Qed.

Lemma fast_nonMarkov_SIR_body_conserved fuel tf rf x rho full tmax r :
  N = Z.of_nat (nx.order G) ->
  returns (fast_nonMarkov_SIR_body fuel G (_process_trans_SIR_ G tf rf)
             tf rf x rho full)
    (fun out _ => conserved3 N (out_times out) (out_S out) (out_I out)
                    (out_R out))
    (new G tmax r).
Proof.
  intros HN.
  assert (FastSIR_conserved N (new G tmax r)) as H0.
  { apply conserved3_init. lia. }
  revert H0. generalize (new G tmax r). intros s Hs.
  unfold fast_nonMarkov_SIR_body.
  apply (returns_bind_frame FastSIR_traj); [solve_frame|]. intros x' s1 E1.
  apply returns_lift_then. intros us Hus.
  apply (returns_bind_frame FastSIR_traj).
  { apply frame_for. intros u. unfold Q_add. solve_frame. }
  intros ? s2 E2.
  apply returns_bind.
  eapply returns_mono;
    [|apply (FastSIR_run_queue_returns _ _ (FastSIR_conserved N))].
  - intros ? s3 Hs3. apply returns_gets_then. apply returns_ret. simpl.
    by apply conserved3_drop.
  - intros s' Hs'. by apply FastSIR_pop_and_run_conserved.
  - by traj_eqs.
Qed.

End FastSIRConservation.

Section FastSISConservation.
Import FastSIS.
Context (G : Graph) (N : Z).

Ltac traj_eqs :=
  unfold FastSIS_conserved, FastSIS_traj in *;
  repeat match goal with s : state |- _ => destruct s end;
  simpl in *; simplify_eq.

Lemma FastSIS_conserved_frame {A} (m : M state A) s :
  frame FastSIS_traj m -> FastSIS_conserved N s ->
  returns m (fun _ => FastSIS_conserved N) s.
Proof.
  intros Hm Hs. apply (returns_of_frame FastSIS_traj); [done|].
  intros s' E. by traj_eqs.
Qed.

Lemma frame_find_next_trans_SIS t tau source target :
  frame FastSIS_traj (_find_next_trans_SIS_ t tau source target).
Proof. unfold _find_next_trans_SIS_, Q_add. solve_frame. Qed.

Lemma FastSIS_process_trans_conserved tf rf t source target s :
  FastSIS_conserved N s ->
  returns (_process_trans_SIS_ G tf rf t source target)
          (fun _ => FastSIS_conserved N) s.
Proof.
  intros Hs. unfold _process_trans_SIS_.
  apply returns_bind.
  eapply (returns_mono _ (fun _ => FastSIS_conserved N)).
  { intros ? s' Hs'. apply FastSIS_conserved_frame; [|done].
    destruct source; [|solve_frame].
    apply frame_bind; [solve_frame|]. intros tau.
    apply frame_find_next_trans_SIS. }
  apply (returns_bind_frame FastSIS_traj); [solve_frame|]. intros st s1 E1.
  destruct (decide (st = sS)); [|apply returns_ret; by traj_eqs].
  apply (returns_bind_frame FastSIS_traj); [solve_frame|]. intros ? s2 E2.
  apply returns_append_then. intros y Hy.
  apply returns_append_then. intros x Hx.
  apply returns_modify_then.
  apply (returns_of_frame FastSIS_traj).
  { do 6 (apply frame_bind; [unfold Q_add; solve_frame|]; intros ?).
    apply frame_bind.
    - apply frame_for. intros v.
      apply frame_bind; [solve_frame|]. intros tau.
      apply frame_find_next_trans_SIS.
    - intros ?. solve_frame. }
  intros s' E'.
  traj_eqs. eapply conserved2_snoc; eauto. lia.
Qed.

Lemma FastSIS_process_rec_conserved t u s :
  FastSIS_conserved N s ->
  returns (_process_rec_SIS_ t u) (fun _ => FastSIS_conserved N) s.
Proof.
  intros Hs. unfold _process_rec_SIS_.
  apply returns_modify_then.
  apply returns_append_then. intros x Hx.
  apply returns_append_then. intros y Hy.
  apply (returns_of_frame FastSIS_traj); [solve_frame|]. intros s' E'.
  traj_eqs. eapply conserved2_snoc; eauto. lia.
Qed.

Lemma FastSIS_pop_and_run_conserved tf rf s :
  FastSIS_conserved N s ->
  returns (pop_and_run G tf rf) (fun _ => FastSIS_conserved N) s.
Proof.
  intros Hs. unfold pop_and_run, Queue.pop_and_run.
  apply returns_gets_then.
  destruct (heapq.heappop _ _) as [[event heap]|]; [|done].
  apply returns_modify_then.
  destruct (function event); simpl.
  - apply FastSIS_process_trans_conserved. by traj_eqs.
  - apply FastSIS_process_rec_conserved. by traj_eqs.
Qed.

Lemma FastSIS_run_queue_returns fuel step (Inv : state -> Prop) s :
  (forall s, Inv s -> returns step (fun _ => Inv) s) ->
  Inv s -> returns (run_queue fuel step) (fun _ => Inv) s.
Proof.
  intros Hstep. revert s. induction fuel as [|fuel IH]; intros s Hs; simpl.
  - apply returns_gets_then. by case_decide.
  - apply returns_gets_then. case_decide; [done|].
    apply returns_bind. eapply returns_mono; [|by apply Hstep].
    intros a s' Hs'. by apply IH.
Qed.

Lemma fast_SIS_body_conserved fuel tf rf x rho full tmax r :
  N = Z.of_nat (nx.order G) ->
  returns (fast_SIS_body fuel G tf rf x rho full)
    (fun out _ => conserved2 N (out_times out) (out_S out) (out_I out))
    (new G tmax r).
Proof.
  intros HN.
  assert (FastSIS_conserved N (new G tmax r)) as H0.
  { apply conserved2_init. lia. }
  revert H0. generalize (new G tmax r). intros s Hs.
  unfold fast_SIS_body.
  apply (returns_bind_frame FastSIS_traj); [solve_frame|]. intros x' s1 E1.
  apply returns_lift_then. intros us Hus.
  apply (returns_bind_frame FastSIS_traj).
  { apply frame_for. intros u. unfold Q_add. solve_frame. }
  intros ? s2 E2.
  apply returns_bind.
  eapply returns_mono;
    [|apply (FastSIS_run_queue_returns _ _ (FastSIS_conserved N))].
  - intros ? s3 Hs3. apply returns_gets_then. apply returns_ret. simpl.
    by apply conserved2_drop.
  - intros s' Hs'. by apply FastSIS_pop_and_run_conserved.
  - by traj_eqs.
Qed.

End FastSISConservation.

Section GillespieConservation.
Import Gillespie.
Context (G : Graph) (N : Z).

Ltac traj_eqs :=
  unfold Gillespie_conserved3, Gillespie_conserved2, Gillespie_traj in *;
  repeat match goal with s : state |- _ => destruct s end;
  simpl in *; simplify_eq.

Lemma frame_risk_group_remove {B} (f : state -> B) k item :
  (forall m s, f (set_risk_group m s) = f s) ->
  frame f (risk_group_remove k item).
Proof.
  intros Hf. unfold risk_group_remove.
  apply frame_bind; [by apply frame_dd_read|]. intros ld.
  destruct (ListDict.remove ld item) as [res ld'].
  apply frame_bind; [by apply frame_dd_write|]. intros ?. apply frame_lift.
Qed.

Lemma frame_risk_group_add {B} (f : state -> B) k item :
  (forall m s, f (set_risk_group m s) = f s) ->
  frame f (risk_group_add k item).
Proof.
  intros Hf. unfold risk_group_add.
  apply frame_bind; [by apply frame_dd_read|]. intros ld.
  by apply frame_dd_write.
Qed.

Lemma frame_pop_random_infected {B} (f : state -> B) :
  (forall l s, f (set_infected l s) = f s) ->
  (forall r s, f (set_rand r s) = f s) ->
  frame f pop_random_infected.
Proof.
  intros Hf Hr. unfold pop_random_infected.
  repeat first
    [ apply frame_bind; [|intros ?] | apply frame_ret | apply frame_lift
    | apply frame_gets | apply frame_assert | apply frame_last_of
    | apply frame_randint0; exact Hr
    | apply frame_modify; intros ?; apply Hf ].
Qed.

Ltac gframe :=
  repeat first
    [ apply frame_risk_group_remove; intros ? ?; reflexivity
    | apply frame_risk_group_add; intros ? ?; reflexivity
    | apply frame_pop_random_infected; intros ? ?; reflexivity
    | frame_step ].

Lemma frame_move_neighbors_traj (vs : list node)
    (body : node -> M state unit) :
  (forall v, frame Gillespie_traj (body v)) ->
  frame Gillespie_traj (for_ vs body).
Proof. apply frame_for. Qed.

Lemma Gillespie_Initialize_traj us full s :
  returns (_Gillespie_Initialize_ G us full)
    (fun _ s' => Gillespie_traj s'
                 = ([Fin 0],
                    [(Z.of_nat (nx.order G) - Z.of_nat (length us))%Z],
                    [Z.of_nat (length us)], [0%Z])) s.
Proof.
  unfold _Gillespie_Initialize_.
  do 4 apply returns_modify_then.
  apply (returns_of_frame Gillespie_traj).
  - unfold Initialize_neighbor, count_read, count_write, status_read,
      append_to. gframe.
  - intros s' ->. reflexivity.
Qed.

Lemma prepare_traj tau gamma us full s :
  returns (prepare G tau gamma us full)
    (fun _ s' => Gillespie_traj s'
                 = ([Fin 0],
                    [(Z.of_nat (nx.order G) - Z.of_nat (length us))%Z],
                    [Z.of_nat (length us)], [0%Z])) s.
Proof.
  unfold prepare. apply returns_bind.
  eapply returns_mono; [|apply Gillespie_Initialize_traj].
  intros ? s1 E1. simpl in E1.
  apply (returns_of_frame Gillespie_traj); [gframe|].
  intros s' ->. exact E1.
Qed.

Lemma Gillespie_Infect_conserved3 t s :
  Gillespie_conserved3 N s ->
  returns (_Gillespie_Infect_ G t true) (fun _ => Gillespie_conserved3 N) s.
Proof.
  intros Hs. unfold _Gillespie_Infect_.
  apply (returns_bind_frame Gillespie_traj); [gframe|]. intros u s1 E1.
  apply returns_gets_then.
  destruct (scan _ _ _ _) as [n|]; [|done].
  do 7 (apply (returns_bind_frame Gillespie_traj);
        [unfold ListDict.choose_random, status_read, append_to; gframe|];
        intros ? ? ?).
  apply returns_append_then. intros x Hx.
  apply returns_append_then. intros y Hy.
  apply returns_modify_then.
  apply returns_append_then. intros z Hz.
  apply (returns_of_frame Gillespie_traj).
  { unfold Infect_neighbor, status_read, count_read, count_write. gframe. }
  intros sf Ef.
  traj_eqs. eapply conserved3_snoc; eauto. lia.
Qed.

Lemma Gillespie_Infect_conserved2 t s :
  Gillespie_conserved2 N s ->
  returns (_Gillespie_Infect_ G t false) (fun _ => Gillespie_conserved2 N) s.
Proof.
  intros Hs. unfold _Gillespie_Infect_.
  apply (returns_bind_frame Gillespie_traj); [gframe|]. intros u s1 E1.
  apply returns_gets_then.
  destruct (scan _ _ _ _) as [n|]; [|done].
  do 7 (apply (returns_bind_frame Gillespie_traj);
        [unfold ListDict.choose_random, status_read, append_to; gframe|];
        intros ? ? ?).
  apply returns_append_then. intros x Hx.
  apply returns_append_then. intros y Hy.
  apply returns_modify_then.
  apply (returns_of_frame Gillespie_traj).
  { unfold Infect_neighbor, status_read, count_read, count_write. gframe. }
  intros sf Ef.
  traj_eqs. eapply conserved2_snoc; eauto. lia.
Qed.

Lemma Gillespie_Recover_SIR_conserved t full s :
  Gillespie_conserved3 N s ->
  returns (_Gillespie_Recover_SIR_ G t full)
          (fun _ => Gillespie_conserved3 N) s.
Proof.
  intros Hs. unfold _Gillespie_Recover_SIR_.
  apply (returns_bind_frame Gillespie_traj); [gframe|]. intros u s1 E1.
  apply returns_append_then. intros y Hy.
  apply (returns_bind_frame Gillespie_traj); [gframe|]. intros ? s2 E2.
  apply returns_append_then. intros x Hx.
  apply returns_append_then. intros z Hz.
  apply returns_modify_then.
  apply (returns_of_frame Gillespie_traj).
  { unfold Recover_SIR_neighbor, Recover_SIS_neighbor, lower_risk,
      status_read, count_read, count_write, append_to. gframe. }
  intros sf Ef.
  traj_eqs. eapply conserved3_snoc; eauto. lia.
Qed.

Lemma Gillespie_Recover_SIS_conserved t full s :
  Gillespie_conserved2 N s ->
  returns (_Gillespie_Recover_SIS_ G t full)
          (fun _ => Gillespie_conserved2 N) s.
Proof.
  intros Hs. unfold _Gillespie_Recover_SIS_.
  apply (returns_bind_frame Gillespie_traj); [gframe|]. intros u s1 E1.
  apply returns_append_then. intros y Hy.
  apply (returns_bind_frame Gillespie_traj); [gframe|]. intros ? s2 E2.
  apply returns_append_then. intros x Hx.
  apply returns_modify_then.
  apply (returns_of_frame Gillespie_traj).
  { unfold Recover_SIR_neighbor, Recover_SIS_neighbor, lower_risk,
      status_read, count_read, count_write, append_to. gframe. }
  intros sf Ef.
  traj_eqs. eapply conserved2_snoc; eauto. lia.
Qed.

Lemma Gillespie_conserved3_frame {A} (m : M state A) s :
  frame Gillespie_traj m -> Gillespie_conserved3 N s ->
  returns m (fun _ => Gillespie_conserved3 N) s.
Proof.
  intros Hm Hs. apply (returns_of_frame Gillespie_traj); [done|].
  intros s' E. by traj_eqs.
Qed.

Lemma Gillespie_conserved2_frame {A} (m : M state A) s :
  frame Gillespie_traj m -> Gillespie_conserved2 N s ->
  returns m (fun _ => Gillespie_conserved2 N) s.
Proof.
  intros Hm Hs. apply (returns_of_frame Gillespie_traj); [done|].
  intros s' E. by traj_eqs.
Qed.

Lemma SIR_iteration_conserved tau gamma full s :
  Gillespie_conserved3 N s ->
  returns (SIR_iteration G tau gamma full)
          (fun _ => Gillespie_conserved3 N) s.
Proof.
  intros Hs. unfold SIR_iteration.
  apply (returns_bind_frame Gillespie_traj); [gframe|]. intros u s1 E1.
  do 3 apply returns_gets_then.
  apply returns_bind.
  eapply (returns_mono _ (fun _ => Gillespie_conserved3 N)).
  { intros ? s' Hs'. apply Gillespie_conserved3_frame; [|done].
    unfold update_rates. gframe. }
  destruct (Qltb _ _).
  - apply returns_bind. eapply returns_mono;
      [|apply Gillespie_Recover_SIR_conserved; by traj_eqs].
    intros ? s' Hs'. apply Gillespie_conserved3_frame; [gframe|done].
  - apply Gillespie_Infect_conserved3. by traj_eqs.
Qed.

Lemma SIS_iteration_conserved tau gamma full s :
  Gillespie_conserved2 N s ->
  returns (SIS_iteration G tau gamma full)
          (fun _ => Gillespie_conserved2 N) s.
Proof.
  intros Hs. unfold SIS_iteration.
  apply (returns_bind_frame Gillespie_traj); [gframe|]. intros u s1 E1.
  do 3 apply returns_gets_then.
  apply returns_bind.
  eapply (returns_mono _ (fun _ => Gillespie_conserved2 N)).
  { intros ? s' Hs'. apply Gillespie_conserved2_frame; [|done].
    unfold update_rates. gframe. }
  destruct (Qltb _ _).
  - apply returns_bind. eapply returns_mono;
      [|apply Gillespie_Recover_SIS_conserved; by traj_eqs].
    intros ? s' Hs'. apply Gillespie_conserved2_frame; [gframe|done].
  - apply Gillespie_Infect_conserved2. by traj_eqs.
Qed.

Lemma while_returns fuel tmax iteration (Inv : state -> Prop) s :
  (forall s, Inv s -> returns iteration (fun _ => Inv) s) ->
  Inv s -> returns (while fuel tmax iteration) (fun _ => Inv) s.
Proof.
  intros Hstep. revert s. induction fuel as [|fuel IH]; intros s Hs; simpl.
  - apply returns_gets_then. by destruct (continue tmax s).
  - apply returns_gets_then. destruct (continue tmax s); [|done].
    apply returns_bind. eapply returns_mono; [|by apply Hstep].
    intros a s' Hs'. by apply IH.
Qed.

Lemma Gillespie_SIR_body_conserved fuel tau gamma x rho tmax full r :
  N = Z.of_nat (nx.order G) ->
  returns (Gillespie_SIR_body fuel G tau gamma x rho tmax full)
    (fun out _ => conserved3 N (out_times out) (out_S out) (out_I out)
                    (out_R out))
    (new r).
Proof.
  intros HN. generalize (new r). intros s.
  unfold Gillespie_SIR_body.
  apply returns_bind. unfold returns at 1.
  destruct (choose_initial_infecteds G x rho s) as [[x'|e] s1]; [|done].
  apply returns_lift_then. intros us Hus.
  apply returns_bind.
  eapply returns_mono; [|apply prepare_traj].
  intros ? s2 E2. simpl in E2.
  apply returns_bind.
  eapply returns_mono;
    [|apply (while_returns _ _ _ (Gillespie_conserved3 N))].
  - intros ? s3 Hs3. apply returns_gets_then.
    destruct full; [|by apply returns_ret].
    apply returns_lift_then. intros ? _.
    apply returns_lift_then. intros ? _. by apply returns_ret.
  - intros s' Hs'. by apply SIR_iteration_conserved.
  - traj_eqs. apply conserved3_init. lia.
Qed.

Lemma Gillespie_SIS_body_conserved fuel tau gamma x rho tmax full r :
  N = Z.of_nat (nx.order G) ->
  returns (Gillespie_SIS_body fuel G tau gamma x rho tmax full)
    (fun out _ => conserved2 N (sis_times out) (sis_S out) (sis_I out))
    (new r).
Proof.
  intros HN. generalize (new r). intros s.
  unfold Gillespie_SIS_body.
  apply returns_bind. unfold returns at 1.
  destruct (choose_initial_infecteds G x rho s) as [[x'|e] s1]; [|done].
  apply returns_lift_then. intros us Hus.
  apply returns_bind.
  eapply returns_mono; [|apply prepare_traj].
  intros ? s2 E2. simpl in E2.
  apply returns_bind.
  eapply returns_mono;
    [|apply (while_returns _ _ _ (Gillespie_conserved2 N))].
  - intros ? s3 Hs3. apply returns_gets_then. by apply returns_ret.
  - intros s' Hs'. by apply SIS_iteration_conserved.
  - traj_eqs. apply conserved2_init. lia.
Qed.

End GillespieConservation.

Lemma with_locals_Ok {L A} `{HasRandom L} (new : RandomState -> L)
    (body : M L A) (post : A -> L -> Prop) r a l r' :
  returns body post (new r) ->
  with_locals new body r = (Ok (a, l), r') -> post a l.
Proof.
  unfold returns, with_locals.
  destruct (body (new r)) as [[a'|e] l']; [|discriminate].
  by intros Hpost [= <- <- <-].
Qed.

(** C3: every sample of the trajectories that [fast_SIR] and
    [Gillespie_SIR] return satisfies [S[t] + I[t] + R[t] = N], and every
    sample of those that [fast_SIS] and [Gillespie_SIS] return satisfies
    [S[t] + I[t] = N], where [N] is the number of nodes of the graph; the
    returned lists all have the same length. *)
Theorem trajectories_conserve_population (fuel : nat) (G : Graph)
    (tau gamma : Q) (initial_infecteds : option node_or_nodes)
    (rho : option Q) (tmax : num) (tw rw : option string) (full : bool)
    (r : RandomState) :
  let N := Z.of_nat (nx.order G) in
  (forall out st r',
     FastSIR.fast_SIR fuel G tau gamma initial_infecteds rho tmax tw rw full r
     = (Ok (out, st), r') ->
     conserved3 N (FastSIR.out_times out) (FastSIR.out_S out)
       (FastSIR.out_I out) (FastSIR.out_R out)) /\
  (forall out st r',
     Gillespie.Gillespie_SIR fuel G tau gamma initial_infecteds rho tmax
       full r = (Ok (out, st), r') ->
     conserved3 N (Gillespie.out_times out) (Gillespie.out_S out)
       (Gillespie.out_I out) (Gillespie.out_R out)) /\
  (forall out st r',
     FastSIS.fast_SIS fuel G tau gamma initial_infecteds rho tmax tw rw full r
     = (Ok (out, st), r') ->
     conserved2 N (FastSIS.out_times out) (FastSIS.out_S out)
       (FastSIS.out_I out)) /\
  (forall out st r',
     Gillespie.Gillespie_SIS fuel G tau gamma initial_infecteds rho tmax
       full r = (Ok (out, st), r') ->
     conserved2 N (Gillespie.sis_times out) (Gillespie.sis_S out)
       (Gillespie.sis_I out)).
Proof.
  intros N. repeat apply conj; intros out st r'.
  - unfold FastSIR.fast_SIR.
    destruct (_get_rate_functions G tau gamma tw rw) as [tf rf].
    unfold FastSIR.fast_nonMarkov_SIR. case_bool_decide; [discriminate|].
    apply (with_locals_Ok _ _
             (fun out _ => conserved3 N (FastSIR.out_times out)
                (FastSIR.out_S out) (FastSIR.out_I out) (FastSIR.out_R out))).
    by apply (fast_nonMarkov_SIR_body_conserved G N).
  - unfold Gillespie.Gillespie_SIR. case_bool_decide; [discriminate|].
    apply (with_locals_Ok _ _
             (fun out _ => conserved3 N (Gillespie.out_times out)
                (Gillespie.out_S out) (Gillespie.out_I out)
                (Gillespie.out_R out))).
    by apply (Gillespie_SIR_body_conserved G N).
  - unfold FastSIS.fast_SIS. case_bool_decide; [discriminate|].
    destruct (_get_rate_functions G tau gamma tw rw) as [tf rf].
    apply (with_locals_Ok _ _
             (fun out _ => conserved2 N (FastSIS.out_times out)
                (FastSIS.out_S out) (FastSIS.out_I out))).
    by apply (fast_SIS_body_conserved G N).
  - unfold Gillespie.Gillespie_SIS. case_bool_decide; [discriminate|].
    apply (with_locals_Ok _ _
             (fun out _ => conserved2 N (Gillespie.sis_times out)
                (Gillespie.sis_S out) (Gillespie.sis_I out))).
    by apply (Gillespie_SIS_body_conserved G N).
Qed.

Lemma trajectories_conserve_population_witness :
  let r := steady (2 # 3) in
  let x := Some (a_node 0%nat) in
  match FastSIR.fast_SIR 10 path2 2 1 x None Inf None None false r with
  | (Ok (out, _), _) =>
      conserved3 2 (FastSIR.out_times out) (FastSIR.out_S out)
        (FastSIR.out_I out) (FastSIR.out_R out)
  | (Raise _, _) => False
  end /\
  match Gillespie.Gillespie_SIR 10 path2 2 1 x None Inf false r with
  | (Ok (out, _), _) =>
      conserved3 2 (Gillespie.out_times out) (Gillespie.out_S out)
        (Gillespie.out_I out) (Gillespie.out_R out)
  | (Raise _, _) => False
  end /\
  match FastSIS.fast_SIS 10 path2 2 1 x None (Fin 3) None None false r with
  | (Ok (out, _), _) =>
      conserved2 2 (FastSIS.out_times out) (FastSIS.out_S out)
        (FastSIS.out_I out)
  | (Raise _, _) => False
  end /\
  match Gillespie.Gillespie_SIS 10 path2 2 1 x None (Fin 10) false r with
  | (Ok (out, _), _) =>
      conserved2 2 (Gillespie.sis_times out) (Gillespie.sis_S out)
        (Gillespie.sis_I out)
  | (Raise _, _) => False
  end.
Proof.
  intros r x.
  split; [|split; [|split]].
  - destruct (FastSIR.fast_SIR _ _ _ _ _ _ _ _ _ _ _) as [[[out st]|e] r']
      eqn:E.
    + exact (proj1 (trajectories_conserve_population 10 path2 2 1 x None Inf
                      None None false r) _ _ _ E).
    + vm_compute in E. discriminate E.
  - destruct (Gillespie.Gillespie_SIR _ _ _ _ _ _ _ _ _) as [[[out st]|e] r']
      eqn:E.
    + exact (proj1 (proj2 (trajectories_conserve_population 10 path2 2 1 x
                             None Inf None None false r)) _ _ _ E).
    + vm_compute in E. discriminate E.
  - destruct (FastSIS.fast_SIS _ _ _ _ _ _ _ _ _ _ _) as [[[out st]|e] r']
      eqn:E.
    + exact (proj1 (proj2 (proj2 (trajectories_conserve_population 10 path2
                                    2 1 x None (Fin 3) None None false r)))
               _ _ _ E).
    + vm_compute in E. discriminate E.
  - destruct (Gillespie.Gillespie_SIS _ _ _ _ _ _ _ _ _) as [[[out st]|e] r']
      eqn:E.
    + exact (proj2 (proj2 (proj2 (trajectories_conserve_population 10 path2
                                    2 1 x None (Fin 10) None None false r)))
               _ _ _ E).
    + vm_compute in E. discriminate E.
Defined.

Lemma ListDict_remove_present self item :
  ListDict_wf self -> item ∈ items self ->
  exists self',
    ListDict.remove self item = (Ok tt, self') /\
    ListDict_wf self' /\
    (forall x, x ∈ items self' <-> x ∈ items self /\ x ≠ item).
Proof.
  intros Hwf Hin.
  destruct self as [pos its]. simpl in *.
  pose proof Hin as [p Hp]%list_elem_of_lookup.
  pose proof (proj2 (Hwf item p) Hp) as Hpos. simpl in Hpos.
  destruct (last its) as [last_item|] eqn:Hlast.
  2: { apply last_None in Hlast. subst its. by apply elem_of_nil in Hin. }
  pose proof (last_removelast _ _ Hlast) as Hits.
  set (init := removelast its) in *.
  assert (forall x i, pos !! x = Some i <-> (init ++ [last_item]) !! i = Some x)
    as F1.
  { intros x i. rewrite <- Hits. apply (Hwf x i). }
  assert (pos !! last_item = Some (length init)) as F2.
  { apply F1. by rewrite list_lookup_middle. }
  assert (forall x i, (i < length init)%nat ->
            pos !! x = Some i <-> init !! i = Some x) as F4.
  { intros x i Hi. rewrite F1. by rewrite lookup_app_l. }
  assert (forall x i, pos !! x = Some i ->
            (i < length init)%nat \/ (i = length init /\ x = last_item)) as F5.
  { intros x i Hx. destruct (decide (i < length init)%nat); [by left|right].
    apply F1 in Hx. apply lookup_lt_Some in Hx as Hlen.
    rewrite length_app in Hlen. simpl in Hlen.
    assert (i = length init) as -> by lia. split; [done|].
    rewrite list_lookup_middle in Hx by done. congruence. }
  unfold ListDict.remove. simpl. rewrite Hpos, Hlast. fold init.
  destruct (decide (p ≠ length init)) as [Hne|Heq].
  - assert (p < length init)%nat as Hlt.
    { destruct (F5 _ _ Hpos) as [?|[? ?]]; [done|congruence]. }
    rewrite decide_True by done.
    assert (item ≠ last_item) as Hil by congruence.
    eexists. split; [done|].
    assert (ListDict_wf
              (mkListDict (<[last_item:=p]> (delete item pos))
                          (<[p:=last_item]> init))) as Hwf'.
    { intros x i. simpl.
      destruct (decide (x = last_item)) as [->|Hxl].
      - rewrite lookup_insert_eq. split.
        + intros [= <-]. by rewrite list_lookup_insert_eq.
        + intros Hi. destruct (decide (i = p)) as [->|Hip]; [done|].
          rewrite list_lookup_insert_ne in Hi by done.
          apply lookup_lt_Some in Hi as Hlen. apply F4 in Hi; [|done].
          rewrite F2 in Hi. injection Hi as <-. lia.
      - rewrite lookup_insert_ne by done.
        destruct (decide (x = item)) as [->|Hxi].
        + rewrite lookup_delete_eq. split; [done|]. intros Hi.
          destruct (decide (i = p)) as [->|Hip].
          * rewrite list_lookup_insert_eq in Hi by done. congruence.
          * rewrite list_lookup_insert_ne in Hi by done.
            apply lookup_lt_Some in Hi as Hlen. apply F4 in Hi; [|done].
            congruence.
        + rewrite lookup_delete_ne by done.
          destruct (decide (i = p)) as [->|Hip].
          * rewrite list_lookup_insert_eq by done. split.
            -- intros Hx. apply F4 in Hx; [|done]. apply F4 in Hpos; [|done].
               congruence.
            -- congruence.
          * rewrite list_lookup_insert_ne by done. split.
            -- intros Hx. destruct (F5 _ _ Hx) as [?|[? ?]]; [|done].
               by apply F4.
            -- intros Hi. apply lookup_lt_Some in Hi as Hlen. by apply F4. }
    split; [done|]. intros x.
    rewrite (ListDict_wf_elem _ x Hwf'). simpl.
    rewrite (ListDict_wf_elem _ x Hwf). simpl.
    destruct (decide (x = last_item)) as [->|Hxl].
    + rewrite lookup_insert_eq, F2. split; [|eauto]. intros _. split; eauto.
    + rewrite lookup_insert_ne by done.
      destruct (decide (x = item)) as [->|Hxi].
      * rewrite lookup_delete_eq. split; [by intros [? ?]|]. by intros [_ ?].
      * rewrite lookup_delete_ne by done. tauto.
  - apply dec_stable in Heq. subst p.
    assert (item = last_item) as <-.
    { destruct (F5 _ _ Hpos) as [?|[? ?]]; [lia|done]. }
    eexists. split; [done|].
    assert (ListDict_wf (mkListDict (delete item pos) init)) as Hwf'.
    { intros x i. simpl.
      destruct (decide (x = item)) as [->|Hxi].
      - rewrite lookup_delete_eq. split; [done|]. intros Hi.
        apply lookup_lt_Some in Hi as Hlen. apply F4 in Hi; [|done].
        rewrite Hpos in Hi. injection Hi as <-. lia.
      - rewrite lookup_delete_ne by done. split.
        + intros Hx. destruct (F5 _ _ Hx) as [?|[? ?]]; [|done].
          by apply F4.
        + intros Hi. apply lookup_lt_Some in Hi as Hlen. by apply F4. }
    split; [done|]. intros x.
    rewrite (ListDict_wf_elem _ x Hwf'). simpl.
    rewrite (ListDict_wf_elem _ x Hwf). simpl.
    destruct (decide (x = item)) as [->|Hxi].
    + rewrite lookup_delete_eq. split; [by intros [? ?]|]. by intros [_ ?].
    + rewrite lookup_delete_ne by done. tauto.
Qed.

(** ** Total correctness, step by step *)

Section SucceedsFacts.
Context {St : Type}.

Lemma succeeds_ret {A} (a : A) (post : A -> St -> Prop) s :
  post a s -> succeeds (ret a) post s.
Proof. intros Hp. by exists a, s. Qed.

Lemma succeeds_bind {A C} (m : M St A) (k : A -> M St C) pre post s :
  succeeds m pre s ->
  (forall a s', pre a s' -> succeeds (k a) post s') ->
  succeeds (bind m k) post s.
Proof.
  intros (a & s' & Hm & Hpre) Hk.
  destruct (Hk a s' Hpre) as (c & s'' & Hka & Hpost).
  exists c, s''. split; [|done]. by rewrite (bind_Ok _ _ _ _ _ Hm).
Qed.

Lemma succeeds_mono {A} (m : M St A) (post post' : A -> St -> Prop) s :
  (forall a s', post a s' -> post' a s') ->
  succeeds m post s -> succeeds m post' s.
Proof. intros Himp (a & s' & Hm & Hp). exists a, s'. auto. Qed.

Lemma succeeds_returns {A} (m : M St A) (post : A -> St -> Prop) s :
  succeeds m post s -> returns m post s.
Proof. intros (a & s' & Hm & Hp). unfold returns. by rewrite Hm. Qed.

Lemma returns_bind_succeeds {A C} (m : M St A) (k : A -> M St C) pre post s :
  succeeds m pre s ->
  (forall a s', pre a s' -> returns (k a) post s') ->
  returns (bind m k) post s.
Proof.
  intros (a & s' & Hm & Hpre) Hk. unfold returns.
  rewrite (bind_Ok _ _ _ _ _ Hm). by apply Hk.
Qed.

Lemma succeeds_frame {A B} (f : St -> B) (m : M St A) post s :
  frame f m -> succeeds m post s ->
  succeeds m (fun a s' => post a s' /\ f s' = f s) s.
Proof.
  intros Hf (a & s' & Hm & Hp). exists a, s'. split; [done|]. split; [done|].
  specialize (Hf s). by rewrite Hm in Hf.
Qed.

Lemma succeeds_gets_then {A C} (g : St -> A) (k : A -> M St C) post s :
  succeeds (k (g s)) post s -> succeeds (bind (gets g) k) post s.
Proof. done. Qed.

Lemma succeeds_modify_then {C} (g : St -> St) (k : M St C) post s :
  succeeds k post (g s) -> succeeds (modify g ;; k) post s.
Proof. done. Qed.

(** A loop over distinct elements, with an invariant indexed by the
    elements already visited. *)
Lemma succeeds_for_prefix {A} (J : list A -> St -> Prop) (l : list A)
    (body : A -> M St unit) s :
  J [] s ->
  (forall done x rest s,
     l = done ++ x :: rest -> J done s ->
     succeeds (body x) (fun _ => J (done ++ [x])) s) ->
  succeeds (for_ l body) (fun _ => J l) s.
Proof.
  intros H0 Hstep.
  enough (forall rest done s,
            l = done ++ rest -> J done s ->
            succeeds (for_ rest body) (fun _ => J l) s) as Hgen.
  { by apply (Hgen l []). }
  clear s H0. intros rest. induction rest as [|x rest IH]; intros done s Hl Hd.
  - rewrite app_nil_r in Hl. subst. by apply succeeds_ret.
  - simpl. eapply succeeds_bind; [by eapply Hstep|].
    intros ? s' Hs'. apply (IH (done ++ [x])); [|done].
    by rewrite <- app_assoc.
Qed.

End SucceedsFacts.

(** ** Gillespie: the primitive operations on the strata *)

Section GillespieOps.
Import Gillespie.

Lemma group_of_insert m k ld k' :
  group_of (<[k := ld]> m) k' = if decide (k = k') then items ld
                                else group_of m k'.
Proof.
  unfold group_of. case_decide as Hk.
  - subst. by rewrite lookup_insert_eq.
  - by rewrite lookup_insert_ne.
Qed.

Lemma rg_wf_insert m k ld :
  rg_wf m -> ListDict_wf ld -> rg_wf (<[k := ld]> m).
Proof.
  intros Hm Hld k' ld'. destruct (decide (k = k')) as [->|Hne].
  - rewrite lookup_insert_eq. by intros [= <-].
  - rewrite lookup_insert_ne by done. apply Hm.
Qed.

Lemma status_read_then {C} v (k : status_t -> M state C) post s :
  (forall m, (forall w, status_of m w = G_status s w) ->
             succeeds (k (G_status s v)) post (set_status m s)) ->
  succeeds (bind (status_read v) k) post s.
Proof.
  intros Hk. unfold succeeds, bind, status_read, dd_read.
  unfold G_status, status_of in *.
  destruct (status s !! v) as [st|] eqn:E.
  - specialize (Hk (status s) (fun _ => eq_refl)). simpl in Hk.
    by destruct s.
  - apply Hk. intros w. destruct (decide (v = w)) as [->|Hne].
    + by rewrite lookup_insert_eq, E.
    + by rewrite lookup_insert_ne.
Qed.

Lemma count_read_then {C} v (k : Z -> M state C) post s :
  (forall m, (forall w, count_of m w = G_count s w) ->
             succeeds (k (G_count s v)) post
                      (set_infected_neighbor_count m s)) ->
  succeeds (bind (count_read v) k) post s.
Proof.
  intros Hk. unfold succeeds, bind, count_read, dd_read.
  unfold G_count, count_of in *.
  destruct (infected_neighbor_count s !! v) as [c|] eqn:E.
  - specialize (Hk (infected_neighbor_count s) (fun _ => eq_refl)).
    simpl in Hk. by destruct s.
  - apply Hk. intros w. destruct (decide (v = w)) as [->|Hne].
    + by rewrite lookup_insert_eq, E.
    + by rewrite lookup_insert_ne.
Qed.

Lemma count_write_then {C} v c (k : M state C) post s :
  (forall m, (forall w, count_of m w = if decide (w = v) then c
                                       else G_count s w) ->
             succeeds k post (set_infected_neighbor_count m s)) ->
  succeeds (count_write v c ;; k) post s.
Proof.
  intros Hk. apply Hk. intros w. unfold G_count, count_of. case_decide.
  - subst. by rewrite lookup_insert_eq.
  - by rewrite lookup_insert_ne.
Qed.

Lemma risk_group_remove_then {C} k v (cont : M state C) post s :
  rg_wf (risk_group s) -> v ∈ G_group s k ->
  (forall m, rg_wf m ->
     (forall w, w ∈ group_of m k <-> w ∈ G_group s k /\ w ≠ v) ->
     (forall k', k' ≠ k -> group_of m k' = G_group s k') ->
     succeeds cont post (set_risk_group m s)) ->
  succeeds (risk_group_remove k v ;; cont) post s.
Proof.
  intros Hwf Hv Hk. unfold G_group, group_of in Hv.
  destruct (risk_group s !! k) as [ld|] eqn:E;
    [|by apply elem_of_nil in Hv].
  destruct (ListDict_remove_present ld v (Hwf _ _ E) Hv)
    as (ld' & Hrem & Hwf' & Hmem).
  unfold succeeds, risk_group_remove, bind, dd_read, dd_write, modify, lift.
  rewrite E, Hrem. simpl.
  apply (Hk (<[k := ld']> (risk_group s))).
  - by apply rg_wf_insert.
  - intros w. rewrite group_of_insert, decide_True by done.
    unfold G_group, group_of. rewrite E. apply Hmem.
  - intros k' Hk'. by rewrite group_of_insert, decide_False.
Qed.

Lemma risk_group_add_then {C} k v (cont : M state C) post s :
  rg_wf (risk_group s) ->
  (forall m, rg_wf m ->
     (forall w, w ∈ group_of m k <-> w = v \/ w ∈ G_group s k) ->
     (forall k', k' ≠ k -> group_of m k' = G_group s k') ->
     succeeds cont post (set_risk_group m s)) ->
  succeeds (risk_group_add k v ;; cont) post s.
Proof.
  intros Hwf Hk.
  unfold succeeds, risk_group_add, bind, dd_read, dd_write, modify.
  destruct (risk_group s !! k) as [ld|] eqn:E; simpl.
  - apply (Hk (<[k := ListDict.add ld v]> (risk_group s))).
    + apply rg_wf_insert; [done|]. apply ListDict_wf_add; eauto.
    + intros w. rewrite group_of_insert, decide_True by done.
      unfold G_group, group_of. rewrite E.
      apply ListDict_add_elem. eauto.
    + intros k' Hk'. by rewrite group_of_insert, decide_False.
  - rewrite insert_insert_eq.
    apply (Hk (<[k := ListDict.add ListDict.init v]> (risk_group s))).
    + apply rg_wf_insert; [done|].
      apply ListDict_wf_add, ListDict_wf_init.
    + intros w. rewrite group_of_insert, decide_True by done.
      unfold G_group, group_of. rewrite E.
      rewrite ListDict_add_elem by apply ListDict_wf_init. simpl.
      rewrite elem_of_nil. tauto.
    + intros k' Hk'. by rewrite group_of_insert, decide_False.
Qed.

Lemma succeeds_assoc {St A B C} (m : M St A) (k : A -> M St B)
    (k' : B -> M St C) post s :
  succeeds (bind m (fun a => bind (k a) k')) post s ->
  succeeds (bind (bind m k) k') post s.
Proof.
  unfold succeeds, bind. by destruct (m s) as [[a|e] s'].
Qed.

Lemma succeeds_unit {St} (m : M St unit) (post : unit -> St -> Prop) s :
  succeeds (m ;; ret tt) post s -> succeeds m post s.
Proof.
  unfold succeeds, bind, ret. destruct (m s) as [[[]|e] s']; [done|].
  by intros (a & s'' & [=] & _).
Qed.

End GillespieOps.

(** ** Gillespie: moving a node between strata *)

Ltac gnorm :=
  unfold G_count, G_status, G_group in *;
  cbn [Gillespie.status Gillespie.infected Gillespie.infected_neighbor_count
       Gillespie.risk_group Gillespie.times Gillespie.S_ Gillespie.I_
       Gillespie.R_
       Gillespie.set_status Gillespie.set_infected
       Gillespie.set_infected_neighbor_count Gillespie.set_risk_group
       Gillespie.set_times Gillespie.set_S Gillespie.set_I Gillespie.set_R
       Gillespie.set_infection_times Gillespie.set_recovery_times
       Gillespie.set_total_trans_rate Gillespie.set_total_rec_rate
       Gillespie.set_total_rate Gillespie.set_next_time
       Gillespie.set_rand] in *.

Section GillespieStrata.
Import Gillespie.
Context (G : Graph).

Lemma succeeds_ret_then {St A C} (a : A) (k : A -> M St C) post s :
  succeeds (k a) post s -> succeeds (bind (ret a) k) post s.
Proof. done. Qed.

Lemma strata_ok_same T s s' :
  risk_group s' = risk_group s ->
  (forall w, G_status s' w = G_status s w) ->
  (forall w, G_count s' w = G_count s w) ->
  strata_ok G T s -> strata_ok G T s'.
Proof.
  intros Hrg Hst Hc [Hwf Hs]. split; [by rewrite Hrg|].
  intros k v. unfold G_group. rewrite Hrg, Hst, Hc. apply Hs.
Qed.

Lemma Infect_neighbor_spec T v s :
  strata_ok G T s ->
  (G_status s v = sS -> v ∈ G_nodes G /\ T v /\ (0 <= G_count s v)%Z) ->
  succeeds (Infect_neighbor v)
    (fun _ s' =>
       strata_ok G T s' /\
       (forall w, G_status s' w = G_status s w) /\
       infected s' = infected s /\
       (forall w, G_count s' w
                  = if decide (w = v /\ G_status s v = sS)
                    then (G_count s v + 1)%Z else G_count s w)) s.
Proof.
  intros Hstrata Hv. unfold Infect_neighbor.
  apply status_read_then. intros m0 Hm0.
  destruct (decide (G_status s v = sS)) as [HS|HnS].
  2: { apply succeeds_ret. split; [|split; [|split]]; try done.
       - by apply (strata_ok_same T s).
       - intros w. rewrite decide_False; [done|tauto]. }
  destruct (Hv HS) as (Hnode & HT & Hc). destruct Hstrata as [Hwf Hs].
  unfold strata_ok. gnorm.
  remember (count_of (infected_neighbor_count s) v) as c eqn:Ec.
  assert (forall m' s', (forall w, count_of m' w = G_count s w) ->
            rg_wf (risk_group s') ->
            (forall k w, w ∈ G_group s' k <->
                         w ∈ G_group s k /\ (k = c -> w <> v)) ->
            status s' = m0 -> infected s' = infected s ->
            succeeds
              ((let! c := count_read v in count_write v (c + 1)%Z) ;;
               let! c := count_read v in risk_group_add c v)
              (fun _ s'' =>
                 (rg_wf (risk_group s'') /\
                  forall k w, w ∈ G_group s'' k <->
                    (1 <= k)%Z /\ w ∈ G_nodes G /\ G_status s'' w = sS /\
                    G_count s'' w = k /\ T w) /\
                 (forall w, G_status s'' w = G_status s w) /\
                 infected s'' = infected s /\
                 (forall w, G_count s'' w
                            = if decide (w = v /\ sS = sS)
                              then (c + 1)%Z else G_count s w))
              (set_infected_neighbor_count m' s')) as Hrest.
  { intros m' s' Hm' Hwf' Hgrp' Hst' Hinf'.
    apply succeeds_assoc, count_read_then. intros m2 Hm2.
    apply count_write_then. intros m3 Hm3.
    apply count_read_then. intros m4 Hm4.
    apply succeeds_unit, risk_group_add_then; [by gnorm|].
    intros m5 Hwf5 Hin5 Hout5. apply succeeds_ret.
    gnorm. rewrite Hst'.
    assert (forall w, count_of m4 w = if decide (w = v) then (c + 1)%Z
                                      else count_of
                                             (infected_neighbor_count s) w)
      as Hcount.
    { intros w. rewrite Hm4, Hm3. case_decide; [by rewrite Hm', Ec|].
      by rewrite Hm2, Hm'. }
    assert (count_of m3 v = (c + 1)%Z) as Hcv.
    { rewrite Hm3, decide_True by done. by rewrite Hm', Ec. }
    rewrite Hcv in *.
    split; [|split; [|split]]; try done.
    - split; [done|]. intros k w. rewrite Hcount, Hm0.
      destruct (decide (k = c + 1)%Z) as [->|Hk].
      + rewrite Hin5, Hgrp', Hs.
        destruct (decide (w = v)) as [->|Hw].
        * split; [intros _; repeat split; try done; lia|by left].
        * split; [intros [?|[? _]]; [done|tauto]|].
          intros ?. right. split; [tauto|]. lia.
      + rewrite (Hout5 k Hk), Hgrp', Hs.
        destruct (decide (w = v)) as [->|Hw].
        * split; [|intros (_ & _ & _ & ? & _); lia].
          intros ((? & ? & ? & ? & ?) & Hne). exfalso. apply Hne; [|done].
          congruence.
        * tauto.
    - intros w. rewrite Hcount.
      destruct (decide (w = v)) as [->|Hw].
      + by rewrite decide_True.
      + rewrite decide_False; [done|tauto]. }
  rewrite HS.
  apply succeeds_assoc, count_read_then. intros m1 Hm1.
  gnorm. rewrite <- Ec.
  destruct (Z.ltb_spec 0 c) as [Hpos|Hzero].
  - apply succeeds_assoc, count_read_then. intros m2 Hm2.
    gnorm. rewrite Hm1, <- Ec.
    apply risk_group_remove_then; [by gnorm| |].
    { gnorm. apply Hs. repeat split; try done. lia. }
    intros m3 Hwf3 Hin3 Hout3.
    apply (Hrest m2 (set_risk_group m3 (set_status m0 s))); try done.
    + intros w. by rewrite Hm2, Hm1.
    + intros k w. gnorm. destruct (decide (k = c)) as [->|Hk].
      * rewrite Hin3. tauto.
      * rewrite (Hout3 k Hk). tauto.
  - apply succeeds_ret_then.
    apply (Hrest m1 (set_status m0 s)); try done.
    intros k w. gnorm. split; [|tauto]. intros Hw. split; [done|].
    intros -> ->. apply Hs in Hw as (? & _). lia.
Qed.

Lemma Initialize_neighbor_spec T v s :
  strata_ok G T s ->
  (G_status s v = sS -> v ∈ G_nodes G /\ T v /\ (0 <= G_count s v)%Z) ->
  succeeds (Initialize_neighbor v)
    (fun _ s' =>
       strata_ok G T s' /\
       (forall w, G_status s' w = G_status s w) /\
       infected s' = infected s /\
       (forall w, G_count s' w
                  = if decide (w = v /\ G_status s v = sS)
                    then (G_count s v + 1)%Z else G_count s w)) s.
Proof.
  intros Hstrata Hv. unfold Initialize_neighbor.
  apply status_read_then. intros m0 Hm0.
  destruct (decide (G_status s v = sS)) as [HS|HnS].
  2: { apply succeeds_ret. split; [|split; [|split]]; try done.
       - by apply (strata_ok_same T s).
       - intros w. rewrite decide_False; [done|tauto]. }
  destruct (Hv HS) as (Hnode & HT & Hc). destruct Hstrata as [Hwf Hs].
  unfold strata_ok. gnorm.
  remember (count_of (infected_neighbor_count s) v) as c eqn:Ec.
  rewrite HS.
  apply succeeds_assoc, count_read_then. intros m1 Hm1.
  apply count_write_then. intros m2 Hm2.
  apply succeeds_assoc, count_read_then. intros m3 Hm3.
  gnorm.
  assert (forall w, count_of m3 w = if decide (w = v) then (c + 1)%Z
                                    else count_of (infected_neighbor_count s) w)
    as Hcount3.
  { intros w. rewrite Hm3, Hm2. case_decide; [by rewrite Ec|].
    by rewrite Hm1. }
  assert (count_of m2 v = (c + 1)%Z) as Hcv.
  { rewrite Hm2, decide_True by done. by rewrite Ec. }
  rewrite Hcv.
  assert (forall s',
            (forall w, G_count s' w = count_of m3 w) ->
            rg_wf (risk_group s') ->
            (forall k w, w ∈ G_group s' k <->
                         w ∈ G_group s k /\ (k = c -> w <> v)) ->
            status s' = m0 -> infected s' = infected s ->
            succeeds
              (let! c := count_read v in risk_group_add c v)
              (fun _ s'' =>
                 (rg_wf (risk_group s'') /\
                  forall k w, w ∈ G_group s'' k <->
                    (1 <= k)%Z /\ w ∈ G_nodes G /\ G_status s'' w = sS /\
                    G_count s'' w = k /\ T w) /\
                 (forall w, G_status s'' w = G_status s w) /\
                 infected s'' = infected s /\
                 (forall w, G_count s'' w
                            = if decide (w = v /\ sS = sS)
                              then (c + 1)%Z else G_count s w))
              s') as Hrest.
  { intros s' Hc' Hwf' Hgrp' Hst' Hinf'.
    apply count_read_then. intros m4 Hm4.
    apply succeeds_unit, risk_group_add_then; [by gnorm|].
    intros m5 Hwf5 Hin5 Hout5. apply succeeds_ret.
    gnorm. rewrite Hst'.
    assert (forall w, count_of m4 w = if decide (w = v) then (c + 1)%Z
                                      else count_of
                                             (infected_neighbor_count s) w)
      as Hcount.
    { intros w. by rewrite Hm4, Hc', Hcount3. }
    rewrite Hc', Hcount3, decide_True in Hin5, Hout5 by done.
    split; [|split; [|split]]; try done.
    - split; [done|]. intros k w. rewrite Hcount, Hm0.
      destruct (decide (k = c + 1)%Z) as [->|Hk].
      + rewrite Hin5, Hgrp', Hs.
        destruct (decide (w = v)) as [->|Hw].
        * split; [intros _; repeat split; try done; lia|by left].
        * split; [intros [?|[? _]]; [done|tauto]|].
          intros ?. right. split; [tauto|]. lia.
      + rewrite (Hout5 k Hk), Hgrp', Hs.
        destruct (decide (w = v)) as [->|Hw].
        * split; [|intros (_ & _ & _ & ? & _); lia].
          intros ((? & ? & ? & ? & ?) & Hne). exfalso. apply Hne; [|done].
          congruence.
        * tauto.
    - intros w. rewrite Hcount.
      destruct (decide (w = v)) as [->|Hw].
      + by rewrite decide_True.
      + rewrite decide_False; [done|tauto]. }
  destruct (Z.ltb_spec 1 (c + 1)) as [Hpos|Hzero].
  - apply succeeds_assoc, count_read_then. intros m4 Hm4.
    gnorm. rewrite Hcount3, decide_True by done.
    replace (c + 1 - 1)%Z with c by lia.
    apply risk_group_remove_then; [by gnorm| |].
    { gnorm. apply Hs. repeat split; try done. lia. }
    intros m5 Hwf5 Hin5 Hout5.
    apply (Hrest (set_risk_group m5 (set_infected_neighbor_count m4
             (set_infected_neighbor_count m3
                (set_infected_neighbor_count m2
                   (set_infected_neighbor_count m1 (set_status m0 s)))))));
      try done.
    intros k w. gnorm. destruct (decide (k = c)) as [->|Hk].
    + rewrite Hin5. tauto.
    + rewrite (Hout5 k Hk). tauto.
  - apply succeeds_ret_then.
    apply (Hrest (set_infected_neighbor_count m3
                    (set_infected_neighbor_count m2
                       (set_infected_neighbor_count m1 (set_status m0 s)))));
      try done.
    intros k w. gnorm. split; [|tauto]. intros Hw. split; [done|].
    intros -> ->. apply Hs in Hw as (? & _). lia.
Qed.

(** Lowering the risk of a susceptible node with a positive count. *)
Lemma lower_risk_spec T v s :
  strata_ok G T s ->
  v ∈ G_nodes G -> T v -> G_status s v = sS -> (1 <= G_count s v)%Z ->
  succeeds (lower_risk v)
    (fun _ s' =>
       strata_ok G T s' /\
       status s' = status s /\
       infected s' = infected s /\
       (forall w, G_count s' w
                  = if decide (w = v) then (G_count s v - 1)%Z
                    else G_count s w)) s.
Proof.
  intros [Hwf Hs] Hnode HT HS Hc. unfold lower_risk.
  unfold strata_ok. gnorm.
  remember (count_of (infected_neighbor_count s) v) as c eqn:Ec.
  apply succeeds_assoc, count_read_then. intros m1 Hm1.
  gnorm. rewrite <- Ec.
  apply risk_group_remove_then; [by gnorm| |].
  { gnorm. apply Hs. by rewrite <- Ec. }
  intros m2 Hwf2 Hin2 Hout2.
  apply succeeds_assoc, count_read_then. intros m3 Hm3.
  gnorm. rewrite Hm1, <- Ec.
  apply count_write_then. intros m4 Hm4.
  apply count_read_then. intros m5 Hm5.
  gnorm.
  assert (forall w, count_of m5 w = if decide (w = v) then (c - 1)%Z
                                    else count_of (infected_neighbor_count s) w)
    as Hcount.
  { intros w. rewrite Hm5, Hm4. case_decide; [done|]. by rewrite Hm3, Hm1. }
  assert (count_of m4 v = (c - 1)%Z) as Hcv.
  { by rewrite Hm4, decide_True. }
  rewrite Hcv.
  assert (forall k w, w ∈ group_of m2 k <->
            w ∈ group_of (risk_group s) k /\ (k = c -> w <> v)) as Hgrp2.
  { intros k w. destruct (decide (k = c)) as [->|Hk].
    - rewrite Hin2. tauto.
    - rewrite (Hout2 k Hk). tauto. }
  destruct (Z.ltb_spec 0 (c - 1)) as [Hpos|Hzero].
  - apply count_read_then. intros m6 Hm6.
    gnorm. rewrite Hcount, decide_True by done.
    apply succeeds_unit, risk_group_add_then; [by gnorm|].
    intros m7 Hwf7 Hin7 Hout7. apply succeeds_ret. gnorm.
    split; [|split; [|split]]; try done.
    + split; [done|]. intros k w. rewrite Hm6, Hcount.
      destruct (decide (k = c - 1)%Z) as [->|Hk].
      * rewrite Hin7, Hgrp2, Hs.
        destruct (decide (w = v)) as [->|Hw].
        -- split; [intros _; repeat split; try done; lia|by left].
        -- split; [intros [?|[? _]]; [done|tauto]|].
           intros ?. right. split; [tauto|]. lia.
      * rewrite (Hout7 k Hk), Hgrp2, Hs.
        destruct (decide (w = v)) as [->|Hw].
        -- split; [|intros (_ & _ & _ & ? & _); lia].
           intros ((? & ? & ? & ? & ?) & Hne). exfalso. apply Hne; [|done].
           congruence.
        -- tauto.
    + intros w. by rewrite Hm6, Hcount.
  - apply succeeds_ret. gnorm.
    split; [|split; [|split]]; try done.
    split; [done|]. intros k w. rewrite Hcount, Hgrp2, Hs.
    destruct (decide (w = v)) as [->|Hw].
    + split; [|intros (? & _ & _ & ? & _); lia].
      intros ((? & ? & ? & ? & ?) & Hne). exfalso. apply Hne; [|done].
      congruence.
    + tauto.
Qed.

End GillespieStrata.

Section GillespieLoops.
Import Gillespie.
Context (G : Graph).

Lemma ind_True (P : Prop) `{Decision P} : P -> ind P = 1%Z.
Proof. intros HP. unfold ind. by rewrite decide_True. Qed.

Lemma ind_False (P : Prop) `{Decision P} : ~ P -> ind P = 0%Z.
Proof. intros HP. unfold ind. by rewrite decide_False. Qed.

(** A loop that raises the risk of the susceptible nodes among [vs]. *)
Lemma raise_loop_spec (body : node -> M state unit) T :
  (forall v s,
     strata_ok G T s ->
     (G_status s v = sS -> v ∈ G_nodes G /\ T v /\ (0 <= G_count s v)%Z) ->
     succeeds (body v)
       (fun _ s' =>
          strata_ok G T s' /\
          (forall w, G_status s' w = G_status s w) /\
          infected s' = infected s /\
          (forall w, G_count s' w
                     = if decide (w = v /\ G_status s v = sS)
                       then (G_count s v + 1)%Z else G_count s w)) s) ->
  forall vs s,
    NoDup vs -> strata_ok G T s ->
    (forall v, v ∈ vs -> G_status s v = sS ->
               v ∈ G_nodes G /\ T v /\ (0 <= G_count s v)%Z) ->
    succeeds (for_ vs body)
      (fun _ s' =>
         strata_ok G T s' /\
         (forall w, G_status s' w = G_status s w) /\
         infected s' = infected s /\
         (forall w, G_count s' w
                    = (G_count s w + ind (w ∈ vs /\ G_status s w = sS))%Z)) s.
Proof.
  intros Hbody vs s Hnd Hs Hvs.
  pose (J := fun (visited : list node) (s' : state) =>
              strata_ok G T s' /\
              (forall w, G_status s' w = G_status s w) /\
              infected s' = infected s /\
              (forall w, G_count s' w
                 = (G_count s w
                    + ind (w ∈ visited /\ G_status s w = sS))%Z)).
  apply (succeeds_for_prefix J); unfold J; clear J.
  - split; [done|]. split; [done|]. split; [done|]. intros w.
    rewrite ind_False; [lia|]. intros [Hw _]. by apply elem_of_nil in Hw.
  - intros visited x rest s' Hl (Hs' & Hst & Hinf & Hc).
    assert (x ∉ visited) as Hx.
    { rewrite Hl in Hnd. apply NoDup_app in Hnd as (_ & Hnd & _).
      intros Hin. apply (Hnd x Hin). by left. }
    assert (x ∈ vs) as Hxvs.
    { rewrite Hl. apply elem_of_app. right. by left. }
    assert (G_count s' x = G_count s x) as Hcx.
    { rewrite Hc, ind_False; [lia|tauto]. }
    eapply succeeds_mono; [|apply Hbody; [done|]].
    + intros _ s'' (Hs'' & Hst'' & Hinf'' & Hc'').
      split; [done|]. split; [intros w; by rewrite Hst''|].
      split; [congruence|]. intros w. rewrite Hc'', Hst, Hcx.
      destruct (decide (w = x)) as [->|Hw].
      * destruct (decide (G_status s x = sS)) as [HS|HnS].
        -- rewrite decide_True by done. rewrite ind_True; [done|].
           split; [|done]. apply elem_of_app. right. by left.
        -- rewrite decide_False by tauto. rewrite Hc.
           rewrite !ind_False; tauto.
      * rewrite decide_False by tauto. rewrite Hc. f_equal.
        unfold ind. apply decide_ext. rewrite elem_of_app.
        rewrite list_elem_of_singleton. tauto.
    + rewrite Hst, Hcx. by apply Hvs.
Qed.

Lemma Recover_SIR_neighbor_spec T v s :
  strata_ok G T s ->
  (G_status s v = sS -> v ∈ G_nodes G /\ T v /\ (1 <= G_count s v)%Z) ->
  succeeds (Recover_SIR_neighbor v)
    (fun _ s' =>
       strata_ok G T s' /\
       (forall w, G_status s' w = G_status s w) /\
       infected s' = infected s /\
       (forall w, G_count s' w
                  = if decide (w = v /\ G_status s v = sS)
                    then (G_count s v - 1)%Z else G_count s w)) s.
Proof.
  intros Hs Hv. unfold Recover_SIR_neighbor.
  apply status_read_then. intros m0 Hm0.
  destruct (decide (G_status s v = sS)) as [HS|HnS].
  2: { apply succeeds_ret. split; [|split; [|split]]; try done.
       - by apply (strata_ok_same G T s).
       - intros w. rewrite decide_False; [done|tauto]. }
  destruct (Hv HS) as (Hnode & HT & Hc).
  eapply succeeds_mono; [|apply (lower_risk_spec G T v)]; try done.
  - intros _ s' (Hs' & Hst' & Hinf' & Hc').
    split; [done|]. split; [|split; [done|]].
    + intros w. unfold G_status. rewrite Hst'. apply Hm0.
    + intros w. rewrite Hc'. gnorm.
      destruct (decide (w = v)) as [->|Hw].
      * by rewrite decide_True.
      * rewrite decide_False; [done|tauto].
  - by apply (strata_ok_same G T s).
  - gnorm. by rewrite Hm0.
Qed.

(** A loop that lowers the risk of the susceptible nodes among [vs]. *)
Lemma Recover_SIR_loop_spec T vs s :
  NoDup vs -> strata_ok G T s ->
  (forall v, v ∈ vs -> G_status s v = sS ->
             v ∈ G_nodes G /\ T v /\ (1 <= G_count s v)%Z) ->
  succeeds (for_ vs Recover_SIR_neighbor)
    (fun _ s' =>
       strata_ok G T s' /\
       (forall w, G_status s' w = G_status s w) /\
       infected s' = infected s /\
       (forall w, G_count s' w
                  = (G_count s w - ind (w ∈ vs /\ G_status s w = sS))%Z)) s.
Proof.
  intros Hnd Hs Hvs.
  pose (J := fun (visited : list node) (s' : state) =>
              strata_ok G T s' /\
              (forall w, G_status s' w = G_status s w) /\
              infected s' = infected s /\
              (forall w, G_count s' w
                 = (G_count s w
                    - ind (w ∈ visited /\ G_status s w = sS))%Z)).
  apply (succeeds_for_prefix J); unfold J; clear J.
  - split; [done|]. split; [done|]. split; [done|]. intros w.
    rewrite ind_False; [lia|]. intros [Hw _]. by apply elem_of_nil in Hw.
  - intros visited x rest s' Hl (Hs' & Hst & Hinf & Hc).
    assert (x ∉ visited) as Hx.
    { rewrite Hl in Hnd. apply NoDup_app in Hnd as (_ & Hnd & _).
      intros Hin. apply (Hnd x Hin). by left. }
    assert (x ∈ vs) as Hxvs.
    { rewrite Hl. apply elem_of_app. right. by left. }
    assert (G_count s' x = G_count s x) as Hcx.
    { rewrite Hc, ind_False; [lia|tauto]. }
    eapply succeeds_mono; [|apply Recover_SIR_neighbor_spec; [done|]].
    + intros _ s'' (Hs'' & Hst'' & Hinf'' & Hc'').
      split; [done|]. split; [intros w; by rewrite Hst''|].
      split; [congruence|]. intros w. rewrite Hc'', Hst, Hcx.
      destruct (decide (w = x)) as [->|Hw].
      * destruct (decide (G_status s x = sS)) as [HS|HnS].
        -- rewrite decide_True by done. rewrite ind_True; [done|].
           split; [|done]. apply elem_of_app. right. by left.
        -- rewrite decide_False by tauto. rewrite Hc.
           rewrite !ind_False; tauto.
      * rewrite decide_False by tauto. rewrite Hc. f_equal.
        unfold ind. apply decide_ext. rewrite elem_of_app.
        rewrite list_elem_of_singleton. tauto.
    + rewrite Hst, Hcx. by apply Hvs.
Qed.

Lemma strata_ok_untracked T r s s' :
  ~ T r ->
  risk_group s' = risk_group s ->
  (forall w, G_status s' w = G_status s w) ->
  (forall w, w ≠ r -> G_count s' w = G_count s w) ->
  strata_ok G T s -> strata_ok G T s'.
Proof.
  intros HT Hrg Hst Hc [Hwf Hs]. split; [by rewrite Hrg|].
  intros k v. unfold G_group. rewrite Hrg, Hst.
  destruct (decide (v = r)) as [->|Hv].
  - split; [|tauto]. intros Hin. apply Hs in Hin. tauto.
  - rewrite (Hc v Hv). apply Hs.
Qed.

Lemma Recover_SIS_neighbor_spec r v s :
  strata_ok G (fun w => w ≠ r) s ->
  (v ≠ r -> G_status s v ≠ sI ->
   v ∈ G_nodes G /\ G_status s v = sS /\ (1 <= G_count s v)%Z) ->
  succeeds (Recover_SIS_neighbor r v)
    (fun _ s' =>
       strata_ok G (fun w => w ≠ r) s' /\
       (forall w, G_status s' w = G_status s w) /\
       infected s' = infected s /\
       (forall w, G_count s' w
                  = (G_count s w
                     + ind (w = r /\ v ≠ r /\ G_status s v = sI)
                     - ind (w = v /\ v ≠ r /\ G_status s v ≠ sI))%Z)) s.
Proof.
  intros Hs Hv. unfold Recover_SIS_neighbor.
  destruct (decide (v = r)) as [->|Hvr].
  { apply succeeds_ret. split; [done|]. split; [done|]. split; [done|].
    intros w. rewrite !ind_False; [lia|tauto|tauto]. }
  apply status_read_then. intros m0 Hm0.
  destruct (decide (G_status s v = sI)) as [HI|HnI].
  - apply count_read_then. intros m1 Hm1.
    apply succeeds_unit, count_write_then. intros m2 Hm2.
    apply succeeds_ret. gnorm.
    split; [|split; [|split]]; try done.
    + apply (strata_ok_untracked _ r s); try done.
      * by intros Hr.
      * intros w Hw. gnorm. rewrite Hm2, decide_False by done.
        by rewrite Hm1.
    + intros w. rewrite Hm2. rewrite (ind_False (w = v /\ _)) by tauto.
      destruct (decide (w = r)) as [->|Hw].
      * rewrite ind_True by done. lia.
      * rewrite ind_False by tauto. rewrite Hm1. lia.
  - destruct (Hv Hvr HnI) as (Hnode & HS & Hc).
    eapply succeeds_mono;
      [|apply (lower_risk_spec G (fun w => w ≠ r) v)]; try done.
    + intros _ s' (Hs' & Hst' & Hinf' & Hc').
      split; [done|]. split; [|split; [done|]].
      * intros w. unfold G_status. rewrite Hst'. apply Hm0.
      * intros w. rewrite Hc'. gnorm.
        rewrite (ind_False (w = r /\ _)) by tauto.
        destruct (decide (w = v)) as [->|Hw].
        -- rewrite ind_True by done. lia.
        -- rewrite ind_False by tauto. lia.
    + by apply (strata_ok_same G _ s).
    + gnorm. by rewrite Hm0.
Qed.

Lemma Recover_SIS_loop_spec r vs s :
  NoDup vs -> strata_ok G (fun w => w ≠ r) s ->
  (forall v, v ∈ vs -> v ≠ r -> G_status s v ≠ sI ->
             v ∈ G_nodes G /\ G_status s v = sS /\ (1 <= G_count s v)%Z) ->
  succeeds (for_ vs (Recover_SIS_neighbor r))
    (fun _ s' =>
       strata_ok G (fun w => w ≠ r) s' /\
       (forall w, G_status s' w = G_status s w) /\
       infected s' = infected s /\
       (forall w, G_count s' w
          = (G_count s w
             + (if decide (w = r)
                then Z.of_nat
                       (length (filter (fun v => v ≠ r /\ G_status s v = sI)
                                       vs))
                else 0)
             - ind (w ∈ vs /\ w ≠ r /\ G_status s w ≠ sI))%Z)) s.
Proof.
  intros Hnd Hs Hvs.
  pose (J := fun (visited : list node) (s' : state) =>
       strata_ok G (fun w => w ≠ r) s' /\
       (forall w, G_status s' w = G_status s w) /\
       infected s' = infected s /\
       (forall w, G_count s' w
          = (G_count s w
             + (if decide (w = r)
                then Z.of_nat
                       (length (filter (fun v => v ≠ r /\ G_status s v = sI)
                                       visited))
                else 0)
             - ind (w ∈ visited /\ w ≠ r /\ G_status s w ≠ sI))%Z)).
  apply (succeeds_for_prefix J); unfold J; clear J.
  - split; [done|]. split; [done|]. split; [done|]. intros w.
    rewrite ind_False; [|intros [Hw _]; by apply elem_of_nil in Hw].
    simpl. case_decide; lia.
  - intros visited x rest s' Hl (Hs' & Hst & Hinf & Hc).
    assert (x ∉ visited) as Hx.
    { rewrite Hl in Hnd. apply NoDup_app in Hnd as (_ & Hnd & _).
      intros Hin. apply (Hnd x Hin). by left. }
    assert (x ∈ vs) as Hxvs.
    { rewrite Hl. apply elem_of_app. right. by left. }
    eapply succeeds_mono; [|apply Recover_SIS_neighbor_spec; [done|]].
    + intros _ s'' (Hs'' & Hst'' & Hinf'' & Hc'').
      split; [done|]. split; [intros w; by rewrite Hst''|].
      split; [congruence|]. intros w. rewrite Hc'', Hst, Hc.
      rewrite filter_app, length_app, Nat2Z.inj_add.
      assert (ind (w ∈ visited ++ [x] /\ w ≠ r /\ G_status s w ≠ sI)
              = (ind (w ∈ visited /\ w ≠ r /\ G_status s w ≠ sI)
                 + ind (w = x /\ x ≠ r /\ G_status s x ≠ sI))%Z) as ->.
      { destruct (decide (w = x)) as [->|Hw].
        - rewrite (ind_False (x ∈ visited /\ _)) by tauto.
          unfold ind. simpl. apply decide_ext.
          rewrite elem_of_app, list_elem_of_singleton. tauto.
        - rewrite (ind_False (w = x /\ _)) by tauto.
          rewrite Z.add_0_r. unfold ind. apply decide_ext.
          rewrite elem_of_app, list_elem_of_singleton. tauto. }
      destruct (decide (w = r)) as [->|Hw].
      * rewrite (ind_False (r = x /\ _))
          by (intros (? & ? & _); congruence).
        destruct (decide (x ≠ r /\ G_status s x = sI)) as [Hxi|Hxi].
        -- rewrite filter_cons_True by done. simpl.
           rewrite (ind_True (r = r /\ _)) by tauto. lia.
        -- rewrite filter_cons_False by done. simpl.
           rewrite (ind_False (r = r /\ _)) by tauto. lia.
      * rewrite (ind_False (w = r /\ _)) by tauto. lia.
    + intros Hxr HxI. rewrite Hst in HxI |- *.
      destruct (Hvs x Hxvs Hxr HxI) as (? & ? & ?).
      split; [done|]. split; [done|]. rewrite Hc.
      rewrite decide_False by done. rewrite ind_False by tauto. lia.
Qed.

End GillespieLoops.

(** ** Counting *)

Section Sums.
Context {A : Type}.
Implicit Types (f g : A -> Z) (l : list A).

Lemma sumZ_nil f : sumZ f [] = 0%Z.
Proof. done. Qed.

Lemma sumZ_cons f x l : sumZ f (x :: l) = (f x + sumZ f l)%Z.
Proof. done. Qed.

Lemma sumZ_app f l1 l2 : sumZ f (l1 ++ l2) = (sumZ f l1 + sumZ f l2)%Z.
Proof. induction l1 as [|x l1 IH]; simpl; lia. Qed.

Lemma sumZ_ext f g l :
  (forall x, x ∈ l -> f x = g x) -> sumZ f l = sumZ g l.
Proof.
  induction l as [|x l IH]; intros Hfg; simpl; [done|].
  rewrite Hfg by left. rewrite IH; [done|]. intros y Hy. apply Hfg. by right.
Qed.

Lemma sumZ_zero l : sumZ (fun _ => 0%Z) l = 0%Z.
Proof. induction l as [|x l IH]; simpl; lia. Qed.

Lemma sumZ_plus f g l :
  sumZ (fun x => (f x + g x)%Z) l = (sumZ f l + sumZ g l)%Z.
Proof. induction l as [|x l IH]; simpl; lia. Qed.

Lemma sumZ_scale c f l :
  sumZ (fun x => (c * f x)%Z) l = (c * sumZ f l)%Z.
Proof. induction l as [|x l IH]; simpl; lia. Qed.

Lemma sumZ_fmap {B} (h : B -> A) f (k : list B) :
  sumZ f (h <$> k) = sumZ (fun y => f (h y)) k.
Proof. induction k as [|y k IH]; csimpl; [done|]. by rewrite IH. Qed.

Lemma sumZ_Permutation f l1 l2 : l1 ≡ₚ l2 -> sumZ f l1 = sumZ f l2.
Proof. induction 1; simpl; lia. Qed.

Lemma length_filter_sumZ (P : A -> Prop) `{forall x, Decision (P x)} l :
  Z.of_nat (length (filter P l)) = sumZ (fun x => ind (P x)) l.
Proof.
  induction l as [|x l IH]; simpl; [done|]. unfold ind at 1.
  rewrite filter_cons. destruct (decide (P x)); simpl; lia.
Qed.

Lemma sumZ_single `{EqDecision A} (a : A) (c : Z) l :
  NoDup l ->
  sumZ (fun x => if decide (x = a) then c else 0%Z) l
  = if decide (a ∈ l) then c else 0%Z.
Proof.
  induction 1 as [|x l Hx Hnd IH]; [rewrite sumZ_nil|rewrite sumZ_cons].
  - rewrite decide_False; [done|]. apply not_elem_of_nil.
  - rewrite IH. destruct (decide (x = a)) as [->|Hxa].
    + rewrite (decide_False (P := a ∈ l)) by done.
      rewrite (decide_True (P := a ∈ a :: l)) by left. lia.
    + destruct (decide (a ∈ l)) as [Hin|Hnin].
      * rewrite (decide_True (P := a ∈ x :: l)) by (by right). lia.
      * rewrite (decide_False (P := a ∈ x :: l)); [lia|].
        intros [?|?]%elem_of_cons; [congruence|done].
Qed.

Lemma NoDup_same_length l1 l2 :
  NoDup l1 -> NoDup l2 -> (forall x, x ∈ l1 <-> x ∈ l2) ->
  length l1 = length l2.
Proof.
  intros H1 H2 H12. apply Permutation_length. by apply NoDup_Permutation.
Qed.

End Sums.

Lemma sumZ_exchange {A B} (h : A -> B -> Z) (l : list A) (k : list B) :
  sumZ (fun x => sumZ (fun y => h x y) k) l
  = sumZ (fun y => sumZ (fun x => h x y) l) k.
Proof.
  induction l as [|x l IH]; simpl.
  - by rewrite sumZ_zero.
  - by rewrite IH, sumZ_plus.
Qed.

Lemma sumZ_key {B} (a c : Z) (l : list (Z * B)) :
  NoDup (l.*1) ->
  sumZ (fun kl => if decide (kl.1 = a) then c else 0%Z) l
  = if decide (a ∈ l.*1) then c else 0%Z.
Proof.
  intros Hnd. rewrite <- (sumZ_single a c (l.*1) Hnd).
  by rewrite sumZ_fmap.
Qed.

Lemma sumZ_filter {A} (P : A -> Prop) `{forall x, Decision (P x)}
    (f : A -> Z) (l : list A) :
  sumZ f (filter P l) = sumZ (fun x => (ind (P x) * f x)%Z) l.
Proof.
  induction l as [|x l IH]; [done|]. rewrite filter_cons, sumZ_cons.
  unfold ind at 1. destruct (decide (P x)); rewrite ?sumZ_cons, IH; lia.
Qed.

Lemma length_flat_map_sumZ {A B} (F : A -> list B) (l : list A) :
  Z.of_nat (length (flat_map F l))
  = sumZ (fun x => Z.of_nat (length (F x))) l.
Proof.
  induction l as [|x l IH]; [done|]. simpl.
  rewrite length_app, Nat2Z.inj_add, IH. done.
Qed.

Lemma length_filter_within (P : node -> Prop) `{forall x, Decision (P x)}
    (l nodes : list node) :
  NoDup l -> NoDup nodes -> (forall x, x ∈ l -> x ∈ nodes) ->
  Z.of_nat (length (filter P l))
  = sumZ (fun x => ind (x ∈ l /\ P x)) nodes.
Proof.
  intros Hl Hn Hsub. rewrite <- length_filter_sumZ. f_equal.
  apply NoDup_same_length.
  - by apply NoDup_filter.
  - by apply NoDup_filter.
  - intros x. rewrite !list_elem_of_filter. split.
    + intros [HP Hx]. split; [by split|by apply Hsub].
    + intros [[Hx HP] _]. by split.
Qed.

Section GillespieCounting.
Import Gillespie.
Context (G : Graph).

Lemma risk_sum_sumZ rg :
  risk_sum rg
  = sumZ (fun kl => (kl.1 * Z.of_nat (length (items kl.2)))%Z)
         (map_to_list rg).
Proof.
  unfold risk_sum. induction (map_to_list rg) as [|[k ld] l IH]; [done|].
  csimpl. by rewrite IH.
Qed.

Lemma strata_sum s :
  NoDup (G_nodes G) ->
  strata_ok G (fun _ => True) s ->
  (forall v, v ∈ G_nodes G -> G_status s v = sS -> (0 <= G_count s v)%Z) ->
  risk_sum (risk_group s)
  = sumZ (fun v => (ind (G_status s v = sS) * G_count s v)%Z) (G_nodes G).
Proof.
  intros Hnd [Hwf Hs] Hc. rewrite risk_sum_sumZ.
  rewrite (sumZ_ext _
    (fun kl => sumZ (fun v =>
       (kl.1 * ind (G_status s v = sS /\ G_count s v = kl.1 /\ 1 <= kl.1))%Z)
       (G_nodes G))).
  2: { intros [k ld] Hkl. apply elem_of_map_to_list in Hkl. simpl.
       rewrite sumZ_scale. f_equal. rewrite <- length_filter_sumZ. f_equal.
       apply NoDup_same_length.
       - by apply ListDict_wf_NoDup, (Hwf k).
       - by apply NoDup_filter.
       - intros v. rewrite list_elem_of_filter.
         specialize (Hs k v). unfold G_group, group_of in Hs.
         rewrite Hkl in Hs. rewrite Hs. tauto. }
  rewrite sumZ_exchange. apply sumZ_ext. intros v Hv.
  rewrite (sumZ_ext _
    (fun kl => if decide (kl.1 = G_count s v)
               then (G_count s v
                     * ind (G_status s v = sS /\ 1 <= G_count s v))%Z
               else 0%Z)).
  2: { intros [k ld] _. simpl. case_decide as Hk.
       - subst k. f_equal. unfold ind. apply decide_ext. tauto.
       - rewrite ind_False; [lia|]. intros (_ & ? & _). congruence. }
  rewrite sumZ_key by apply NoDup_fst_map_to_list.
  destruct (decide (G_status s v = sS /\ (1 <= G_count s v)%Z))
    as [[HS Hpos]|Hno].
  - rewrite decide_True.
    + rewrite !ind_True by done. lia.
    + assert (v ∈ G_group s (G_count s v)) as Hin by (apply Hs; tauto).
      unfold G_group, group_of in Hin.
      destruct (risk_group s !! G_count s v) as [ld|] eqn:E;
        [|by apply elem_of_nil in Hin].
      apply list_elem_of_fmap. exists (G_count s v, ld). split; [done|].
      by apply elem_of_map_to_list.
  - rewrite (ind_False (_ /\ _)) by done.
    destruct (decide (G_status s v = sS)) as [HS|HnS].
    + specialize (Hc v Hv HS).
      assert (~ (1 <= G_count s v)%Z) as Hlt by tauto.
      assert (G_count s v = 0%Z) as -> by lia.
      case_decide; lia.
    + rewrite (ind_False (_ = _)) by done. case_decide; lia.
Qed.

Lemma pairs_sum (st : node -> status_t) :
  simple_graph G ->
  Z.of_nat (length (IS_pairs G st))
  = sumZ (fun v => (ind (st v = sS)
                    * Z.of_nat (infected_neighbors G st v))%Z) (G_nodes G).
Proof.
  intros [Hnd Hadj Hnodes Hsym]. unfold IS_pairs, infected_neighbors.
  rewrite length_flat_map_sumZ, sumZ_filter.
  rewrite (sumZ_ext _
    (fun u => sumZ (fun v =>
       (ind (st u = sI) * ind (v ∈ G_adj G u /\ st v = sS))%Z) (G_nodes G))).
  2: { intros u Hu. rewrite sumZ_scale. f_equal. rewrite length_fmap.
       apply length_filter_within; [done|done|].
       intros v Hv. by apply (Hnodes u v). }
  rewrite sumZ_exchange. apply sumZ_ext. intros v Hv.
  rewrite (length_filter_within _ _ (G_nodes G)); [|done|done|].
  2: { intros u Hu. by apply (Hnodes v u). }
  rewrite <- sumZ_scale. apply sumZ_ext. intros u Hu.
  unfold ind. repeat case_decide; try lia; exfalso; intuition eauto.
Qed.

(** At an iteration boundary the weighted size of the strata is the number
    of adjacent (infected, susceptible) pairs. *)
Lemma Gillespie_inv_pairs s :
  simple_graph G -> Gillespie_inv G s ->
  risk_sum (risk_group s) = Z.of_nat (length (IS_pairs G (G_status s))).
Proof.
  intros HG (Hs & Hc & _).
  rewrite strata_sum; [|apply HG|done|].
  - rewrite pairs_sum by done. apply sumZ_ext. intros v Hv.
    destruct (decide (G_status s v = sS)) as [HS|HnS].
    + by rewrite (Hc v Hv HS).
    + rewrite ind_False by done. lia.
  - intros v Hv HS. rewrite (Hc v Hv HS). lia.
Qed.

End GillespieCounting.

Section GillespieTransitions.
Import Gillespie.
Context (G : Graph).

Lemma Gillespie_inv_core s s' :
  G_core s' = G_core s -> Gillespie_inv G s -> Gillespie_inv G s'.
Proof.
  unfold G_core, Gillespie_inv, strata_ok, counts_ok, infected_ok.
  unfold G_group, G_count, G_status. by intros [= -> -> -> ->].
Qed.

Lemma no_recovered_core s s' :
  G_core s' = G_core s -> no_recovered s -> no_recovered s'.
Proof. unfold G_core, no_recovered, G_status. by intros [= -> _ _ _]. Qed.

Lemma strata_ok_groups T s s' :
  rg_wf (risk_group s') ->
  (forall k, G_group s' k = G_group s k) ->
  (forall w, G_status s' w = G_status s w) ->
  (forall w, G_count s' w = G_count s w) ->
  strata_ok G T s -> strata_ok G T s'.
Proof.
  intros Hwf Hrg Hst Hc [_ Hs]. split; [done|].
  intros k v. rewrite Hrg, Hst, Hc. apply Hs.
Qed.

Lemma infected_neighbors_ext (st st' : node -> status_t) v :
  (forall u, st u = st' u) ->
  infected_neighbors G st v = infected_neighbors G st' v.
Proof.
  intros Hst. unfold infected_neighbors. f_equal.
  apply list_filter_iff. intros u. by rewrite Hst.
Qed.

Lemma count_I_update (st : node -> status_t) r x (l : list node) :
  NoDup l ->
  Z.of_nat (length (filter (fun u => with_status st r x u = sI) l))
  = (Z.of_nat (length (filter (fun u => st u = sI) l))
     + ind (r ∈ l) * (ind (x = sI) - ind (st r = sI)))%Z.
Proof.
  induction 1 as [|u l Hu Hnd IH].
  - rewrite ind_False by apply not_elem_of_nil. simpl. lia.
  - assert (with_status st r x r = x) as Er.
    { unfold with_status. by rewrite decide_True. }
    rewrite !filter_cons.
    destruct (decide (u = r)) as [->|Hur].
    + rewrite (ind_True (r ∈ r :: l)) by left.
      rewrite (ind_False (r ∈ l)) in IH by done.
      unfold ind. repeat case_decide; simpl; try lia; congruence.
    + assert (with_status st r x u = st u) as Eu.
      { unfold with_status. by rewrite decide_False. }
      assert (ind (r ∈ u :: l) = ind (r ∈ l)) as ->.
      { unfold ind. apply decide_ext. rewrite elem_of_cons.
        split; [intros [?|?]; [congruence|done]|by right]. }
      repeat case_decide; simpl; try lia; congruence.
Qed.

Lemma infected_neighbors_update (st : node -> status_t) r x v :
  simple_graph G ->
  Z.of_nat (infected_neighbors G (with_status st r x) v)
  = (Z.of_nat (infected_neighbors G st v)
     + ind (v ∈ G_adj G r) * (ind (x = sI) - ind (st r = sI)))%Z.
Proof.
  intros HG. unfold infected_neighbors.
  rewrite count_I_update by apply HG. do 2 f_equal.
  unfold ind. apply decide_ext. split; apply HG.
Qed.

Lemma infected_neighbors_pos (st : node -> status_t) r v :
  st r = sI -> r ∈ G_adj G v -> (1 <= Z.of_nat (infected_neighbors G st v))%Z.
Proof.
  intros Hr Hin. unfold infected_neighbors.
  assert (r ∈ filter (fun u => st u = sI) (G_adj G v)) as Hf.
  { by apply list_elem_of_filter. }
  destruct (filter _ _); [by apply elem_of_nil in Hf|]. simpl. lia.
Qed.

End GillespieTransitions.

(** ** Gillespie: the initialisation establishes the invariant *)

Section GillespieInitialize.
Import Gillespie.
Context (G : Graph) (HG : simple_graph G).

Lemma succeeds_and_returns {St A} (m : M St A) (P Q : A -> St -> Prop) s :
  succeeds m P s -> returns m Q s ->
  succeeds m (fun a s' => P a s' /\ Q a s') s.
Proof.
  intros (a & s' & Hm & HP) HQ. exists a, s'.
  unfold returns in HQ. rewrite Hm in HQ. done.
Qed.

Lemma succeeds_lift_then {St A C} (a : A) (k : A -> M St C) post s :
  succeeds (k a) post s -> succeeds (bind (lift (Ok a)) k) post s.
Proof. done. Qed.

Lemma sumZ_nonneg {A} (f : A -> Z) (l : list A) :
  (forall x, (0 <= f x)%Z) -> (0 <= sumZ f l)%Z.
Proof.
  intros Hf. induction l as [|x l IH]; [by rewrite sumZ_nil|].
  rewrite sumZ_cons. specialize (Hf x). lia.
Qed.

Lemma ind_nonneg (P : Prop) `{Decision P} : (0 <= ind P)%Z.
Proof. unfold ind. case_decide; lia. Qed.

Lemma G_core_eq s s' :
  G_core s' = G_core s ->
  status s' = status s /\ infected s' = infected s /\
  infected_neighbor_count s' = infected_neighbor_count s /\
  risk_group s' = risk_group s.
Proof. unfold G_core. by intros [= -> -> -> ->]. Qed.

Lemma append_to_infection_times_spec v x s :
  succeeds (append_to infection_times set_infection_times v x)
    (fun _ s' => G_core s' = G_core s /\ Gillespie_traj s' = Gillespie_traj s)
    s.
Proof.
  unfold succeeds, append_to, bind, dd_read, dd_write, modify.
  destruct (infection_times s !! v); eexists tt, _; (split; [reflexivity|done]).
Qed.

Lemma append_to_recovery_times_spec v x s :
  succeeds (append_to recovery_times set_recovery_times v x)
    (fun _ s' => G_core s' = G_core s /\ Gillespie_traj s' = Gillespie_traj s)
    s.
Proof.
  unfold succeeds, append_to, bind, dd_read, dd_write, modify.
  destruct (recovery_times s !! v); eexists tt, _; (split; [reflexivity|done]).
Qed.

Lemma record_initial_spec us s :
  succeeds
    (for_ us (fun node =>
       append_to infection_times set_infection_times node (Fin 0)))
    (fun _ s' => G_core s' = G_core s) s.
Proof.
  apply (succeeds_for_prefix (fun _ s' => G_core s' = G_core s)); [done|].
  intros visited x rest s' _ Hs'.
  eapply succeeds_mono; [|apply append_to_infection_times_spec].
  intros ? s'' [Hc _]. congruence.
Qed.

Lemma mark_infected_spec us s :
  succeeds (for_ us (fun node => dd_write status set_status node sI))
    (fun _ s' =>
       exists m, s' = set_status m s /\
         forall w, status_of m w
                   = if decide (w ∈ us) then sI else G_status s w) s.
Proof.
  revert s. induction us as [|u us IH]; intros s.
  - exists tt, s. split; [done|]. exists (status s). split; [by destruct s|].
    intros w. by rewrite decide_False by apply not_elem_of_nil.
  - cbn [for_]. unfold dd_write at 1. apply succeeds_modify_then.
    eapply succeeds_mono; [|apply IH].
    intros ? s' (m & -> & Hm). exists m. split; [done|].
    intros w. rewrite Hm. gnorm. unfold status_of.
    destruct (decide (w = u)) as [->|Hwu].
    + rewrite lookup_insert_eq. rewrite (decide_True (P := u ∈ u :: us)) by left.
      by case_decide.
    + rewrite lookup_insert_ne by done.
      apply decide_ext. rewrite elem_of_cons. tauto.
Qed.

Lemma Initialize_loop_spec us s :
  NoDup us -> (forall u, u ∈ us -> u ∈ G_nodes G) ->
  strata_ok G (fun _ => True) s ->
  (forall w, G_count s w = 0%Z) ->
  succeeds
    (for_ us (fun node =>
       let! vs := lift (nx.neighbors G node) in
       for_ vs Initialize_neighbor))
    (fun _ s' =>
       strata_ok G (fun _ => True) s' /\
       (forall w, G_status s' w = G_status s w) /\
       infected s' = infected s /\
       (forall w, G_count s' w
          = sumZ (fun u => ind (w ∈ G_adj G u /\ G_status s w = sS)) us)) s.
Proof using HG.
  intros Hnd Hin Hst Hc.
  pose (J := fun (visited : list node) (s' : state) =>
    strata_ok G (fun _ => True) s' /\
    (forall w, G_status s' w = G_status s w) /\
    infected s' = infected s /\
    (forall w, G_count s' w
       = sumZ (fun u => ind (w ∈ G_adj G u /\ G_status s w = sS)) visited)).
  apply (succeeds_for_prefix J); unfold J; clear J.
  - split; [done|]. split; [done|]. split; [done|].
    intros w. by rewrite sumZ_nil.
  - intros visited u rest s' Hus (Hst' & Hs' & Hi' & Hc').
    assert (u ∈ G_nodes G) as Hu.
    { apply Hin. rewrite Hus. apply elem_of_app. right. left. }
    unfold nx.neighbors, nx.has_node. rewrite bool_decide_eq_true_2 by done.
    apply succeeds_lift_then.
    eapply succeeds_mono;
      [|apply (raise_loop_spec G Initialize_neighbor (fun _ => True))].
    + intros ? s'' (Hst'' & Hs'' & Hi'' & Hc'').
      split; [done|]. split; [intros w; by rewrite Hs''|].
      split; [congruence|].
      intros w. rewrite Hc'', Hc', sumZ_app, sumZ_cons, sumZ_nil, Hs'. lia.
    + intros v s0. apply Initialize_neighbor_spec.
    + apply HG.
    + done.
    + intros v Hv _. split; [by apply (adj_nodes G HG u v)|]. split; [done|].
      rewrite Hc'. apply sumZ_nonneg. intros x. apply ind_nonneg.
Qed.

Lemma Gillespie_Initialize_spec us full s :
  NoDup us -> (forall u, u ∈ us -> u ∈ G_nodes G) ->
  succeeds (_Gillespie_Initialize_ G us full)
    (fun _ s' =>
       Gillespie_inv G s' /\ no_recovered s' /\ infected s' = us /\
       forall w, G_status s' w = if decide (w ∈ us) then sI else sS) s.
Proof using HG.
  intros Hnd Hin. unfold _Gillespie_Initialize_.
  do 8 apply succeeds_modify_then.
  eapply succeeds_bind; [apply mark_infected_spec|].
  intros ? s1 (m & -> & Hm).
  eapply succeeds_bind; [apply Initialize_loop_spec; try done|].
  { split.
    - intros k ld. gnorm. by rewrite lookup_empty.
    - intros k v. gnorm. unfold group_of, count_of. rewrite !lookup_empty.
      split; [intros Hv; by apply elem_of_nil in Hv|].
      simpl. intros (Hk & _ & _ & Hc & _). lia. }
  intros ? s2 (Hst & Hs & Hi & Hc).
  assert (forall w, G_status s2 w = if decide (w ∈ us) then sI else sS)
    as Hstatus.
  { intros w. rewrite Hs. gnorm. rewrite Hm. unfold status_of.
    by rewrite lookup_empty. }
  assert (Gillespie_inv G s2 /\ no_recovered s2 /\ infected s2 = us /\
          forall w, G_status s2 w = if decide (w ∈ us) then sI else sS)
    as (Hinv & Hnr & Hinf & _).
  { split; [|split; [|split; [exact Hi|exact Hstatus]]].
    - split; [exact Hst|]. split.
      + intros v Hv Hsv. rewrite Hc. unfold infected_neighbors.
        rewrite <- length_filter_sumZ. f_equal.
        apply NoDup_same_length.
        * by apply NoDup_filter.
        * apply NoDup_filter, HG.
        * intros u. rewrite !list_elem_of_filter, Hstatus.
          rewrite <- Hs, Hsv.
          split.
          -- intros [[Hvu _] Hu]. split; [|by apply HG].
             by rewrite decide_True.
          -- intros [Hu Huv]. case_decide; [|done].
             split; [|done]. split; [by apply HG|done].
      + split; [by rewrite Hi|]. intros u Hu. rewrite Hi in Hu.
        split; [by apply Hin|]. rewrite Hstatus. by rewrite decide_True.
    - intros w. rewrite Hstatus. by case_decide. }
  destruct full.
  - eapply succeeds_mono; [|apply record_initial_spec].
    intros ? s3 Hcore. split; [by apply (Gillespie_inv_core G s2)|].
    split; [by apply (no_recovered_core s2)|].
    apply G_core_eq in Hcore as (E1 & E2 & _ & _).
    split; [congruence|]. intros w. unfold G_status. rewrite E1. apply Hstatus.
  - by apply succeeds_ret.
Qed.

End GillespieInitialize.

(** ** Gillespie: the handlers keep the invariant *)

Section MoreReturns.
Context {St : Type}.

Lemma returns_bind_returns_frame {A B C} (f : St -> B) (m : M St A)
    (k : A -> M St C) (P : A -> St -> Prop) post s :
  returns m P s -> frame f m ->
  (forall a s', P a s' -> f s' = f s -> returns (k a) post s') ->
  returns (bind m k) post s.
Proof.
  intros HP Hf Hk. unfold returns, bind in *. specialize (Hf s).
  destruct (m s) as [[a|e] s']; [|done]. by apply Hk.
Qed.

Lemma returns_assoc {A B C} (m : M St A) (k : A -> M St B)
    (k' : B -> M St C) post s :
  returns (bind m (fun a => bind (k a) k')) post s ->
  returns (bind (bind m k) k') post s.
Proof.
  unfold returns, bind. by destruct (m s) as [[a|e] s'].
Qed.

Lemma returns_ret_then {A C} (a : A) (k : A -> M St C) post s :
  returns (k a) post s -> returns (bind (ret a) k) post s.
Proof. done. Qed.

Lemma returns_last_of_then {A C} (get : St -> list A) (k : A -> M St C)
    post s :
  (forall x, last (get s) = Some x -> returns (k x) post s) ->
  returns (bind (last_of get) k) post s.
Proof.
  intros Hk. unfold returns, bind, last_of.
  destruct (last (get s)) as [x|] eqn:E; [|done]. by apply Hk.
Qed.

End MoreReturns.

Section IndexFacts.
Context {A : Type}.

Lemma index_Ok (l : list A) i x :
  random.index l i = Ok x ->
  exists j, random.position (length l) i = Ok j /\ l !! j = Some x.
Proof.
  unfold random.index. destruct (random.position _ _) as [j|e]; [|done].
  destruct (l !! j) eqn:E; [|done]. intros [= <-]. eauto.
Qed.

Lemma index_elem (l : list A) i x : random.index l i = Ok x -> x ∈ l.
Proof. intros (j & _ & Hj)%index_Ok. by eapply list_elem_of_lookup_2. Qed.

Lemma set_index_Ok (l : list A) i x l' :
  random.set_index l i x = Ok l' ->
  exists j, random.position (length l) i = Ok j /\ l' = <[j := x]> l.
Proof.
  unfold random.set_index. destruct (random.position _ _) as [j|e]; [|done].
  intros [= <-]. eauto.
Qed.

Lemma position_last n j :
  random.position n (-1) = Ok j -> j = (n - 1)%nat /\ (0 < n)%nat.
Proof.
  unfold random.position. change (-1 <? 0)%Z with true. cbv iota.
  destruct (Z.ltb_spec (Z.of_nat n + -1) 0); [done|].
  destruct (Z.leb_spec (Z.of_nat n) (Z.of_nat n + -1)); [done|].
  simpl. intros [= <-]. lia.
Qed.

Lemma swap_with_last_perm (l l1 l2 : list A) i a b r :
  random.index l (-1) = Ok a ->
  random.index l i = Ok b ->
  random.set_index l i a = Ok l1 ->
  random.set_index l1 (-1) b = Ok l2 ->
  last l2 = Some r ->
  l ≡ₚ r :: removelast l2.
Proof.
  intros (n1 & Hn1 & Ha)%index_Ok (j & Hj & Hb)%index_Ok
         (j' & Hj' & ->)%set_index_Ok (n2 & Hn2 & ->)%set_index_Ok Hlast.
  rewrite length_insert in Hn2.
  rewrite Hj in Hj'. injection Hj' as <-.
  apply position_last in Hn1 as [-> Hpos].
  apply position_last in Hn2 as [-> _].
  assert (<[(length l - 1)%nat := b]> (<[j := a]> l) ≡ₚ l) as Hperm.
  { destruct (decide (length l - 1 = j)%nat) as [<-|Hne].
    - rewrite Ha in Hb. injection Hb as <-.
      rewrite list_insert_insert_eq. by rewrite list_insert_id.
    - by apply insert_swap_perm. }
  etrans; [symmetry; exact Hperm|].
  etrans; [|apply (Permutation_app_comm (removelast _) [r])].
  by rewrite <- (last_removelast _ _ Hlast).
Qed.

End IndexFacts.

Section GillespieHandlers.
Import Gillespie.
Context (G : Graph) (HG : simple_graph G).

Ltac gcbn :=
  cbn [status infected infected_neighbor_count risk_group times S_ I_ R_
       set_status set_infected set_infected_neighbor_count set_risk_group
       set_times set_S set_I set_R set_infection_times set_recovery_times
       set_total_trans_rate set_total_rec_rate set_total_rate set_next_time
       set_rand] in *.

Lemma status_of_insert m r x w :
  status_of (<[r := x]> m) w = with_status (status_of m) r x w.
Proof.
  unfold status_of, with_status. case_decide.
  - subst. by rewrite lookup_insert_eq.
  - by rewrite lookup_insert_ne.
Qed.

Lemma count_of_insert m r c w :
  count_of (<[r := c]> m) w = if decide (w = r) then c else count_of m w.
Proof.
  unfold count_of. case_decide.
  - subst. by rewrite lookup_insert_eq.
  - by rewrite lookup_insert_ne.
Qed.

Lemma status_read_spec v s :
  succeeds (status_read v)
    (fun x s' => x = G_status s v /\
       exists m, s' = set_status m s /\
                 forall w, status_of m w = G_status s w) s.
Proof.
  assert (forall post, succeeds (bind (status_read v) ret) post s ->
                       succeeds (status_read v) post s) as Hret.
  { intros post. unfold succeeds, bind, ret.
    by destruct (status_read v s) as [[a|e] s']. }
  apply Hret, status_read_then. intros m Hm. apply succeeds_ret. eauto.
Qed.

Lemma risk_group_read_spec n s :
  rg_wf (risk_group s) ->
  succeeds (dd_read risk_group set_risk_group ListDict.init n)
    (fun ld s' => items ld = G_group s n /\
       exists m, s' = set_risk_group m s /\ rg_wf m /\
                 forall k, group_of m k = G_group s k) s.
Proof.
  intros Hwf. unfold succeeds, dd_read, G_group, group_of.
  destruct (risk_group s !! n) as [ld|] eqn:E.
  - exists ld, s. split; [done|]. split; [done|].
    exists (risk_group s). split; [by destruct s|]. done.
  - eexists _, _. split; [done|]. split; [done|].
    eexists. split; [done|]. split.
    + apply rg_wf_insert; [done|]. apply ListDict_wf_init.
    + intros k. destruct (decide (n = k)) as [->|Hne].
      * by rewrite lookup_insert_eq, E.
      * by rewrite lookup_insert_ne.
Qed.

Lemma risk_group_remove_spec k v s :
  rg_wf (risk_group s) -> v ∈ G_group s k ->
  succeeds (risk_group_remove k v)
    (fun _ s' =>
       exists m, s' = set_risk_group m s /\ rg_wf m /\
         (forall w, w ∈ group_of m k <-> w ∈ G_group s k /\ w ≠ v) /\
         (forall k', k' ≠ k -> group_of m k' = G_group s k')) s.
Proof.
  intros Hwf Hv. apply succeeds_unit, risk_group_remove_then; [done..|].
  intros m ? ? ?. apply succeeds_ret. eauto.
Qed.

Lemma choose_random_elem (ld : _ListDict_) (s : state) :
  returns (ListDict.choose_random ld) (fun x _ => x ∈ items ld) s.
Proof.
  unfold ListDict.choose_random, random.choice.
  apply (returns_bind_frame (fun _ => tt)); [done|].
  intros i s' _. unfold returns, lift.
  destruct (random.index (items ld) i) eqn:E; [|done].
  by apply index_elem in E.
Qed.

Lemma pop_random_infected_perm s :
  returns pop_random_infected
    (fun r s' => infected s ≡ₚ r :: infected s') s.
Proof.
  unfold pop_random_infected.
  apply (returns_bind_frame (fun s => s)); [solve_frame|].
  intros [] ? ->.
  apply returns_last_of_then. intros i _.
  apply (returns_bind_frame infected);
    [apply frame_randint0; intros ? ?; reflexivity|].
  intros index s1 Hs1.
  apply returns_gets_then. rewrite Hs1.
  apply returns_lift_then. intros x Hx.
  apply returns_lift_then. intros y Hy.
  apply returns_lift_then. intros l1 Hl1.
  apply returns_lift_then. intros l2 Hl2.
  apply returns_modify_then.
  apply returns_last_of_then. gcbn. intros r Hr.
  apply returns_modify_then. apply returns_ret. gcbn.
  by apply (swap_with_last_perm _ l1 l2 index x y r).
Qed.

Lemma track_recovered_spec r s :
  strata_ok G (fun w => w ≠ r) s -> r ∈ G_nodes G -> G_status s r = sS ->
  succeeds
    (let! c := count_read r in
     if (0 <? c)%Z then
       let! c := count_read r in
       risk_group_add c r
     else ret tt)
    (fun _ s' =>
       strata_ok G (fun _ => True) s' /\
       (forall w, G_status s' w = G_status s w) /\
       infected s' = infected s /\
       (forall w, G_count s' w = G_count s w)) s.
Proof.
  intros [Hwf Hs] Hn HS. unfold strata_ok. gnorm.
  remember (count_of (infected_neighbor_count s) r) as c eqn:Ec.
  apply count_read_then. intros m1 Hm1. gnorm. rewrite <- Ec.
  destruct (Z.ltb_spec 0 c) as [Hpos|Hzero].
  - apply count_read_then. intros m2 Hm2. gnorm. rewrite Hm1, <- Ec.
    apply succeeds_unit, risk_group_add_then; [by gnorm|].
    intros m3 Hwf3 Hin3 Hout3. apply succeeds_ret. gnorm.
    split; [|split; [|split]]; try done.
    + split; [done|]. intros k w. rewrite Hm2, Hm1.
      destruct (decide (k = c)) as [->|Hk].
      * rewrite Hin3, Hs. destruct (decide (w = r)) as [->|Hw].
        -- split; [|by left]. intros _.
           split; [lia|]. split; [done|]. split; [done|]. by split.
        -- split; [intros [?|?]; [done|tauto]|]. intros ?. right. tauto.
      * rewrite (Hout3 k Hk), Hs. destruct (decide (w = r)) as [->|Hw].
        -- split; [tauto|]. intros (_ & _ & _ & ? & _). congruence.
        -- tauto.
    + intros w. by rewrite Hm2, Hm1.
  - apply succeeds_ret. gnorm.
    split; [|split; [|split]]; try done.
    split; [done|]. intros k w. rewrite Hm1, Hs.
    destruct (decide (w = r)) as [->|Hw]; [|tauto].
    split; [tauto|]. intros (? & _ & _ & ? & _). lia.
Qed.

Lemma recovering_strata r x s s6 :
  Gillespie_inv G s -> G_status s r = sI -> x ≠ sI ->
  risk_group s6 = risk_group s ->
  (forall w, G_status s6 w = with_status (G_status s) r x w) ->
  (forall w, w ≠ r -> G_count s6 w = G_count s w) ->
  strata_ok G (fun w => w ≠ r) s6.
Proof.
  intros ([Hwf Hs] & _ & _) HrI Hx Hg Hst Hc. split; [by rewrite Hg|].
  intros k v. unfold G_group. rewrite Hg. fold (G_group s k).
  rewrite Hs, Hst. unfold with_status.
  destruct (decide (v = r)) as [->|Hv].
  - split; [|tauto]. intros (_ & _ & ? & _). congruence.
  - rewrite (Hc v Hv). tauto.
Qed.

Lemma recovering_infected_ok r x s s' :
  infected_ok G s ->
  infected s ≡ₚ r :: infected s' ->
  (forall w, G_status s' w = with_status (G_status s) r x w) ->
  infected_ok G s'.
Proof.
  intros [Hnd Hinf] Hperm Hst.
  rewrite Hperm in Hnd. apply NoDup_cons in Hnd as [Hr Hnd].
  split; [done|]. intros u Hu.
  assert (u ∈ infected s) as Hus by (rewrite Hperm; by right).
  destruct (Hinf u Hus) as [? ?]. split; [done|].
  rewrite Hst. unfold with_status. rewrite decide_False; [done|].
  intros ->. done.
Qed.

Lemma Gillespie_Recover_SIS_inv t full s :
  Gillespie_inv G s -> no_recovered s ->
  returns (_Gillespie_Recover_SIS_ G t full)
    (fun _ s' => Gillespie_inv G s' /\ no_recovered s') s.
Proof using HG.
  intros Hinv Hnr. unfold _Gillespie_Recover_SIS_.
  apply (returns_bind_returns_frame
           (fun s => (status s, infected_neighbor_count s, risk_group s))
           _ _ _ _ _ (pop_random_infected_perm s)).
  { apply frame_pop_random_infected; intros ? ?; reflexivity. }
  intros r s1 Hperm [= Es Ec Eg].
  assert (r ∈ infected s) as Hr by (rewrite Hperm; left).
  destruct Hinv as (Hst & Hc & Hio).
  destruct (proj2 Hio r Hr) as [Hrn HrI].
  apply returns_append_then. intros i _.
  unfold dd_write at 1. apply returns_modify_then.
  apply returns_append_then. intros s_ _.
  apply returns_modify_then.
  unfold count_write, dd_write at 1. apply returns_modify_then.
  apply returns_lift_then. intros vs Evs.
  unfold nx.neighbors in Evs. destruct (nx.has_node G r); [|done].
  injection Evs as <-.
  match goal with |- returns _ _ ?x => remember x as s6 eqn:E6 end.
  assert (forall w, G_status s6 w = with_status (G_status s) r sS w) as H6s.
  { intros w. subst s6. unfold G_status. gcbn.
    by rewrite status_of_insert, Es. }
  assert (forall w, G_count s6 w = if decide (w = r) then 0%Z
                                   else G_count s w) as H6c.
  { intros w. subst s6. unfold G_count. gcbn.
    by rewrite count_of_insert, Ec. }
  assert (risk_group s6 = risk_group s) as H6g by (by subst s6).
  assert (infected s6 = infected s1) as H6i by (by subst s6).
  clear E6.
  eapply returns_bind_succeeds.
  { apply (Recover_SIS_loop_spec G r).
    - apply HG.
    - apply (recovering_strata r sS s); try done.
      intros w Hw. by rewrite H6c, decide_False.
    - intros v Hv Hvr HvI. rewrite H6s in HvI |- *.
      rewrite H6c, decide_False by done.
      unfold with_status in HvI |- *.
      rewrite decide_False in HvI by done. rewrite decide_False by done.
      assert (v ∈ G_nodes G) as Hvn by (by apply (adj_nodes G HG r v)).
      assert (G_status s v = sS) as HvS.
      { specialize (Hnr v). by destruct (G_status s v). }
      split; [done|]. split; [done|]. rewrite (Hc v Hvn HvS).
      apply (infected_neighbors_pos G _ r); [done|]. by apply HG. }
  intros ? s7 (Hst7 & Hs7 & Hi7 & Hc7).
  eapply returns_bind_succeeds.
  { apply (track_recovered_spec r s7); [done|done|].
    rewrite Hs7, H6s. unfold with_status. by rewrite decide_True. }
  intros ? s8 (Hst8 & Hs8 & Hi8 & Hc8).
  assert (forall w, G_status s8 w = with_status (G_status s) r sS w) as H8s.
  { intros w. by rewrite Hs8, Hs7, H6s. }
  assert (Gillespie_inv G s8 /\ no_recovered s8) as [Hinv8 Hnr8].
  { split.
    - split; [done|]. split.
      + intros v Hvn HvS.
        rewrite (infected_neighbors_ext G _ _ v H8s).
        rewrite Hc8, Hc7, H6c. rewrite H8s in HvS. unfold with_status in HvS.
        destruct (decide (v = r)) as [->|Hvr].
        * rewrite ind_False by tauto. unfold infected_neighbors.
          rewrite Z.add_0_l, Z.sub_0_r. do 2 f_equal.
          apply list_filter_iff. intros u. rewrite H6s.
          unfold with_status. case_decide; [|tauto].
          split; [tauto|done].
        * rewrite infected_neighbors_update by done.
          rewrite (Hc v Hvn HvS).
          rewrite (ind_False (sS = sI)) by done.
          rewrite (ind_True (G_status s r = sI)) by done.
          assert (ind (v ∈ G_adj G r /\ v ≠ r /\ G_status s6 v ≠ sI)
                  = ind (v ∈ G_adj G r)) as ->.
          { unfold ind. apply decide_ext. rewrite H6s. unfold with_status.
            rewrite decide_False by done. rewrite HvS. split; [tauto|].
            intros ?. split; [done|]. split; [done|]. done. }
          lia.
      + apply (recovering_infected_ok r sS s); [done| |done].
        by rewrite Hi8, Hi7, H6i.
    - intros w. rewrite H8s. unfold with_status. case_decide; [done|].
      apply Hnr. }
  destruct full.
  - eapply returns_mono;
      [|apply succeeds_returns, append_to_recovery_times_spec].
    intros ? s9 [Hcore _].
    split; [by apply (Gillespie_inv_core G s8)|by apply (no_recovered_core s8)].
  - by apply returns_ret.
Qed.

Lemma Infect_neighbors_inv rcp n s mid :
  Gillespie_inv G s -> rcp ∈ G_group s n ->
  (forall w, G_status mid w = with_status (G_status s) rcp sI w) ->
  (forall w, G_count mid w = G_count s w) ->
  rg_wf (risk_group mid) ->
  (forall w, w ∈ G_group mid n <-> w ∈ G_group s n /\ w ≠ rcp) ->
  (forall k, k ≠ n -> G_group mid k = G_group s k) ->
  infected mid = infected s ++ [rcp] ->
  returns (let! vs := lift (nx.neighbors G rcp) in for_ vs Infect_neighbor)
    (fun _ s' => Gillespie_inv G s' /\ (no_recovered s -> no_recovered s'))
    mid.
Proof using HG.
  intros (Hst & Hco & Hio) Hrcp Hs Hc Hwf Hin Hout Hi.
  destruct (proj1 (proj2 Hst n rcp) Hrcp) as (Hn & Hrn & HrS & Hrc & _).
  apply returns_lift_then. intros vs Evs.
  unfold nx.neighbors in Evs. destruct (nx.has_node G rcp); [|done].
  injection Evs as <-.
  eapply returns_mono;
    [|apply succeeds_returns,
            (raise_loop_spec G Infect_neighbor (fun _ => True))].
  - intros ? s' (Hst' & Hs' & Hi' & Hc').
    assert (forall w, G_status s' w = with_status (G_status s) rcp sI w)
      as Hs''.
    { intros w. by rewrite Hs', Hs. }
    split; [split; [done|split]|].
    + intros v Hvn HvS.
      rewrite (infected_neighbors_ext G _ _ v Hs'').
      rewrite infected_neighbors_update by done.
      rewrite Hc', Hc. rewrite Hs'' in HvS. unfold with_status in HvS.
      destruct (decide (v = rcp)) as [->|Hv]; [done|].
      rewrite (Hco v Hvn HvS).
      rewrite (ind_True (sI = sI)) by done.
      rewrite (ind_False (G_status s rcp = sI)) by congruence.
      assert (ind (v ∈ G_adj G rcp /\ G_status mid v = sS)
              = ind (v ∈ G_adj G rcp)) as ->.
      { unfold ind. apply decide_ext. rewrite Hs. unfold with_status.
        rewrite decide_False by done. tauto. }
      lia.
    + unfold infected_ok. rewrite Hi', Hi. destruct Hio as [Hnd Hinf]. split.
      * apply NoDup_app. split; [done|]. split; [|apply NoDup_singleton].
        intros u Hu ->%list_elem_of_singleton.
        destruct (Hinf rcp Hu). congruence.
      * intros u [Hu| ->%list_elem_of_singleton]%elem_of_app.
        -- destruct (Hinf u Hu) as [? HuI]. split; [done|].
           rewrite Hs''. unfold with_status. by case_decide.
        -- split; [done|]. rewrite Hs''. unfold with_status.
           by rewrite decide_True.
    + intros Hnr w. rewrite Hs''. unfold with_status.
      case_decide; [done|apply Hnr].
  - intros v s0. apply Infect_neighbor_spec.
  - apply HG.
  - split; [done|]. intros k v. rewrite Hs, Hc. unfold with_status.
    destruct (decide (k = n)) as [->|Hk].
    + rewrite Hin, (proj2 Hst).
      destruct (decide (v = rcp)) as [->|Hv]; [|tauto].
      split; [tauto|]. intros (_ & _ & ? & _). done.
    + rewrite (Hout k Hk), (proj2 Hst).
      destruct (decide (v = rcp)) as [->|Hv]; [|tauto].
      split; [|intros (_ & _ & ? & _); done].
      intros (_ & _ & _ & ? & _). congruence.
  - intros v Hv HvS. rewrite Hs in HvS. unfold with_status in HvS.
    destruct (decide (v = rcp)) as [->|Hvr]; [done|].
    assert (v ∈ G_nodes G) as Hvn by (by apply (adj_nodes G HG rcp v)).
    split; [done|]. split; [done|]. rewrite Hc, (Hco v Hvn HvS). lia.
Qed.

Lemma Gillespie_Infect_inv t SIR s :
  Gillespie_inv G s ->
  returns (_Gillespie_Infect_ G t SIR)
    (fun _ s' => Gillespie_inv G s' /\ (no_recovered s -> no_recovered s')) s.
Proof using HG.
  intros Hinv. unfold _Gillespie_Infect_.
  apply (returns_bind_frame G_core);
    [apply frame_random; intros ? ?; reflexivity|].
  intros u s1 Hcore.
  apply G_core_eq in Hcore as (Es1 & Ei1 & Ec1 & Eg1).
  apply returns_gets_then.
  destruct (scan _ _ _ _) as [n|]; [|apply returns_raise].
  eapply returns_bind_succeeds.
  { apply risk_group_read_spec. rewrite Eg1. apply Hinv. }
  intros ld s2 (Hld & m2 & -> & Hwf2 & Hm2).
  apply (returns_bind_returns_frame G_core _ _ _ _ _
           (choose_random_elem ld _)).
  { unfold ListDict.choose_random. apply frame_choice; intros ? ?; reflexivity. }
  intros rcp s3 Hrcp Hcore3.
  apply G_core_eq in Hcore3 as (Es3 & Ei3 & Ec3 & Eg3). gcbn.
  assert (rcp ∈ G_group s n) as Hmem.
  { rewrite Hld in Hrcp. unfold G_group in *. by rewrite Eg1 in Hrcp. }
  destruct (proj1 (proj2 (proj1 Hinv) n rcp) Hmem)
    as (Hn & Hrn & HrS & Hrc & _).
  apply returns_assoc.
  eapply returns_bind_succeeds; [apply status_read_spec|].
  intros x s4 (-> & m4 & -> & Hm4).
  assert (G_status s3 rcp = sS) as ->.
  { unfold G_status. by rewrite Es3, Es1. }
  rewrite bool_decide_eq_true_2 by done. unfold assert.
  apply returns_ret_then.
  eapply returns_bind_succeeds.
  { apply (risk_group_remove_spec n rcp).
    - gcbn. by rewrite Eg3.
    - unfold G_group in *. gcbn. rewrite Eg3, Hm2. by rewrite Eg1. }
  intros ? s5 (m5 & -> & Hwf5 & Hin5 & Hout5).
  unfold G_group in Hin5, Hout5. gcbn.
  rewrite Eg3 in Hin5, Hout5.
  apply returns_modify_then.
  eapply returns_bind_succeeds; [apply append_to_infection_times_spec|].
  intros ? s7 [Hcore7 _].
  apply G_core_eq in Hcore7 as (Es7 & Ei7 & Ec7 & Eg7). gcbn.
  unfold dd_write at 1. apply returns_modify_then.
  apply returns_append_then. intros s_ _.
  apply returns_append_then. intros i_ _.
  apply returns_modify_then.
  destruct SIR;
    [apply returns_append_then; intros r_ _|apply returns_ret_then];
    (apply (Infect_neighbors_inv rcp n s); [done|done|..]).
  all: unfold G_status, G_count, G_group; gcbn.
  all: try rewrite Es7; try rewrite Ec7; try rewrite Eg7; try rewrite Ei7.
  1,7: intros w; rewrite status_of_insert; unfold with_status;
       case_decide; [done|]; rewrite Hm4; unfold G_status;
       by rewrite Es3, Es1.
  1,6: intros w; by rewrite Ec3, Ec1.
  1,5: done.
  1,4: intros w; rewrite Hin5, Hm2; unfold G_group; by rewrite Eg1.
  1,3: intros k Hk; rewrite (Hout5 k Hk), Hm2; unfold G_group;
       by rewrite Eg1.
  all: by rewrite Ei3, Ei1.
Qed.

End GillespieHandlers.

(** ** Gillespie SIS: the strata count the infected-susceptible pairs *)

Lemma path2_simple : simple_graph path2.
Proof.
  split.
  - apply (bool_decide_unpack _). by vm_compute.
  - intros u. unfold path2. simpl. repeat case_decide.
    + apply NoDup_singleton.
    + apply NoDup_singleton.
    + apply NoDup_nil_2.
  - intros u v. unfold path2. simpl.
    repeat case_decide; subst;
      rewrite ?list_elem_of_singleton, ?elem_of_nil; try tauto;
      intros ->; split; (apply (bool_decide_unpack _); by vm_compute).
  - intros u v. unfold path2. simpl.
    repeat case_decide; subst;
      rewrite ?list_elem_of_singleton, ?elem_of_nil; try tauto; try lia;
      intros ->; done.
Qed.

Section GillespieSIS.
Import Gillespie.
Context (G : Graph) (HG : simple_graph G).

Lemma SIS_inv_frame {A} (m : M state A) s :
  frame G_core m -> Gillespie_inv G s /\ no_recovered s ->
  returns m (fun _ s' => Gillespie_inv G s' /\ no_recovered s') s.
Proof.
  intros Hm [Hi Hn]. apply (returns_of_frame G_core); [done|].
  intros s' E.
  split; [by apply (Gillespie_inv_core G s)|by apply (no_recovered_core s)].
Qed.

Lemma SIS_iteration_inv tau gamma full s :
  Gillespie_inv G s /\ no_recovered s ->
  returns (SIS_iteration G tau gamma full)
    (fun _ s' => Gillespie_inv G s' /\ no_recovered s') s.
Proof using HG.
  intros [Hi Hn]. unfold SIS_iteration.
  apply (returns_bind_frame G_core); [solve_frame|]. intros u s1 E1.
  assert (Gillespie_inv G s1) as Hi1 by (by apply (Gillespie_inv_core G s)).
  assert (no_recovered s1) as Hn1 by (by apply (no_recovered_core s)).
  do 3 apply returns_gets_then.
  apply returns_bind.
  eapply (returns_mono _
            (fun _ s' => Gillespie_inv G s' /\ no_recovered s')).
  { intros ? s' Hs'. apply SIS_inv_frame; [|done].
    unfold update_rates. solve_frame. }
  destruct (Qltb _ _).
  - apply returns_bind. eapply returns_mono;
      [|by apply Gillespie_Recover_SIS_inv].
    intros ? s' Hs'. apply SIS_inv_frame; [solve_frame|done].
  - eapply returns_mono; [|by apply Gillespie_Infect_inv].
    intros ? s' [? Hs']. auto.
Qed.

Lemma prepare_inv tau gamma us full s :
  NoDup us -> (forall u, u ∈ us -> u ∈ G_nodes G) ->
  returns (prepare G tau gamma us full)
    (fun _ s' => Gillespie_inv G s' /\ no_recovered s') s.
Proof using HG.
  intros Hnd Hin. unfold prepare.
  eapply returns_bind_succeeds; [by apply Gillespie_Initialize_spec|].
  intros ? s1 (Hi & Hn & _). apply SIS_inv_frame; [solve_frame|done].
Qed.

Lemma Gillespie_SIS_boundary_inv tau gamma us full tmax s0 s :
  NoDup us -> (forall u, u ∈ us -> u ∈ G_nodes G) ->
  Gillespie_SIS_boundary G tau gamma us full tmax s0 s ->
  Gillespie_inv G s /\ no_recovered s.
Proof using HG.
  intros Hnd Hin. induction 1 as [s E|s s' _ IH _ E].
  - exact (returns_Ok _ _ _ _ _ (prepare_inv tau gamma us full s0 Hnd Hin) E).
  - exact (returns_Ok _ _ _ _ _ (SIS_iteration_inv tau gamma full s IH) E).
Qed.

Lemma returns_bind_Ok {St A C} (m : M St A) (k : A -> M St C) post s a s' :
  m s = (Ok a, s') -> returns (k a) post s' -> returns (bind m k) post s.
Proof. intros E Hk. unfold returns. by rewrite (bind_Ok _ _ _ _ _ E). Qed.

Lemma choose_initial_infecteds_lists {St} `{HasRandom St} x us (s : St) :
  lists_initial G x us ->
  choose_initial_infecteds G (Some x) None s = (Ok (an_iterable us), s).
Proof.
  destruct x as [u|l]; simpl.
  - intros [Hu ->]. unfold nx.has_node. by rewrite bool_decide_eq_true_2.
  - by intros ->.
Qed.

Lemma Gillespie_SIS_body_inv fuel tau gamma x us tmax full s :
  NoDup us -> (forall u, u ∈ us -> u ∈ G_nodes G) ->
  lists_initial G x us ->
  returns (Gillespie_SIS_body fuel G tau gamma (Some x) None tmax full)
    (fun _ s' => Gillespie_inv G s' /\ no_recovered s') s.
Proof using HG.
  intros Hnd Hin Hx. unfold Gillespie_SIS_body.
  eapply returns_bind_Ok; [by apply choose_initial_infecteds_lists|].
  apply returns_lift_then. intros us' [= <-].
  apply returns_bind.
  eapply returns_mono; [|by apply (prepare_inv tau gamma us full)].
  intros ? s2 Hs2. apply returns_bind.
  eapply returns_mono;
    [|apply (while_returns _ _ _
               (fun s' => Gillespie_inv G s' /\ no_recovered s'))].
  - intros ? s3 Hs3. apply returns_gets_then. by apply returns_ret.
  - intros s' Hs'. by apply SIS_iteration_inv.
  - done.
Qed.

End GillespieSIS.

(** C5. In [Gillespie_SIS] on a graph (undirected, without parallel edges;
    self-loops are allowed) with distinct initial infecteds that are nodes
    of the graph, [sum(n*len(risk_group[n]))] equals the number of adjacent
    (infected, susceptible) pairs of nodes at every iteration boundary of
    the main loop: after the initialisation and after each infection or
    recovery step; in particular in the state in which a call that returns
    has left the loop. *)
Theorem risk_groups_count_infected_susceptible_pairs (G : Graph)
    (tau gamma : Q) (us : list node) (full : bool) (tmax : num) :
  simple_graph G -> NoDup us -> (forall u, u ∈ us -> u ∈ G_nodes G) ->
  (forall s0 s,
     Gillespie_SIS_boundary G tau gamma us full tmax s0 s ->
     risk_groups_count_pairs G s) /\
  (forall fuel x r out s,
     lists_initial G x us ->
     Gillespie.Gillespie_SIS_body fuel G tau gamma (Some x) None tmax full
       (Gillespie.new r) = (Ok out, s) ->
     risk_groups_count_pairs G s).
Proof.
  intros HG Hnd Hin. split.
  - intros s0 s Hs. apply (Gillespie_inv_pairs G s HG).
    by apply (Gillespie_SIS_boundary_inv G HG tau gamma us full tmax s0 s).
  - intros fuel x r out s Hx E. apply (Gillespie_inv_pairs G s HG).
    exact (proj1 (returns_Ok _ _ _ _ _
             (Gillespie_SIS_body_inv G HG fuel tau gamma x us tmax full _
                Hnd Hin Hx) E)).
Qed.

Lemma risk_groups_count_infected_susceptible_pairs_witness :
  let s0 := Gillespie.new (steady (2 # 3)) in
  match Gillespie.prepare path2 2 1 [0%nat] false s0 with
  | (Ok _, s1) =>
      risk_groups_count_pairs path2 s1 /\
      Gillespie.continue Inf s1 = true /\
      match Gillespie.SIS_iteration path2 2 1 false s1 with
      | (Ok _, s2) => risk_groups_count_pairs path2 s2
      | (Raise _, _) => False
      end
  | (Raise _, _) => False
  end.
Proof.
  intros s0.
  assert (NoDup [0%nat]) as Hnd by apply NoDup_singleton.
  assert (forall u, u ∈ [0%nat] -> u ∈ G_nodes path2) as Hin.
  { intros u ->%list_elem_of_singleton. by left. }
  destruct (Gillespie.prepare path2 2 1 [0%nat] false s0)
    as [[[]|e] s1] eqn:E1; [|vm_compute in E1; discriminate E1].
  assert (Gillespie.continue Inf s1 = true) as Hgo.
  { assert (s1 = (Gillespie.prepare path2 2 1 [0%nat] false s0).2) as ->
      by (by rewrite E1).
    by vm_compute. }
  split; [|split; [exact Hgo|]].
  - exact (proj1 (risk_groups_count_infected_susceptible_pairs path2 2 1
                    [0%nat] false Inf path2_simple Hnd Hin) s0 s1
             (boundary_initial _ _ _ _ _ _ _ _ E1)).
  - destruct (Gillespie.SIS_iteration path2 2 1 false s1)
      as [[[]|e] s2] eqn:E2.
    + exact (proj1 (risk_groups_count_infected_susceptible_pairs path2 2 1
                      [0%nat] false Inf path2_simple Hnd Hin) s0 s2
               (boundary_next _ _ _ _ _ _ _ _ _
                  (boundary_initial _ _ _ _ _ _ _ _ E1) Hgo E2)).
    + assert (s1 = (Gillespie.prepare path2 2 1 [0%nat] false s0).2) as Hs1
        by (by rewrite E1).
      rewrite Hs1 in E2. vm_compute in E2. discriminate E2.
Defined.

(** ** Runs without transmission: [Gillespie_SIR] with [tau = 0] *)

Section Draws.
Context {St : Type} `{HasRandom St}.

Lemma quot_unit_range (u : Q) (n : nat) :
  (0 <= u)%Q -> (u < 1)%Q -> (0 < n)%nat ->
  let x := (u * inject_Z (Z.of_nat n))%Q in
  (0 <= Z.quot (Qnum x) (Z.pos (Qden x)) < Z.of_nat n)%Z.
Proof.
  intros H0 H1 Hn. destruct u as [a d]. unfold Qle, Qlt in *. simpl in *.
  rewrite Pos.mul_1_r. split.
  - apply Z.quot_pos; nia.
  - apply Z.quot_lt_upper_bound; nia.
Qed.

Lemma position_in_range n i :
  (0 <= i < Z.of_nat n)%Z -> random.position n i = Ok (Z.to_nat i).
Proof.
  intros Hi. unfold random.position.
  destruct (Z.ltb_spec i 0); [lia|].
  destruct (Z.ltb_spec i 0); [lia|].
  destruct (Z.leb_spec (Z.of_nat n) i); [lia|]. done.
Qed.

Lemma position_minus_one n :
  (0 < n)%nat -> random.position n (-1) = Ok (n - 1)%nat.
Proof.
  intros Hn. unfold random.position. change (-1 <? 0)%Z with true.
  cbv iota.
  destruct (Z.ltb_spec (Z.of_nat n + -1) 0); [lia|].
  destruct (Z.leb_spec (Z.of_nat n) (Z.of_nat n + -1)); [lia|].
  simpl. f_equal. lia.
Qed.

Lemma index_succeeds {A} (l : list A) i j :
  random.position (length l) i = Ok j ->
  exists x, random.index l i = Ok x.
Proof.
  intros Hj. unfold random.index. rewrite Hj.
  assert (j < length l)%nat as Hlt.
  { unfold random.position in Hj.
    destruct (_ || _)%bool eqn:E; [done|].
    apply orb_false_elim in E as [E1 E2].
    apply Z.ltb_ge in E1. apply Z.leb_gt in E2.
    injection Hj as <-. lia. }
  destruct (lookup_lt_is_Some_2 l j Hlt) as [x Hx]. rewrite Hx. eauto.
Qed.

End Draws.

Ltac gillespie_frame :=
  unfold Gillespie.Recover_SIR_neighbor, Gillespie.Recover_SIS_neighbor,
    Gillespie.lower_risk, Gillespie.Infect_neighbor,
    Gillespie.Initialize_neighbor, Gillespie.status_read,
    Gillespie.count_read, Gillespie.count_write, Gillespie.append_to,
    Gillespie.update_rates, ListDict.choose_random;
  repeat first
    [ apply frame_risk_group_remove; intros ? ?; reflexivity
    | apply frame_risk_group_add; intros ? ?; reflexivity
    | apply frame_pop_random_infected; intros ? ?; reflexivity
    | frame_step ].

Section GillespieQuiet.
Import Gillespie.
Context (G : Graph) (HG : simple_graph G).

Lemma below_succeeds (n : nat) (s : state) :
  unit_draws (rand s) -> (0 < n)%nat ->
  succeeds (random.below n)
    (fun i _ => (0 <= i < Z.of_nat n)%Z) s.
Proof.
  intros Hu Hn. eexists _, _. split; [reflexivity|].
  apply quot_unit_range; [apply (Hu _)..|done].
Qed.

Lemma succeeds_last_of_then {St A C} (get : St -> list A)
    (k : A -> M St C) post s x :
  last (get s) = Some x -> succeeds (k x) post s ->
  succeeds (bind (last_of get) k) post s.
Proof. intros E Hk. unfold succeeds, bind, last_of. by rewrite E. Qed.

Lemma succeeds_append_then {St A C} (get : St -> list A)
    (set : (list A -> list A) -> St -> St) (g : A -> A) (k : M St C)
    post s x :
  last (get s) = Some x ->
  succeeds k post (set (fun l => l ++ [g x]) s) ->
  succeeds ((let! x := last_of get in
             modify (set (fun l => l ++ [g x]))) ;; k) post s.
Proof. intros E Hk. unfold succeeds, bind, last_of, modify. by rewrite E. Qed.

Lemma succeeds_result_then {St A C} (r : result A) (a : A)
    (k : A -> M St C) post s :
  r = Ok a -> succeeds (k a) post s -> succeeds (bind (lift r) k) post s.
Proof. by intros ->. Qed.

Lemma pop_random_infected_succeeds s :
  unit_draws (rand s) -> infected s ≠ [] ->
  last (I_ s) = Some (Z.of_nat (length (infected s))) ->
  succeeds pop_random_infected (fun _ _ => True) s.
Proof.
  intros Hu Hne HI. unfold pop_random_infected.
  assert (0 < length (infected s))%nat as Hlen.
  { destruct (infected s); [done|simpl; lia]. }
  apply succeeds_assoc. eapply succeeds_last_of_then; [exact HI|].
  apply succeeds_assoc. apply succeeds_gets_then.
  rewrite bool_decide_eq_true_2 by done. apply succeeds_ret_then.
  eapply succeeds_last_of_then; [exact HI|].
  unfold random.randint0.
  destruct (Z.leb_spec (Z.of_nat (length (infected s))) 0); [lia|].
  rewrite Nat2Z.id.
  eapply succeeds_bind.
  { apply (succeeds_frame infected);
      [apply frame_below; intros ? ?; reflexivity|by apply below_succeeds]. }
  intros index s1 [Hindex Hs1]. cbv beta.
  apply succeeds_gets_then. rewrite Hs1.
  destruct (index_succeeds (infected s) (-1) _
              (position_minus_one _ Hlen)) as [x Hx].
  destruct (index_succeeds (infected s) index _
              (position_in_range _ _ Hindex)) as [y Hy].
  eapply succeeds_result_then; [exact Hx|].
  eapply succeeds_result_then; [exact Hy|].
  eapply succeeds_result_then.
  { unfold random.set_index. by rewrite (position_in_range _ _ Hindex). }
  eapply succeeds_result_then.
  { unfold random.set_index.
    by rewrite length_insert, (position_minus_one _ Hlen). }
  apply succeeds_modify_then.
  match goal with
  | |- succeeds (bind (last_of infected) _) _ (set_infected ?l _) =>
      destruct (last l) as [z|] eqn:Hz
  end.
  - eapply succeeds_last_of_then; [exact Hz|].
    apply succeeds_modify_then. by apply succeeds_ret.
  - apply last_None in Hz. apply (f_equal length) in Hz.
    rewrite !length_insert in Hz. simpl in Hz. lia.
Qed.

Ltac gcbn :=
  cbn [status infected infected_neighbor_count risk_group times S_ I_ R_
       infection_times recovery_times total_trans_rate total_rec_rate
       total_rate next_time rand get_random set_random state_HasRandom
       set_status set_infected set_infected_neighbor_count set_risk_group
       set_times set_S set_I set_R set_infection_times set_recovery_times
       set_total_trans_rate set_total_rec_rate set_total_rate set_next_time
       set_rand] in *.

Lemma strata_ok_tracked (T T' : node -> Prop) s :
  (forall v, G_status s v = sS -> (T v <-> T' v)) ->
  strata_ok G T s -> strata_ok G T' s.
Proof.
  intros HT [Hwf Hs]. split; [done|]. intros k v. rewrite Hs.
  split; intros (? & ? & HS & ? & ?); repeat (split; [done|]);
    by apply (HT v HS).
Qed.

Lemma Gillespie_Recover_SIR_spec t full s x r :
  Gillespie_inv G s -> unit_draws (rand s) -> infected s ≠ [] ->
  last (I_ s) = Some (Z.of_nat (length (infected s))) ->
  last (S_ s) = Some x -> last (R_ s) = Some r ->
  succeeds (_Gillespie_Recover_SIR_ G t full)
    (fun _ s' =>
       Gillespie_inv G s' /\
       (exists rn, infected s ≡ₚ rn :: infected s' /\
          forall w, G_status s' w = with_status (G_status s) rn sR w) /\
       last (I_ s') = Some (Z.of_nat (length (infected s)) - 1)%Z /\
       last (R_ s') = Some (r + 1)%Z /\
       last (S_ s') = Some x) s.
Proof using HG.
  intros Hinv Hu Hne HI HS HR. unfold _Gillespie_Recover_SIR_.
  eapply succeeds_bind.
  { apply (succeeds_frame
             (fun s => (status s, infected_neighbor_count s, risk_group s,
                        Gillespie_traj s))).
    - apply frame_pop_random_infected; intros ? ?; reflexivity.
    - apply succeeds_and_returns;
        [by apply pop_random_infected_succeeds
        |apply pop_random_infected_perm]. }
  intros rn s1 [[_ Hperm] Hf]. unfold Gillespie_traj in Hf.
  injection Hf as Es Ec Eg Et ES EI ER.
  assert (rn ∈ infected s) as Hr by (rewrite Hperm; left).
  destruct Hinv as (Hst & Hc & Hio).
  destruct (proj2 Hio rn Hr) as [Hrn HrI].
  eapply succeeds_append_then; [by rewrite EI|].
  unfold dd_write at 1. apply succeeds_modify_then.
  eapply succeeds_append_then; [by (gcbn; rewrite ES)|].
  eapply succeeds_append_then; [by (gcbn; rewrite ER)|].
  apply succeeds_modify_then.
  eapply succeeds_result_then.
  { unfold nx.neighbors, nx.has_node. by rewrite bool_decide_eq_true_2. }
  match goal with |- succeeds _ _ ?st => remember st as s6 eqn:E6 end.
  assert (forall w, G_status s6 w = with_status (G_status s) rn sR w) as H6s.
  { intros w. subst s6. unfold G_status. gcbn.
    by rewrite status_of_insert, Es. }
  assert (forall w, G_count s6 w = G_count s w) as H6c.
  { intros w. subst s6. unfold G_count. gcbn. by rewrite Ec. }
  assert (risk_group s6 = risk_group s) as H6g by (by subst s6).
  assert (infected s6 = infected s1) as H6i by (by subst s6).
  assert (last (I_ s6) = Some (Z.of_nat (length (infected s)) - 1)%Z
          /\ last (R_ s6) = Some (r + 1)%Z /\ last (S_ s6) = Some x)
    as H6t.
  { subst s6. gcbn. by rewrite !last_snoc. }
  clear E6.
  eapply succeeds_bind.
  { apply (succeeds_frame Gillespie_traj);
      [apply frame_for; intros v; gillespie_frame|].
    apply (Recover_SIR_loop_spec G (fun _ => True)).
    - apply HG.
    - apply (strata_ok_tracked (fun w => w ≠ rn)).
      + intros v Hv. split; [done|]. intros _ ->.
        rewrite H6s in Hv. unfold with_status in Hv.
        by rewrite decide_True in Hv.
      + by apply (recovering_strata G rn sR s).
    - intros v Hv HvS. rewrite H6s in HvS. unfold with_status in HvS.
      destruct (decide (v = rn)) as [->|Hvr]; [done|].
      assert (v ∈ G_nodes G) as Hvn by (by apply (adj_nodes G HG rn v)).
      split; [done|]. split; [done|]. rewrite H6c, (Hc v Hvn HvS).
      apply (infected_neighbors_pos G _ rn); [done|]. by apply HG. }
  intros ? s7 [(Hst7 & Hs7 & Hi7 & Hc7) Ht7].
  assert (forall w, G_status s7 w = with_status (G_status s) rn sR w) as H7s.
  { intros w. by rewrite Hs7, H6s. }
  assert (Gillespie_inv G s7) as Hinv7.
  { split; [done|]. split.
    - intros v Hvn HvS.
      rewrite (infected_neighbors_ext G _ _ v H7s).
      rewrite infected_neighbors_update by done.
      rewrite Hc7, H6c. rewrite H7s in HvS. unfold with_status in HvS.
      destruct (decide (v = rn)) as [->|Hvr]; [done|].
      rewrite (Hc v Hvn HvS).
      rewrite (ind_False (sR = sI)) by done.
      rewrite (ind_True (G_status s rn = sI)) by done.
      assert (ind (v ∈ G_adj G rn /\ G_status s6 v = sS)
              = ind (v ∈ G_adj G rn)) as ->.
      { unfold ind. apply decide_ext. rewrite H6s. unfold with_status.
        rewrite decide_False by done. tauto. }
      lia.
    - apply (recovering_infected_ok G rn sR s); [done| |done].
      by rewrite Hi7, H6i. }
  assert (infected s ≡ₚ rn :: infected s7) as Hperm7.
  { by rewrite Hi7, H6i. }
  unfold Gillespie_traj in Ht7. injection Ht7 as _ ES7 EI7 ER7.
  destruct H6t as (H6I & H6R & H6S).
  destruct full.
  - eapply succeeds_mono; [|apply append_to_recovery_times_spec].
    intros ? s8 [Hcore Htraj].
    split; [by apply (Gillespie_inv_core G s7)|].
    apply G_core_eq in Hcore as (E1 & E2 & _ & _).
    unfold Gillespie_traj in Htraj. injection Htraj as _ ES8 EI8 ER8.
    split.
    { exists rn. split; [by rewrite E2|]. intros w. unfold G_status.
      rewrite E1. apply H7s. }
    by rewrite EI8, ER8, ES8, EI7, ER7, ES7.
  - apply succeeds_ret. split; [done|]. split; [by exists rn|].
    by rewrite EI7, ER7, ES7.
Qed.

Lemma succeeds_run_then {St A C} (m : M St A) (k : A -> M St C) post s a s' :
  m s = (Ok a, s') -> succeeds (k a) post s' -> succeeds (bind m k) post s.
Proof. intros E Hk. unfold succeeds. by rewrite (bind_Ok _ _ _ _ _ E). Qed.

Lemma succeeds_modify {St} (g : St -> St) (post : unit -> St -> Prop) s :
  post tt (g s) -> succeeds (modify g) post s.
Proof. intros Hp. by exists tt, (g s). Qed.

Lemma expovariate_run lambd (s : state) :
  ~ (lambd == 0)%Q ->
  random.expovariate lambd s
  = (Ok (unit_exp (draws (rand s)) (cursor (rand s)) / lambd)%Q,
     set_rand (mkRandom (draws (rand s)) (S (cursor (rand s)))) s).
Proof.
  intros Hne. unfold random.expovariate, random.next, bind, gets. simpl.
  destruct (Qeq_bool lambd 0) eqn:E; [|done].
  by apply Qeq_bool_iff in E.
Qed.

Lemma positive_rate gamma n :
  (0 < gamma)%Q -> (0 < n)%nat ->
  (0 < gamma * inject_Z (Z.of_nat n))%Q.
Proof.
  intros Hg Hn. apply Qmult_lt_0_compat; [done|].
  change 0%Q with (inject_Z 0). rewrite <- Zlt_Qlt. lia.
Qed.

Lemma SIR_iteration_quiet tau gamma full us s :
  (tau == 0)%Q -> (0 < gamma)%Q ->
  Gillespie_quiet G gamma us s -> unit_draws (rand s) -> infected s ≠ [] ->
  succeeds (SIR_iteration G tau gamma full)
    (fun _ s' => Gillespie_quiet G gamma us s' /\
                 S (length (infected s')) = length (infected s)) s.
Proof using HG.
  intros Htau Hgamma
    (Hinv & (r & HR & Hsum) & HI & (x & HS) & Hstat & Hrec & Htot & (t & Hnext))
    Hu Hne.
  assert (0 < length (infected s))%nat as Hlen.
  { destruct (infected s); [done|simpl; lia]. }
  pose proof (positive_rate gamma _ Hgamma Hlen) as Hpos.
  unfold SIR_iteration.
  apply (succeeds_run_then _ _ _ s
           (uniform (draws (rand s)) (cursor (rand s)))
           (set_rand (mkRandom (draws (rand s)) (S (cursor (rand s)))) s));
    [reflexivity|].
  do 3 apply succeeds_gets_then. gcbn.
  assert (Qltb (uniform (draws (rand s)) (cursor (rand s)) * total_rate s)
               (total_rec_rate s) = true) as ->.
  { apply Qltb_lt. rewrite Htot, Hrec.
    destruct (Hu (cursor (rand s))) as [_ Hu1].
    rewrite <- (Qmult_1_l (gamma * _)) at 2.
    by apply Qmult_lt_compat_r. }
  apply succeeds_assoc.
  eapply succeeds_bind.
  { apply (succeeds_frame next_time);
      [unfold _Gillespie_Recover_SIR_; gillespie_frame|].
    by apply (Gillespie_Recover_SIR_spec (next_time s) full _ x r). }
  intros ? s2 [(Hinv2 & (rn & Hperm0 & Hs0) & HI0 & HR2 & HS2) Hnext0].
  assert (infected s ≡ₚ rn :: infected s2) as Hperm by exact Hperm0.
  assert (forall w, G_status s2 w = with_status (G_status s) rn sR w)
    as Hs2 by exact Hs0.
  assert (last (I_ s2) = Some (Z.of_nat (length (infected s)) - 1)%Z)
    as HI2 by exact HI0.
  assert (next_time s2 = next_time s) as Hnext2 by exact Hnext0.
  clear Hperm0 Hs0 HI0 Hnext0.
  assert (length (infected s) = S (length (infected s2))) as Hlen2.
  { by rewrite Hperm. }
  assert (NoDup (rn :: infected s2)) as Hnd2.
  { rewrite <- Hperm. apply Hinv. }
  apply NoDup_cons in Hnd2 as [Hrn2 _].
  apply succeeds_assoc.
  eapply succeeds_last_of_then; [exact HI2|]. apply succeeds_modify_then.
  unfold update_rates. apply succeeds_assoc.
  do 2 apply succeeds_modify_then.
  apply succeeds_gets_then. gcbn.
  assert (forall s' : state,
            G_core s' = G_core s2 ->
            Gillespie_traj s' = Gillespie_traj s2 ->
            total_rec_rate s'
            = (gamma * inject_Z (Z.of_nat (length (infected s)) - 1))%Q ->
            total_rate s'
            = (total_rec_rate s'
               + tau * inject_Z (risk_sum (risk_group s2)))%Q ->
            (exists t', next_time s' = Fin t') ->
            Gillespie_quiet G gamma us s' /\
            S (length (infected s')) = length (infected s)) as Hfinal.
  { intros s' Hcore Htraj Hrec' Htot' Hnext'.
    pose proof (Gillespie_inv_core G s2 s' Hcore Hinv2) as Hinv'.
    apply G_core_eq in Hcore as (E1 & E2 & _ & _).
    unfold Gillespie_traj in Htraj. injection Htraj as _ ES' EI' ER'.
    split; [|by rewrite E2].
    split; [done|]. split.
    { exists (r + 1)%Z. rewrite ER', E2. split; [done|]. lia. }
    split; [rewrite EI', E2, HI2; f_equal; lia|].
    split; [exists x; by rewrite ES'|].
    split.
    { intros w. unfold G_status. rewrite E1, E2.
      fold (G_status s2 w). rewrite Hs2. unfold with_status.
      destruct (decide (w = rn)) as [->|Hw].
      - assert (rn ∈ infected s) as Hin by (rewrite Hperm; left).
        destruct (proj2 (proj2 (proj2 Hinv)) rn Hin) as [_ HrI].
        rewrite Hstat in HrI.
        destruct (decide (rn ∈ us)); [|done].
        by rewrite decide_False.
      - rewrite Hstat. destruct (decide (w ∈ us)); [|done].
        apply decide_ext. rewrite Hperm, elem_of_cons. tauto. }
    split.
    { rewrite Hrec', E2. rewrite Hlen2.
      replace (Z.of_nat (S (length (infected s2))) - 1)%Z
        with (Z.of_nat (length (infected s2))) by lia.
      reflexivity. }
    split; [rewrite Htot', Htau; ring|done]. }
  destruct (Qltb 0 _) eqn:Epos.
  - apply Qltb_lt in Epos.
    eapply succeeds_run_then.
    { apply expovariate_run. intros E. rewrite E in Epos.
      by apply Qlt_irrefl in Epos. }
    apply succeeds_modify. cbv beta.
    lazymatch goal with
    | |- Gillespie_quiet _ _ _ ?st /\ _ => apply (Hfinal st)
    end; try done.
    gcbn. rewrite Hnext2, Hnext. simpl. eauto.
  - apply succeeds_ret.
    lazymatch goal with
    | |- Gillespie_quiet _ _ _ ?st /\ _ => apply (Hfinal st)
    end; try done.
    gcbn. rewrite Hnext2, Hnext. eauto.
Qed.

End GillespieQuiet.

Section GillespieQuietRun.
Import Gillespie.
Context (G : Graph) (HG : simple_graph G).

Lemma frame_draws_next :
  frame (fun s : state => draws (rand s)) random.next.
Proof. by intros s. Qed.

Ltac draws_frame :=
  unfold SIR_iteration, SIS_iteration, prepare, _Gillespie_Initialize_,
    _Gillespie_Recover_SIR_, _Gillespie_Recover_SIS_, _Gillespie_Infect_,
    pop_random_infected, update_rates, Recover_SIR_neighbor,
    Recover_SIS_neighbor, lower_risk, Infect_neighbor, Initialize_neighbor,
    risk_group_remove, risk_group_add, status_read, count_read, count_write,
    append_to, ListDict.choose_random, random.choice, random.randint0,
    random.below, random.expovariate, random.random;
  repeat first [ apply frame_draws_next | frame_step ].

Lemma frame_draws_SIR_iteration tau gamma full :
  frame (fun s : state => draws (rand s)) (SIR_iteration G tau gamma full).
Proof. draws_frame. Qed.

Lemma frame_draws_prepare tau gamma us full :
  frame (fun s : state => draws (rand s)) (prepare G tau gamma us full).
Proof. draws_frame. Qed.

Lemma keeps_recorded_frame {A} (m : M state A) :
  frame (fun s => (infection_times s, recovery_times s)) m ->
  keeps times_recorded m.
Proof.
  apply frame_keeps. unfold times_recorded. by intros s s' [= -> ->].
Qed.

Lemma keeps_recorded_append_infection v x :
  keeps times_recorded (append_to infection_times set_infection_times v x).
Proof.
  intros s [Hi Hr]. unfold append_to, bind, dd_read, dd_write, modify.
  destruct (infection_times s !! v) as [l|] eqn:E; simpl.
  - split; [|done]. apply map_Forall_insert_2; [|done]. by destruct l.
  - split; [|done]. rewrite insert_insert_eq.
    by apply map_Forall_insert_2.
Qed.

Lemma keeps_recorded_append_recovery v x :
  keeps times_recorded (append_to recovery_times set_recovery_times v x).
Proof.
  intros s [Hi Hr]. unfold append_to, bind, dd_read, dd_write, modify.
  destruct (recovery_times s !! v) as [l|] eqn:E; simpl.
  - split; [done|]. apply map_Forall_insert_2; [|done]. by destruct l.
  - split; [done|]. rewrite insert_insert_eq.
    by apply map_Forall_insert_2.
Qed.

Ltac keeps_recorded :=
  repeat first
    [ apply keeps_recorded_append_infection
    | apply keeps_recorded_append_recovery
    | solve [apply keeps_recorded_frame; gillespie_frame]
    | apply keeps_ret
    | apply keeps_bind; [|intros ?]
    | apply keeps_for; intros ?
    | match goal with
      | |- keeps _ (if ?b then _ else _) => destruct b
      | |- keeps _ (match ?x with _ => _ end) => destruct x
      end ].

Lemma keeps_recorded_SIR_iteration tau gamma full :
  keeps times_recorded (SIR_iteration G tau gamma full).
Proof.
  unfold SIR_iteration, _Gillespie_Recover_SIR_, _Gillespie_Infect_.
  keeps_recorded.
Qed.

Lemma keeps_recorded_prepare tau gamma us full :
  keeps times_recorded (prepare G tau gamma us full).
Proof. unfold prepare, _Gillespie_Initialize_. keeps_recorded. Qed.

Lemma succeeds_keeps {A} (m : M state A) (I : state -> Prop) P s :
  keeps I m -> I s -> succeeds m P s ->
  succeeds m (fun a s' => P a s' /\ I s') s.
Proof.
  intros Hk HI (a & s' & E & HP). exists a, s'. split; [done|].
  split; [done|]. specialize (Hk s HI). by rewrite E in Hk.
Qed.

Lemma while_quiet fuel tau gamma full us :
  (tau == 0)%Q -> (0 < gamma)%Q ->
  forall s,
    Gillespie_quiet G gamma us s -> unit_draws (rand s) ->
    times_recorded s ->
    (length (infected s) <= fuel)%nat ->
    succeeds (while fuel Inf (SIR_iteration G tau gamma full))
      (fun _ s' => Gillespie_quiet G gamma us s' /\ infected s' = [] /\
                   times_recorded s') s.
Proof using HG.
  intros Htau Hg.
  assert (forall s : state, infected s = [] -> continue Inf s = false)
    as Hstop.
  { intros s E. unfold continue. rewrite E.
    rewrite bool_decide_eq_true_2 by done. apply andb_false_r. }
  induction fuel as [|fuel IH]; intros s HK HU HL Hlen; cbn [while];
    apply succeeds_gets_then.
  - assert (infected s = []) as E.
    { destruct (infected s); [done|simpl in Hlen; lia]. }
    rewrite (Hstop s E). by apply succeeds_ret.
  - destruct (decide (infected s = [])) as [E|Hne].
    { rewrite (Hstop s E). by apply succeeds_ret. }
    assert (continue Inf s = true) as ->.
    { unfold continue.
      destruct HK as (_ & _ & _ & _ & _ & _ & _ & (t & ->)).
      by rewrite bool_decide_eq_false_2. }
    eapply succeeds_bind.
    { apply (succeeds_keeps _ times_recorded);
        [apply keeps_recorded_SIR_iteration|done|].
      apply (succeeds_frame (fun s : state => draws (rand s)));
        [apply frame_draws_SIR_iteration|].
      by apply (SIR_iteration_quiet G HG tau gamma full us). }
    intros ? s' [[[HK' Hlen'] Hd] HL']. apply IH; [done| |done|lia].
    unfold unit_draws. by rewrite Hd.
Qed.

Lemma prepare_quiet tau gamma us full s :
  (tau == 0)%Q -> (0 < gamma)%Q ->
  NoDup us -> (forall u, u ∈ us -> u ∈ G_nodes G) -> us ≠ [] ->
  succeeds (prepare G tau gamma us full)
    (fun _ s' => Gillespie_quiet G gamma us s' /\ infected s' = us) s.
Proof using HG.
  intros Htau Hg Hnd Hin Hne. unfold prepare.
  assert (0 < length us)%nat as Hlen.
  { destruct us; [done|simpl; lia]. }
  eapply succeeds_bind.
  { apply succeeds_and_returns;
      [by apply (Gillespie_Initialize_spec G HG us full)
      |apply Gillespie_Initialize_traj]. }
  intros ? s1 [(Hinv & _ & Hinf & Hstat) Htraj].
  unfold Gillespie_traj in Htraj. injection Htraj as Et ES EI ER.
  do 3 apply succeeds_modify_then.
  eapply succeeds_last_of_then; [by (cbn; rewrite Et)|].
  apply succeeds_gets_then. cbn [total_rate set_total_rate].
  cbn [total_rec_rate set_total_rec_rate total_trans_rate
       set_total_trans_rate infected risk_group].
  assert (gamma * inject_Z (Z.of_nat (length (infected s1)))
          + tau * inject_Z (risk_sum (risk_group s1))
          == gamma * inject_Z (Z.of_nat (length us)))%Q as Hrate.
  { rewrite Htau, Hinf. ring. }
  eapply succeeds_run_then.
  { apply expovariate_run. rewrite Hrate. intros E.
    pose proof (positive_rate gamma _ Hg Hlen) as Hpos.
    rewrite E in Hpos. by apply Qlt_irrefl in Hpos. }
  apply succeeds_modify. cbv beta.
  match goal with |- Gillespie_quiet _ _ _ ?st /\ _ =>
    assert (G_core st = G_core s1) as Hcore by reflexivity;
    assert (Gillespie_traj st = Gillespie_traj s1) as Htraj by reflexivity;
    assert (total_rec_rate st
            = (gamma * inject_Z (Z.of_nat (length (infected s1))))%Q)
      as Hrec by reflexivity;
    assert (total_rate st
            = (total_rec_rate st
               + tau * inject_Z (risk_sum (risk_group s1)))%Q)
      as Htot by reflexivity;
    assert (exists t, next_time st = Fin t) as Hnext
      by (cbn; eauto);
    generalize dependent st
  end.
  intros st Hcore Htraj Hrec Htot Hnext.
  pose proof (Gillespie_inv_core G s1 st Hcore Hinv) as Hinv'.
  apply G_core_eq in Hcore as (E1 & E2 & _ & _).
  unfold Gillespie_traj in Htraj. injection Htraj as _ ES' EI' ER'.
  split; [|by rewrite E2].
  split; [done|]. split.
  { exists 0%Z. rewrite ER', ER, E2, Hinf. split; [done|]. lia. }
  split; [by rewrite EI', EI, E2, Hinf|].
  split; [rewrite ES', ES; eauto|].
  split.
  { intros w. unfold G_status. rewrite E1, E2, Hinf.
    fold (G_status s1 w). rewrite Hstat.
    by destruct (decide (w ∈ us)). }
  split; [by rewrite Hrec, E2|].
  split; [rewrite Htot, Htau; ring|done].
Qed.

Lemma Gillespie_SIR_quiet fuel tau gamma x us full r :
  (tau == 0)%Q -> (0 < gamma)%Q ->
  NoDup us -> (forall u, u ∈ us -> u ∈ G_nodes G) -> us ≠ [] ->
  lists_initial G x us -> unit_draws r -> (length us <= fuel)%nat ->
  exists out st r',
    Gillespie_SIR fuel G tau gamma (Some x) None Inf full r
    = (Ok (out, st), r') /\
    last (out_R out) = Some (Z.of_nat (length us)) /\
    forall w, G_status st w = if decide (w ∈ us) then sR else sS.
Proof using HG.
  intros Htau Hg Hnd Hin Hne Hx Hu Hfuel.
  assert (succeeds
            (Gillespie_SIR_body fuel G tau gamma (Some x) None Inf full)
            (fun out st =>
               last (out_R out) = Some (Z.of_nat (length us)) /\
               forall w, G_status st w = if decide (w ∈ us) then sR else sS)
            (new r)) as (out & st & E & HR & Hst).
  { unfold Gillespie_SIR_body.
    eapply succeeds_run_then; [by apply (choose_initial_infecteds_lists G)|].
    eapply succeeds_result_then; [reflexivity|].
    eapply succeeds_bind.
    { apply (succeeds_keeps _ times_recorded);
        [apply keeps_recorded_prepare| |].
      - split; apply map_Forall_empty.
      - apply (succeeds_frame (fun s : state => draws (rand s)));
          [apply frame_draws_prepare|].
        by apply prepare_quiet. }
    intros ? s1 [[[HK Hinf] Hd] HL].
    eapply succeeds_bind.
    { apply (while_quiet fuel tau gamma full us); try done.
      - unfold unit_draws. rewrite Hd. exact Hu.
      - by rewrite Hinf. }
    intros ? s2
      ((_ & (n & HR & Hn) & _ & _ & Hstat & _) & Hempty & [HLi HLr]).
    apply succeeds_gets_then.
    assert (last (R_ s2) = Some (Z.of_nat (length us))) as HR2.
    { rewrite HR. f_equal. rewrite Hempty in Hn. simpl in Hn. lia. }
    assert (forall w, G_status s2 w = if decide (w ∈ us) then sR else sS)
      as Hst2.
    { intros w. rewrite Hstat, Hempty.
      destruct (decide (w ∈ us)); [|done].
      rewrite decide_False; [done|]. apply not_elem_of_nil. }
    destruct full.
    - eapply succeeds_result_then.
      { unfold firsts. by rewrite bool_decide_eq_true_2. }
      eapply succeeds_result_then.
      { unfold firsts. by rewrite bool_decide_eq_true_2. }
      by apply succeeds_ret.
    - by apply succeeds_ret. }
  exists out, st, (rand st). split; [|done].
  unfold Gillespie_SIR. rewrite bool_decide_eq_false_2 by (by intros [? _]).
  unfold with_locals. by rewrite E.
Qed.

End GillespieQuietRun.

(** ** Runs without transmission: [fast_SIR] with [tau = 0] *)

Section OutcomeFacts.
Context {St : Type}.

Lemma outcome_ret {A} (a : A) (post : A -> St -> Prop) exc s :
  post a s -> outcome (ret a) post exc s.
Proof. done. Qed.

Lemma outcome_bind {A C} (m : M St A) (k : A -> M St C) pre post exc s :
  outcome m pre exc s ->
  (forall a s', pre a s' -> outcome (k a) post exc s') ->
  outcome (bind m k) post exc s.
Proof.
  unfold outcome, bind. destruct (m s) as [[a|e] s']; [|done].
  intros Hp Hk. by apply Hk.
Qed.

Lemma outcome_mono {A} (m : M St A) (post post' : A -> St -> Prop) exc s :
  (forall a s', post a s' -> post' a s') ->
  outcome m post exc s -> outcome m post' exc s.
Proof.
  unfold outcome. destruct (m s) as [[a|e] s']; [|done]. auto.
Qed.


Lemma outcome_run_then {A C} (m : M St A) (k : A -> M St C) post exc s a s' :
  m s = (Ok a, s') -> outcome (k a) post exc s' ->
  outcome (bind m k) post exc s.
Proof. intros E Hk. unfold outcome. by rewrite (bind_Ok _ _ _ _ _ E). Qed.

Lemma outcome_raised {A C} (m : M St A) (k : A -> M St C) post
    (exc : exn -> Prop) s e s' :
  m s = (Raise e, s') -> exc e -> outcome (bind m k) post exc s.
Proof. intros E He. unfold outcome. by rewrite (bind_Raise _ _ _ _ _ E). Qed.

Lemma outcome_gets_then {A C} (g : St -> A) (k : A -> M St C) post exc s :
  outcome (k (g s)) post exc s -> outcome (bind (gets g) k) post exc s.
Proof. done. Qed.

Lemma outcome_modify_then {C} (g : St -> St) (k : M St C) post exc s :
  outcome k post exc (g s) -> outcome (modify g ;; k) post exc s.
Proof. done. Qed.

Lemma outcome_result_then {A C} (r : result A) (a : A) (k : A -> M St C)
    post exc s :
  r = Ok a -> outcome (k a) post exc s -> outcome (bind (lift r) k) post exc s.
Proof. by intros ->. Qed.

Lemma outcome_append_then {A C} (get : St -> list A)
    (set : (list A -> list A) -> St -> St) (g : A -> A) (k : M St C)
    post exc s x :
  last (get s) = Some x ->
  outcome k post exc (set (fun l => l ++ [g x]) s) ->
  outcome ((let! x := last_of get in
            modify (set (fun l => l ++ [g x]))) ;; k) post exc s.
Proof. intros E Hk. unfold outcome, bind, last_of, modify. by rewrite E. Qed.

Lemma outcome_total_frame {A B C} (f : St -> B) (m : M St A)
    (k : A -> M St C) post exc s :
  frame f m -> (exists a s', m s = (Ok a, s')) ->
  (forall a s', f s' = f s -> outcome (k a) post exc s') ->
  outcome (bind m k) post exc s.
Proof.
  intros Hf (a & s' & E) Hk. eapply outcome_run_then; [exact E|].
  apply Hk. specialize (Hf s). by rewrite E in Hf.
Qed.

Lemma outcome_for {A} (Inv : St -> Prop) (l : list A)
    (body : A -> M St unit) exc s :
  (forall x s, Inv s -> outcome (body x) (fun _ => Inv) exc s) ->
  Inv s -> outcome (for_ l body) (fun _ => Inv) exc s.
Proof.
  intros Hb. revert s. induction l as [|x l IH]; intros s Hs; [done|].
  cbn [for_]. eapply outcome_bind; [by apply Hb|].
  intros ? s' Hs'. by apply IH.
Qed.

Lemma dd_read_total {K V} `{Countable K} (get : St -> gmap K V)
    (set : gmap K V -> St -> St) dflt k s :
  exists a s', dd_read get set dflt k s = (Ok a, s').
Proof. unfold dd_read. destruct (get s !! k); eauto. Qed.

End OutcomeFacts.

Section FastSIRQuiet.
Import FastSIR.
Context (G : Graph) (tau gamma : Q).
Hypothesis Htau : (tau == 0)%Q.
Hypothesis Hgamma : (0 < gamma)%Q.

Ltac fcbn :=
  cbn [status Q_ times S_ I_ R_ rec_time pred_inf_time rand
       set_status set_Q set_times set_S set_I set_R set_rec_time
       set_pred_inf_time set_rand _Q_ tmax] in *.

Lemma FastSIR_status_read_then {C} v (k : status_t -> M state C) post exc s :
  (forall m, (forall w, default sS (m !! w) = FastSIR_status s w) ->
             outcome (k (FastSIR_status s v)) post exc (set_status m s)) ->
  outcome (bind (status_read v) k) post exc s.
Proof.
  intros Hk. unfold outcome, bind, status_read, dd_read.
  unfold FastSIR_status in *.
  destruct (status s !! v) as [st|] eqn:E.
  - specialize (Hk (status s) (fun _ => eq_refl)). simpl in Hk.
    by destruct s.
  - apply Hk. intros w. destruct (decide (v = w)) as [->|Hne].
    + by rewrite lookup_insert_eq, E.
    + by rewrite lookup_insert_ne.
Qed.

Lemma expovariate_zero (s : state) :
  exists s', random.expovariate tau s = (Raise ZeroDivisionError, s').
Proof using Htau.
  unfold random.expovariate, random.next, bind, gets. simpl.
  apply Qeq_bool_iff in Htau. rewrite Htau. eauto.
Qed.

Lemma FastSIR_expovariate_run lambd (s : state) :
  ~ (lambd == 0)%Q ->
  random.expovariate lambd s
  = (Ok (unit_exp (draws (rand s)) (cursor (rand s)) / lambd)%Q,
     set_rand (mkRandom (draws (rand s)) (S (cursor (rand s)))) s).
Proof.
  intros Hne. unfold random.expovariate, random.next, bind, gets. simpl.
  destruct (Qeq_bool lambd 0) eqn:E; [|done].
  by apply Qeq_bool_iff in E.
Qed.

(** With [tau = 0], [_find_trans_SIR_] either finds [target] not
    susceptible and does nothing, or divides by zero. *)
Lemma find_trans_quiet t source target rt s :
  outcome (_find_trans_SIR_ t tau source target rt)
    (fun _ s' =>
       (Q_ s', FastSIR_traj s') = (Q_ s, FastSIR_traj s) /\
       forall w, FastSIR_status s' w = FastSIR_status s w)
    division_by_zero s.
Proof using Htau.
  unfold _find_trans_SIR_. apply FastSIR_status_read_then. intros m Hm.
  destruct (decide (FastSIR_status s target = sS)).
  - destruct (expovariate_zero (set_status m s)) as [s' E].
    by eapply outcome_raised.
  - by apply outcome_ret.
Qed.

End FastSIRQuiet.

Lemma steady_unit_draws : unit_draws (steady (1 # 2)).
Proof. intros i. split; [by unfold Qle|reflexivity]. Qed.

(** ** [fast_SIR] with [tau = 0] divides by zero *)

Section FastSIRZeroRate.
Import FastSIR.
Context (G : Graph) (tau gamma : Q) (u : node).
Hypothesis Htau : (tau == 0)%Q.
Hypothesis Hu : u ∈ G_nodes G.
Hypothesis Hnb : exists v, v ∈ G_adj G u /\ v ≠ u.

Ltac fcbn :=
  cbn [status Q_ times S_ I_ R_ rec_time pred_inf_time rand
       set_status set_Q set_times set_S set_I set_R set_rec_time
       set_pred_inf_time set_rand _Q_ tmax] in *.

(** The loop over the neighbours of an infected [u] comes to a susceptible
    one, and divides by [tau]. *)
Lemma find_trans_loop_zero t vs :
  forall s,
    (exists v, v ∈ vs /\ v ≠ u) ->
    (forall w, w ≠ u -> FastSIR_status s w = sS) ->
    outcome
      (for_ vs (fun v =>
         let! tau := lift ((fun _ _ : node => Ok tau) u v) in
         let! rt := rec_time_read u in
         _find_trans_SIR_ t tau u v rt))
      (fun _ _ => False) division_by_zero s.
Proof using Htau.
  induction vs as [|a vs IH]; intros s (v & Hv & Hvu) HS.
  { by apply elem_of_nil in Hv. }
  cbn [for_].
  destruct (decide (FastSIR_status s a = sS)) as [Ha|Ha].
  - eapply outcome_bind with (pre := fun _ _ => False); [|by intros].
    eapply outcome_result_then; [reflexivity|].
    apply (outcome_total_frame (fun s => status s)).
    { unfold rec_time_read. apply frame_dd_read. by intros ? ?. }
    { apply dd_read_total. }
    intros rt s' Est. unfold _find_trans_SIR_.
    apply FastSIR_status_read_then. intros m Hm.
    assert (FastSIR_status s' a = sS) as ->.
    { unfold FastSIR_status. by rewrite Est. }
    rewrite decide_True by done.
    destruct (expovariate_zero tau Htau (set_status m s')) as [s'' E].
    by eapply outcome_raised.
  - assert (a = u) as ->.
    { destruct (decide (a = u)); [done|]. by destruct Ha; apply HS. }
    eapply outcome_bind
      with (pre := fun _ s' => forall w, FastSIR_status s' w
                                         = FastSIR_status s w).
    + eapply outcome_result_then; [reflexivity|].
      apply (outcome_total_frame (fun s => status s)).
      { unfold rec_time_read. apply frame_dd_read. by intros ? ?. }
      { apply dd_read_total. }
      intros rt s' Est.
      eapply outcome_mono; [|apply (find_trans_quiet tau Htau)].
      intros ? s'' [_ Hst] w. rewrite Hst. unfold FastSIR_status.
      by rewrite Est.
    + intros ? s' Hst. apply IH.
      * exists v. split; [|done].
        apply elem_of_cons in Hv as [->|Hv]; [done|done].
      * intros w Hw. rewrite Hst. by apply HS.
Qed.

Lemma process_trans_zero t s x i r :
  (forall w, FastSIR_status s w = sS) ->
  last (S_ s) = Some x -> last (I_ s) = Some i -> last (R_ s) = Some r ->
  outcome
    (_process_trans_SIR_ G (fun _ _ => Ok tau) (fun _ => Ok gamma) t u)
    (fun _ _ => False) division_by_zero s.
Proof using Htau Hu Hnb.
  intros HS0 HS HI HR. unfold _process_trans_SIR_.
  apply FastSIR_status_read_then. intros m Hm. rewrite HS0.
  rewrite decide_True by done.
  unfold dd_write at 1. apply outcome_modify_then.
  apply outcome_modify_then.
  eapply outcome_append_then; [exact HS|].
  eapply outcome_append_then; [exact HI|].
  eapply outcome_append_then; [exact HR|].
  eapply outcome_result_then; [reflexivity|].
  destruct (Qeq_dec gamma 0) as [Hg|Hg].
  { match goal with |- outcome _ _ _ ?st =>
      destruct (expovariate_zero gamma Hg st) as [s' E] end.
    by eapply outcome_raised. }
  eapply outcome_run_then; [by apply FastSIR_expovariate_run|].
  unfold dd_write at 1. apply outcome_modify_then.
  eapply outcome_run_then.
  { unfold rec_time_read, dd_read. fcbn. by rewrite lookup_insert_eq. }
  unfold Q_add at 1. apply outcome_modify_then.
  eapply outcome_result_then.
  { unfold nx.neighbors, nx.has_node. by rewrite bool_decide_eq_true_2. }
  apply find_trans_loop_zero; [exact Hnb|].
  intros w Hw. unfold FastSIR_status. fcbn.
  rewrite lookup_insert_ne by done. rewrite Hm. apply HS0.
Qed.

Lemma fast_nonMarkov_SIR_body_zero fuel tmax full r :
  num_lt (Fin 0) tmax = true ->
  outcome
    (fast_nonMarkov_SIR_body (S fuel) G
       (_process_trans_SIR_ G (fun _ _ => Ok tau) (fun _ => Ok gamma))
       (fun _ _ => Ok tau) (fun _ => Ok gamma) (Some (a_node u)) None full)
    (fun _ _ => False) division_by_zero (new G tmax r).
Proof using Htau Hu Hnb.
  intros Htmax. unfold fast_nonMarkov_SIR_body.
  eapply outcome_run_then.
  { unfold choose_initial_infecteds, has_node_arg, nx.has_node.
    rewrite bool_decide_eq_true_2 by done. reflexivity. }
  eapply outcome_result_then; [reflexivity|].
  eapply outcome_run_then.
  { cbn [for_]. unfold dd_write, Q_add, modify, bind, ret, new, Queue.add,
      Queue.init. fcbn. cbn [time]. rewrite Htmax. reflexivity. }
  eapply outcome_bind with (pre := fun _ _ => False); [|by intros].
  cbn [run_queue]. apply outcome_gets_then.
  assert (heapq.heappush Event_lt []
            (mkEvent (Fin 0) (initial_trans u))
          = [mkEvent (Fin 0) (initial_trans u)]) as -> by reflexivity.
  fcbn. unfold Queue.len. fcbn. cbn [length].
  rewrite decide_False by done.
  eapply outcome_bind with (pre := fun _ _ => False); [|by intros].
  unfold pop_and_run, Queue.pop_and_run. apply outcome_gets_then. fcbn.
  assert (heapq.heappop Event_lt [mkEvent (Fin 0) (initial_trans u)]
          = Some (mkEvent (Fin 0) (initial_trans u), [])) as ->
    by reflexivity.
  apply outcome_modify_then. cbn [call function time].
  apply (process_trans_zero (Fin 0) _ (Z.of_nat (nx.order G)) 0 0);
    try done.
Qed.

End FastSIRZeroRate.

(** With [tau = 0] an initial infected [u] that has a neighbour other than
    itself stops [fast_SIR]: the first event infects [u], the neighbour is
    susceptible, and [random.expovariate(tau)] divides by zero. *)
Lemma fast_SIR_tau_zero_raises (fuel : nat) (G : Graph) (tau gamma : Q)
    (u v : node) (tmax : num) (full : bool) (r : RandomState) :
  (tau == 0)%Q -> u ∈ G_nodes G -> v ∈ G_adj G u -> v ≠ u ->
  num_lt (Fin 0) tmax = true ->
  exists r',
    FastSIR.fast_SIR (S fuel) G tau gamma (Some (a_node u)) None tmax None
      None full r = (Raise ZeroDivisionError, r').
Proof.
  intros Htau Hu Hv Hvu Htmax.
  pose proof (fast_nonMarkov_SIR_body_zero G tau gamma u Htau Hu
                (ex_intro _ v (conj Hv Hvu)) fuel tmax full r Htmax)
    as Hbody.
  unfold FastSIR.fast_SIR, _get_rate_functions, FastSIR.fast_nonMarkov_SIR.
  rewrite bool_decide_eq_false_2 by (by intros [? _]).
  unfold with_locals. unfold outcome in Hbody.
  destruct (FastSIR.fast_nonMarkov_SIR_body _ _ _ _ _ _ _ _ _)
    as [[out|e] st]; [done|].
  unfold division_by_zero in Hbody. subst e. by eexists.
Qed.

(** C2 fails on the code.  On the path 0 - 1 with node 0 infected and
    [tau = 0], [fast_SIR] returns no trajectory: whatever [gamma], the
    random draws and [return_full_data], and with no bound on the time, it
    raises [ZeroDivisionError], since [_find_trans_SIR_] calls
    [random.expovariate(tau)] for the susceptible neighbour 1.
    [Gillespie_SIR], which tests [total_rate > 0] before it divides, does
    on the same input what the claim says: it returns, the last [R] is 1
    and node 1 is still susceptible. *)
Theorem fast_SIR_tau_zero_on_path2 (fuel : nat) (gamma : Q) (full : bool)
    (r : RandomState) :
  (exists r',
     FastSIR.fast_SIR (S fuel) path2 0 gamma (Some (a_node 0%nat)) None Inf
       None None full r = (Raise ZeroDivisionError, r')) /\
  (exists out st r',
     Gillespie.Gillespie_SIR 10 path2 0 1 (Some (a_node 0%nat)) None Inf
       full (steady (1 # 2)) = (Ok (out, st), r') /\
     last (Gillespie.out_R out) = Some 1%Z /\
     forall w, G_status st w = if decide (w ∈ [0%nat]) then sR else sS).
Proof.
  split.
  - apply (fast_SIR_tau_zero_raises fuel path2 0 gamma 0%nat 1%nat Inf full
             r).
    + reflexivity.
    + by left.
    + by left.
    + done.
    + done.
  - apply (Gillespie_SIR_quiet path2 path2_simple 10 0 1 (a_node 0%nat)
             [0%nat] full (steady (1 # 2))).
    + reflexivity.
    + reflexivity.
    + apply NoDup_singleton.
    + intros u ->%list_elem_of_singleton. by left.
    + done.
    + split; [by left|done].
    + apply steady_unit_draws.
    + simpl. lia.
Qed.

(** * Further properties of the code *)

(** ** Arguments that the engines refuse *)

(** X1. A number given as the single initial infected, when it is not a
    node of the graph, is not wrapped in a list, and a number cannot be
    iterated over: all four engines raise [TypeError] when they come to
    iterate over it (or to take its length), before any random number is
    drawn.  (A string or a tuple that is not a node would be iterated over
    instead, as if it were a list of nodes; node identifiers of that kind
    are outside the embedding.) *)
Theorem initial_infected_outside_graph_is_TypeError (fuel : nat) (G : Graph)
    (tau gamma : Q) (u : node) (tmax : num) (tw rw : option string)
    (full : bool) (r : RandomState) :
  u ∉ G_nodes G ->
  FastSIR.fast_SIR fuel G tau gamma (Some (a_node u)) None tmax tw rw full r
  = (Raise TypeError, r) /\
  FastSIS.fast_SIS fuel G tau gamma (Some (a_node u)) None tmax tw rw full r
  = (Raise TypeError, r) /\
  Gillespie.Gillespie_SIR fuel G tau gamma (Some (a_node u)) None tmax full r
  = (Raise TypeError, r) /\
  Gillespie.Gillespie_SIS fuel G tau gamma (Some (a_node u)) None tmax full r
  = (Raise TypeError, r).
Proof.
  intros Hu.
  assert (nx.has_node G u = false) as Hn.
  { unfold nx.has_node. by apply bool_decide_eq_false_2. }
  unfold FastSIR.fast_SIR, FastSIR.fast_nonMarkov_SIR, FastSIS.fast_SIS,
    Gillespie.Gillespie_SIR, Gillespie.Gillespie_SIS.
  destruct (_get_rate_functions G tau gamma tw rw) as [tf rf].
  rewrite !bool_decide_eq_false_2 by (by intros [? _]).
  unfold with_locals, FastSIR.fast_nonMarkov_SIR_body, FastSIS.fast_SIS_body,
    Gillespie.Gillespie_SIR_body, Gillespie.Gillespie_SIS_body,
    choose_initial_infecteds, has_node_arg, bind. rewrite Hn.
  repeat split; destruct r; reflexivity.
Qed.

Lemma initial_infected_outside_graph_is_TypeError_witness :
  FastSIR.fast_SIR 5 path2 1 1 (Some (a_node 7%nat)) None Inf None None false
    (steady (1 # 2)) = (Raise TypeError, steady (1 # 2)) /\
  FastSIS.fast_SIS 5 path2 1 1 (Some (a_node 7%nat)) None (Fin 3) None None
    false (steady (1 # 2)) = (Raise TypeError, steady (1 # 2)) /\
  Gillespie.Gillespie_SIR 5 path2 1 1 (Some (a_node 7%nat)) None Inf false
    (steady (1 # 2)) = (Raise TypeError, steady (1 # 2)) /\
  Gillespie.Gillespie_SIS 5 path2 1 1 (Some (a_node 7%nat)) None (Fin 3) false
    (steady (1 # 2)) = (Raise TypeError, steady (1 # 2)).
Proof.
  assert (7%nat ∉ G_nodes path2) as Hu.
  { apply (bool_decide_unpack _). by vm_compute. }
  destruct (initial_infected_outside_graph_is_TypeError 5 path2 1 1 7%nat Inf
              None None false (steady (1 # 2)) Hu) as (H1 & _ & H3 & _).
  destruct (initial_infected_outside_graph_is_TypeError 5 path2 1 1 7%nat
              (Fin 3) None None false (steady (1 # 2)) Hu) as (_ & H2 & _ & H4).
  split; [exact H1|]. split; [exact H2|]. split; [exact H3|exact H4].
Defined.



(** ** The initial infecteds that are drawn *)

Section Sample.
Context {St : Type} `{HasRandom St}.
Hypothesis stores : stores_generator St.

Lemma below_unit_range (n : nat) (s : St) :
  unit_draws (get_random s) -> (0 < n)%nat ->
  succeeds (random.below n)
    (fun i s' => (0 <= i < Z.of_nat n)%Z /\
                 draws (get_random s') = draws (get_random s)) s.
Proof using stores.
  intros Hu Hn. eexists _, _. split; [reflexivity|].
  rewrite !stores. split; [|done].
  apply quot_unit_range; [apply (Hu _)..|done].
Qed.




End Sample.



(** ** What [fast_SIS] records *)

Section FastSISRecords.
Import FastSIS.

Lemma frame_FastSIS_run_queue {B} (f : state -> B) fuel (step : M state unit) :
  frame f step -> frame f (run_queue fuel step).
Proof.
  intros Hstep. induction fuel as [|fuel IH]; cbn [run_queue];
    apply frame_bind; try apply frame_gets; intros n;
    destruct (decide (n = 0%nat)); try apply frame_ret.
  - apply frame_raise.
  - by apply frame_bind.
Qed.

Lemma frame_recovery_times_body fuel G tf rf x rho full :
  frame recovery_times (fast_SIS_body fuel G tf rf x rho full).
Proof.
  unfold fast_SIS_body.
  apply frame_bind; [solve_frame|]. intros x'.
  apply frame_bind; [solve_frame|]. intros us.
  apply frame_bind; [unfold Q_add; solve_frame|]. intros ?.
  apply frame_bind; [|intros ?; solve_frame].
  apply frame_FastSIS_run_queue.
  unfold pop_and_run, Queue.pop_and_run.
  apply frame_bind; [solve_frame|]. intros q.
  destruct (heapq.heappop Event_lt (_Q_ q)) as [[e heap]|]; [|solve_frame].
  apply frame_bind; [solve_frame|]. intros ?.
  unfold call. destruct (function e) as [source target|u].
  - unfold _process_trans_SIS_, _find_next_trans_SIS_, status_read,
      rec_time_read, Q_add.
    solve_frame.
  - unfold _process_rec_SIS_. solve_frame.
Qed.

End FastSISRecords.

(** X4. [fast_SIS] creates the dictionary [recovery_times] and returns it
    when [return_full_data] is set, but no statement of the run writes to
    it ([_process_rec_SIS_] is not given it): the dictionary that is
    returned is empty, whatever happened in the run. *)
Theorem fast_SIS_returns_no_recovery_times (fuel : nat) (G : Graph)
    (tau gamma : Q) (initial_infecteds : option node_or_nodes)
    (rho : option Q) (tmax : num) (tw rw : option string) (full : bool)
    (r r' : RandomState) (out : FastSIS.output) (st : FastSIS.state) :
  FastSIS.fast_SIS fuel G tau gamma initial_infecteds rho tmax tw rw full r
  = (Ok (out, st), r') ->
  FastSIS.out_recovery_times out = if full then Some ∅ else None.
Proof.
  unfold FastSIS.fast_SIS. case_bool_decide; [done|].
  destruct (_get_rate_functions G tau gamma tw rw) as [tf rf].
  unfold with_locals.
  pose proof (frame_recovery_times_body fuel G tf rf initial_infecteds rho
                full (FastSIS.new G tmax r)) as Hf.
  destruct (FastSIS.fast_SIS_body _ _ _ _ _ _ _ _) as [[o|e] l] eqn:E;
    [|done].
  intros [= <- <- _]. simpl in Hf.
  assert (returns
            (FastSIS.fast_SIS_body fuel G tf rf initial_infecteds rho full)
            (fun out s' =>
               FastSIS.out_recovery_times out
               = if full then Some (FastSIS.recovery_times s') else None)
            (FastSIS.new G tmax r)) as Hout.
  { unfold FastSIS.fast_SIS_body.
    do 4 (apply (returns_bind_frame (fun _ => tt)); [done|]; intros ? ? _).
    apply returns_gets_then. by apply returns_ret. }
  unfold returns in Hout. rewrite E in Hout. by rewrite Hout, Hf.
Qed.

Lemma fast_SIS_returns_no_recovery_times_witness :
  match FastSIS.fast_SIS 20 path2 2 1 (Some (a_node 0%nat)) None (Fin 3) None
          None true (steady (2 # 3))
  with
  | (Ok (out, _), _) => FastSIS.out_recovery_times out = Some ∅
  | (Raise _, _) => False
  end.
Proof.
  destruct (FastSIS.fast_SIS 20 path2 2 1 (Some (a_node 0%nat)) None (Fin 3)
              None None true (steady (2 # 3)))
    as [[[out st]|e] r'] eqn:E; [|vm_compute in E; discriminate E].
  exact (fast_SIS_returns_no_recovery_times _ _ _ _ _ _ _ _ _ _ _ _ _ _ E).
Defined.

(** ** [_ListDict_] is a set *)

(** X5. A [_ListDict_] whose two halves describe each other stays so under
    [add] and [remove], and behaves as a set: [add] inserts the item (and
    changes nothing when it is there already), [remove] of an item that is
    there removes that item and no other, and [len] counts the items. *)
Theorem ListDict_is_a_set (self : _ListDict_) (item : node) :
  ListDict_wf self ->
  (ListDict_wf (ListDict.add self item) /\
   (forall x, x ∈ items (ListDict.add self item)
              <-> x = item \/ x ∈ items self) /\
   ListDict.len (ListDict.add self item)
   = if decide (item ∈ items self) then ListDict.len self
     else S (ListDict.len self)) /\
  (item ∈ items self ->
   exists self',
     ListDict.remove self item = (Ok tt, self') /\
     ListDict_wf self' /\
     (forall x, x ∈ items self' <-> x ∈ items self /\ x ≠ item) /\
     S (ListDict.len self') = ListDict.len self).
Proof.
  intros Hwf. split.
  - split; [by apply ListDict_wf_add|]. split; [intros x; by apply ListDict_add_elem|].
    case_decide as Hin.
    + rewrite ListDict_add_present; [done|]. by apply ListDict_wf_elem.
    + rewrite ListDict_add_absent.
      * unfold ListDict.len. simpl. rewrite length_app. simpl. lia.
      * apply eq_None_not_Some. intros Hs. by apply Hin, ListDict_wf_elem.
  - intros Hin.
    destruct (ListDict_remove_present self item Hwf Hin)
      as (self' & E & Hwf' & Hmem).
    exists self'. split; [done|]. split; [done|]. split; [done|].
    unfold ListDict.len.
    change (S (length (items self'))) with (length (item :: items self')).
    apply NoDup_same_length.
    + apply NoDup_cons. split; [|by apply ListDict_wf_NoDup].
      rewrite Hmem. tauto.
    + by apply ListDict_wf_NoDup.
    + intros x. rewrite elem_of_cons, Hmem.
      destruct (decide (x = item)) as [->|]; tauto.
Qed.

Lemma ListDict_is_a_set_witness :
  let self := ListDict.add (ListDict.add ListDict.init 4%nat) 7%nat in
  (ListDict_wf (ListDict.add self 4%nat) /\
   (forall x, x ∈ items (ListDict.add self 4%nat)
              <-> x = 4%nat \/ x ∈ items self) /\
   ListDict.len (ListDict.add self 4%nat)
   = if decide (4%nat ∈ items self) then ListDict.len self
     else S (ListDict.len self)) /\
  (4%nat ∈ items self ->
   exists self',
     ListDict.remove self 4%nat = (Ok tt, self') /\
     ListDict_wf self' /\
     (forall x, x ∈ items self' <-> x ∈ items self /\ x ≠ 4%nat) /\
     S (ListDict.len self') = ListDict.len self).
Proof.
  intros self. apply ListDict_is_a_set.
  unfold self. apply ListDict_wf_add, ListDict_wf_add, ListDict_wf_init.
Defined.

(** X6. [_ListDict_.choose_random] draws one random number and returns an
    item of the container; on an empty container it raises the [IndexError]
    of [random.choice] on an empty sequence. *)
Theorem ListDict_choose_random_member {St : Type} `{HasRandom St}
    (self : _ListDict_) (s : St) :
  unit_draws (get_random s) -> stores_generator St ->
  (items self = [] -> (ListDict.choose_random self s).1 = Raise IndexError) /\
  (items self ≠ [] ->
   exists x s', ListDict.choose_random self s = (Ok x, s') /\ x ∈ items self).
Proof.
  intros Hu Hst. unfold ListDict.choose_random, random.choice. split.
  - intros ->.
    assert (forall i, random.index (@nil node) i = Raise IndexError) as Hnil.
    { intros i. unfold random.index, random.position.
      change (Z.of_nat (length (@nil node))) with 0%Z.
      destruct (Z.ltb_spec i 0) as [Hi|Hi].
      - destruct (Z.ltb_spec (0 + i) 0); [done|lia].
      - destruct (Z.ltb_spec i 0); [lia|].
        destruct (Z.leb_spec 0 i); [done|lia]. }
    unfold random.below, random.random, random.next, bind, gets, ret, lift.
    simpl. by rewrite Hnil.
  - intros Hne.
    assert (0 < length (items self))%nat as Hlen.
    { destruct (items self); [done|simpl; lia]. }
    destruct (below_unit_range Hst (length (items self)) s Hu Hlen)
      as (i & s' & E & Hi & _).
    destruct (index_succeeds (items self) i _ (position_in_range _ _ Hi))
      as [x Hx].
    exists x, s'. split.
    + rewrite (bind_Ok _ _ _ _ _ E). unfold lift. by rewrite Hx.
    + by apply index_elem in Hx.
Qed.

Lemma ListDict_choose_random_member_witness :
  let self := ListDict.add (ListDict.add ListDict.init 4%nat) 7%nat in
  (items ListDict.init = [] ->
   (ListDict.choose_random ListDict.init (steady (1 # 2))).1
   = Raise IndexError) /\
  (items self ≠ [] ->
   exists x s',
     ListDict.choose_random self (steady (1 # 2)) = (Ok x, s') /\
     x ∈ items self).
Proof.
  intros self.
  assert (stores_generator RandomState) as Hst by (by intros r s).
  split.
  - apply (@ListDict_choose_random_member RandomState RandomState_HasRandom
             ListDict.init (steady (1 # 2)) steady_unit_draws Hst).
  - apply (@ListDict_choose_random_member RandomState RandomState_HasRandom
             self (steady (1 # 2)) steady_unit_draws Hst).
Defined.

(** ** The heap of [heapq] keeps its order *)

Lemma half_spec (n : nat) : (2 * (n / 2) <= n < 2 * (n / 2) + 2)%nat.
Proof.
  pose proof (Nat.div_mod_eq n 2). pose proof (Nat.mod_upper_bound n 2). lia.
Qed.

Ltac halves :=
  repeat match goal with
  | |- context [(?n / 2)%nat] =>
      lazymatch goal with
      | _ : (2 * (n / 2) <= n < 2 * (n / 2) + 2)%nat |- _ => fail
      | _ => pose proof (half_spec n)
      end
  | _ : context [(?n / 2)%nat] |- _ =>
      lazymatch goal with
      | _ : (2 * (n / 2) <= n < 2 * (n / 2) + 2)%nat |- _ => fail
      | _ => pose proof (half_spec n)
      end
  end.

Section HeapOrder.
Context {A : Type} (lt : A -> A -> bool).
Hypothesis Hlt : orders lt.

Lemma heap_lt_irrefl a : lt a a = false.
Proof using Hlt.
  destruct (lt a a) eqn:E; [|done]. by rewrite (proj1 Hlt a a E) in E.
Qed.

(** Filling the hole with an item that fits gives a heap. *)
Lemma fill_hole heap pos newitem :
  heap_hole lt heap pos ->
  (forall i c, ((i - 1) / 2)%nat = pos -> (0 < i)%nat ->
               heap !! i = Some c -> lt c newitem = false) ->
  (forall p, (0 < pos)%nat -> heap !! ((pos - 1) / 2)%nat = Some p ->
             lt newitem p = false) ->
  heap_ordered lt (<[pos := newitem]> heap).
Proof.
  intros [H1 H3] H2 Hp i c p Hi Hc Hpar.
  destruct (decide (i = pos)) as [->|Hne].
  - assert ((pos - 1) / 2 ≠ pos)%nat as Hne by (halves; lia).
    rewrite list_lookup_insert_ne in Hpar by done.
    apply list_lookup_insert_Some in Hc as [(_ & <- & _)|[? _]]; [|done].
    by apply Hp.
  - rewrite list_lookup_insert_ne in Hc by done.
    destruct (decide ((i - 1) / 2 = pos)%nat) as [E|Hne'].
    + rewrite E in Hpar.
      apply list_lookup_insert_Some in Hpar as [(_ & <- & _)|[? _]]; [|done].
      by apply (H2 i).
    + rewrite list_lookup_insert_ne in Hpar by done. by apply (H1 i).
Qed.

Lemma siftdown_loop_ordered fuel :
  forall heap pos newitem,
    (pos < fuel)%nat -> (pos < length heap)%nat ->
    heap_hole lt heap pos ->
    (forall i c, ((i - 1) / 2)%nat = pos -> (0 < i)%nat ->
                 heap !! i = Some c -> lt c newitem = false) ->
    heap_ordered lt (heapq.siftdown_loop lt fuel heap 0 pos newitem).
Proof using Hlt.
  induction fuel as [|fuel IH]; intros heap pos newitem Hf Hlen Hhole H2;
    [lia|].
  cbn [heapq.siftdown_loop].
  destruct (decide (0 < pos)%nat) as [Hpos|Hpos].
  2: { apply fill_hole; [done|done|]. intros p ?. lia. }
  assert ((pos - 1) / 2 < pos)%nat as Hpp by (halves; lia).
  destruct (lookup_lt_is_Some_2 heap ((pos - 1) / 2)) as [parent Hparent];
    [lia|].
  rewrite Hparent.
  destruct (lt newitem parent) eqn:Elt.
  2: { apply fill_hole; [done|done|]. intros p _ Hp. congruence. }
  destruct Hhole as [H1 H3].
  assert (lt parent newitem = false) as Hle by (by apply Hlt).
  apply IH; [lia|rewrite length_insert; lia| |].
  - split.
    + intros i c p Hi Hne Hne' Hc Hp.
      destruct (decide (i = pos)) as [->|Hip]; [done|].
      rewrite list_lookup_insert_ne in Hc by done.
      destruct (decide ((i - 1) / 2 = pos)%nat) as [E|Hipp].
      * rewrite E in Hp.
        apply list_lookup_insert_Some in Hp as [(_ & <- & _)|[? _]];
          [|done].
        by apply (H3 i c parent).
      * rewrite list_lookup_insert_ne in Hp by done. by apply (H1 i).
    + intros i c g Hi Hi0 Hpp0 Hc Hg.
      assert (((pos - 1) / 2 - 1) / 2 ≠ pos)%nat as Hgp by (halves; lia).
      rewrite list_lookup_insert_ne in Hg by done.
      assert (lt parent g = false) as Hpg.
      { apply (H1 ((pos - 1) / 2)%nat); try done; lia. }
      destruct (decide (i = pos)) as [->|Hip].
      * apply list_lookup_insert_Some in Hc as [(_ & <- & _)|[? _]];
          [done|done].
      * rewrite list_lookup_insert_ne in Hc by done.
        apply (proj2 Hlt g parent c); [done|].
        apply (H1 i); [done|done|lia|done|by rewrite Hi].
  - intros i c Hi Hi0 Hc.
    destruct (decide (i = pos)) as [->|Hip].
    + apply list_lookup_insert_Some in Hc as [(_ & <- & _)|[? _]];
        [done|done].
    + rewrite list_lookup_insert_ne in Hc by done.
      apply (proj2 Hlt newitem parent c); [done|].
      apply (H1 i); [done|done|lia|done|by rewrite Hi].
Qed.

Lemma siftdown_ordered heap pos :
  (pos < length heap)%nat -> heap_hole lt heap pos ->
  (forall i, ((i - 1) / 2)%nat = pos -> (0 < i)%nat ->
             (length heap <= i)%nat) ->
  heap_ordered lt (heapq._siftdown lt heap 0 pos).
Proof using Hlt.
  intros Hlen Hhole Hleaf. unfold heapq._siftdown.
  destruct (lookup_lt_is_Some_2 heap pos Hlen) as [newitem Hn]. rewrite Hn.
  apply siftdown_loop_ordered; [lia|done|done|].
  intros i c Hi Hi0 Hc. apply lookup_lt_Some in Hc.
  specialize (Hleaf i Hi Hi0). lia.
Qed.

Lemma heap_ordered_hole heap pos :
  heap_ordered lt heap -> heap_hole lt heap pos.
Proof using Hlt.
  intros Hheap. split.
  - intros i c p Hi _ _. by apply Hheap.
  - intros i c g Hi Hi0 Hpos Hc Hg.
    destruct (lookup_lt_is_Some_2 heap pos) as [x Hx].
    { apply lookup_lt_Some in Hc. halves. lia. }
    apply (proj2 Hlt g x c).
    + by apply (Hheap pos).
    + rewrite <- Hi in Hx. by apply (Hheap i).
Qed.

Lemma heap_hole_insert heap pos x :
  heap_hole lt heap pos -> heap_hole lt (<[pos := x]> heap) pos.
Proof.
  intros [H1 H3]. split.
  - intros i c p Hi Hne Hne' Hc Hp.
    rewrite list_lookup_insert_ne in Hc, Hp by done. by apply (H1 i).
  - intros i c g Hi Hi0 Hpos Hc Hg.
    assert (i ≠ pos) by (halves; lia).
    assert ((pos - 1) / 2 ≠ pos)%nat by (halves; lia).
    rewrite list_lookup_insert_ne in Hc, Hg by done. by apply (H3 i).
Qed.

Lemma heappush_ordered heap item :
  heap_ordered lt heap -> heap_ordered lt (heapq.heappush lt heap item).
Proof using Hlt.
  intros Hheap. unfold heapq.heappush.
  rewrite length_app. simpl.
  replace (length heap + 1 - 1)%nat with (length heap) by lia.
  apply siftdown_ordered.
  - rewrite length_app. simpl. lia.
  - split.
    + intros i c p Hi Hne Hne' Hc Hp.
      assert (i < length heap)%nat as Hil.
      { apply lookup_lt_Some in Hc. rewrite length_app in Hc. simpl in Hc.
        lia. }
      rewrite lookup_app_l in Hc by done.
      rewrite lookup_app_l in Hp by (halves; lia).
      by apply (Hheap i).
    + intros i c g Hi Hi0 Hpos Hc Hg.
      apply lookup_lt_Some in Hc. rewrite length_app in Hc. simpl in Hc.
      halves. lia.
  - intros i Hi Hi0. rewrite length_app. simpl. halves. lia.
Qed.

Lemma siftup_loop_hole fuel :
  forall heap pos,
    (length heap <= fuel + pos)%nat -> (pos < length heap)%nat ->
    heap_hole lt heap pos ->
    heap_hole lt (heapq.siftup_loop lt fuel heap pos).1
      (heapq.siftup_loop lt fuel heap pos).2 /\
    length (heapq.siftup_loop lt fuel heap pos).1 = length heap /\
    ((heapq.siftup_loop lt fuel heap pos).2 < length heap)%nat /\
    (length heap <= 2 * (heapq.siftup_loop lt fuel heap pos).2 + 1)%nat.
Proof using Hlt.
  induction fuel as [|fuel IH]; intros heap pos Hf Hlen Hhole.
  { simpl. repeat split; try done; try apply Hhole; lia. }
  cbn [heapq.siftup_loop]. cbv zeta.
  destruct (decide (2 * pos + 1 < length heap)%nat) as [Hc|Hc].
  2: { simpl. repeat split; try done; try apply Hhole; lia. }
  destruct (lookup_lt_is_Some_2 heap (2 * pos + 1)%nat Hc) as [l Hl].
  rewrite Hl.
  set (cp := match heap !! (2 * pos + 1 + 1)%nat with
             | Some r => if negb (lt l r) then (2 * pos + 1 + 1)%nat
                         else (2 * pos + 1)%nat
             | None => (2 * pos + 1)%nat
             end).
  assert (exists c, heap !! cp = Some c /\
            (cp = 2 * pos + 1 \/ cp = 2 * pos + 2)%nat /\
            forall i x, ((i - 1) / 2)%nat = pos -> (0 < i)%nat ->
                        heap !! i = Some x -> lt x c = false)
    as (c & Hcp & Hcpos & Hmin).
  { assert (forall i, ((i - 1) / 2)%nat = pos -> (0 < i)%nat ->
                      i = (2 * pos + 1)%nat \/ i = (2 * pos + 1 + 1)%nat)
      as Hkids by (intros i ? ?; halves; lia).
    subst cp. destruct (heap !! (2 * pos + 1 + 1)%nat) as [r|] eqn:Hr.
    - destruct (lt l r) eqn:Elr; simpl.
      + exists l. split; [done|]. split; [lia|].
        intros i x Hi Hi0 Hx. destruct (Hkids i Hi Hi0) as [->| ->].
        * rewrite Hl in Hx. injection Hx as <-. apply heap_lt_irrefl.
        * rewrite Hr in Hx. injection Hx as <-. by apply Hlt.
      + exists r. split; [done|]. split; [lia|].
        intros i x Hi Hi0 Hx. destruct (Hkids i Hi Hi0) as [->| ->].
        * rewrite Hl in Hx. by injection Hx as <-.
        * rewrite Hr in Hx. injection Hx as <-. apply heap_lt_irrefl.
    - exists l. split; [done|]. split; [lia|].
      intros i x Hi Hi0 Hx. destruct (Hkids i Hi Hi0) as [->| ->].
      + rewrite Hl in Hx. injection Hx as <-. apply heap_lt_irrefl.
      + congruence. }
  rewrite Hcp.
  assert (cp < length heap)%nat as Hcplen by (by eapply lookup_lt_Some).
  assert (((cp - 1) / 2)%nat = pos) as Hcpp by (halves; lia).
  destruct Hhole as [H1 H3].
  destruct (IH (<[pos := c]> heap) cp) as (IH1 & IH2 & IH3 & IH4).
  - rewrite length_insert. lia.
  - by rewrite length_insert.
  - split.
    + intros i x p Hi Hne Hne' Hx Hp.
      destruct (decide (i = pos)) as [->|Hip].
      * apply list_lookup_insert_Some in Hx as [(_ & <- & _)|[? _]];
          [|done].
        assert ((pos - 1) / 2 ≠ pos)%nat by (halves; lia).
        rewrite list_lookup_insert_ne in Hp by done.
        apply (H3 cp c p); [done|lia|done|done|done].
      * rewrite list_lookup_insert_ne in Hx by done.
        destruct (decide ((i - 1) / 2 = pos)%nat) as [E|Hipp].
        -- rewrite E in Hp.
           apply list_lookup_insert_Some in Hp as [(_ & <- & _)|[? _]];
             [|done].
           by apply (Hmin i).
        -- rewrite list_lookup_insert_ne in Hp by done. by apply (H1 i).
    + intros i x p Hi Hi0 _ Hx Hp.
      rewrite Hcpp in Hp.
      apply list_lookup_insert_Some in Hp as [(_ & <- & _)|[? _]]; [|done].
      assert (i ≠ pos) by (halves; lia).
      rewrite list_lookup_insert_ne in Hx by done.
      apply (H1 i); [done|lia|lia|done|by rewrite Hi].
  - rewrite length_insert in IH2, IH3, IH4. done.
Qed.

Lemma siftup_ordered heap :
  heap_hole lt heap 0 -> heap_ordered lt (heapq._siftup lt heap 0).
Proof using Hlt.
  intros Hhole. unfold heapq._siftup.
  destruct (heap !! 0%nat) as [newitem|] eqn:Hn.
  2: { apply lookup_ge_None in Hn. intros i c p _ Hc.
       apply lookup_lt_Some in Hc. lia. }
  apply lookup_lt_Some in Hn as Hlen.
  destruct (siftup_loop_hole (length heap) heap 0) as (K1 & K2 & K3 & K4);
    [lia|done|done|].
  destruct (heapq.siftup_loop lt (length heap) heap 0) as [heap' pos'].
  simpl in K1, K2, K3, K4.
  apply siftdown_ordered.
  - rewrite length_insert. lia.
  - by apply heap_hole_insert.
  - intros i Hi Hi0. rewrite length_insert. halves. lia.
Qed.

Lemma heap_ordered_prefix l1 l2 :
  heap_ordered lt (l1 ++ l2) -> heap_ordered lt l1.
Proof.
  intros Hheap i c p Hi Hc Hp. apply (Hheap i); [done| |].
  - by apply lookup_app_l_Some.
  - by apply lookup_app_l_Some.
Qed.

Lemma heappop_ordered heap item heap' :
  heap_ordered lt heap -> heapq.heappop lt heap = Some (item, heap') ->
  heap_ordered lt heap'.
Proof using Hlt.
  intros Hheap. unfold heapq.heappop.
  destruct (last heap) as [lastelt|] eqn:Hl; [|discriminate].
  apply last_removelast in Hl. rewrite Hl in Hheap.
  apply heap_ordered_prefix in Hheap.
  destruct (removelast heap) as [|returnitem rest] eqn:Hr.
  - by intros [= <- <-].
  - intros [= <- <-]. apply siftup_ordered.
    apply (heap_hole_insert (returnitem :: rest) 0 lastelt).
    by apply heap_ordered_hole.
Qed.

(** The root of a heap is least. *)
Lemma heap_root_least heap m :
  heap_ordered lt heap -> heap !! 0%nat = Some m ->
  forall x, x ∈ heap -> lt x m = false.
Proof using Hlt.
  intros Hheap Hm x Hx. apply list_elem_of_lookup in Hx as [i Hi].
  revert x Hi. induction (lt_wf i) as [i _ IH]. intros x Hi.
  destruct (decide (i = 0)%nat) as [->|Hne].
  { rewrite Hm in Hi. injection Hi as <-. apply heap_lt_irrefl. }
  assert ((i - 1) / 2 < i)%nat as Hlt' by (halves; lia).
  destruct (lookup_lt_is_Some_2 heap ((i - 1) / 2)%nat) as [p Hp].
  { apply lookup_lt_Some in Hi. lia. }
  apply (proj2 Hlt m p x).
  - by apply (IH ((i - 1) / 2)%nat).
  - apply (Hheap i); [lia|done|done].
Qed.

Lemma heappop_least heap item heap' :
  heap_ordered lt heap -> heapq.heappop lt heap = Some (item, heap') ->
  forall x, x ∈ heap -> lt x item = false.
Proof using Hlt.
  intros Hheap Hpop. assert (heap !! 0%nat = Some item) as H0.
  { revert Hpop. unfold heapq.heappop.
    destruct (last heap) as [lastelt|] eqn:Hl; [|discriminate].
    apply last_removelast in Hl.
    destruct (removelast heap) as [|returnitem rest] eqn:Hr.
    - intros [= <- <-]. by rewrite Hl.
    - intros [= <- <-]. by rewrite Hl. }
  by apply heap_root_least.
Qed.

End HeapOrder.

Lemma Event_lt_orders {H} : orders (@Event_lt H).
Proof.
  split.
  - intros a b. unfold Event_lt.
    destruct (time a) as [x|], (time b) as [y|]; simpl; try done.
    unfold Qltb. rewrite !negb_true_iff, negb_false_iff.
    intros E. apply Qle_bool_iff. apply Qlt_le_weak.
    apply Qnot_le_lt. intros Hle. apply Qle_bool_iff in Hle. congruence.
  - intros a b c. unfold Event_lt. rewrite !num_lt_false.
    destruct (time a) as [x|], (time b) as [y|], (time c) as [z|]; simpl;
      try done.
    apply Qle_trans.
Qed.

(** X7: [myQueue] is a priority queue.  While the list [_Q_] is a heap (it
    is one when the queue is created), [add] keeps it a heap, and
    [pop_and_run] takes out an event whose time is at most that of every
    event of the queue, leaving a heap of the other events. *)
Theorem myQueue_pops_earliest_event {H} (Q : myQueue H) :
  heap_ordered Event_lt (_Q_ Q) ->
  (forall event, heap_ordered Event_lt (_Q_ (Queue.add Q event))) /\
  (forall event heap,
     heapq.heappop Event_lt (_Q_ Q) = Some (event, heap) ->
     heap_ordered Event_lt heap /\
     _Q_ Q ≡ₚ event :: heap /\
     forall e, e ∈ _Q_ Q -> num_le (time event) (time e)).
Proof.
  intros Hheap. split.
  - intros event. unfold Queue.add.
    destruct (num_lt (time event) (tmax Q)); [|done]. simpl.
    by apply heappush_ordered; [apply Event_lt_orders|].
  - intros event heap Hpop. split; [|split].
    + by eapply heappop_ordered; [apply Event_lt_orders| |].
    + by apply heappop_perm in Hpop.
    + intros e He. apply num_lt_false.
      by eapply (heappop_least Event_lt Event_lt_orders).
Qed.

Lemma myQueue_pops_earliest_event_witness :
  let e1 : Event unit := mkEvent (Fin 1) tt in
  let e2 : Event unit := mkEvent (Fin 2) tt in
  let e3 : Event unit := mkEvent (Fin 3) tt in
  let Q := Queue.add (Queue.add (Queue.add (Queue.init (Fin 5)) e3) e1) e2 in
  heap_ordered Event_lt (_Q_ Q) /\
  (forall event, heap_ordered Event_lt (_Q_ (Queue.add Q event))) /\
  heapq.heappop Event_lt (_Q_ Q) = Some (e1, [e2; e3]) /\
  heap_ordered Event_lt [e2; e3] /\
  _Q_ Q ≡ₚ [e1; e2; e3] /\
  forall e, e ∈ _Q_ Q -> num_le (Fin 1) (time e).
Proof.
  intros e1 e2 e3 Q.
  assert (heap_ordered Event_lt (_Q_ (Queue.init (H := unit) (Fin 5))))
    as H0.
  { intros i c p _ Hc. simpl in Hc. by rewrite lookup_nil in Hc. }
  pose proof (proj1 (myQueue_pops_earliest_event _ H0) e3) as H1.
  pose proof (proj1 (myQueue_pops_earliest_event _ H1) e1) as H2.
  pose proof (proj1 (myQueue_pops_earliest_event _ H2) e2) as H3.
  fold Q in H3.
  assert (heapq.heappop Event_lt (_Q_ Q) = Some (e1, [e2; e3])) as Hpop.
  { vm_compute. reflexivity. }
  destruct (myQueue_pops_earliest_event Q H3) as [Hadd Hrest].
  destruct (Hrest e1 [e2; e3] Hpop) as (Hheap & Hperm & Hleast).
  split; [exact H3|]. split; [exact Hadd|]. split; [exact Hpop|].
  split; [exact Hheap|]. split; [exact Hperm|exact Hleast].
Defined.

(** ** Event-driven SIR: the clock *)

Section FrameNext.
Context {St B : Type} `{HasRandom St} (f : St -> B).
Hypothesis Hnext : frame f random.next.

Lemma frame_next_random : frame f random.random.
Proof using Hnext.
  apply frame_bind; [apply Hnext|]. intros i.
  apply frame_bind; [apply frame_gets|]. intros r. apply frame_ret.
Qed.

Lemma frame_next_expovariate lambd : frame f (random.expovariate lambd).
Proof using Hnext.
  apply frame_bind; [apply Hnext|]. intros i.
  apply frame_bind; [apply frame_gets|]. intros r.
  destruct (Qeq_bool lambd 0); [apply frame_raise|apply frame_ret].
Qed.

Lemma frame_next_below n : frame f (random.below n).
Proof using Hnext.
  apply frame_bind; [apply frame_next_random|]. intros u. apply frame_ret.
Qed.

Lemma frame_next_choice {A} (l : list A) : frame f (random.choice l).
Proof using Hnext.
  apply frame_bind; [apply frame_next_below|]. intros i. apply frame_lift.
Qed.

Lemma frame_next_sample {A} (population : list A) k :
  frame f (random.sample population k).
Proof using Hnext.
  unfold random.sample. destruct (_ || _); [apply frame_raise|].
  generalize (length population). generalize (Z.to_nat k). intros n.
  revert population. induction n as [|n IH]; intros pool m; simpl.
  - apply frame_ret.
  - apply frame_bind; [apply frame_next_below|]. intros j.
    apply frame_bind; [apply frame_lift|]. intros x.
    apply frame_bind; [apply frame_lift|]. intros y.
    apply frame_bind; [apply frame_lift|]. intros pool'.
    apply frame_bind; [apply IH|]. intros rest. apply frame_ret.
Qed.

Lemma frame_next_choose_initial_infecteds G x rho :
  frame f (choose_initial_infecteds G x rho).
Proof using Hnext.
  unfold choose_initial_infecteds. destruct x as [x|].
  - destruct (has_node_arg G x); [destruct x|]; apply frame_ret.
  - apply frame_bind; [apply frame_next_sample|]. intros l. apply frame_ret.
Qed.

End FrameNext.

Lemma num_le_add_nonneg (t : num) (d : Q) :
  (0 <= d)%Q -> num_le t (num_add t (Fin d)).
Proof.
  intros Hd. destruct t as [a|]; simpl; [|done].
  rewrite <- (Qplus_0_r a) at 1. by apply Qplus_le_r.
Qed.

Lemma nondecreasing_snoc l t :
  nondecreasing l -> (forall x, x ∈ l -> num_le x t) ->
  nondecreasing (l ++ [t]).
Proof.
  intros Hl Ht i j x y Hij Hx Hy.
  apply lookup_lt_Some in Hy as Hlen. rewrite length_app in Hlen.
  simpl in Hlen.
  destruct (decide (j < length l)%nat) as [Hj|Hj].
  - rewrite lookup_app_l in Hx, Hy by lia. by apply (Hl i j).
  - assert (j = length l) as -> by lia.
    rewrite list_lookup_middle in Hy by done. injection Hy as <-.
    destruct (decide (i < length l)%nat) as [Hi|Hi].
    + rewrite lookup_app_l in Hx by lia. apply Ht.
      by eapply list_elem_of_lookup_2.
    + assert (i = length l) as -> by lia.
      rewrite list_lookup_middle in Hx by done. injection Hx as <-.
      apply num_le_refl.
Qed.

Lemma nondecreasing_drop n l : nondecreasing l -> nondecreasing (drop n l).
Proof.
  intros Hl i j x y Hij. rewrite !lookup_drop. apply Hl. lia.
Qed.

Section FastSIRClock.
Import FastSIR.
Context (G : Graph) (tf : node -> node -> result Q) (rf : node -> result Q).
Hypothesis Htf : forall u v r, tf u v = Ok r -> (0 < r)%Q.
Hypothesis Hrf : forall u r, rf u = Ok r -> (0 < r)%Q.

Ltac ccbn :=
  cbn [times Q_ rand S_ I_ R_ status rec_time pred_inf_time set_times set_Q
       set_S set_I set_R set_status set_rec_time set_pred_inf_time set_rand
       new Queue.init _Q_ tmax].

Lemma clock_view now s s' :
  FastSIR_view_clock s' = FastSIR_view_clock s ->
  FastSIR_clock now s -> FastSIR_clock now s'.
Proof.
  unfold FastSIR_view_clock, FastSIR_clock, exp_draws.
  intros [= -> -> ->]. done.
Qed.

Lemma frame_clock_next : frame FastSIR_view_clock random.next.
Proof. by intros s. Qed.

Ltac clock_frame :=
  unfold status_read, rec_time_read, pred_inf_time_read;
  repeat first
    [ apply frame_next_expovariate; apply frame_clock_next
    | apply frame_next_choose_initial_infecteds; apply frame_clock_next
    | frame_step ].

Lemma clock_frame_then {A C} now (m : M state A) (k : A -> M state C) post s :
  frame FastSIR_view_clock m -> FastSIR_clock now s ->
  (forall a s', FastSIR_clock now s' -> tmax (Q_ s') = tmax (Q_ s) ->
                returns (k a) post s') ->
  returns (bind m k) post s.
Proof.
  intros Hm Hs Hk. apply (returns_bind_frame FastSIR_view_clock); [done|].
  intros a s' E. apply Hk; [by eapply clock_view|].
  unfold FastSIR_view_clock in E. by injection E as _ -> _.
Qed.

Lemma clock_Q_add now e s :
  FastSIR_clock now s -> num_le now (time e) ->
  FastSIR_clock now (set_Q (Queue.add (Q_ s) e) s).
Proof.
  intros (H0 & Hnd & Hw & Hle & Hheap & HQ & Hexp) He.
  unfold FastSIR_clock. ccbn. rewrite queue_add_tmax.
  split_and!; try done.
  - unfold Queue.add. destruct (num_lt _ _); [|done]. simpl.
    by apply heappush_ordered; [apply Event_lt_orders|].
  - intros x Hx.
    apply queue_add_elem in Hx as [[-> Hlt]|Hx]; [|by apply HQ].
    split; [done|]. by apply num_lt_true.
Qed.

Lemma clock_expovariate_then {C} now lambd (k : Q -> M state C) post s :
  (0 < lambd)%Q -> FastSIR_clock now s ->
  (forall d s', (0 <= d)%Q -> FastSIR_clock now s' ->
                tmax (Q_ s') = tmax (Q_ s) -> returns (k d) post s') ->
  returns (bind (random.expovariate lambd) k) post s.
Proof.
  intros Hl Hs Hk. unfold returns, bind.
  rewrite FastSIR_expovariate_run.
  2: { intros E. rewrite E in Hl. by apply Qlt_irrefl in Hl. }
  apply Hk; [|by eapply clock_view; [|exact Hs]|done].
  apply Qle_shift_div_l; [done|]. rewrite Qmult_0_l.
  apply Hs.
Qed.

Lemma find_trans_clock now tau source target rt s :
  (0 < tau)%Q -> FastSIR_clock now s ->
  returns (_find_trans_SIR_ now tau source target rt)
    (fun _ s' => FastSIR_clock now s' /\ tmax (Q_ s') = tmax (Q_ s)) s.
Proof.
  intros Htau Hs. unfold _find_trans_SIR_.
  apply (clock_frame_then now); [clock_frame|done|]. intros st s1 Hs1 E1.
  destruct (decide (st = sS)); [|by apply returns_ret].
  apply (clock_expovariate_then now); [done|done|]. intros d s2 Hd Hs2 E2.
  apply (clock_frame_then now); [clock_frame|done|]. intros p s3 Hs3 E3.
  destruct (num_lt _ _); [|apply returns_ret; split; [done|congruence]].
  unfold Q_add. apply returns_modify_then.
  apply (returns_of_frame FastSIR_view_clock); [clock_frame|].
  intros s' E'. split.
  - eapply clock_view; [exact E'|]. apply clock_Q_add; [done|].
    by apply num_le_add_nonneg.
  - unfold FastSIR_view_clock in E'. injection E' as _ -> _. simpl.
    rewrite queue_add_tmax. congruence.
Qed.

Lemma clock_append now s :
  FastSIR_clock now s -> num_lt now (tmax (Q_ s)) = true ->
  FastSIR_clock now (set_times (fun l => l ++ [now]) s).
Proof.
  intros (H0 & Hnd & Hw & Hle & Hheap & HQ & Hexp) Hnow.
  unfold FastSIR_clock. ccbn. split_and!; try done.
  - by apply nondecreasing_snoc.
  - intros t [Ht| ->%list_elem_of_singleton]%elem_of_app; [by apply Hw|].
    split; [done|by right].
  - intros t [Ht| ->%list_elem_of_singleton]%elem_of_app; [by apply Hle|].
    apply num_le_refl.
Qed.

Lemma returns_dd_read_then {K V St C} `{Countable K} (get : St -> gmap K V)
    (set : gmap K V -> St -> St) dflt k v (K' : V -> M St C) post s :
  get s !! k = Some v -> returns (K' v) post s ->
  returns (bind (dd_read get set dflt k) K') post s.
Proof. intros E HK. unfold returns, bind, dd_read. by rewrite E. Qed.

Lemma process_trans_clock now u s :
  FastSIR_clock now s -> num_lt now (tmax (Q_ s)) = true ->
  returns (_process_trans_SIR_ G tf rf now u)
    (fun _ => FastSIR_clock now) s.
Proof using Htf Hrf.
  intros Hs Hnow. unfold _process_trans_SIR_.
  apply (clock_frame_then now); [clock_frame|done|]. intros st s1 Hs1 E1.
  destruct (decide (st = sS)); [|by apply returns_ret].
  apply (clock_frame_then now); [clock_frame|done|]. intros ? s2 Hs2 E2.
  apply returns_modify_then.
  assert (FastSIR_clock now (set_times (fun l => l ++ [now]) s2)) as Hs3.
  { apply clock_append; [done|congruence]. }
  assert (tmax (Q_ (set_times (fun l => l ++ [now]) s2)) = tmax (Q_ s))
    as E3 by (simpl; congruence).
  revert Hs3 E3. generalize (set_times (fun l => l ++ [now]) s2).
  intros s3 Hs3 E3.
  apply (clock_frame_then now); [clock_frame|done|]. intros ? s4 Hs4 E4.
  apply (clock_frame_then now); [clock_frame|done|]. intros ? s5 Hs5 E5.
  apply (clock_frame_then now); [clock_frame|done|]. intros ? s6 Hs6 E6.
  apply returns_lift_then. intros rate Hrate. apply Hrf in Hrate.
  apply (clock_expovariate_then now); [done|done|]. intros d s7 Hd Hs7 E7.
  unfold dd_write at 1. apply returns_modify_then.
  eapply returns_dd_read_then; [apply lookup_insert_eq|].
  unfold Q_add. apply returns_modify_then.
  match goal with |- returns _ _ ?st =>
    assert (FastSIR_clock now st) as Hs8
  end.
  { apply clock_Q_add; [|by apply num_le_add_nonneg].
    by eapply clock_view; [|exact Hs7]. }
  match type of Hs8 with FastSIR_clock _ ?st => generalize dependent st end.
  intros s8 Hs8.
  apply returns_lift_then. intros vs _.
  apply (returns_for (FastSIR_clock now)); [|done].
  intros v s9 Hs9.
  apply returns_lift_then. intros tau Htau. apply Htf in Htau.
  apply (clock_frame_then now); [clock_frame|done|]. intros rt s10 Hs10 E10.
  eapply returns_mono; [|by apply find_trans_clock].
  by intros ? ? [? _].
Qed.

Lemma process_rec_clock now u s :
  FastSIR_clock now s -> num_lt now (tmax (Q_ s)) = true ->
  returns (_process_rec_SIR_ now u) (fun _ => FastSIR_clock now) s.
Proof.
  intros Hs Hnow. unfold _process_rec_SIR_.
  apply returns_modify_then.
  apply (returns_of_frame FastSIR_view_clock); [clock_frame|].
  intros s' E. eapply clock_view; [exact E|]. by apply clock_append.
Qed.

Lemma pop_and_run_clock s :
  (exists now, FastSIR_clock now s) ->
  returns (pop_and_run G (_process_trans_SIR_ G tf rf) tf rf)
    (fun _ s' => exists now, FastSIR_clock now s') s.
Proof using Htf Hrf.
  intros [now (H0 & Hnd & Hw & Hle & Hheap & HQ & Hexp)].
  unfold pop_and_run, Queue.pop_and_run.
  apply returns_gets_then.
  destruct (heapq.heappop _ _) as [[event heap]|] eqn:Hpop; [|done].
  apply returns_modify_then.
  pose proof (heappop_perm _ _ _ _ Hpop) as Hperm.
  assert (event ∈ _Q_ (Q_ s)) as Hev by (rewrite Hperm; by left).
  assert (FastSIR_clock (time event)
            (set_Q (mk_myQueue heap (tmax (Q_ s))) s)) as Hs'.
  { unfold FastSIR_clock. ccbn. split_and!; try done.
    - eapply num_le_trans; [exact H0|]. by apply HQ.
    - intros t Ht. eapply num_le_trans; [by apply Hle|]. by apply HQ.
    - by eapply heappop_ordered; [apply Event_lt_orders| |].
    - intros e He. assert (e ∈ _Q_ (Q_ s)) as He'.
      { rewrite Hperm. by right. }
      split; [|by apply HQ]. apply num_lt_false.
      by eapply (heappop_least Event_lt Event_lt_orders). }
  assert (num_lt (time event)
            (tmax (Q_ (set_Q (mk_myQueue heap (tmax (Q_ s))) s))) = true)
    as Hnow by (by apply HQ).
  eapply returns_mono; [intros ? s' Hs''; exists (time event); exact Hs''|].
  destruct (function event); simpl.
  - by apply process_trans_clock.
  - by apply process_trans_clock.
  - by apply process_rec_clock.
Qed.

Lemma frame_tmax_call h t :
  frame (fun s => tmax (Q_ s))
    (call G (_process_trans_SIR_ G tf rf) tf rf h t).
Proof.
  destruct h; simpl;
    unfold _process_trans_SIR_, _process_rec_SIR_, _find_trans_SIR_, Q_add,
      status_read, rec_time_read, pred_inf_time_read;
    repeat first [ apply frame_modify; intros ?; apply queue_add_tmax
                 | frame_step ].
Qed.

Lemma frame_tmax_pop_and_run :
  frame (fun s => tmax (Q_ s))
    (pop_and_run G (_process_trans_SIR_ G tf rf) tf rf).
Proof.
  intros s. unfold pop_and_run, Queue.pop_and_run, bind, gets, modify.
  destruct (heapq.heappop _ _) as [[event heap]|] eqn:Hpop; [|done].
  by rewrite frame_tmax_call.
Qed.

Lemma fast_nonMarkov_SIR_body_clock fuel x rho full tm r :
  exp_draws r ->
  returns (fast_nonMarkov_SIR_body fuel G (_process_trans_SIR_ G tf rf)
             tf rf x rho full)
    (fun out _ => nondecreasing (out_times out) /\
                  within tm (out_times out))
    (new G tm r).
Proof using Htf Hrf.
  intros Hexp.
  assert (FastSIR_clock (Fin 0) (new G tm r) /\
          tmax (Q_ (new G tm r)) = tm) as H0.
  { split; [|done]. unfold FastSIR_clock. ccbn. split_and!; try done.
    - intros [|i] [|j] a b Hij; simpl; try done.
      intros [= <-] [= <-]. done.
    - intros t ->%list_elem_of_singleton. split; [done|by left].
    - intros t ->%list_elem_of_singleton. apply num_le_refl.
    - by intros e He%elem_of_nil. }
  revert H0. generalize (new G tm r). intros s [Hs Htmax].
  unfold fast_nonMarkov_SIR_body.
  apply (clock_frame_then (Fin 0)); [clock_frame|done|]. intros x' s1 Hs1 E1.
  apply returns_lift_then. intros us Hus.
  apply returns_bind.
  eapply returns_mono;
    [|apply (returns_for (fun s' => FastSIR_clock (Fin 0) s' /\
                                    tmax (Q_ s') = tm))].
  - intros ? s2 [Hs2 E2]. apply returns_bind.
    eapply returns_mono;
      [|apply (FastSIR_run_queue_returns _ _
                 (fun s' => (exists now, FastSIR_clock now s') /\
                            tmax (Q_ s') = tm))].
    + intros ? s3 [[now Hs3] E3]. apply returns_gets_then.
      apply returns_ret. simpl.
      destruct Hs3 as (_ & Hnd & Hw & _). split.
      * by apply nondecreasing_drop.
      * intros t Ht. rewrite <- E3. apply Hw.
        apply list_elem_of_lookup in Ht as [i Hi].
        rewrite lookup_drop in Hi. by eapply list_elem_of_lookup_2.
    + intros s' [Hs' E']. 
      pose proof (pop_and_run_clock s' Hs') as Hrun.
      pose proof (frame_tmax_pop_and_run s') as Hf.
      unfold returns in *.
      destruct (pop_and_run _ _ _ _ s') as [[[]|e] s'']; [|done].
      split; [done|]. simpl in Hf. congruence.
    + split; [by exists (Fin 0)|done].
  - intros u s2 [Hs2 E2].
    unfold dd_write at 1. apply returns_modify_then.
    unfold Q_add, returns, modify. split.
    + apply clock_Q_add; [|apply num_le_refl].
      by eapply clock_view; [|exact Hs2].
    + ccbn. by rewrite queue_add_tmax.
  - split; [done|congruence].
Qed.

End FastSIRClock.

Lemma rate_functions_positive G tau gamma tw rw :
  (0 < tau)%Q -> (0 < gamma)%Q ->
  (forall u v w a, G_edge G u v w = Some a -> (0 < a)%Q) ->
  (forall u w a, G_node G u w = Some a -> (0 < a)%Q) ->
  (forall u v r, (_get_rate_functions G tau gamma tw rw).1 u v = Ok r ->
                 (0 < r)%Q) /\
  (forall u r, (_get_rate_functions G tau gamma tw rw).2 u = Ok r ->
               (0 < r)%Q).
Proof.
  intros Htau Hgamma Hedge Hnode. unfold _get_rate_functions. split.
  - intros u v r. destruct tw as [w|]; simpl.
    + destruct (G_edge G u v w) as [a|] eqn:E; [|done]. intros [= <-].
      apply Qmult_lt_0_compat; [done|]. by eapply Hedge.
    + by intros [= <-].
  - intros u r. destruct rw as [w|]; simpl.
    + destruct (G_node G u w) as [a|] eqn:E; [|done]. intros [= <-].
      apply Qmult_lt_0_compat; [done|]. by eapply Hnode.
    + by intros [= <-].
Qed.

(** X8: the times that [fast_SIR] returns are in order and within the
    horizon.  With positive rates [tau] and [gamma] (and positive weights,
    when weights are used), the returned array [times] is nondecreasing,
    and each of its entries is at least 0 and, the initial time 0 apart,
    less than [tmax]. *)
Theorem fast_SIR_times_in_order (fuel : nat) (G : Graph) (tau gamma : Q)
    (initial_infecteds : option node_or_nodes) (rho : option Q)
    (horizon : num) (tw rw : option string) (full : bool)
    (r r' : RandomState) (out : FastSIR.output) (st : FastSIR.state) :
  (0 < tau)%Q -> (0 < gamma)%Q ->
  (forall u v w a, G_edge G u v w = Some a -> (0 < a)%Q) ->
  (forall u w a, G_node G u w = Some a -> (0 < a)%Q) ->
  exp_draws r ->
  FastSIR.fast_SIR fuel G tau gamma initial_infecteds rho horizon tw rw full r
  = (Ok (out, st), r') ->
  nondecreasing (FastSIR.out_times out) /\
  within horizon (FastSIR.out_times out).
Proof.
  intros Htau Hgamma Hedge Hnode Hexp. unfold FastSIR.fast_SIR.
  destruct (rate_functions_positive G tau gamma tw rw Htau Hgamma Hedge Hnode)
    as [Htf Hrf].
  destruct (_get_rate_functions G tau gamma tw rw) as [tf rf].
  unfold FastSIR.fast_nonMarkov_SIR. case_bool_decide; [discriminate|].
  apply (with_locals_Ok _ _
           (fun out _ => nondecreasing (FastSIR.out_times out) /\
                         within horizon (FastSIR.out_times out))).
  by apply (fast_nonMarkov_SIR_body_clock G tf rf Htf Hrf).
Qed.

Lemma fast_SIR_times_in_order_witness :
  match FastSIR.fast_SIR 10 path2 2 1 (Some (a_node 0%nat)) None (Fin 3) None
          None false (steady (2 # 3))
  with
  | (Ok (out, _), _) =>
      nondecreasing (FastSIR.out_times out) /\
      within (Fin 3) (FastSIR.out_times out)
  | (Raise _, _) => False
  end.
Proof.
  destruct (FastSIR.fast_SIR 10 path2 2 1 (Some (a_node 0%nat)) None (Fin 3)
              None None false (steady (2 # 3)))
    as [[[out st]|e] r'] eqn:E; [|vm_compute in E; discriminate E].
  refine (fast_SIR_times_in_order _ _ _ _ _ _ _ _ _ _ _ _ _ _ _ _ _ _ _ E).
  - reflexivity.
  - reflexivity.
  - intros u v w a Ha. discriminate Ha.
  - intros u w a Ha. discriminate Ha.
  - intros i. unfold Qle. simpl. lia.
Defined.

(** ** Discrete-time SIR: the generations *)

Lemma frame_using_generator {St A B} `{HasRandom St} (f : St -> B)
    (m : M RandomState A) :
  (forall r s, f (set_random r s) = f s) -> frame f (using_generator m).
Proof.
  intros Hf s. unfold using_generator.
  destruct (m (get_random s)) as [a r]. simpl. apply Hf.
Qed.

Lemma lookup_count_up (l : list Z) k :
  l = Z.of_nat <$> seq 0 (length l) -> (k < length l)%nat ->
  l !! k = Some (Z.of_nat k).
Proof.
  remember (length l) as n eqn:Hn. clear Hn. intros -> Hk.
  by rewrite list_lookup_fmap, lookup_seq_lt.
Qed.

Section DiscreteGenerations.
Import Discrete.
Context (G : Graph) (test : node -> node -> M RandomState bool) (N : Z).

Ltac dframe :=
  unfold infect_from, try_transmission, susceptible_read;
  repeat first
    [ apply frame_using_generator; intros ? ?; reflexivity
    | frame_step ].

Lemma Discrete_inv_view i s s' :
  Discrete_traj s' = Discrete_traj s ->
  Discrete_inv N i s -> Discrete_inv N i s'.
Proof.
  unfold Discrete_traj, Discrete_inv. by intros [= -> -> -> ->].
Qed.

Lemma frame_infect_from full u :
  frame Discrete_traj (infect_from G test full u).
Proof. dframe. Qed.

(** One round of the loop appends one entry to each array. *)
Lemma Discrete_inv_round i n s x y z w :
  Discrete_inv N i s ->
  last (R_ s) = Some x -> last (I_ s) = Some y -> last (S_ s) = Some z ->
  last (t_ s) = Some w ->
  Discrete_inv N (Z.of_nat n)
    (set_t (fun l => l ++ [w + 1]%Z)
       (set_S (fun l => l ++ [z - Z.of_nat n]%Z)
          (set_I (fun l => l ++ [Z.of_nat n])
             (set_R (fun l => l ++ [x + y]%Z) s)))).
Proof.
  intros (Ht & HS & HI & HR & Hsum & Hrec & Hlast) Hx Hy Hz Hw.
  unfold Discrete_inv.
  cbn [t_ S_ I_ R_ set_t set_S set_I set_R].
  rewrite !length_app. simpl.
  assert (0 < length (t_ s))%nat as Hpos.
  { destruct (t_ s); [done|simpl; lia]. }
  rewrite last_lookup in Hx, Hy, Hz, Hw.
  rewrite HR in Hx. rewrite HI in Hy. rewrite HS in Hz.
  split_and!; try lia.
  - rewrite Nat.add_1_r, seq_S, fmap_app, <- Ht. simpl. f_equal. f_equal.
    rewrite (lookup_count_up _ _ Ht) in Hw by lia. injection Hw as <-. lia.
  - intros k s' i' r' Hs' Hi' Hr'.
    destruct (decide (k < length (t_ s))%nat) as [Hk|Hk].
    + rewrite lookup_app_l in Hs', Hi', Hr' by lia. by eapply Hsum.
    + apply lookup_lt_Some in Hs' as Hlen. rewrite length_app in Hlen.
      simpl in Hlen. assert (k = length (t_ s)) as -> by lia.
      rewrite list_lookup_middle in Hs', Hi', Hr' by lia.
      injection Hs' as <-. injection Hi' as <-. injection Hr' as <-.
      split; [lia|].
      destruct (Hsum _ _ _ _ Hz Hy Hx) as [_ E]. lia.
  - intros k i' r r' Hi' Hr Hr'.
    apply lookup_lt_Some in Hr' as Hlen. rewrite length_app in Hlen.
    simpl in Hlen.
    destruct (decide (k + 1 < length (t_ s))%nat) as [Hk|Hk].
    + rewrite lookup_app_l in Hi', Hr, Hr' by lia. by eapply Hrec.
    + assert (k = pred (length (t_ s))) as -> by lia.
      rewrite lookup_app_l in Hi', Hr by lia.
      replace (pred (length (t_ s)) + 1)%nat with (length (R_ s)) in Hr'
        by lia.
      rewrite list_lookup_middle in Hr' by done.
      rewrite Hy in Hi'. rewrite Hx in Hr. by simplify_eq.
  - by rewrite last_snoc.
Qed.

Lemma while_infecteds_generations fuel full :
  forall infecteds s,
    Discrete_inv N (Z.of_nat (length infecteds)) s ->
    returns (while_infecteds fuel G test full infecteds)
      (fun _ => Discrete_inv N 0) s.
Proof.
  induction fuel as [|fuel IH]; intros infecteds s Hs;
    (destruct infecteds as [|u us]; [by apply returns_ret|]); [done|].
  cbn [while_infecteds].
  apply returns_modify_then.
  apply (returns_bind_frame Discrete_traj);
    [apply frame_for; intros ?; apply frame_infect_from|].
  intros _ s1 E1.
  assert (Discrete_inv N (Z.of_nat (length (u :: us))) s1) as Hs1.
  { eapply Discrete_inv_view; [exact E1|].
    by eapply Discrete_inv_view; [|exact Hs]. }
  clear E1 Hs. apply returns_gets_then.
  unfold returns, bind, last_of, modify.
  destruct (last (R_ s1)) as [x|] eqn:Hx; [|done].
  destruct (last (I_ s1)) as [y|] eqn:Hy; [|done].
  cbn [S_ I_ t_ set_R set_I].
  destruct (last (S_ s1)) as [z|] eqn:Hz; [|done].
  cbn [I_ set_I set_R]. rewrite last_snoc. cbn [t_ set_S set_I set_R].
  destruct (last (t_ s1)) as [w|] eqn:Hw; [|done].
  apply IH.
  exact (Discrete_inv_round _ _ _ _ _ _ _ Hs1 Hx Hy Hz Hw).
Qed.

Lemma body_generations fuel full infecteds r :
  N = Z.of_nat (nx.order G) ->
  returns (body fuel G test full infecteds)
    (fun out _ => generations N (out_t out) (out_S out) (out_I out)
                    (out_R out))
    (new G infecteds r).
Proof.
  intros HN.
  assert (Discrete_inv N (Z.of_nat (length infecteds)) (new G infecteds r))
    as H0.
  { unfold Discrete_inv, new. cbn [t_ S_ I_ R_]. split_and!; try done.
    - intros [|k] s' i' r'; simpl; [|done].
      intros [= <-] [= <-] [= <-]. lia.
    - intros [|k] i' x x'; simpl; done. }
  revert H0. generalize (new G infecteds r). intros s Hs. unfold body.
  apply (returns_bind_frame Discrete_traj); [solve_frame|]. intros _ s1 E1.
  apply returns_bind.
  eapply returns_mono; [|apply while_infecteds_generations].
  - intros ? s2 Hs2. apply returns_gets_then. apply returns_ret. exact Hs2.
  - by eapply Discrete_inv_view.
Qed.

End DiscreteGenerations.

(** X9: the arrays that [discrete_SIR_epidemic] returns, whatever the
    function [test_transmission]: [t] is [0, 1, ..., n]; the four arrays
    have the same length; [S[k] + I[k] + R[k]] is the number of nodes of
    [G] and [I[k]] is not negative; [R[k+1] = R[k] + I[k]], the nodes
    infected at one step being recovered at the next; and the last entry of
    [I] is 0. *)
Theorem discrete_SIR_epidemic_generations (fuel : nat) (G : Graph)
    (test_transmission : node -> node -> M RandomState bool)
    (initial_infecteds : option node_or_nodes) (full : bool)
    (r r' : RandomState) (out : Discrete.output) (st : Discrete.state) :
  Discrete.discrete_SIR_epidemic fuel G test_transmission initial_infecteds
    full r = (Ok (out, st), r') ->
  generations (Z.of_nat (nx.order G)) (Discrete.out_t out)
    (Discrete.out_S out) (Discrete.out_I out) (Discrete.out_R out).
Proof.
  unfold Discrete.discrete_SIR_epidemic. intros E.
  apply bind_inv_Ok in E as (x & r1 & _ & E).
  apply bind_inv_Ok in E as (us & r2 & _ & E).
  revert E.
  apply (with_locals_Ok _ _
           (fun out _ => generations (Z.of_nat (nx.order G))
              (Discrete.out_t out) (Discrete.out_S out) (Discrete.out_I out)
              (Discrete.out_R out))).
  by apply body_generations.
Qed.

Lemma discrete_SIR_epidemic_generations_witness :
  match Discrete.basic_discrete_SIR_epidemic 5 path2 (3 # 4)
          (Some (a_node 0%nat)) false (steady (2 # 3))
  with
  | (Ok (out, _), _) =>
      generations 2 (Discrete.out_t out) (Discrete.out_S out)
        (Discrete.out_I out) (Discrete.out_R out)
  | (Raise _, _) => False
  end.
Proof.
  destruct (Discrete.basic_discrete_SIR_epidemic 5 path2 (3 # 4)
              (Some (a_node 0%nat)) false (steady (2 # 3)))
    as [[[out st]|e] r'] eqn:E; [|vm_compute in E; discriminate E].
  exact (discrete_SIR_epidemic_generations _ _ _ _ _ _ _ _ _ E).
Defined.

(** ** Discrete-time SIR: the loop ends *)

Lemma filter_length_drop {A} (f g : A -> bool) (l : list A) (v : A) :
  v ∈ l -> f v = true -> g v = false ->
  (forall w, g w = true -> f w = true) ->
  (length (filter (fun w => g w = true) l) + 1
   <= length (filter (fun w => f w = true) l))%nat.
Proof.
  intros Hv Hfv Hgv Hgf. induction l as [|w l IH]; [by apply elem_of_nil in Hv|].
  rewrite !filter_cons.
  apply elem_of_cons in Hv as [<-|Hv].
  - rewrite decide_False by congruence. rewrite decide_True by done.
    simpl. assert (length (filter (fun w => g w = true) l)
                   <= length (filter (fun w => f w = true) l))%nat; [|lia].
    clear IH. induction l as [|x l IH]; [done|]. rewrite !filter_cons.
    destruct (decide (g x = true)) as [Hg|Hg].
    + rewrite decide_True by auto. simpl. lia.
    + destruct (decide (f x = true)); simpl; lia.
  - specialize (IH Hv).
    destruct (decide (g w = true)) as [Hg|Hg].
    + rewrite decide_True by auto. simpl. lia.
    + destruct (decide (f w = true)); simpl; lia.
Qed.

Lemma filter_length_ext {A} (f g : A -> bool) (l : list A) :
  (forall w, g w = f w) ->
  length (filter (fun w => g w = true) l)
  = length (filter (fun w => f w = true) l).
Proof.
  intros E. induction l as [|w l IH]; [done|]. rewrite !filter_cons.
  rewrite E. destruct (decide (f w = true)); simpl; lia.
Qed.

Section DiscreteEnds.
Import Discrete.
Context (G : Graph) (test : node -> node -> M RandomState bool).
Hypothesis HG : neighbors_are_nodes G.
Hypothesis Htest : total_test test.

Ltac dcbn :=
  cbn [t_ S_ I_ R_ susceptible new_infecteds infection_time recovery_time
       rand set_t set_S set_I set_R set_susceptible set_new_infecteds
       set_infection_time set_recovery_time set_rand get_random set_random
       state_HasRandom].

Lemma Discrete_round_view c s s' :
  (t_ s', S_ s', I_ s', R_ s', new_infecteds s')
  = (t_ s, S_ s, I_ s, R_ s, new_infecteds s) ->
  (forall v, Discrete_sus s' v = Discrete_sus s v) ->
  Discrete_round G c s -> Discrete_round G c s'.
Proof.
  unfold Discrete_round, count_susceptible.
  intros [= -> -> -> -> ->] Hsus. by rewrite (filter_length_ext _ _ _ Hsus).
Qed.

Lemma try_transmission_round c u v s :
  v ∈ G_nodes G -> Discrete_round G c s ->
  succeeds (try_transmission test u v) (fun _ => Discrete_round G c) s.
Proof using Htest.
  intros Hv Hs. unfold try_transmission, susceptible_read.
  assert (exists s1,
            dd_read susceptible set_susceptible true v s
            = (Ok (Discrete_sus s v), s1) /\
            Discrete_round G c s1 /\
            forall w, Discrete_sus s1 w = Discrete_sus s w)
    as (s1 & E1 & Hs1 & Hsus1).
  { unfold dd_read, Discrete_sus.
    destruct (susceptible s !! v) as [b|] eqn:E; simpl.
    - by exists s.
    - eexists. split; [done|].
      assert (forall w, default true
                (susceptible (set_susceptible
                   (<[v := true]> (susceptible s)) s) !! w)
              = default true (susceptible s !! w)) as Hsame.
      { intros w. dcbn. destruct (decide (v = w)) as [<-|Hne].
        - by rewrite lookup_insert_eq, E.
        - by rewrite lookup_insert_ne. }
      split; [|done]. by eapply Discrete_round_view; [| |exact Hs]. }
  eapply succeeds_run_then; [exact E1|].
  destruct (Discrete_sus s v) eqn:Esus.
  2: { by apply succeeds_ret_then, succeeds_ret. }
  destruct (Htest u v (rand s1)) as (b & r' & Eb).
  eapply succeeds_run_then.
  { unfold using_generator. dcbn. by rewrite Eb. }
  assert (Discrete_round G c (set_rand r' s1)) as Hs2.
  { by eapply Discrete_round_view; [| |exact Hs1]. }
  destruct b; [|by apply succeeds_ret].
  apply succeeds_modify_then. unfold dd_write. apply succeeds_modify.
  destruct Hs2 as (Hin & Hc & Hne).
  match goal with |- Discrete_round _ _ ?st => set (s3 := st) end.
  assert (new_infecteds s3 = new_infecteds s1 ++ [v]) as Enew by done.
  assert (count_susceptible G s3 + 1 <= count_susceptible G (set_rand r' s1))
    %nat as Hdrop.
  { unfold count_susceptible. apply (filter_length_drop _ _ _ v); [done|..].
    - unfold Discrete_sus. dcbn. fold (Discrete_sus s1 v).
      by rewrite Hsus1.
    - unfold Discrete_sus, s3. dcbn. by rewrite lookup_insert_eq.
    - intros w. unfold Discrete_sus, s3. dcbn.
      destruct (decide (v = w)) as [<-|Hne'].
      + by rewrite lookup_insert_eq.
      + by rewrite lookup_insert_ne. }
  unfold Discrete_round. rewrite Enew. split_and!; try apply Hne.
  - intros w [Hw| ->%list_elem_of_singleton]%elem_of_app; auto.
  - rewrite length_app. simpl. simpl in Hc. lia.
Qed.

Lemma succeeds_for_members {St A} (Inv : St -> Prop) (l : list A)
    (body : A -> M St unit) s :
  (forall x s, x ∈ l -> Inv s -> succeeds (body x) (fun _ => Inv) s) ->
  Inv s -> succeeds (for_ l body) (fun _ => Inv) s.
Proof.
  intros Hb Hs.
  apply (succeeds_for_prefix (fun _ => Inv)); [done|].
  intros done x rest s' -> Hs'. apply Hb; [|done].
  apply elem_of_app. right. by left.
Qed.

Lemma infect_from_round c full u s :
  u ∈ G_nodes G -> Discrete_round G c s ->
  succeeds (infect_from G test full u) (fun _ => Discrete_round G c) s.
Proof using HG Htest.
  intros Hu Hs. unfold infect_from, nx.neighbors, nx.has_node.
  rewrite bool_decide_eq_true_2 by done.
  apply succeeds_lift_then.
  eapply succeeds_bind.
  { apply (succeeds_for_members (Discrete_round G c)); [|done].
    intros v s' Hv Hs'. apply try_transmission_round; [|done].
    by eapply HG. }
  intros ? s1 Hs1. destruct full; [|by apply succeeds_ret].
  destruct (last (t_ s1)) as [now|] eqn:Hnow.
  2: { apply last_None in Hnow. by destruct Hs1 as (_ & _ & ? & _). }
  eapply succeeds_bind.
  { eapply succeeds_last_of_then; [exact Hnow|]. unfold dd_write.
    apply succeeds_modify.
    instantiate (1 := fun _ s' => Discrete_round G c s' /\
                                  last (t_ s') = Some now).
    split; [|done]. by eapply Discrete_round_view; [| |exact Hs1]. }
  intros ? s2 [Hs2 Hnow2].
  eapply succeeds_last_of_then; [exact Hnow2|]. unfold dd_write.
  apply succeeds_modify. by eapply Discrete_round_view; [| |exact Hs2].
Qed.

Lemma while_infecteds_ends fuel full :
  forall infecteds s,
    (forall u, u ∈ infecteds -> u ∈ G_nodes G) ->
    t_ s ≠ [] /\ S_ s ≠ [] /\ I_ s ≠ [] /\ R_ s ≠ [] ->
    (infecteds = [] \/ count_susceptible G s < fuel)%nat ->
    succeeds (while_infecteds fuel G test full infecteds)
      (fun _ s' =>
         (length (t_ s')
          <= length (t_ s)
             + if infecteds is [] then 0 else count_susceptible G s + 1)%nat)
      s.
Proof using HG Htest.
  induction fuel as [|fuel IH]; intros infecteds s Hin Hs Hfuel;
    (destruct infecteds as [|u us];
     [apply succeeds_ret; lia|]); [destruct Hfuel; [done|lia]|].
  destruct Hfuel as [|Hfuel]; [done|].
  cbn [while_infecteds].
  apply succeeds_modify_then.
  set (c := count_susceptible G s).
  assert (Discrete_round G c (set_new_infecteds (fun _ => []) s)) as Hs0.
  { rename Hs into Hne.
    assert (count_susceptible G (set_new_infecteds (fun _ => []) s) = c)
      as Ec0 by done.
    unfold Discrete_round. rewrite Ec0. dcbn.
    split_and!; try apply Hne.
    - by intros v Hv%elem_of_nil.
    - simpl. lia. }
  assert (length (t_ (set_new_infecteds (fun _ => []) s)) = length (t_ s))
    as Ht0 by done.
  revert Hs0 Ht0. generalize (set_new_infecteds (fun _ => []) s).
  intros s0 Hs0 Ht0.
  eapply succeeds_bind.
  { apply (succeeds_frame (fun s => length (t_ s)));
      [|apply (succeeds_for_members (Discrete_round G c))].
    - apply frame_for. intros x.
      unfold infect_from, try_transmission, susceptible_read.
      repeat first
        [ apply frame_using_generator; intros ? ?; reflexivity
        | frame_step ].
    - intros x s' Hx Hs'. apply infect_from_round; [by apply Hin|done].
    - done. }
  intros ? s1 [Hs1 Ht1]. simpl in Ht1.
  apply succeeds_gets_then.
  destruct Hs1 as (Hnew & Hc & Hnt & HnS & HnI & HnR).
  destruct (last (R_ s1)) as [x|] eqn:Hx; [|by apply last_None in Hx].
  destruct (last (I_ s1)) as [y|] eqn:Hy; [|by apply last_None in Hy].
  destruct (last (S_ s1)) as [z|] eqn:Hz; [|by apply last_None in Hz].
  destruct (last (t_ s1)) as [w|] eqn:Hw; [|by apply last_None in Hw].
  eapply succeeds_bind.
  { eapply succeeds_last_of_then; [exact Hx|].
    eapply succeeds_last_of_then; [exact Hy|].
    apply succeeds_modify.
    instantiate (1 := fun _ s' =>
      s' = set_R (fun l => l ++ [x + y]%Z) s1). done. }
  intros ? ? ->. apply succeeds_modify_then.
  eapply succeeds_bind.
  { eapply succeeds_last_of_then; [exact Hz|].
    eapply succeeds_last_of_then; [dcbn; apply last_snoc|].
    apply succeeds_modify.
    instantiate (1 := fun _ s' =>
      s' = set_S (fun l => l ++ [z - Z.of_nat (length (new_infecteds s1))]%Z)
             (set_I (fun l => l ++ [Z.of_nat (length (new_infecteds s1))])
                (set_R (fun l => l ++ [x + y]%Z) s1))). done. }
  intros ? ? ->.
  eapply succeeds_bind.
  { eapply succeeds_last_of_then; [exact Hw|].
    apply succeeds_modify.
    instantiate (1 := fun _ s' =>
      s' = set_t (fun l => l ++ [w + 1]%Z)
             (set_S
                (fun l => l ++ [z - Z.of_nat (length (new_infecteds s1))]%Z)
                (set_I
                   (fun l => l ++ [Z.of_nat (length (new_infecteds s1))])
                   (set_R (fun l => l ++ [x + y]%Z) s1)))). done. }
  intros ? ? ->.
  match goal with |- succeeds _ _ ?st => set (s2 := st) end.
  assert (count_susceptible G s2 = count_susceptible G s1) as Hc2 by done.
  assert (length (t_ s2) = S (length (t_ s))) as Ht2.
  { unfold s2. dcbn. rewrite length_app. simpl. lia. }
  assert (t_ s2 ≠ [] /\ S_ s2 ≠ [] /\ I_ s2 ≠ [] /\ R_ s2 ≠ []) as Hr2.
  { unfold s2. dcbn. split_and!.
    - by destruct (t_ s1).
    - by destruct (S_ s1).
    - by destruct (I_ s1).
    - by destruct (R_ s1). }
  clearbody s2.
  eapply succeeds_mono; [|apply IH].
  - intros ? s3 Hs3. cbv beta in Hs3. rewrite Ht2 in Hs3.
    destruct (new_infecteds s1) as [|v vs] eqn:El; simpl in *; lia.
  - done.
  - done.
  - destruct (new_infecteds s1) as [|v vs] eqn:El; [by left|right].
    rewrite Hc2. simpl in Hc. unfold c in Hc. lia.
Qed.

Lemma filter_length_lt {A} (f : A -> bool) (l : list A) (v : A) :
  v ∈ l -> f v = false ->
  (length (filter (fun w => f w = true) l) + 1 <= length l)%nat.
Proof.
  intros Hv Hf. induction l as [|w l IH]; [by apply elem_of_nil in Hv|].
  rewrite filter_cons. apply elem_of_cons in Hv as [<-|Hv].
  - rewrite decide_False by congruence. simpl.
    pose proof (length_filter (fun w => f w = true) l). lia.
  - specialize (IH Hv). destruct (decide (f w = true)); simpl; lia.
Qed.

Lemma body_ends fuel full us r :
  (forall u, u ∈ us -> u ∈ G_nodes G) -> (nx.order G <= fuel)%nat ->
  succeeds (body fuel G test full us)
    (fun out _ => (length (out_t out) <= nx.order G + 1)%nat)
    (new G us r).
Proof using HG Htest.
  intros Hus Hfuel. unfold body.
  eapply succeeds_bind.
  { apply (succeeds_for_prefix
             (fun done s =>
                (t_ s, S_ s, I_ s, R_ s)
                = (t_ (new G us r), S_ (new G us r), I_ (new G us r),
                   R_ (new G us r)) /\
                forall u, u ∈ done -> Discrete_sus s u = false)).
    - split; [done|]. by intros u Hu%elem_of_nil.
    - intros done x rest s _ [Harr Hdone]. unfold dd_write.
      apply succeeds_modify. split; [done|].
      intros u Hu. unfold Discrete_sus. dcbn.
      destruct (decide (x = u)) as [<-|Hne].
      + by rewrite lookup_insert_eq.
      + rewrite lookup_insert_ne by done.
        apply elem_of_app in Hu as [Hu|Hu%list_elem_of_singleton];
          [by apply Hdone|done]. }
  intros ? s1 [Harr Hsus]. injection Harr as Et ES EI ER.
  assert (us = [] \/ count_susceptible G s1 + 1 <= nx.order G)%nat as Hc.
  { destruct us as [|u us']; [by left|right].
    unfold count_susceptible, nx.order.
    apply (filter_length_lt _ _ u).
    - apply Hus. by left.
    - apply Hsus. by left. }
  eapply succeeds_bind.
  { apply (while_infecteds_ends fuel full us s1 Hus).
    - rewrite Et, ES, EI, ER. by unfold new.
    - destruct Hc as [Hc|Hc]; [by left|right; lia]. }
  intros ? s2 Hs2. cbv beta in Hs2.
  apply succeeds_gets_then. apply succeeds_ret. simpl.
  rewrite Et in Hs2. simpl in Hs2.
  destruct Hc as [->|Hc]; [lia|]. destruct us; lia.
Qed.

End DiscreteEnds.

Lemma choose_initial_lists G x us r :
  lists_initial G x us ->
  Discrete.choose_initial G (Some x) r = (Ok (an_iterable us), r).
Proof.
  destruct x as [u|l]; simpl.
  - intros [Hu ->]. unfold nx.has_node. by rewrite bool_decide_eq_true_2.
  - by intros ->.
Qed.

(** X10: [discrete_SIR_epidemic] ends.  On a graph whose neighbour lists
    hold nodes of the graph, started from nodes of the graph and with a
    [test_transmission] that always answers, the loop makes at most as
    many rounds as the graph has nodes: the function returns, and its
    arrays have at most one entry more than there are nodes. *)
Theorem discrete_SIR_epidemic_ends (fuel : nat) (G : Graph)
    (test_transmission : node -> node -> M RandomState bool)
    (x : node_or_nodes) (us : list node) (full : bool) (r : RandomState) :
  neighbors_are_nodes G -> total_test test_transmission ->
  lists_initial G x us -> (forall u, u ∈ us -> u ∈ G_nodes G) ->
  (nx.order G <= fuel)%nat ->
  exists out st r',
    Discrete.discrete_SIR_epidemic fuel G test_transmission (Some x) full r
    = (Ok (out, st), r') /\
    (length (Discrete.out_t out) <= nx.order G + 1)%nat.
Proof.
  intros HG Htest Hx Hus Hfuel. unfold Discrete.discrete_SIR_epidemic.
  destruct (body_ends G test_transmission HG Htest fuel full us r Hus Hfuel)
    as (out & st & E & Hlen).
  exists out, st, (Discrete.rand st). split; [|done].
  unfold bind. rewrite (choose_initial_lists G x us r Hx). simpl.
  unfold with_locals. by rewrite E.
Qed.

Lemma discrete_SIR_epidemic_ends_witness :
  exists out st r',
    Discrete.basic_discrete_SIR_epidemic 2 path2 (3 # 4)
      (Some (a_node 0%nat)) true (steady (2 # 3))
    = (Ok (out, st), r') /\
    (length (Discrete.out_t out) <= 3)%nat.
Proof.
  apply (discrete_SIR_epidemic_ends 2 path2
           (fun u v => _simple_test_transmission_ u v (3 # 4))
           (a_node 0%nat) [0%nat] true (steady (2 # 3))).
  - intros u v _ Hv. unfold path2 in *. simpl in *.
    repeat case_decide; try (by apply elem_of_nil in Hv);
      apply list_elem_of_singleton in Hv as ->;
      [by right; left|by left].
  - intros u v r. by eexists _, _.
  - split; [by left|done].
  - intros u ->%list_elem_of_singleton. by left.
  - unfold nx.order. simpl. lia.
Defined.

(** ** Discrete-time SIR without transmission *)

Section DiscreteQuiet.
Import Discrete.
Context (G : Graph) (p : Q) (us : list node) (full : bool).
Hypothesis Hp : (p <= 0)%Q.

Ltac dcbn :=
  cbn [t_ S_ I_ R_ susceptible new_infecteds infection_time recovery_time
       rand set_t set_S set_I set_R set_susceptible set_new_infecteds
       set_infection_time set_recovery_time set_rand get_random set_random
       state_HasRandom].

Lemma simple_test_never (u v : node) (r : RandomState) :
  unit_draws r ->
  exists r', _simple_test_transmission_ u v p r = (Ok false, r') /\
             unit_draws r'.
Proof using Hp.
  intros Hr. eexists. split.
  - unfold _simple_test_transmission_, random.random, random.next, bind,
      gets, ret. simpl. f_equal. f_equal.
    apply Qltb_ge. eapply Qle_trans; [exact Hp|]. apply Hr.
  - exact Hr.
Qed.

Lemma try_transmission_quiet done u v s :
  Discrete_quiet G us full done s ->
  succeeds
    (try_transmission (fun u v => _simple_test_transmission_ u v p) u v)
    (fun _ => Discrete_quiet G us full done) s.
Proof using Hp.
  intros Hs. unfold try_transmission, susceptible_read.
  assert (exists b s1,
            dd_read susceptible set_susceptible true v s = (Ok b, s1) /\
            Discrete_quiet G us full done s1) as (b & s1 & E1 & Hs1).
  { unfold dd_read. destruct (susceptible s !! v) as [b|]; eauto. }
  eapply succeeds_run_then; [exact E1|].
  destruct b; [|by apply succeeds_ret_then, succeeds_ret].
  destruct Hs1 as (Htraj & Hnew & Hr & Hrec).
  destruct (simple_test_never u v (rand s1) Hr) as (r' & Er & Hr').
  eapply succeeds_run_then.
  { unfold using_generator. dcbn. by rewrite Er. }
  by apply succeeds_ret.
Qed.

Lemma infect_from_quiet done u s :
  u ∈ G_nodes G -> Discrete_quiet G us full done s ->
  succeeds
    (infect_from G (fun u v => _simple_test_transmission_ u v p) full u)
    (fun _ => Discrete_quiet G us full (done ++ [u])) s.
Proof using Hp.
  intros Hu Hs. unfold infect_from, nx.neighbors, nx.has_node.
  rewrite bool_decide_eq_true_2 by done.
  apply succeeds_lift_then.
  eapply succeeds_bind.
  { apply (succeeds_for_members (Discrete_quiet G us full done)); [|done].
    intros v s' _ Hs'. by apply try_transmission_quiet. }
  intros ? s1 (Htraj & Hnew & Hr & Hrec).
  assert (last (t_ s1) = Some 0%Z) as Hnow.
  { unfold Discrete_traj in Htraj. by injection Htraj as -> _ _ _. }
  destruct full.
  - apply succeeds_assoc.
    eapply succeeds_last_of_then; [exact Hnow|]. unfold dd_write.
    apply succeeds_modify_then.
    eapply succeeds_last_of_then; [exact Hnow|].
    apply succeeds_modify. unfold Discrete_quiet. dcbn.
    split_and!; try done. intros w. specialize (Hrec w).
    destruct (decide (u = w)) as [<-|Hne].
    + rewrite !lookup_insert_eq.
      rewrite !decide_True; [done|split; [done|]..];
        apply elem_of_app; right; by left.
    + rewrite !lookup_insert_ne by done.
      destruct Hrec as [-> ->].
      split; apply decide_ext; rewrite elem_of_app, list_elem_of_singleton;
        intuition congruence.
  - apply succeeds_ret. unfold Discrete_quiet. split_and!; done.
Qed.

Lemma body_quiet fuel r :
  unit_draws r -> us ≠ [] -> (forall u, u ∈ us -> u ∈ G_nodes G) ->
  (0 < fuel)%nat ->
  succeeds
    (body fuel G (fun u v => _simple_test_transmission_ u v p) full us)
    (fun out _ =>
       let N := Z.of_nat (nx.order G) in
       let k := Z.of_nat (length us) in
       out_t out = [0; 1]%Z /\ out_S out = [N - k; N - k]%Z /\
       out_I out = [k; 0]%Z /\ out_R out = [0; k]%Z /\
       (full = true ->
        exists it rt,
          out_infection_time out = Some it /\
          out_recovery_time out = Some rt /\
          forall u,
            it !! u = (if decide (u ∈ us) then Some 0%Z else None) /\
            rt !! u = (if decide (u ∈ us) then Some 1%Z else None)))
    (new G us r).
Proof using Hp.
  intros Hr Hne Hus Hfuel. unfold body.
  eapply succeeds_bind.
  { apply (succeeds_for_members (Discrete_quiet G us full [])).
    - intros u s _ Hs. unfold dd_write. by apply succeeds_modify.
    - unfold Discrete_quiet, new. dcbn. split_and!; try done.
      intros u. rewrite !lookup_empty.
      rewrite !decide_False; [done|by intros [_ ?%elem_of_nil]..]. }
  intros ? s1 Hs1.
  destruct fuel as [|fuel]; [lia|].
  assert (while_infecteds (S fuel) G
            (fun u v => _simple_test_transmission_ u v p) full us
          = (modify (set_new_infecteds (fun _ => [])) ;;
             for_ us
               (infect_from G (fun u v => _simple_test_transmission_ u v p)
                  full) ;;
             let! infecteds := gets new_infecteds in
             (let! r := last_of R_ in
              let! i := last_of I_ in
              modify (set_R (fun l => l ++ [r + i]%Z))) ;;
             modify (set_I (fun l => l ++ [Z.of_nat (length infecteds)])) ;;
             (let! s := last_of S_ in
              let! i := last_of I_ in
              modify (set_S (fun l => l ++ [s - i]%Z))) ;;
             (let! now := last_of t_ in
              modify (set_t (fun l => l ++ [now + 1]%Z))) ;;
             while_infecteds fuel G
               (fun u v => _simple_test_transmission_ u v p) full infecteds))
    as ->.
  { by destruct us. }
  apply succeeds_assoc. apply succeeds_modify_then.
  apply succeeds_assoc.
  eapply succeeds_bind.
  { apply (succeeds_for_prefix (Discrete_quiet G us full)).
    - destruct Hs1 as (? & ? & ? & ?). by split_and!.
    - intros done x rest s Hl Hs. apply infect_from_quiet; [|done].
      apply Hus. rewrite Hl. apply elem_of_app. right. by left. }
  intros ? s2 (Htraj & Hnew & _ & Hrec).
  unfold Discrete_traj in Htraj. injection Htraj as Et ES EI ER.
  apply succeeds_assoc. apply succeeds_gets_then. rewrite Hnew.
  destruct s2 as [t2 S2 I2 R2 sus2 new2 it2 rt2 r2]. simpl in *. subst.
  assert (while_infecteds fuel G
            (fun u v => _simple_test_transmission_ u v p) full [] = ret tt)
    as Ew by (by destruct fuel).
  eexists _, _. split.
  { unfold bind, last_of, modify, gets. simpl. rewrite Ew. reflexivity. }
  simpl. split_and!; try done.
  - do 2 f_equal. lia.
  - intros ->. eexists _, _. split_and!; try done.
    intros u. destruct (Hrec u) as [-> ->].
    split; apply decide_ext; tauto.
Qed.

End DiscreteQuiet.

(** X11: with a transmission probability [p <= 0],
    [basic_discrete_SIR_epidemic] infects nobody.  Started from a nonempty
    list [us] of [k] nodes of a graph of [N] nodes, it returns
    [t = [0, 1]], [S = [N - k, N - k]], [I = [k, 0]] and [R = [0, k]];
    with [return_full_data], the dictionaries record the nodes of [us]
    and no other, infected at time 0 and recovered at time 1. *)
Theorem basic_discrete_SIR_epidemic_without_transmission (fuel : nat)
    (G : Graph) (p : Q) (x : node_or_nodes) (us : list node) (full : bool)
    (r : RandomState) :
  (p <= 0)%Q -> unit_draws r ->
  lists_initial G x us -> us ≠ [] -> (forall u, u ∈ us -> u ∈ G_nodes G) ->
  (0 < fuel)%nat ->
  exists out st r',
    Discrete.basic_discrete_SIR_epidemic fuel G p (Some x) full r
    = (Ok (out, st), r') /\
    let N := Z.of_nat (nx.order G) in
    let k := Z.of_nat (length us) in
    Discrete.out_t out = [0; 1]%Z /\
    Discrete.out_S out = [N - k; N - k]%Z /\
    Discrete.out_I out = [k; 0]%Z /\
    Discrete.out_R out = [0; k]%Z /\
    (full = true ->
     exists it rt,
       Discrete.out_infection_time out = Some it /\
       Discrete.out_recovery_time out = Some rt /\
       forall u,
         it !! u = (if decide (u ∈ us) then Some 0%Z else None) /\
         rt !! u = (if decide (u ∈ us) then Some 1%Z else None)).
Proof.
  intros Hp Hr Hx Hne Hus Hfuel.
  unfold Discrete.basic_discrete_SIR_epidemic,
    Discrete.discrete_SIR_epidemic.
  destruct (body_quiet G p us full Hp fuel r Hr Hne Hus Hfuel)
    as (out & st & E & Hout).
  exists out, st, (Discrete.rand st). split; [|exact Hout].
  unfold bind. rewrite (choose_initial_lists G x us r Hx). simpl.
  unfold with_locals. by rewrite E.
Qed.

Lemma basic_discrete_SIR_epidemic_without_transmission_witness :
  exists out st r',
    Discrete.basic_discrete_SIR_epidemic 1 path2 0 (Some (a_node 0%nat))
      true (steady (2 # 3))
    = (Ok (out, st), r') /\
    Discrete.out_t out = [0; 1]%Z /\
    Discrete.out_S out = [1; 1]%Z /\
    Discrete.out_I out = [1; 0]%Z /\
    Discrete.out_R out = [0; 1]%Z.
Proof.
  destruct (basic_discrete_SIR_epidemic_without_transmission 1 path2 0
              (a_node 0%nat) [0%nat] true (steady (2 # 3)))
    as (out & st & r' & E & Ht & HS & HI & HR & _).
  - done.
  - intros i. simpl. by split.
  - split; [by left|done].
  - done.
  - intros u ->%list_elem_of_singleton. by left.
  - lia.
  - exists out, st, r'. by split_and!.
Defined.

(** ** Discrete-time SIR: the initial infecteds that are refused *)

Section DiscreteErrors.
Import Discrete.
Context (G : Graph) (test : node -> node -> M RandomState bool).

Lemma try_transmission_total u v s :
  total_test test ->
  succeeds (try_transmission test u v) (fun _ s' => t_ s' = t_ s) s.
Proof.
  intros Htest. unfold try_transmission, susceptible_read.
  assert (exists b s1,
            dd_read susceptible set_susceptible true v s = (Ok b, s1) /\
            t_ s1 = t_ s) as (b & s1 & E1 & Et).
  { unfold dd_read. destruct (susceptible s !! v) as [b|]; eauto. }
  eapply succeeds_run_then; [exact E1|].
  destruct b; [|by apply succeeds_ret_then, succeeds_ret].
  destruct (Htest u v (rand s1)) as (b & r' & Eb).
  eapply succeeds_run_then.
  { unfold using_generator. simpl. by rewrite Eb. }
  destruct b; [|by apply succeeds_ret].
  apply succeeds_modify_then. unfold dd_write. by apply succeeds_modify.
Qed.

Lemma infect_from_total full u s :
  total_test test -> u ∈ G_nodes G -> t_ s ≠ [] ->
  succeeds (infect_from G test full u) (fun _ s' => t_ s' ≠ []) s.
Proof.
  intros Htest Hu Hs. unfold infect_from, nx.neighbors, nx.has_node.
  rewrite bool_decide_eq_true_2 by done.
  apply succeeds_lift_then.
  eapply succeeds_bind.
  { apply (succeeds_for_members (fun s' => t_ s' ≠ [])); [|done].
    intros v s' _ Hs'. eapply succeeds_mono; [|by apply try_transmission_total].
    intros ? s'' E. simpl in E. by rewrite E. }
  intros ? s1 Hs1. destruct full; [|by apply succeeds_ret].
  destruct (last (t_ s1)) as [now|] eqn:Hnow; [|by apply last_None in Hnow].
  apply succeeds_assoc.
  eapply succeeds_last_of_then; [exact Hnow|]. unfold dd_write.
  apply succeeds_modify_then.
  eapply succeeds_last_of_then; [exact Hnow|].
  by apply succeeds_modify.
Qed.

Lemma infect_from_outside full u s :
  u ∉ G_nodes G ->
  infect_from G test full u s = (Raise NetworkXError, s).
Proof.
  intros Hu. unfold infect_from, nx.neighbors, nx.has_node.
  by rewrite bool_decide_eq_false_2.
Qed.

Lemma for_infect_from_outside full us s :
  total_test test -> t_ s ≠ [] ->
  (exists u, u ∈ us /\ u ∉ G_nodes G) ->
  (for_ us (infect_from G test full) s).1 = Raise NetworkXError.
Proof.
  intros Htest. revert s. induction us as [|u us IH]; intros s Hs [w [Hw Hout]].
  { by apply elem_of_nil in Hw. }
  cbn [for_]. unfold bind.
  destruct (decide (u ∈ G_nodes G)) as [Hu|Hu].
  - destruct (infect_from_total full u s Htest Hu Hs) as ([] & s' & E & Hs').
    rewrite E. apply IH; [done|]. exists w. split; [|done].
    apply elem_of_cons in Hw as [->|Hw]; done.
  - by rewrite infect_from_outside.
Qed.

Lemma while_infecteds_outside fuel full us s :
  total_test test -> t_ s ≠ [] -> (0 < fuel)%nat ->
  (exists u, u ∈ us /\ u ∉ G_nodes G) ->
  (while_infecteds fuel G test full us s).1 = Raise NetworkXError.
Proof.
  intros Htest Hs Hfuel Hout.
  destruct fuel as [|fuel]; [lia|].
  destruct us as [|u us'].
  { destruct Hout as (w & Hw & _). by apply elem_of_nil in Hw. }
  cbn [while_infecteds]. unfold bind at 1. unfold modify at 1.
  unfold bind at 1.
  pose proof (for_infect_from_outside full (u :: us')
                (set_new_infecteds (fun _ => []) s) Htest Hs Hout) as Hraise.
  destruct (for_ (u :: us') (infect_from G test full)
              (set_new_infecteds (fun _ => []) s)) as [[[]|e] s2];
    simpl in Hraise; [discriminate|]. by injection Hraise as ->.
Qed.

Lemma body_outside fuel full us r :
  total_test test -> (0 < fuel)%nat ->
  (exists u, u ∈ us /\ u ∉ G_nodes G) ->
  (body fuel G test full us (new G us r)).1 = Raise NetworkXError.
Proof.
  intros Htest Hfuel Hout. unfold body.
  destruct (succeeds_for_members (fun s => t_ s ≠ []) us
              (fun u => dd_write susceptible set_susceptible u false)
              (new G us r)) as ([] & s1 & E1 & Hs1).
  { intros u s _ Hs. unfold dd_write. by apply succeeds_modify. }
  { done. }
  unfold bind at 1. rewrite E1. unfold bind at 1.
  pose proof (while_infecteds_outside fuel full us s1 Htest Hs1 Hfuel Hout)
    as Hraise.
  destruct (while_infecteds fuel G test full us s1) as [[[]|e] s2];
    simpl in Hraise; [discriminate|]. by injection Hraise as ->.
Qed.

End DiscreteErrors.

(** X12: what [discrete_SIR_epidemic] does with initial infecteds that it
    cannot use.  Without initial infecteds, an empty graph is an
    [IndexError] (of [random.choice]); and a list that holds a node that is
    not in the graph is a [NetworkXError], raised by [G.neighbors] in the
    first round, when [test_transmission] always answers. *)
Theorem discrete_SIR_epidemic_refuses (fuel : nat) (G : Graph)
    (test_transmission : node -> node -> M RandomState bool) (full : bool)
    (r : RandomState) :
  (G_nodes G = [] ->
   (Discrete.discrete_SIR_epidemic fuel G test_transmission None full r).1
   = Raise IndexError) /\
  (forall us,
     total_test test_transmission -> (0 < fuel)%nat ->
     (exists u, u ∈ us /\ u ∉ G_nodes G) ->
     (Discrete.discrete_SIR_epidemic fuel G test_transmission
        (Some (an_iterable us)) full r).1 = Raise NetworkXError).
Proof.
  unfold Discrete.discrete_SIR_epidemic. split.
  - intros HG. unfold bind, Discrete.choose_initial. rewrite HG.
    unfold random.choice, random.below, random.random, random.next, bind,
      gets, ret, lift. simpl.
    rewrite Z.mul_0_r. by rewrite Z.quot_0_l.
  - intros us Htest Hfuel Hout. unfold bind. simpl.
    unfold with_locals.
    pose proof (body_outside G test_transmission fuel full us r Htest Hfuel
                  Hout) as Hraise.
    destruct (Discrete.body fuel G test_transmission full us
                (Discrete.new G us r)) as [[out|e] s2];
      simpl in Hraise; [discriminate|]. by injection Hraise as ->.
Qed.

Lemma discrete_SIR_epidemic_refuses_witness :
  (Discrete.discrete_SIR_epidemic 3 DiGraph.empty
     (fun u v => _simple_test_transmission_ u v (1 # 2)) None false
     (steady (2 # 3))).1
  = Raise IndexError /\
  (Discrete.discrete_SIR_epidemic 3 path2
     (fun u v => _simple_test_transmission_ u v (1 # 2))
     (Some (an_iterable [0; 5]%nat)) false (steady (2 # 3))).1
  = Raise NetworkXError.
Proof.
  split.
  - apply (discrete_SIR_epidemic_refuses 3 DiGraph.empty
             (fun u v => _simple_test_transmission_ u v (1 # 2)) false
             (steady (2 # 3))).
    reflexivity.
  - apply (discrete_SIR_epidemic_refuses 3 path2
             (fun u v => _simple_test_transmission_ u v (1 # 2)) false
             (steady (2 # 3))).
    + intros u v r. by eexists _, _.
    + lia.
    + exists 5%nat. split; [by right; left|].
      apply (bool_decide_unpack _). by vm_compute.
Defined.

(** ** Directed percolation *)

Lemma directed_percolate_network_loops G tau gamma :
  directed_percolate_network G tau gamma
  = percolate_nodes G tau gamma (G_nodes G) DiGraph.empty.
Proof. reflexivity. Qed.

Lemma with_node_elem H u w :
  w ∈ DiGraph.with_node H u <-> w ∈ G_nodes H \/ w = u.
Proof.
  unfold DiGraph.with_node. case_bool_decide as Hu.
  - split; [by left|]. by intros [?| ->].
  - rewrite elem_of_app, list_elem_of_singleton. tauto.
Qed.

Lemma with_node_NoDup H u : NoDup (G_nodes H) -> NoDup (DiGraph.with_node H u).
Proof.
  intros Hnd. unfold DiGraph.with_node. case_bool_decide as Hu; [done|].
  apply NoDup_app. split; [done|]. split; [|apply NoDup_singleton].
  intros w Hw ->%list_elem_of_singleton. done.
Qed.

Section Percolation.
Context (G : Graph) (tau gamma : Q).
Hypothesis Htau : ~ (tau == 0)%Q.
Hypothesis Hgamma : ~ (gamma == 0)%Q.

Lemma expovariate_returns lambd (r : RandomState) :
  ~ (lambd == 0)%Q ->
  random.expovariate lambd r
  = (Ok (unit_exp (draws r) (cursor r) / lambd)%Q,
     mkRandom (draws r) (S (cursor r))).
Proof.
  intros Hne. unfold random.expovariate, random.next, bind, gets. simpl.
  destruct (Qeq_bool lambd 0) eqn:E; [|done].
  by apply Qeq_bool_iff in E.
Qed.

(** The state of the inner loop: the edges that leave [u] lead to
    neighbours of [u] and are faster than [duration]; the rest is as the
    outer loop left it. *)
Lemma percolate_neighbors_spec done u duration vs :
  forall H r,
    u ∉ done -> (forall v, v ∈ vs -> v ∈ G_adj G u) ->
    percolated G (done ++ [u]) H ->
    G_node H u "duration" = Some duration ->
    exists H' r',
      percolate_neighbors tau u duration vs H r = (Ok H', r') /\
      percolated G (done ++ [u]) H' /\
      G_node H' u "duration" = Some duration.
Proof using Htau.
  induction vs as [|v vs IH]; intros H r Hu Hvs HH Hd.
  { by exists H, r. }
  cbn [percolate_neighbors]. unfold bind at 1.
  rewrite expovariate_returns by done.
  set (t := (unit_exp (draws r) (cursor r) / tau)%Q).
  apply IH; [done|by intros w Hw; apply Hvs; right| |].
  2: { by destruct (Qltb t duration). }
  destruct (Qltb t duration) eqn:Et; [|done].
  apply Qltb_lt in Et.
  destruct HH as (Hnd & Hdone & Hnodes & Hedges).
  assert (v ∈ G_adj G u) as Hv by (apply Hvs; by left).
  unfold percolated, edges_transmit, DiGraph.add_edge.
  cbn [G_nodes G_adj G_edge G_node].
  split_and!.
  - apply with_node_NoDup. cbn [G_nodes]. by apply with_node_NoDup.
  - intros w Hw. apply with_node_elem. left. cbn [G_nodes].
    apply with_node_elem. left. by apply Hdone.
  - intros w [[Hw| ->]%with_node_elem| ->]%with_node_elem.
    + by apply Hnodes.
    + left. apply elem_of_app. right. by left.
    + right. exists u. split; [|done]. apply elem_of_app. right. by left.
  - intros x y Hy. revert Hy.
    destruct (bool_decide_reflect (x = u /\ v ∉ G_adj H u)) as [Hx|Hx];
      intros Hy.
    + destruct Hx as [-> Hnew].
      apply elem_of_app in Hy as [Hy| ->%list_elem_of_singleton].
      * destruct (Hedges u y Hy) as (Hsrc & Hadj & d & t' & Hd' & Ht' & Hlt).
        split; [done|]. split; [done|].
        destruct (bool_decide_reflect (u = u /\ y = v /\ "delay" = "delay"))
          as [Hyv|Hyv].
        -- destruct Hyv as (_ & -> & _). done.
        -- by exists d, t'.
      * split; [apply elem_of_app; right; by left|]. split; [done|].
        exists duration, t. rewrite bool_decide_eq_true_2 by done. done.
    + destruct (Hedges x y Hy) as (Hsrc & Hadj & d & t' & Hd' & Ht' & Hlt).
      split; [done|]. split; [done|].
      destruct (bool_decide_reflect (x = u /\ y = v /\ "delay" = "delay"))
        as [Hxy|Hxy].
      * destruct Hxy as (-> & -> & _). exists duration, t.
        split; [done|]. split; [done|]. done.
      * by exists d, t'.
Qed.

Lemma percolate_nodes_spec us :
  forall done H r,
    NoDup (done ++ us) -> (forall u, u ∈ us -> u ∈ G_nodes G) ->
    percolated G done H ->
    exists H' r',
      percolate_nodes G tau gamma us H r = (Ok H', r') /\
      percolated G (done ++ us) H'.
Proof using Htau Hgamma.
  induction us as [|u us IH]; intros done H r Hnd Hus HH.
  { exists H, r. by rewrite app_nil_r. }
  cbn [percolate_nodes]. unfold bind at 1.
  rewrite expovariate_returns by done.
  set (d := (unit_exp (draws r) (cursor r) / gamma)%Q).
  set (r1 := mkRandom (draws r) (S (cursor r))).
  unfold bind at 1. unfold lift, nx.neighbors, nx.has_node.
  rewrite bool_decide_eq_true_2 by (apply Hus; by left).
  assert (u ∉ done) as Hu.
  { apply NoDup_app in Hnd as (_ & Hdisj & _). intros Hin.
    apply (Hdisj u Hin). by left. }
  destruct (percolate_neighbors_spec done u d (G_adj G u)
              (DiGraph.add_node H u "duration" d) r1) as (H1 & r2 & E & H1' & _).
  - done.
  - done.
  - destruct HH as (HndH & Hdone & Hnodes & Hedges).
    unfold percolated, edges_transmit, DiGraph.add_node.
    cbn [G_nodes G_adj G_edge G_node].
    split_and!.
    + by apply with_node_NoDup.
    + intros w [Hw| ->%list_elem_of_singleton]%elem_of_app;
        apply with_node_elem; [left; by apply Hdone|by right].
    + intros w [Hw| ->]%with_node_elem.
      * destruct (Hnodes w Hw) as [Hd|(x & Hx & Hadj)].
        -- left. apply elem_of_app. by left.
        -- right. exists x. split; [|done]. apply elem_of_app. by left.
      * left. apply elem_of_app. right. by left.
    + intros x y Hy.
      destruct (Hedges x y Hy) as (Hsrc & Hadj & d' & t' & Hd' & Ht' & Hlt).
      split; [apply elem_of_app; by left|]. split; [done|].
      exists d', t'. rewrite bool_decide_eq_false_2; [done|].
      intros [-> _]. done.
  - unfold DiGraph.add_node. cbn [G_node].
    by rewrite bool_decide_eq_true_2.
  - unfold bind. rewrite E.
    destruct (IH (done ++ [u]) H1 r2) as (H2 & r3 & E2 & H2').
    + by rewrite <- app_assoc.
    + intros w Hw. apply Hus. by right.
    + done.
    + exists H2, r3. split; [done|]. by rewrite <- app_assoc in H2'.
Qed.

End Percolation.

(** X13: what [directed_percolate_network] builds.  With rates that are
    not zero, on a graph with distinct nodes whose neighbour lists hold
    nodes of the graph, the function returns a directed graph [H] that has
    the nodes of [G], each once; every edge [u -> v] of [H] is an edge of
    [G], and its [delay] is less than the [duration] of [u]. *)
Theorem directed_percolate_network_keeps_fast_edges (G : Graph)
    (tau gamma : Q) (r : RandomState) :
  ~ (tau == 0)%Q -> ~ (gamma == 0)%Q ->
  NoDup (G_nodes G) -> neighbors_are_nodes G ->
  exists H r',
    directed_percolate_network G tau gamma r = (Ok H, r') /\
    NoDup (G_nodes H) /\
    (forall w, w ∈ G_nodes H <-> w ∈ G_nodes G) /\
    edges_transmit G (G_nodes G) H.
Proof.
  intros Htau Hgamma Hnd HG.
  rewrite directed_percolate_network_loops.
  destruct (percolate_nodes_spec G tau gamma Htau Hgamma (G_nodes G) []
              DiGraph.empty r) as (H & r' & E & HndH & Hdone & Hnodes & Hedges).
  - done.
  - done.
  - unfold percolated, DiGraph.empty. cbn [G_nodes G_adj]. split_and!.
    + apply NoDup_nil_2.
    + by intros u Hu%elem_of_nil.
    + by intros w Hw%elem_of_nil.
    + by intros u v Hv%elem_of_nil.
  - exists H, r'. simpl in *. split_and!; try done.
    intros w. split; [|by apply Hdone].
    intros Hw. destruct (Hnodes w Hw) as [Hd|(u & Hu & Hadj)]; [done|].
    by eapply HG.
Qed.

Lemma directed_percolate_network_keeps_fast_edges_witness :
  exists H r',
    directed_percolate_network path2 4 1 (steady (1 # 2)) = (Ok H, r') /\
    NoDup (G_nodes H) /\
    (forall w, w ∈ G_nodes H <-> w ∈ G_nodes path2) /\
    edges_transmit path2 (G_nodes path2) H.
Proof.
  apply directed_percolate_network_keeps_fast_edges.
  - by intros E.
  - by intros E.
  - apply (bool_decide_unpack _). by vm_compute.
  - intros u v _ Hv. unfold path2 in *. simpl in *.
    repeat case_decide; try (by apply elem_of_nil in Hv);
      apply list_elem_of_singleton in Hv as ->;
      [by right; left|by left].
Defined.

(** ** [nonMarkov_directed_percolate_network] *)

Section NonMarkovPercolation.
Context {X Y : Type} (G : Graph) (xi : gmap node X) (zeta : gmap node Y)
        (f : X -> Y -> bool) (transmission : X -> Y -> M RandomState bool).
Hypothesis Hpure : forall a b r, transmission a b r = (Ok (f a b), r).
Hypothesis Hxi : forall u, u ∈ G_nodes G -> is_Some (xi !! u).
Hypothesis Hzeta : forall v, v ∈ G_nodes G -> is_Some (zeta !! v).
Hypothesis HG : neighbors_are_nodes G.

Lemma add_edge0_adj H u v x y :
  y ∈ G_adj (DiGraph0.add_edge H u v) x <-> y ∈ G_adj H x \/ (x = u /\ y = v).
Proof.
  unfold DiGraph0.add_edge. cbn [G_adj].
  destruct (bool_decide_reflect (x = u /\ v ∉ G_adj H u)) as [[-> Hv]|Hx].
  - rewrite elem_of_app, list_elem_of_singleton. tauto.
  - split; [by left|]. intros [Hy|[-> ->]]; [done|].
    destruct (decide (v ∈ G_adj H u)); [done|]. by destruct Hx.
Qed.

Lemma nonMarkov_neighbors_spec done u vs :
  forall vdone H r,
    u ∈ G_nodes G -> (forall v, v ∈ vs -> v ∈ G_adj G u) ->
    nonMarkov_built G xi zeta f (done ++ [u]) done u vdone H ->
    exists H',
      nonMarkov_neighbors xi zeta transmission u vs H r = (Ok H', r) /\
      nonMarkov_built G xi zeta f (done ++ [u]) done u (vdone ++ vs) H'.
Proof using Hpure Hxi Hzeta HG.
  induction vs as [|v vs IH]; intros vdone H r Hu Hvs HH.
  { exists H. by rewrite app_nil_r. }
  assert (v ∈ G_adj G u) as Hv by (apply Hvs; by left).
  assert (v ∈ G_nodes G) as Hv' by (by eapply HG).
  destruct (Hxi u Hu) as [a Ha]. destruct (Hzeta v Hv') as [b Hb].
  cbn [nonMarkov_neighbors]. unfold bind, lift, dict_get.
  rewrite Ha, Hb, Hpure.
  replace (vdone ++ v :: vs) with ((vdone ++ [v]) ++ vs)
    by (by rewrite <- app_assoc).
  apply IH; [done|by intros w Hw; apply Hvs; right|].
  destruct HH as (Hnd & Hdone & Hnodes & Hadj).
  destruct (f a b) eqn:Ef.
  - unfold nonMarkov_built. split_and!.
    + unfold DiGraph0.add_edge. cbn [G_nodes].
      apply with_node_NoDup. cbn [G_nodes]. by apply with_node_NoDup.
    + intros w Hw. unfold DiGraph0.add_edge. cbn [G_nodes].
      apply with_node_elem. left. cbn [G_nodes].
      apply with_node_elem. left. by apply Hdone.
    + unfold DiGraph0.add_edge. cbn [G_nodes].
      intros w [[Hw| ->]%with_node_elem| ->]%with_node_elem; auto.
    + intros x y. rewrite add_edge0_adj, Hadj, elem_of_app,
        list_elem_of_singleton.
      split.
      * intros [[?|(-> & Hy & Hwt)]|[-> ->]]; [by left|right..].
        -- split; [done|]. split; [by left|done].
        -- split; [done|]. split; [by right|]. by exists a, b.
      * intros [?|(-> & [Hy| ->] & Hwt)]; [by left; left| |by right].
        left. right. done.
  - unfold nonMarkov_built. split_and!; try done.
    intros x y. rewrite Hadj, elem_of_app, list_elem_of_singleton.
    split.
    + intros [?|(-> & Hy & Hwt)]; [by left|right].
      split; [done|]. split; [by left|done].
    + intros [?|(-> & [Hy| ->] & Hwt)]; [by left|by right|].
      destruct Hwt as (a' & b' & Ha' & Hb' & Hf). congruence.
Qed.

Lemma nonMarkov_nodes_spec us :
  forall done H r,
    (forall u, u ∈ us -> u ∈ G_nodes G) ->
    (forall u, nonMarkov_built G xi zeta f done done u [] H) ->
    exists H',
      nonMarkov_nodes G xi zeta transmission us H r = (Ok H', r) /\
      forall u, nonMarkov_built G xi zeta f (done ++ us) (done ++ us) u [] H'.
Proof using Hpure Hxi Hzeta HG.
  induction us as [|u us IH]; intros done H r Hus HH.
  { exists H. by rewrite app_nil_r. }
  assert (u ∈ G_nodes G) as Hu by (apply Hus; by left).
  cbn [nonMarkov_nodes]. unfold bind at 1. unfold lift, nx.neighbors,
    nx.has_node.
  rewrite bool_decide_eq_true_2 by done.
  destruct (nonMarkov_neighbors_spec done u (G_adj G u) []
              (DiGraph0.add_node H u) r Hu) as (H1 & E & H1').
  - done.
  - destruct (HH u) as (Hnd & Hdone & Hnodes & Hadj).
    unfold nonMarkov_built, DiGraph0.add_node. cbn [G_nodes G_adj].
    split_and!; [by apply with_node_NoDup| | |done].
    + intros w [Hw| ->%list_elem_of_singleton]%elem_of_app;
        apply with_node_elem; [left; by apply Hdone|by right].
    + intros w [Hw| ->]%with_node_elem; auto.
  - unfold bind. rewrite E.
    replace (done ++ u :: us) with ((done ++ [u]) ++ us)
      by (by rewrite <- app_assoc).
    apply IH; [by intros w Hw; apply Hus; right|].
    change ([] ++ G_adj G u) with (G_adj G u) in H1'.
    intros u'. destruct H1' as (Hnd & Hdone & Hnodes & Hadj).
    unfold nonMarkov_built. split_and!; try done.
    intros x y. rewrite Hadj, !elem_of_app, list_elem_of_singleton. simpl.
    split.
    + intros [(Hx & Hy & Hwt)|(-> & Hy & Hwt)]; left.
      * split; [by left|done].
      * split; [by right|done].
    + intros [([Hx| ->] & Hy & Hwt)|(_ & Hy%elem_of_nil & _)].
      * by left.
      * by right.
      * done.
Qed.

End NonMarkovPercolation.

(** X14: what [nonMarkov_directed_percolate_network] builds when
    [transmission] is a function [f] of its two arguments.  If [xi] and
    [zeta] have an entry for every node of [G] and the neighbour lists of
    [G] hold nodes of [G], the function returns, without using the
    generator, a directed graph [H] with the nodes of [G], each once, in
    which [u -> v] is an edge exactly when [v] is a neighbour of [u] in [G]
    and [f(xi[u], zeta[v])] holds. *)
Theorem nonMarkov_directed_percolate_network_edges {X Y : Type} (G : Graph)
    (xi : gmap node X) (zeta : gmap node Y) (f : X -> Y -> bool)
    (transmission : X -> Y -> M RandomState bool) (r : RandomState) :
  (forall a b r, transmission a b r = (Ok (f a b), r)) ->
  (forall u, u ∈ G_nodes G -> is_Some (xi !! u)) ->
  (forall v, v ∈ G_nodes G -> is_Some (zeta !! v)) ->
  neighbors_are_nodes G ->
  exists H,
    nonMarkov_directed_percolate_network G xi zeta transmission r
    = (Ok H, r) /\
    NoDup (G_nodes H) /\
    (forall w, w ∈ G_nodes H <-> w ∈ G_nodes G) /\
    forall u v,
      v ∈ G_adj H u <->
      u ∈ G_nodes G /\ v ∈ G_adj G u /\ would_transmit xi zeta f u v.
Proof.
  intros Hpure Hxi Hzeta HG. unfold nonMarkov_directed_percolate_network.
  destruct (nonMarkov_nodes_spec G xi zeta f transmission Hpure Hxi Hzeta HG
              (G_nodes G) [] DiGraph.empty r) as (H & E & HH).
  - done.
  - intros u. unfold nonMarkov_built, DiGraph.empty. cbn [G_nodes G_adj].
    split_and!.
    + apply NoDup_nil_2.
    + by intros w Hw%elem_of_nil.
    + by intros w Hw%elem_of_nil.
    + intros x y. split; [by intros Hy%elem_of_nil|].
      intros [(Hx%elem_of_nil & _)|(_ & Hy%elem_of_nil & _)]; done.
  - exists H. split; [done|]. simpl in HH.
    destruct (HH 0%nat) as (Hnd & Hdone & Hnodes & Hadj).
    split_and!; [done|by split; auto|].
    intros u v. rewrite Hadj. split; [|by left].
    intros [?|(_ & Hv%elem_of_nil & _)]; done.
Qed.

Lemma nonMarkov_directed_percolate_network_edges_witness :
  let xi : gmap node Q := {[ 0%nat := 2%Q; 1%nat := 1%Q ]} in
  let zeta : gmap node Q := {[ 0%nat := 1%Q; 1%nat := 1%Q ]} in
  let f := fun a b : Q => Qltb b a in
  exists H,
    nonMarkov_directed_percolate_network path2 xi zeta
      (fun a b => ret (f a b)) (steady (1 # 2)) = (Ok H, steady (1 # 2)) /\
    NoDup (G_nodes H) /\
    (forall w, w ∈ G_nodes H <-> w ∈ G_nodes path2) /\
    forall u v,
      v ∈ G_adj H u <->
      u ∈ G_nodes path2 /\ v ∈ G_adj path2 u /\ would_transmit xi zeta f u v.
Proof.
  intros xi zeta f.
  apply (nonMarkov_directed_percolate_network_edges path2 xi zeta f).
  - done.
  - intros u [->| ->%list_elem_of_singleton]%elem_of_cons; by eexists.
  - intros u [->| ->%list_elem_of_singleton]%elem_of_cons; by eexists.
  - intros u v _ Hv. unfold path2 in *. simpl in *.
    repeat case_decide; try (by apply elem_of_nil in Hv);
      apply list_elem_of_singleton in Hv as ->;
      [by right; left|by left].
Defined.

(** ** Bond percolation *)

Lemma add_nodes_from_fresh (acc l : list node) :
  NoDup (acc ++ l) ->
  foldl (fun l u => if bool_decide (u ∈ l) then l else l ++ [u]) acc l
  = acc ++ l.
Proof.
  revert acc. induction l as [|u l IH]; intros acc Hnd; simpl.
  { by rewrite app_nil_r. }
  assert (u ∉ acc) as Hu.
  { apply NoDup_app in Hnd as (_ & Hdisj & _). intros Hin.
    apply (Hdisj u Hin). by left. }
  rewrite bool_decide_eq_false_2 by done.
  rewrite IH; rewrite <- app_assoc; done.
Qed.

Lemma with_neighbor_elem l v w :
  w ∈ UGraph.with_neighbor l v <-> w ∈ l \/ w = v.
Proof.
  unfold UGraph.with_neighbor. case_bool_decide as Hv.
  - split; [by left|]. by intros [?| ->].
  - rewrite elem_of_app, list_elem_of_singleton. tauto.
Qed.

Lemma with_neighbor_NoDup l v : NoDup l -> NoDup (UGraph.with_neighbor l v).
Proof.
  intros Hnd. unfold UGraph.with_neighbor. case_bool_decide as Hv; [done|].
  apply NoDup_app. split; [done|]. split; [|apply NoDup_singleton].
  intros w Hw ->%list_elem_of_singleton. done.
Qed.

Lemma add_edge_adj H u v x y :
  y ∈ G_adj (UGraph.add_edge H u v) x
  <-> y ∈ G_adj H x \/ (x = u /\ y = v) \/ (x = v /\ y = u).
Proof.
  unfold UGraph.add_edge. cbn [G_adj].
  destruct (bool_decide_reflect (x = u)) as [Hu|Hu];
    destruct (bool_decide_reflect (x = v)) as [Hv|Hv];
    rewrite ?with_neighbor_elem; intuition congruence.
Qed.

Lemma add_edge_NoDup H u v x :
  NoDup (G_adj H x) -> NoDup (G_adj (UGraph.add_edge H u v) x).
Proof.
  intros Hnd. unfold UGraph.add_edge. cbn [G_adj].
  destruct (bool_decide (x = u)); destruct (bool_decide (x = v));
    repeat apply with_neighbor_NoDup; done.
Qed.

Lemma add_edge_nodes H u v :
  u ∈ G_nodes H -> v ∈ G_nodes H ->
  G_nodes (UGraph.add_edge H u v) = G_nodes H.
Proof.
  intros Hu Hv. unfold UGraph.add_edge, DiGraph.with_node. cbn [G_nodes].
  rewrite (bool_decide_eq_true_2 (u ∈ G_nodes H)) by done.
  by rewrite bool_decide_eq_true_2.
Qed.

Lemma edges_from_elem G seen nodes u v :
  (u, v) ∈ UGraph.edges_from G seen nodes -> u ∈ nodes /\ v ∈ G_adj G u.
Proof.
  revert seen. induction nodes as [|n nodes IH]; intros seen; simpl.
  { by intros ?%elem_of_nil. }
  intros [Hin|Hin]%elem_of_app.
  - apply list_elem_of_fmap in Hin as (w & [= -> ->] & Hw).
    apply list_elem_of_filter in Hw as [_ Hw]. split; [by left|done].
  - destruct (IH _ Hin). split; [by right|done].
Qed.

Lemma edges_from_all G seen nodes u v :
  (forall x y, y ∈ G_adj G x -> x ∈ G_adj G y) ->
  u ∈ nodes -> v ∈ nodes -> v ∈ G_adj G u -> u ∉ seen -> v ∉ seen ->
  (u, v) ∈ UGraph.edges_from G seen nodes \/
  (v, u) ∈ UGraph.edges_from G seen nodes.
Proof.
  intros Hsym. revert seen.
  induction nodes as [|n nodes IH]; intros seen Hu Hv Huv Hus Hvs.
  { by apply elem_of_nil in Hu. }
  simpl. destruct (decide (u = n)) as [->|Hun].
  { left. apply elem_of_app. left. apply list_elem_of_fmap.
    exists v. split; [done|]. by apply list_elem_of_filter. }
  destruct (decide (v = n)) as [->|Hvn].
  { right. apply elem_of_app. left. apply list_elem_of_fmap.
    exists u. split; [done|]. apply list_elem_of_filter. split; [done|].
    by apply Hsym. }
  apply elem_of_cons in Hu as [?|Hu]; [done|].
  apply elem_of_cons in Hv as [?|Hv]; [done|].
  destruct (IH (seen ++ [n]) Hu Hv Huv) as [Hin|Hin].
  - rewrite elem_of_app, list_elem_of_singleton. tauto.
  - rewrite elem_of_app, list_elem_of_singleton. tauto.
  - left. apply elem_of_app. by right.
  - right. apply elem_of_app. by right.
Qed.

Section Percolate.
Context (G : Graph) (p : Q).
Hypothesis HG : simple_graph G.

Lemma percolate_edges_spec es :
  forall H r,
    (forall u v, (u, v) ∈ es -> u ∈ G_nodes G /\ v ∈ G_adj G u) ->
    spanning_subgraph G H ->
    exists H' r',
      percolate_edges p es H r = (Ok H', r') /\
      draws r' = draws r /\
      spanning_subgraph G H' /\
      (forall u v, v ∈ G_adj H u -> v ∈ G_adj H' u) /\
      (unit_draws r -> (p <= 0)%Q -> H' = H) /\
      (unit_draws r -> (1 <= p)%Q ->
       forall u v, (u, v) ∈ es -> v ∈ G_adj H' u /\ u ∈ G_adj H' v).
Proof using HG.
  induction es as [|[u v] es IH]; intros H r Hes HH.
  { exists H, r. split_and!; try done. by intros _ _ u v ?%elem_of_nil. }
  destruct (Hes u v) as [Hu Hv]; [by left|].
  assert (u ∈ G_nodes G /\ v ∈ G_nodes G) as [Hu' Hv'].
  { by apply (adj_nodes G HG). }
  cbn [percolate_edges]. unfold bind at 1.
  unfold random.random, random.next, bind, gets, ret. simpl.
  set (x := uniform (draws r) (cursor r)).
  set (r1 := mkRandom (draws r) (S (cursor r))).
  set (H1 := if Qltb x p then UGraph.add_edge H u v else H).
  assert (spanning_subgraph G H1) as HH1.
  { unfold H1. destruct (Qltb x p); [|done].
    destruct HH as (Hn & Hsub & Hsym & Hnd).
    unfold spanning_subgraph. split_and!.
    - rewrite add_edge_nodes; [done|by rewrite Hn..].
    - intros a b [Hb|[[-> ->]|[-> ->]]]%add_edge_adj; [by apply Hsub|done|].
      by apply (adj_sym G HG).
    - intros a b. rewrite !add_edge_adj.
      intros [Hb|[[-> ->]|[-> ->]]]; [left; by apply Hsym|tauto..].
    - intros a. by apply add_edge_NoDup. }
  destruct (IH H1 r1) as (H' & r' & E & Hdr & HH' & Hmono & Hnone & Hall).
  { intros a b Hab. apply Hes. by right. }
  { done. }
  exists H', r'. split; [exact E|]. split; [done|]. split; [done|].
  assert (forall a b, b ∈ G_adj H a -> b ∈ G_adj H1 a) as Hmono1.
  { intros a b Hb. unfold H1. destruct (Qltb x p); [|done].
    apply add_edge_adj. by left. }
  split_and!.
  - intros a b Hb. by apply Hmono, Hmono1.
  - intros Hr Hp. rewrite Hnone; [|done|done].
    unfold H1. replace (Qltb x p) with false; [done|].
    symmetry. apply Qltb_ge. eapply Qle_trans; [exact Hp|]. apply (Hr _).
  - intros Hr Hp a b [[= -> ->]|Hab]%elem_of_cons; [|by apply Hall].
    assert (Qltb x p = true) as Ex.
    { apply Qltb_lt. eapply Qlt_le_trans; [apply (Hr _)|done]. }
    split; apply Hmono; unfold H1; rewrite Ex; apply add_edge_adj; tauto.
Qed.

End Percolate.

Lemma percolate_network_spec (G : Graph) (p : Q) (r : RandomState) :
  simple_graph G ->
  exists H r',
    percolate_network G p r = (Ok H, r') /\
    spanning_subgraph G H /\
    (unit_draws r -> (p <= 0)%Q -> forall u, G_adj H u = []) /\
    (unit_draws r -> (1 <= p)%Q ->
     forall u v, v ∈ G_adj G u -> v ∈ G_adj H u).
Proof.
  intros HG. unfold percolate_network.
  set (H0 := UGraph.add_nodes_from DiGraph.empty (G_nodes G)).
  destruct (percolate_edges_spec G p HG (UGraph.edges_iter G) H0 r)
    as (H & r' & E & _ & HH & _ & Hnone & Hall).
  - intros u v Huv. by apply edges_from_elem in Huv.
  - unfold spanning_subgraph, H0, UGraph.add_nodes_from, DiGraph.empty.
    cbn [G_nodes G_adj]. split_and!.
    + apply add_nodes_from_fresh. apply (nodes_NoDup G HG).
    + by intros u v ?%elem_of_nil.
    + by intros u v ?%elem_of_nil.
    + intros u. apply NoDup_nil_2.
  - exists H, r'. split; [done|]. split; [done|]. split.
    + intros Hr Hp u. by rewrite Hnone.
    + intros Hr Hp u v Huv.
      destruct (adj_nodes G HG u v Huv) as [Hu Hv].
      destruct (edges_from_all G [] (G_nodes G) u v (adj_sym G HG) Hu Hv Huv)
        as [Hin|Hin]; [by intros ?%elem_of_nil..| |].
      * by apply (Hall Hr Hp u v).
      * by apply (Hall Hr Hp v u).
Qed.

(** X15: [percolate_network] returns a subgraph.  On a graph [G] with
    distinct nodes and symmetric neighbour lists, the result [H] has the
    nodes of [G], its neighbour lists are symmetric, without repetition,
    and hold neighbours in [G] only; when the uniform draws lie in [[0, 1)],
    [H] has no edge if [p <= 0] and every edge of [G] if [p >= 1]. *)
Theorem percolate_network_subgraph (G : Graph) (p : Q) (r : RandomState) :
  simple_graph G ->
  exists H r',
    percolate_network G p r = (Ok H, r') /\
    spanning_subgraph G H /\
    (unit_draws r -> (p <= 0)%Q -> forall u, G_adj H u = []) /\
    (unit_draws r -> (1 <= p)%Q ->
     forall u v, v ∈ G_adj G u -> v ∈ G_adj H u).
Proof. apply percolate_network_spec. Qed.

Lemma percolate_network_subgraph_witness :
  exists H r',
    percolate_network path2 (3 # 4) (steady (1 # 2)) = (Ok H, r') /\
    spanning_subgraph path2 H.
Proof.
  destruct (percolate_network_subgraph path2 (3 # 4) (steady (1 # 2))
              path2_simple) as (H & r' & E & HH & _).
  by exists H, r'.
Defined.

(** ** Discrete-time SIR as a breadth-first search *)

Section Distance.
Context (G : Graph) (us : list node).

Lemma no_nearer_no_reach k v :
  (forall j, (j <= k)%nat -> ~ at_distance G us j v) ->
  forall j, (j <= k)%nat -> ~ reach G us j v.
Proof.
  intros Hno j. induction (lt_wf j) as [j _ IH]. intros Hj Hr.
  apply (Hno j Hj). split; [done|]. intros i Hi. apply IH; [done|lia].
Qed.

Lemma at_distance_step k u v :
  at_distance G us k u -> v ∈ G_adj G u ->
  (forall j, (j <= k)%nat -> ~ at_distance G us j v) ->
  at_distance G us (S k) v.
Proof.
  intros [Hu _] Hv Hno. split; [by exists u|].
  intros j Hj. apply (no_nearer_no_reach k); [done|lia].
Qed.

Lemma at_distance_pred k v :
  at_distance G us (S k) v ->
  exists u, at_distance G us k u /\ v ∈ G_adj G u.
Proof.
  intros [(u & Hu & Hv) Hmin]. exists u. split; [|done].
  split; [done|]. intros i Hi Hr. apply (Hmin (S i)); [lia|]. by exists u.
Qed.

Lemma at_distance_unique j k v :
  at_distance G us j v -> at_distance G us k v -> j = k.
Proof.
  intros [Hj Hminj] [Hk Hmink].
  destruct (Nat.lt_trichotomy j k) as [Hlt|[->|Hlt]]; [|done|].
  - by destruct (Hmink j Hlt).
  - by destruct (Hminj k Hlt).
Qed.

Lemma at_distance_ends k :
  (forall v, ~ at_distance G us k v) ->
  forall j v, (k <= j)%nat -> ~ at_distance G us j v.
Proof.
  intros Hk j. induction j as [|j IH]; intros v Hj Hv.
  - assert (k = 0)%nat as -> by lia. by apply (Hk v).
  - destruct (decide (k = S j)) as [->|Hne]; [by apply (Hk v)|].
    destruct (at_distance_pred j v Hv) as (u & Hu & _).
    apply (IH u); [lia|done].
Qed.

End Distance.

Lemma returns_for_prefix {St A} (J : list A -> St -> Prop) (l : list A)
    (body : A -> M St unit) s :
  J [] s ->
  (forall done x rest s,
     l = done ++ x :: rest -> J done s ->
     returns (body x) (fun _ => J (done ++ [x])) s) ->
  returns (for_ l body) (fun _ => J l) s.
Proof.
  intros H0 Hstep.
  enough (forall rest done s,
            l = done ++ rest -> J done s ->
            returns (for_ rest body) (fun _ => J l) s) as Hgen.
  { by apply (Hgen l []). }
  clear s H0. intros rest. induction rest as [|x rest IH]; intros done s Hl Hd.
  - rewrite app_nil_r in Hl. subst. by apply returns_ret.
  - simpl. apply returns_bind. eapply returns_mono; [|by eapply Hstep].
    intros ? s' Hs'. apply (IH (done ++ [x])); [|done].
    by rewrite <- app_assoc.
Qed.

Section DiscreteBFS.
Import Discrete.
Context (G : Graph) (test : node -> node -> M RandomState bool)
        (us : list node) (full : bool).
Hypothesis Hyes : answers_yes G test.

Ltac dcbn :=
  cbn [t_ S_ I_ R_ susceptible new_infecteds infection_time recovery_time
       rand set_t set_S set_I set_R set_susceptible set_new_infecteds
       set_infection_time set_recovery_time set_rand get_random set_random
       state_HasRandom].

Lemma susceptible_read_then {C} v (k : bool -> M state C) post s :
  (forall m, (forall w, default true (m !! w) = Discrete_sus s w) ->
             returns (k (Discrete_sus s v)) post (set_susceptible m s)) ->
  returns (bind (susceptible_read v) k) post s.
Proof.
  intros Hk. unfold returns, bind, susceptible_read, dd_read.
  unfold Discrete_sus in *.
  destruct (susceptible s !! v) as [b|] eqn:E.
  - specialize (Hk (susceptible s) (fun _ => eq_refl)). simpl in Hk.
    by destruct s.
  - apply Hk. intros w. destruct (decide (v = w)) as [->|Hne].
    + by rewrite lookup_insert_eq, E.
    + by rewrite lookup_insert_ne.
Qed.

(** The part of the state that the invariant of a round reads. *)
Lemma Discrete_bfs_view k done u vdone s s' :
  (new_infecteds s', I_ s', t_ s', infection_time s')
  = (new_infecteds s, I_ s, t_ s, infection_time s) ->
  (forall w, Discrete_sus s' w = Discrete_sus s w) ->
  Discrete_bfs G us full k done u vdone s ->
  Discrete_bfs G us full k done u vdone s'.
Proof.
  intros [= En EI Et Eit] Hsus
    (Hnd & Hnew & Hs & Hdone & Hlen & Ht & HI & Hit).
  unfold Discrete_bfs, Discrete_recorded in *.
  rewrite En, EI, Et, Eit. split_and!; try done.
  - intros v. rewrite Hsus. apply Hs.
  - intros x v Hxv. rewrite Hsus. by apply (Hdone x).
Qed.

Lemma try_transmission_bfs k done u vdone v s :
  at_distance G us k u -> v ∈ G_adj G u ->
  Discrete_bfs G us full k done u vdone s ->
  returns (try_transmission test u v)
    (fun _ => Discrete_bfs G us full k done u (vdone ++ [v])) s.
Proof using Hyes.
  intros Hu Hv Hs. unfold try_transmission.
  apply susceptible_read_then. intros m Hm.
  assert (Discrete_bfs G us full k done u vdone (set_susceptible m s)) as Hs1.
  { by eapply Discrete_bfs_view; [| |exact Hs]. }
  assert (Discrete_sus (set_susceptible m s) v = Discrete_sus s v) as Hv1.
  { apply Hm. }
  revert Hs1 Hv1. generalize (set_susceptible m s). clear Hs m Hm.
  intros s1 Hs1 Hv1. rewrite <- Hv1. clear Hv1 s.
  destruct (Discrete_sus s1 v) eqn:Esus.
  2: { apply returns_ret_then. apply returns_ret.
       destruct Hs1 as (Hnd & Hnew & Hs & Hdone & Hrec).
       unfold Discrete_bfs. split_and!; try done.
       intros x w [?|[-> [Hw| ->%list_elem_of_singleton]%elem_of_app]];
         [apply (Hdone x); by left|apply (Hdone u); by right|done]. }
  destruct (Hyes u v (rand s1) Hv) as (r' & Er).
  eapply returns_bind_Ok.
  { unfold using_generator. dcbn. by rewrite Er. }
  apply returns_modify_then. unfold dd_write, returns, modify.
  destruct Hs1 as (Hnd & Hnew & Hs & Hdone & Hrec).
  assert (~ ((exists j, (j <= k)%nat /\ at_distance G us j v) \/
             v ∈ new_infecteds s1)) as Hfresh.
  { intros Hc. apply Hs in Hc. congruence. }
  assert (forall w,
            Discrete_sus
              (set_susceptible (<[v := false]> (susceptible s1))
                 (set_new_infecteds (fun l => l ++ [v]) (set_rand r' s1))) w
            = if decide (w = v) then false else Discrete_sus s1 w) as Hsus.
  { intros w. unfold Discrete_sus. dcbn.
    destruct (decide (w = v)) as [->|Hne].
    - by rewrite lookup_insert_eq.
    - by rewrite lookup_insert_ne. }
  unfold Discrete_bfs. dcbn. split_and!.
  - apply NoDup_app. split; [done|]. split; [|apply NoDup_singleton].
    intros w Hw ->%list_elem_of_singleton. apply Hfresh. by right.
  - intros w [Hw| ->%list_elem_of_singleton]%elem_of_app; [by apply Hnew|].
    apply (at_distance_step G us k u); [done|done|].
    intros j Hj Hd. apply Hfresh. left. by exists j.
  - intros w. rewrite Hsus, elem_of_app, list_elem_of_singleton.
    destruct (decide (w = v)) as [->|Hne].
    + split; [by right; right|done].
    + rewrite Hs. tauto.
  - intros x w Hxw. rewrite Hsus.
    destruct (decide (w = v)) as [->|Hne]; [done|].
    apply (Hdone x). rewrite elem_of_app, list_elem_of_singleton in Hxw.
    tauto.
  - exact Hrec.
Qed.

Lemma infect_from_bfs k done u s :
  at_distance G us k u ->
  Discrete_bfs G us full k done u [] s ->
  returns (infect_from G test full u)
    (fun _ s' => forall u', Discrete_bfs G us full k (done ++ [u]) u' [] s')
    s.
Proof using Hyes.
  intros Hu Hs. unfold infect_from.
  apply returns_lift_then. intros vs Hvs.
  assert (vs = G_adj G u) as ->.
  { unfold nx.neighbors in Hvs. destruct (nx.has_node G u); by simplify_eq. }
  apply returns_bind.
  eapply returns_mono;
    [|apply (returns_for_prefix
               (fun vdone => Discrete_bfs G us full k done u vdone));
      [exact Hs|]].
  2: { intros vdone v rest s' Hl Hs'. apply try_transmission_bfs; [done| |done].
       rewrite Hl. apply elem_of_app. right. by left. }
  intros ? s1 (Hnd & Hnew & Hsus & Hdone & Hlen & Ht & HI & Hit).
  assert (forall u' x v,
            (x ∈ done ++ [u] /\ v ∈ G_adj G x) \/ (x = u' /\ v ∈ []) ->
            (x ∈ done /\ v ∈ G_adj G x) \/ (x = u /\ v ∈ G_adj G u))
    as Hregroup.
  { intros u' x v [[[Hx| ->%list_elem_of_singleton]%elem_of_app Hv]
                  |[_ Hv%elem_of_nil]]; [by left|by right|done]. }
  destruct full eqn:Efull.
  - unfold returns, bind, last_of, dd_write, modify. rewrite Ht. dcbn.
    rewrite Ht. intros u'. unfold Discrete_bfs, Discrete_recorded. dcbn.
    split_and!; try done.
    + intros x v Hxv. apply (Hdone x). by eapply Hregroup.
    + intros _ v j. specialize (Hit eq_refl v j).
      destruct (decide (u = v)) as [<-|Hne].
      * rewrite lookup_insert_eq. split.
        -- intros [= <-]. exists k. split; [done|]. split; [done|].
           right. split; [done|]. apply elem_of_app. right. by left.
        -- intros (j' & -> & Hd & _).
           by rewrite (at_distance_unique G us j' k u Hd Hu).
      * rewrite lookup_insert_ne by done. rewrite Hit.
        split; intros (j' & -> & Hd & Hj); exists j';
          (split; [done|]); (split; [done|]);
          rewrite elem_of_app, list_elem_of_singleton in *;
          intuition congruence.
  - apply returns_ret. intros u'. unfold Discrete_bfs, Discrete_recorded.
    split_and!; try done.
    intros x v Hxv. apply (Hdone x). by eapply Hregroup.
Qed.

Lemma while_infecteds_bfs fuel :
  forall level k s,
    lists_distance G us k level ->
    (forall v, Discrete_sus s v = false
               <-> exists j, (j <= k)%nat /\ at_distance G us j v) ->
    Discrete_recorded G us full k [] s ->
    returns (while_infecteds fuel G test full level)
      (fun _ s' =>
         exists n, lists_distance G us n [] /\
                   Discrete_recorded G us full n [] s') s.
Proof using Hyes.
  induction fuel as [|fuel IH]; intros level k s Hlevel Hsus Hrec;
    (destruct level as [|u0 level'];
     [apply returns_ret; by exists k|]); [done|].
  cbn [while_infecteds].
  remember (u0 :: level') as level eqn:Elevel. clear Elevel u0 level'.
  apply returns_modify_then.
  apply returns_bind.
  eapply returns_mono;
    [|apply (returns_for_prefix
               (fun done s' => forall u', Discrete_bfs G us full k done u' []
                                            s'))].
  2: { intros u'. unfold Discrete_bfs. dcbn. split_and!.
       - apply NoDup_nil_2.
       - by intros v Hv%elem_of_nil.
       - intros v. change (Discrete_sus _ v) with (Discrete_sus s v).
         rewrite Hsus. split; [by left|].
         by intros [?|?%elem_of_nil].
       - by intros x v [[?%elem_of_nil _]|[_ ?%elem_of_nil]].
       - exact Hrec. }
  2: { intros done x rest s' Hl Hs'. apply infect_from_bfs; [|done].
       apply Hlevel. rewrite Hl. apply elem_of_app. right. by left. }
  intros ? s1 Hs1. cbv beta in Hs1.
  destruct (Hs1 0%nat) as (Hnd & Hnew & Hsus1 & Hdone & Hlen & Ht & HI & Hit).
  clear Hs1.
  assert (lists_distance G us (S k) (new_infecteds s1)) as Hnext.
  { split; [done|]. intros v. split; [by apply Hnew|]. intros Hv.
    destruct (at_distance_pred G us k v Hv) as (u & Hu & Huv).
    assert (Discrete_sus s1 v = false) as Hv'.
    { apply (Hdone u). left. split; [|done]. by apply Hlevel. }
    apply Hsus1 in Hv' as [(j & Hj & Hd)|?]; [|done].
    pose proof (at_distance_unique G us j (S k) v Hd Hv). lia. }
  apply returns_gets_then.
  unfold returns, bind, last_of, modify.
  destruct (last (R_ s1)) as [x|] eqn:Hx; [|done].
  destruct (last (I_ s1)) as [y|] eqn:Hy; [|done].
  cbn [S_ I_ t_ set_R set_I].
  destruct (last (S_ s1)) as [z|] eqn:Hz; [|done].
  cbn [I_ set_I set_R]. rewrite last_snoc. cbn [t_ set_S set_I set_R].
  rewrite Ht.
  apply (IH _ (S k)); [done| |].
  - intros v. change (Discrete_sus _ v) with (Discrete_sus s1 v).
    rewrite Hsus1. split.
    + intros [(j & Hj & Hd)|Hv].
      * exists j. split; [lia|done].
      * exists (S k). split; [done|]. by apply Hnext.
    + intros (j & Hj & Hd). destruct (decide (j = S k)) as [->|Hne].
      * right. by apply Hnext.
      * left. exists j. split; [lia|done].
  - unfold Discrete_recorded. dcbn. split_and!.
    + rewrite length_app. simpl. lia.
    + rewrite last_snoc. f_equal. lia.
    + intros j i Hi.
      destruct (decide (j < length (I_ s1))%nat) as [Hj|Hj].
      * rewrite lookup_app_l in Hi by done. by apply HI.
      * apply lookup_lt_Some in Hi as Hj'. rewrite length_app in Hj'.
        simpl in Hj'. assert (j = length (I_ s1)) as -> by lia.
        rewrite list_lookup_middle in Hi by done. injection Hi as <-.
        rewrite Hlen. by exists (new_infecteds s1).
    + intros Hfull v j. rewrite (Hit Hfull v j).
      split; intros (j' & -> & Hd & Hj); exists j';
        (split; [done|]); (split; [done|]).
      * left. destruct Hj as [?|[-> _]]; lia.
      * destruct Hj as [Hj|[_ ?%elem_of_nil]]; [|done].
        destruct (decide (j' = k)) as [->|Hne]; [right|left; lia].
        split; [done|]. by apply Hlevel.
Qed.

Lemma body_bfs fuel r :
  NoDup us ->
  returns (body fuel G test full us)
    (fun out _ =>
       (forall k i,
          out_I out !! k = Some i ->
          exists l, lists_distance G us k l /\ i = Z.of_nat (length l)) /\
       (forall it,
          out_infection_time out = Some it ->
          forall v j,
            it !! v = Some j <->
            exists k, j = Z.of_nat k /\ at_distance G us k v))
    (new G us r).
Proof using Hyes.
  intros Hnd. unfold body.
  apply returns_bind.
  eapply returns_mono;
    [|apply (returns_for_prefix
               (fun done s =>
                  (forall v, Discrete_sus s v = false <-> v ∈ done) /\
                  (I_ s, t_ s, infection_time s)
                  = (I_ (new G us r), t_ (new G us r),
                     infection_time (new G us r))))].
  2: { split; [|done]. intros v. unfold Discrete_sus, new. dcbn.
       rewrite lookup_empty. simpl. split; [done|by intros ?%elem_of_nil]. }
  2: { intros done x rest s _ [Hsus Hsame]. unfold dd_write, returns, modify.
       split; [|done]. intros v. unfold Discrete_sus. dcbn.
       rewrite elem_of_app, list_elem_of_singleton, <- Hsus.
       unfold Discrete_sus.
       destruct (decide (x = v)) as [->|Hne].
       - rewrite lookup_insert_eq. tauto.
       - rewrite lookup_insert_ne by done. intuition congruence. }
  intros ? s1 [Hsus Hsame]. injection Hsame as EI Et Eit.
  apply returns_bind.
  eapply returns_mono; [|apply (while_infecteds_bfs fuel us 0 s1)].
  - intros ? s2 (n & Hn & Hlen & Ht & HI & Hit).
    apply returns_gets_then. apply returns_ret. simpl. split; [done|].
    intros it Eout v j. destruct full; [|done]. injection Eout as <-.
    rewrite (Hit eq_refl v j).
    split; [intros (j' & -> & Hd & _); by exists j'|].
    intros (j' & -> & Hd). exists j'. split; [done|]. split; [done|].
    left. destruct (decide (j' < n)%nat) as [|Hge]; [done|].
    destruct (at_distance_ends G us n) with (j := j') (v := v);
      [|lia|done].
    intros w Hw. apply Hn in Hw. by apply elem_of_nil in Hw.
  - split; [done|]. intros v. split; [|by intros [? _]]. intros Hv.
    split; [done|]. intros j Hj. lia.
  - intros v. rewrite Hsus. split.
    + intros Hv. exists 0%nat. split; [done|]. split; [done|].
      intros j Hj. lia.
    + intros (j & Hj & Hd). assert (j = 0)%nat as -> by lia. apply Hd.
  - unfold Discrete_recorded. rewrite EI, Et, Eit. unfold new. dcbn.
    split_and!; try done.
    + intros [|j] i; simpl; [|done]. intros [= <-]. exists us.
      split; [|done]. split; [done|]. intros v.
      split; [intros Hv; split; [done|]; intros j Hj; lia|by intros [? _]].
    + intros _ v j. rewrite lookup_empty. split; [done|].
      intros (j' & _ & _ & [?|[_ ?%elem_of_nil]]); [lia|done].
Qed.

End DiscreteBFS.

Lemma discrete_SIR_epidemic_bfs (fuel : nat) (G : Graph)
    (test : node -> node -> M RandomState bool)
    (x : node_or_nodes) (us : list node) (full : bool)
    (r r' : RandomState) (out : Discrete.output) (st : Discrete.state) :
  answers_yes G test -> lists_initial G x us -> NoDup us ->
  Discrete.discrete_SIR_epidemic fuel G test (Some x) full r
  = (Ok (out, st), r') ->
  (forall k i,
     Discrete.out_I out !! k = Some i ->
     exists l, lists_distance G us k l /\ i = Z.of_nat (length l)) /\
  (forall it,
     Discrete.out_infection_time out = Some it ->
     forall v j,
       it !! v = Some j <-> exists k, j = Z.of_nat k /\ at_distance G us k v).
Proof.
  intros Hyes Hx Hnd. unfold Discrete.discrete_SIR_epidemic.
  unfold bind. rewrite (choose_initial_lists G x us r Hx). simpl.
  apply (with_locals_Ok _ _
           (fun out _ =>
              (forall k i,
                 Discrete.out_I out !! k = Some i ->
                 exists l, lists_distance G us k l /\ i = Z.of_nat (length l))
              /\
              (forall it,
                 Discrete.out_infection_time out = Some it ->
                 forall v j,
                   it !! v = Some j <->
                   exists k, j = Z.of_nat k /\ at_distance G us k v))).
  by apply body_bfs.
Qed.

(** X16: when [test_transmission] says yes for every neighbour,
    [discrete_SIR_epidemic] is a breadth-first search from the initial
    infecteds [us] (distinct nodes): [I[k]] is the number of nodes at
    distance [k] from [us] in [G], and with [return_full_data] the
    infection time of a node is its distance from [us], the nodes that
    cannot be reached having none. *)
Theorem discrete_SIR_epidemic_breadth_first (fuel : nat) (G : Graph)
    (test_transmission : node -> node -> M RandomState bool)
    (x : node_or_nodes) (us : list node) (full : bool)
    (r r' : RandomState) (out : Discrete.output) (st : Discrete.state) :
  answers_yes G test_transmission -> lists_initial G x us -> NoDup us ->
  Discrete.discrete_SIR_epidemic fuel G test_transmission (Some x) full r
  = (Ok (out, st), r') ->
  (forall k i,
     Discrete.out_I out !! k = Some i ->
     exists l, lists_distance G us k l /\ i = Z.of_nat (length l)) /\
  (forall it,
     Discrete.out_infection_time out = Some it ->
     forall v j,
       it !! v = Some j <-> exists k, j = Z.of_nat k /\ at_distance G us k v).
Proof. apply discrete_SIR_epidemic_bfs. Qed.

Lemma discrete_SIR_epidemic_breadth_first_witness :
  match Discrete.discrete_SIR_epidemic 3 path2 (fun _ _ => ret true)
          (Some (a_node 0%nat)) true (steady (1 # 2))
  with
  | (Ok (out, _), _) =>
      forall k i,
        Discrete.out_I out !! k = Some i ->
        exists l, lists_distance path2 [0%nat] k l /\ i = Z.of_nat (length l)
  | (Raise _, _) => False
  end.
Proof.
  destruct (Discrete.discrete_SIR_epidemic 3 path2 (fun _ _ => ret true)
              (Some (a_node 0%nat)) true (steady (1 # 2)))
    as [[[out st]|e] r'] eqn:E; [|vm_compute in E; discriminate E].
  refine (proj1 (discrete_SIR_epidemic_breadth_first 3 path2
                   (fun _ _ => ret true) (a_node 0%nat) [0%nat] true _ _ _ _
                   _ _ _ E)).
  - intros u v r0 _. by exists r0.
  - split; [by left|done].
  - apply NoDup_singleton.
Defined.

(** ** The epidemic on a percolated network *)

(** X17: [percolation_based_discrete_SIR_epidemic] searches the percolated
    network.  On a graph [G] with distinct nodes and symmetric neighbour
    lists, started from distinct nodes [us], what a call returns describes
    the network [H] that [percolate_network] has drawn: [I[k]] is the number
    of nodes at distance [k] from [us] in [H], and with [return_full_data]
    the infection time of a node is its distance from [us] in [H]. *)
Theorem percolation_based_epidemic_searches_percolated_network (fuel : nat)
    (G : Graph) (p : Q) (x : node_or_nodes) (us : list node) (full : bool)
    (r r' : RandomState) (out : Discrete.output) (st : Discrete.state) :
  simple_graph G -> lists_initial G x us -> NoDup us ->
  percolation_based_discrete_SIR_epidemic fuel G p (Some x) full r
  = (Ok (out, st), r') ->
  exists H r1,
    percolate_network G p r = (Ok H, r1) /\
    spanning_subgraph G H /\
    (forall k i,
       Discrete.out_I out !! k = Some i ->
       exists l, lists_distance H us k l /\ i = Z.of_nat (length l)) /\
    (forall it,
       Discrete.out_infection_time out = Some it ->
       forall v j,
         it !! v = Some j <->
         exists k, j = Z.of_nat k /\ at_distance H us k v).
Proof.
  intros HG Hx Hnd. unfold percolation_based_discrete_SIR_epidemic.
  unfold bind at 1. rewrite (choose_initial_lists G x us r Hx).
  destruct (percolate_network_spec G p r HG) as (H & r1 & EH & HH & _).
  unfold bind at 1. rewrite EH. intros E.
  exists H, r1. split; [done|]. split; [done|].
  apply (discrete_SIR_epidemic_bfs fuel H (fun u v => _edge_exists_ u v H)
           (an_iterable us) us full r1 r' out st); try done.
  intros u v r0 Hv. exists r0. unfold _edge_exists_, UGraph.has_edge, ret.
  by rewrite bool_decide_eq_true_2.
Qed.

Lemma percolation_based_epidemic_searches_percolated_network_witness :
  match percolation_based_discrete_SIR_epidemic 3 path2 (3 # 4)
          (Some (a_node 0%nat)) true (steady (1 # 2))
  with
  | (Ok (out, _), _) =>
      exists H r1,
        percolate_network path2 (3 # 4) (steady (1 # 2)) = (Ok H, r1) /\
        forall k i,
          Discrete.out_I out !! k = Some i ->
          exists l, lists_distance H [0%nat] k l /\ i = Z.of_nat (length l)
  | (Raise _, _) => False
  end.
Proof.
  destruct (percolation_based_discrete_SIR_epidemic 3 path2 (3 # 4)
              (Some (a_node 0%nat)) true (steady (1 # 2)))
    as [[[out st]|e] r'] eqn:E; [|vm_compute in E; discriminate E].
  destruct (percolation_based_epidemic_searches_percolated_network 3 path2
              (3 # 4) (a_node 0%nat) [0%nat] true _ _ _ _ path2_simple
              (conj (list_elem_of_here 0%nat [1%nat]) eq_refl)
              (NoDup_singleton 0%nat) E) as (H & r1 & EH & _ & HI & _).
  by exists H, r1.
Defined.

(** ** Runs without initial infecteds *)







(** ** Gillespie: the clock *)

Section GillespieClock.
Import Gillespie.
Context (G : Graph) (horizon : num).

Lemma frame_gclock_next : frame Gillespie_view_clock random.next.
Proof. by intros s. Qed.

Lemma frame_next_randint0 {St B} `{HasRandom St} (f : St -> B) n :
  frame f random.next -> frame f (random.randint0 n).
Proof.
  intros Hnext. unfold random.randint0.
  destruct (n <=? 0)%Z; [apply frame_raise|by apply frame_next_below].
Qed.

Ltac vframe :=
  unfold Recover_SIR_neighbor, Recover_SIS_neighbor, lower_risk,
    Infect_neighbor, Initialize_neighbor, status_read, count_read,
    count_write, append_to, update_rates, ListDict.choose_random,
    pop_random_infected, risk_group_remove, risk_group_add;
  repeat first
    [ apply frame_next_expovariate; apply frame_gclock_next
    | apply frame_next_random; apply frame_gclock_next
    | apply frame_next_randint0; apply frame_gclock_next
    | apply frame_next_choice; apply frame_gclock_next
    | frame_step ].

Lemma gclock_view s s' :
  Gillespie_view_clock s' = Gillespie_view_clock s ->
  Gillespie_clock horizon s -> Gillespie_clock horizon s'.
Proof.
  unfold Gillespie_view_clock, Gillespie_clock, exp_draws.
  by intros [= -> -> ->].
Qed.

(** An event at [next_time] is recorded. *)
Lemma gclock_record s s' :
  Gillespie_view_clock s'
  = (times s ++ [next_time s], next_time s, draws (rand s)) ->
  num_lt (next_time s) horizon = true ->
  Gillespie_clock horizon s -> Gillespie_clock horizon s'.
Proof.
  unfold Gillespie_view_clock, Gillespie_clock, exp_draws.
  intros [= Et En Ed] Hnext (Hexp & H0 & later & El & Hnd & Hle).
  rewrite Et, En, Ed. split_and!; [done|done|].
  exists (later ++ [next_time s]). split; [by rewrite El|]. split.
  - apply nondecreasing_snoc; [done|]. intros x Hx. by apply Hle.
  - intros t [Ht| ->%list_elem_of_singleton]%elem_of_app; [by apply Hle|].
    split_and!; [done|apply num_le_refl|done].
Qed.

(** [next_time] moves on. *)
Lemma gclock_advance s s' nt :
  Gillespie_view_clock s' = (times s, nt, draws (rand s)) ->
  num_le (next_time s) nt ->
  Gillespie_clock horizon s -> Gillespie_clock horizon s'.
Proof.
  unfold Gillespie_view_clock, Gillespie_clock, exp_draws.
  intros [= Et En Ed] Hnt (Hexp & H0 & later & El & Hnd & Hle).
  rewrite Et, En, Ed. split_and!; [done|by eapply num_le_trans|].
  exists later. split_and!; [done|done|].
  intros t Ht. destruct (Hle t Ht) as (? & ? & ?).
  split_and!; [done|by eapply num_le_trans|done].
Qed.

Ltac vstep Hv :=
  apply (returns_bind_frame Gillespie_view_clock); [vframe|];
  let E := fresh "E" in intros ? ? E; rewrite <- E in Hv; clear E.

Ltac vrecorded Hv :=
  apply returns_modify_then;
  apply (returns_of_frame Gillespie_view_clock); [vframe|];
  let s' := fresh "s'" in
  intros s' ->; unfold Gillespie_view_clock in *; simpl;
  by injection Hv as -> -> ->.

Lemma Recover_SIR_records t full s ts nt d :
  Gillespie_view_clock s = (ts, nt, d) ->
  returns (_Gillespie_Recover_SIR_ G t full)
    (fun _ s' => Gillespie_view_clock s' = (ts ++ [t], nt, d)) s.
Proof.
  intros Hv. unfold _Gillespie_Recover_SIR_.
  do 5 vstep Hv. vrecorded Hv.
Qed.

Lemma Recover_SIS_records t full s ts nt d :
  Gillespie_view_clock s = (ts, nt, d) ->
  returns (_Gillespie_Recover_SIS_ G t full)
    (fun _ s' => Gillespie_view_clock s' = (ts ++ [t], nt, d)) s.
Proof.
  intros Hv. unfold _Gillespie_Recover_SIS_.
  do 4 vstep Hv. vrecorded Hv.
Qed.

Lemma Infect_records t SIR s ts nt d :
  Gillespie_view_clock s = (ts, nt, d) ->
  returns (_Gillespie_Infect_ G t SIR)
    (fun _ s' => Gillespie_view_clock s' = (ts ++ [t], nt, d)) s.
Proof.
  intros Hv. unfold _Gillespie_Infect_.
  vstep Hv. apply returns_gets_then.
  destruct (scan _ _ _ _) as [n|]; [|apply returns_raise].
  do 9 vstep Hv. vrecorded Hv.
Qed.


Lemma gclock_draw {C} total (k : Q -> M state C) post s :
  (0 < total)%Q -> Gillespie_clock horizon s ->
  (forall d s', (0 <= d)%Q ->
                Gillespie_view_clock s' = Gillespie_view_clock s ->
                returns (k d) post s') ->
  returns (bind (random.expovariate total) k) post s.
Proof.
  intros Hpos Hs Hk. unfold returns, bind. rewrite expovariate_run.
  2: { intros E. rewrite E in Hpos. by apply Qlt_irrefl in Hpos. }
  apply Hk; [|done].
  apply Qle_shift_div_l; [done|]. rewrite Qmult_0_l. apply Hs.
Qed.

(** The statements of both loops after the event. *)
Lemma reschedule_clock tau (otherwise : M state unit) s :
  Gillespie_clock horizon s ->
  (forall s1, Gillespie_view_clock s1 = Gillespie_view_clock s ->
              returns otherwise (fun _ => Gillespie_clock horizon) s1) ->
  returns (update_rates tau ;;
           let! total := gets total_rate in
           if Qltb 0 total then
             let! d := random.expovariate total in
             modify (fun s => set_next_time (num_add (next_time s) (Fin d)) s)
           else otherwise)
    (fun _ => Gillespie_clock horizon) s.
Proof.
  intros Hs Hother.
  apply (returns_bind_frame Gillespie_view_clock); [vframe|].
  intros ? s1 E1. apply returns_gets_then.
  destruct (Qltb 0 _) eqn:Epos; [|by apply Hother].
  apply Qltb_lt in Epos.
  apply gclock_draw; [done|by apply (gclock_view s)|].
  intros d s2 Hd E2.
  apply (gclock_advance s _ (num_add (next_time s) (Fin d)));
    [|by apply num_le_add_nonneg|done].
  rewrite E1 in E2. unfold Gillespie_view_clock in *. simpl.
  by injection E2 as -> -> ->.
Qed.

Lemma SIR_iteration_clock tau gamma full s :
  Gillespie_clock horizon s -> num_lt (next_time s) horizon = true ->
  returns (SIR_iteration G tau gamma full)
    (fun _ => Gillespie_clock horizon) s.
Proof.
  intros Hs Hnext. unfold SIR_iteration.
  apply (returns_bind_frame Gillespie_view_clock); [vframe|].
  intros u s1 E1. do 3 apply returns_gets_then.
  assert (Hv : Gillespie_view_clock s1
               = (times s, next_time s, draws (rand s))) by done.
  assert (next_time s1 = next_time s) as -> by by injection Hv.
  apply returns_bind.
  apply (returns_mono _
           (fun _ s' => Gillespie_view_clock s'
                        = (times s ++ [next_time s], next_time s,
                           draws (rand s)))).
  - intros ? s2 E2.
    assert (Gillespie_clock horizon s2) as Hs2 by by eapply gclock_record.
    apply reschedule_clock; [done|].
    intros s3 E3. apply returns_ret. by apply (gclock_view s2).
  - destruct (Qltb _ _); [|by apply Infect_records].
    apply returns_bind.
    eapply returns_mono; [|by apply Recover_SIR_records].
    intros ? s2 E2. apply returns_last_of_then. intros i Hi. exact E2.
Qed.

Lemma SIS_iteration_clock tau gamma full s :
  Gillespie_clock horizon s -> num_lt (next_time s) horizon = true ->
  returns (SIS_iteration G tau gamma full)
    (fun _ => Gillespie_clock horizon) s.
Proof.
  intros Hs Hnext. unfold SIS_iteration.
  apply (returns_bind_frame Gillespie_view_clock); [vframe|].
  intros u s1 E1. do 3 apply returns_gets_then.
  assert (Hv : Gillespie_view_clock s1
               = (times s, next_time s, draws (rand s))) by done.
  assert (next_time s1 = next_time s) as -> by by injection Hv.
  apply returns_bind.
  apply (returns_mono _
           (fun _ s' => Gillespie_view_clock s'
                        = (times s ++ [next_time s], next_time s,
                           draws (rand s)))).
  - intros ? s2 E2.
    assert (Gillespie_clock horizon s2) as Hs2 by by eapply gclock_record.
    apply reschedule_clock; [done|].
    intros s3 E3.
    apply (gclock_advance s2 _ Inf); [|by destruct (next_time s2)|done].
    unfold Gillespie_view_clock in *. simpl. by injection E3 as -> _ ->.
  - destruct (Qltb _ _); [|by apply Infect_records].
    apply returns_bind.
    eapply returns_mono; [|by apply Recover_SIS_records].
    intros ? s2 E2. apply returns_last_of_then. intros i Hi. exact E2.
Qed.

(** The loop runs its body only while [next_time < tmax]. *)
Lemma while_clock fuel iteration s :
  (forall s, Gillespie_clock horizon s ->
             num_lt (next_time s) horizon = true ->
             returns iteration (fun _ => Gillespie_clock horizon) s) ->
  Gillespie_clock horizon s ->
  returns (while fuel horizon iteration) (fun _ => Gillespie_clock horizon) s.
Proof.
  intros Hstep. revert s.
  induction fuel as [|fuel IH]; intros s Hs; cbn [while].
  - apply returns_gets_then. by destruct (continue horizon s).
  - apply returns_gets_then.
    destruct (continue horizon s) eqn:Ego; [|done].
    apply andb_true_iff in Ego as [Hnext _].
    apply returns_bind. eapply returns_mono; [|by apply Hstep].
    intros a s' Hs'. by apply IH.
Qed.

(** *** The first event is not before time 0 *)

Lemma risk_sum_nonneg rg :
  (forall k ld, rg !! k = Some ld -> (0 <= k)%Z) -> (0 <= risk_sum rg)%Z.
Proof.
  intros Hk. unfold risk_sum.
  assert (Forall (fun kl : Z * _ListDict_ => (0 <= kl.1)%Z) (map_to_list rg))
    as Hall.
  { apply Forall_forall. intros [k ld] Hin%elem_of_map_to_list. eauto. }
  induction Hall as [|[k ld] l Hx _ IH]; [done|].
  rewrite fmap_cons. cbn [foldr]. simpl in Hx.
  assert (0 <= k * Z.of_nat (ListDict.len ld))%Z by nia. lia.
Qed.

Lemma risk_nonneg_view s s' :
  Gillespie_view_risk s' = Gillespie_view_risk s ->
  risk_nonneg s -> risk_nonneg s'.
Proof. unfold Gillespie_view_risk, risk_nonneg. by intros [= -> ->]. Qed.

Lemma count_read_nonneg {C} v (k : Z -> M state C) post s :
  risk_nonneg s ->
  (forall c s', risk_nonneg s' -> (0 <= c)%Z ->
                infected_neighbor_count s' !! v = Some c ->
                returns (k c) post s') ->
  returns (bind (count_read v) k) post s.
Proof.
  intros Hs Hk. unfold returns, bind, count_read, dd_read.
  destruct (infected_neighbor_count s !! v) as [c|] eqn:E.
  - apply Hk; [done|by eapply (proj1 Hs)|done].
  - apply Hk; [|done|simpl; by rewrite lookup_insert_eq].
    split; [|apply (proj2 Hs)]. intros w c. simpl.
    destruct (decide (w = v)) as [->|Hne].
    + rewrite lookup_insert_eq. intros [= <-]. done.
    + rewrite lookup_insert_ne by done. apply (proj1 Hs).
Qed.

Lemma count_write_nonneg v c s :
  risk_nonneg s -> (0 <= c)%Z ->
  returns (count_write v c)
    (fun _ s' => risk_nonneg s' /\
                 infected_neighbor_count s' !! v = Some c) s.
Proof.
  intros Hs Hc. unfold returns, count_write, dd_write, modify. simpl.
  split; [|by rewrite lookup_insert_eq].
  split; [|apply (proj2 Hs)]. intros w c'. simpl.
  destruct (decide (w = v)) as [->|Hne].
  - rewrite lookup_insert_eq. by intros [= <-].
  - rewrite lookup_insert_ne by done. apply (proj1 Hs).
Qed.

Lemma risk_group_put k ld s :
  risk_nonneg s -> (0 <= k)%Z ->
  risk_nonneg (set_risk_group (<[k := ld]> (risk_group s)) s).
Proof.
  intros Hs Hk. split; [apply (proj1 Hs)|]. intros k' ld'. simpl.
  destruct (decide (k' = k)) as [->|Hne].
  - by rewrite lookup_insert_eq.
  - rewrite lookup_insert_ne by done. apply (proj2 Hs).
Qed.

Lemma risk_group_read_nonneg {C} n (k : _ListDict_ -> M state C) post s :
  risk_nonneg s -> (0 <= n)%Z ->
  (forall ld s', risk_nonneg s' ->
                 infected_neighbor_count s' = infected_neighbor_count s ->
                 returns (k ld) post s') ->
  returns (bind (dd_read risk_group set_risk_group ListDict.init n) k)
    post s.
Proof.
  intros Hs Hn Hk. unfold returns, bind, dd_read.
  destruct (risk_group s !! n) as [ld|] eqn:E.
  - by apply Hk.
  - apply Hk; [by apply risk_group_put|done].
Qed.

Lemma risk_group_remove_nonneg n item s :
  risk_nonneg s -> (0 <= n)%Z ->
  returns (risk_group_remove n item)
    (fun _ s' => risk_nonneg s' /\
                 infected_neighbor_count s' = infected_neighbor_count s) s.
Proof.
  intros Hs Hn. unfold risk_group_remove.
  apply risk_group_read_nonneg; [done|done|]. intros ld s1 Hs1 E1.
  destruct (ListDict.remove ld item) as [res ld'].
  unfold dd_write. apply returns_modify_then.
  destruct res as [[]|e]; [|done].
  split; [by apply risk_group_put|done].
Qed.

Lemma risk_group_add_nonneg n item s :
  risk_nonneg s -> (0 <= n)%Z ->
  returns (risk_group_add n item)
    (fun _ s' => risk_nonneg s' /\
                 infected_neighbor_count s' = infected_neighbor_count s) s.
Proof.
  intros Hs Hn. unfold risk_group_add.
  apply risk_group_read_nonneg; [done|done|]. intros ld s1 Hs1 E1.
  split; [by apply risk_group_put|done].
Qed.

Lemma Initialize_neighbor_nonneg v s :
  risk_nonneg s ->
  returns (Initialize_neighbor v) (fun _ => risk_nonneg) s.
Proof.
  intros Hs. unfold Initialize_neighbor.
  apply (returns_bind_frame Gillespie_view_risk);
    [unfold status_read; solve_frame|].
  intros st s1 E1. apply (risk_nonneg_view _ _ E1) in Hs. clear E1.
  destruct (decide (st = sS)); [|by apply returns_ret].
  apply returns_bind.
  apply (returns_mono _
           (fun _ s' => risk_nonneg s' /\ exists c,
              (1 <= c)%Z /\ infected_neighbor_count s' !! v = Some c)).
  2: { apply count_read_nonneg; [done|]. intros c s2 Hs2 Hc _.
       eapply returns_mono; [|apply count_write_nonneg; [done|]].
       - intros ? s3 [Hs3 E3]. split; [done|]. exists (c + 1)%Z.
         split; [lia|done].
       - lia. }
  intros ? s2 (Hs2 & c & Hc & E2). apply returns_bind.
  apply (returns_mono _
           (fun _ s' => risk_nonneg s' /\
                        infected_neighbor_count s' !! v = Some c)).
  2: { unfold count_read.
       apply (returns_dd_read_then _ _ _ _ c); [done|].
       destruct (1 <? c)%Z eqn:E1; [|by apply returns_ret].
       apply Z.ltb_lt in E1.
       apply (returns_dd_read_then _ _ _ _ c); [done|].
       eapply returns_mono; [|apply risk_group_remove_nonneg; [done|lia]].
       intros ? s3 [Hs3 E3]. split; [done|by rewrite E3]. }
  intros ? s3 [Hs3 E3]. unfold count_read.
  apply (returns_dd_read_then _ _ _ _ c); [done|].
  eapply returns_mono; [|apply risk_group_add_nonneg; [done|lia]].
  by intros ? s4 [Hs4 _].
Qed.

Lemma Gillespie_Initialize_nonneg us full s :
  returns (_Gillespie_Initialize_ G us full) (fun _ => risk_nonneg) s.
Proof.
  unfold _Gillespie_Initialize_. do 8 apply returns_modify_then.
  apply (returns_bind_frame Gillespie_view_risk); [solve_frame|].
  intros ? s1 E1.
  assert (risk_nonneg s1) as Hs1.
  { apply (risk_nonneg_view _ _ E1). split; intros ? ?; simpl;
      by rewrite lookup_empty. }
  clear E1. apply returns_bind.
  apply (returns_mono _ (fun _ => risk_nonneg)).
  - intros ? s2 Hs2.
    apply (returns_of_frame Gillespie_view_risk);
      [unfold append_to; solve_frame|].
    intros s3 E3. by apply (risk_nonneg_view _ _ E3).
  - apply returns_for; [|done]. intros u s2 Hs2.
    apply returns_lift_then. intros vs _.
    apply returns_for; [|done]. intros v s3 Hs3.
    by apply Initialize_neighbor_nonneg.
Qed.

Lemma returns_both {A} (m : M state A) (P Q : A -> state -> Prop) s :
  returns m P s -> returns m Q s ->
  returns m (fun a s' => P a s' /\ Q a s') s.
Proof. unfold returns. by destruct (m s) as [[a|e] s']. Qed.

Lemma prepare_clock tau gamma us full s :
  (0 <= tau)%Q -> (0 <= gamma)%Q -> exp_draws (rand s) ->
  returns (prepare G tau gamma us full) (fun _ => Gillespie_clock horizon) s.
Proof.
  intros Htau Hgamma Hexp. unfold prepare. apply returns_bind.
  eapply returns_mono;
    [|apply returns_both;
      [apply returns_both;
       [apply Gillespie_Initialize_traj|apply Gillespie_Initialize_nonneg]
      |apply (returns_frame (fun s : state => draws (rand s)));
       unfold _Gillespie_Initialize_, Initialize_neighbor, status_read,
         count_read, count_write, append_to, risk_group_remove,
         risk_group_add; solve_frame]].
  intros ? s1 [[Et [_ Hrisk]] Ed]. cbv beta in Ed.
  unfold Gillespie_traj in Et. injection Et as Et _ _ _.
  do 3 apply returns_modify_then.
  apply returns_last_of_then. intros t Ht. simpl in Ht. rewrite Et in Ht.
  injection Ht as <-. apply returns_gets_then. simpl.
  set (total := (_ + _)%Q).
  assert (0 <= total)%Q as Htotal.
  { unfold total. rewrite <- (Qplus_0_l 0) at 1. apply Qplus_le_compat.
    - apply Qmult_le_0_compat; [done|].
      change 0%Q with (inject_Z 0). rewrite <- Zle_Qle. lia.
    - apply Qmult_le_0_compat; [done|].
      change 0%Q with (inject_Z 0). rewrite <- Zle_Qle.
      by apply risk_sum_nonneg. }
  unfold returns, bind, random.expovariate, random.next, gets, modify, ret.
  simpl. destruct (Qeq_bool total 0) eqn:Ez; [done|].
  apply Qeq_bool_neq in Ez.
  assert (0 < total)%Q as Hpos.
  { apply Qle_lteq in Htotal as [H|H]; [done|]. by symmetry in H. }
  assert (0 <= unit_exp (draws (rand s1)) (cursor (rand s1)) / total)%Q
    as Hd.
  { apply Qle_shift_div_l; [done|]. rewrite Qmult_0_l, Ed. apply Hexp. }
  unfold Gillespie_clock. simpl. split_and!.
  - unfold exp_draws. rewrite Ed. apply Hexp.
  - rewrite Qplus_0_l. exact Hd.
  - exists []. rewrite Et. split_and!; [done| |].
    + intros i j x y _ Hx. by rewrite lookup_nil in Hx.
    + intros t Ht. by apply elem_of_nil in Ht.
Qed.

Lemma nondecreasing_cons x l :
  nondecreasing l -> (forall y, y ∈ l -> num_le x y) ->
  nondecreasing (x :: l).
Proof.
  intros Hl Hx i j a b Hij Ha Hb.
  destruct i as [|i], j as [|j]; simpl in *; try lia.
  - injection Ha as <-. injection Hb as <-. apply num_le_refl.
  - injection Ha as <-. apply Hx. by eapply list_elem_of_lookup_2.
  - apply (Hl i j); [lia|done|done].
Qed.

Lemma gclock_final s :
  Gillespie_clock horizon s ->
  nondecreasing (times s) /\ within horizon (times s).
Proof.
  intros (_ & _ & later & -> & Hnd & Hle). split.
  - apply nondecreasing_cons; [done|]. intros y Hy. by apply Hle.
  - intros t [->|Ht]%elem_of_cons.
    + split; [apply num_le_refl|by left].
    + destruct (Hle t Ht) as (? & _ & ?). split; [done|by right].
Qed.

Lemma frame_draws_choose x rho :
  frame (fun s : state => draws (rand s))
    (choose_initial_infecteds G x rho).
Proof. apply frame_next_choose_initial_infecteds, frame_draws_next. Qed.

Lemma Gillespie_SIR_body_clock fuel tau gamma x rho full s :
  (0 <= tau)%Q -> (0 <= gamma)%Q -> exp_draws (rand s) ->
  returns (Gillespie_SIR_body fuel G tau gamma x rho horizon full)
    (fun out _ => nondecreasing (out_times out) /\
                  within horizon (out_times out)) s.
Proof.
  intros Htau Hgamma Hexp. unfold Gillespie_SIR_body.
  apply (returns_bind_frame (fun s : state => draws (rand s)));
    [apply frame_draws_choose|].
  intros y s1 E1. apply returns_lift_then. intros us _.
  apply returns_bind.
  eapply returns_mono;
    [|apply prepare_clock; [done|done|unfold exp_draws; by rewrite E1]].
  intros ? s2 Hs2. apply returns_bind.
  eapply returns_mono;
    [|apply while_clock; [apply SIR_iteration_clock|done]].
  intros ? s3 Hs3%gclock_final. apply returns_gets_then.
  destruct full; [|by apply returns_ret].
  apply returns_lift_then. intros it _.
  apply returns_lift_then. intros rt _. by apply returns_ret.
Qed.

Lemma Gillespie_SIS_body_clock fuel tau gamma x rho full s :
  (0 <= tau)%Q -> (0 <= gamma)%Q -> exp_draws (rand s) ->
  returns (Gillespie_SIS_body fuel G tau gamma x rho horizon full)
    (fun out _ => nondecreasing (sis_times out) /\
                  within horizon (sis_times out)) s.
Proof.
  intros Htau Hgamma Hexp. unfold Gillespie_SIS_body.
  apply (returns_bind_frame (fun s : state => draws (rand s)));
    [apply frame_draws_choose|].
  intros y s1 E1. apply returns_lift_then. intros us _.
  apply returns_bind.
  eapply returns_mono;
    [|apply prepare_clock; [done|done|unfold exp_draws; by rewrite E1]].
  intros ? s2 Hs2. apply returns_bind.
  eapply returns_mono;
    [|apply while_clock; [apply SIS_iteration_clock|done]].
  intros ? s3 Hs3%gclock_final. apply returns_gets_then.
  by apply returns_ret.
Qed.

End GillespieClock.

(** X19: the times that [Gillespie_SIR] and [Gillespie_SIS] return are in
    order and within the horizon.  With rates [tau] and [gamma] that are not
    negative, the returned array [times] is nondecreasing, and each of
    its entries is at least 0 and, the initial time 0 apart, less than
    [tmax]. *)
Theorem Gillespie_times_in_order (fuel : nat) (G : Graph) (tau gamma : Q)
    (initial_infecteds : option node_or_nodes) (rho : option Q)
    (horizon : num) (full : bool) (r : RandomState) :
  (0 <= tau)%Q -> (0 <= gamma)%Q -> exp_draws r ->
  (forall out st r',
     Gillespie.Gillespie_SIR fuel G tau gamma initial_infecteds rho horizon
       full r = (Ok (out, st), r') ->
     nondecreasing (Gillespie.out_times out) /\
     within horizon (Gillespie.out_times out)) /\
  (forall out st r',
     Gillespie.Gillespie_SIS fuel G tau gamma initial_infecteds rho horizon
       full r = (Ok (out, st), r') ->
     nondecreasing (Gillespie.sis_times out) /\
     within horizon (Gillespie.sis_times out)).
Proof.
  intros Htau Hgamma Hexp. split; intros out st r'.
  - unfold Gillespie.Gillespie_SIR. case_bool_decide; [discriminate|].
    apply (with_locals_Ok _ _
             (fun out _ => nondecreasing (Gillespie.out_times out) /\
                           within horizon (Gillespie.out_times out))).
    by apply Gillespie_SIR_body_clock.
  - unfold Gillespie.Gillespie_SIS. case_bool_decide; [discriminate|].
    apply (with_locals_Ok _ _
             (fun out _ => nondecreasing (Gillespie.sis_times out) /\
                           within horizon (Gillespie.sis_times out))).
    by apply Gillespie_SIS_body_clock.
Qed.
Lemma Gillespie_times_in_order_witness :
  match Gillespie.Gillespie_SIR 10 path2 2 1 (Some (a_node 0%nat)) None
          (Fin 3) false (steady (2 # 3))
  with
  | (Ok (out, _), _) =>
      nondecreasing (Gillespie.out_times out) /\
      within (Fin 3) (Gillespie.out_times out)
  | (Raise _, _) => False
  end.
Proof.
  destruct (Gillespie.Gillespie_SIR 10 path2 2 1 (Some (a_node 0%nat)) None
              (Fin 3) false (steady (2 # 3)))
    as [[[out st]|e] r'] eqn:E; [|vm_compute in E; discriminate E].
  refine (proj1 (Gillespie_times_in_order 10 path2 2 1
                   (Some (a_node 0%nat)) None (Fin 3) false (steady (2 # 3))
                   _ _ _) out st r' E).
  - unfold Qle. simpl. lia.
  - unfold Qle. simpl. lia.
  - intros i. unfold Qle. simpl. lia.
Defined.

(** ** Event-driven SIS: the clock *)

Lemma num_le_max_l (x y : num) : num_le x (num_max x y).
Proof.
  unfold num_max. destruct (num_lt x y) eqn:E; [|apply num_le_refl].
  by apply num_lt_le.
Qed.

Section FastSISClock.
Import FastSIS.
Context (G : Graph) (tf : node -> node -> result Q) (rf : node -> result Q).
Hypothesis Htf : forall u v r, tf u v = Ok r -> (0 < r)%Q.
Hypothesis Hrf : forall u r, rf u = Ok r -> (0 < r)%Q.

Ltac scbn :=
  cbn [times Q_ rand S_ I_ status rec_time infection_times recovery_times
       set_times set_Q set_S set_I set_status set_rec_time
       set_infection_times set_rand new Queue.init _Q_ tmax].

Lemma sis_clock_view now s s' :
  FastSIS_view_clock s' = FastSIS_view_clock s ->
  FastSIS_clock now s -> FastSIS_clock now s'.
Proof.
  unfold FastSIS_view_clock, FastSIS_clock, exp_draws.
  intros [= -> -> ->]. done.
Qed.

Lemma frame_sis_clock_next : frame FastSIS_view_clock random.next.
Proof. by intros s. Qed.

Ltac sis_frame :=
  unfold status_read, rec_time_read;
  repeat first
    [ apply frame_next_expovariate; apply frame_sis_clock_next
    | apply frame_next_choose_initial_infecteds; apply frame_sis_clock_next
    | frame_step ].

Lemma sis_clock_frame_then {A C} now (m : M state A) (k : A -> M state C)
    post s :
  frame FastSIS_view_clock m -> FastSIS_clock now s ->
  (forall a s', FastSIS_clock now s' -> tmax (Q_ s') = tmax (Q_ s) ->
                returns (k a) post s') ->
  returns (bind m k) post s.
Proof.
  intros Hm Hs Hk. apply (returns_bind_frame FastSIS_view_clock); [done|].
  intros a s' E. apply Hk; [by eapply sis_clock_view|].
  unfold FastSIS_view_clock in E. by injection E as _ -> _.
Qed.

Lemma sis_clock_Q_add now e s :
  FastSIS_clock now s -> num_le now (time e) ->
  FastSIS_clock now (set_Q (Queue.add (Q_ s) e) s).
Proof.
  intros (H0 & Hnd & Hw & Hle & Hheap & HQ & Hexp) He.
  unfold FastSIS_clock. scbn. rewrite queue_add_tmax.
  split_and!; try done.
  - unfold Queue.add. destruct (num_lt _ _); [|done]. simpl.
    by apply heappush_ordered; [apply Event_lt_orders|].
  - intros x Hx.
    apply queue_add_elem in Hx as [[-> Hlt]|Hx]; [|by apply HQ].
    split; [done|]. by apply num_lt_true.
Qed.

Lemma sis_clock_expovariate_then {C} now lambd (k : Q -> M state C) post s :
  (0 < lambd)%Q -> FastSIS_clock now s ->
  (forall d s', (0 <= d)%Q -> FastSIS_clock now s' ->
                tmax (Q_ s') = tmax (Q_ s) -> returns (k d) post s') ->
  returns (bind (random.expovariate lambd) k) post s.
Proof.
  intros Hl Hs Hk.
  assert (~ (lambd == 0)%Q) as Hne.
  { intros E. rewrite E in Hl. by apply Qlt_irrefl in Hl. }
  unfold returns, bind, random.expovariate, random.next, gets. simpl.
  destruct (Qeq_bool lambd 0) eqn:E; [by apply Qeq_bool_iff in E|].
  apply Hk; [|by eapply sis_clock_view; [|exact Hs]|done].
  apply Qle_shift_div_l; [done|]. rewrite Qmult_0_l.
  apply Hs.
Qed.

Lemma find_next_trans_clock now tau source target s :
  (0 < tau)%Q -> FastSIS_clock now s ->
  returns (_find_next_trans_SIS_ now tau source target)
    (fun _ s' => FastSIS_clock now s' /\ tmax (Q_ s') = tmax (Q_ s)) s.
Proof.
  intros Htau Hs. unfold _find_next_trans_SIS_.
  apply (sis_clock_frame_then now); [sis_frame|done|]. intros st s1 Hs1 E1.
  apply (sis_clock_frame_then now); [sis_frame|done|]. intros ? s2 Hs2 E2.
  apply (sis_clock_frame_then now); [sis_frame|done|]. intros rt s3 Hs3 E3.
  apply (sis_clock_frame_then now); [sis_frame|done|]. intros rs s4 Hs4 E4.
  destruct (num_lt rt rs);
    [|apply returns_ret; split; [done|congruence]].
  apply (sis_clock_frame_then now); [sis_frame|done|]. intros rt' s5 Hs5 E5.
  apply (sis_clock_expovariate_then now); [done|done|].
  intros d s6 Hd Hs6 E6.
  apply (sis_clock_frame_then now); [sis_frame|done|]. intros rs' s7 Hs7 E7.
  destruct (num_lt _ _); [|apply returns_ret; split; [done|congruence]].
  unfold Q_add, returns, modify. split.
  - apply sis_clock_Q_add; [done|]. simpl.
    eapply num_le_trans; [apply (num_le_max_l now rt')|].
    by apply num_le_add_nonneg.
  - scbn. rewrite queue_add_tmax. congruence.
Qed.

Lemma sis_clock_append now s :
  FastSIS_clock now s -> num_lt now (tmax (Q_ s)) = true ->
  FastSIS_clock now (set_times (fun l => l ++ [now]) s).
Proof.
  intros (H0 & Hnd & Hw & Hle & Hheap & HQ & Hexp) Hnow.
  unfold FastSIS_clock. scbn. split_and!; try done.
  - by apply nondecreasing_snoc.
  - intros t [Ht| ->%list_elem_of_singleton]%elem_of_app; [by apply Hw|].
    split; [done|by right].
  - intros t [Ht| ->%list_elem_of_singleton]%elem_of_app; [by apply Hle|].
    apply num_le_refl.
Qed.

Lemma sis_process_trans_clock now source u s :
  FastSIS_clock now s -> num_lt now (tmax (Q_ s)) = true ->
  returns (_process_trans_SIS_ G tf rf now source u)
    (fun _ => FastSIS_clock now) s.
Proof using Htf Hrf.
  intros Hs Hnow. unfold _process_trans_SIS_.
  apply returns_bind.
  apply (returns_mono _ (fun _ => FastSIS_clock now)).
  { intros ? s1 Hs1. destruct source as [v|]; [|by apply returns_ret].
    apply returns_lift_then. intros tau Htau. apply Htf in Htau.
    eapply returns_mono; [|by apply find_next_trans_clock].
    by intros ? ? [? _]. }
  apply (sis_clock_frame_then now); [sis_frame|done|]. intros st s1 Hs1 E1.
  destruct (decide (st = sS)); [|by apply returns_ret].
  apply (sis_clock_frame_then now); [sis_frame|done|]. intros ? s2 Hs2 E2.
  apply (sis_clock_frame_then now); [sis_frame|done|]. intros ? s3 Hs3 E3.
  apply (sis_clock_frame_then now); [sis_frame|done|]. intros ? s4 Hs4 E4.
  apply returns_modify_then.
  assert (FastSIS_clock now (set_times (fun l => l ++ [now]) s4)) as Hs5.
  { apply sis_clock_append; [done|congruence]. }
  revert Hs5. generalize (set_times (fun l => l ++ [now]) s4).
  intros s5 Hs5.
  apply returns_lift_then. intros rate Hrate. apply Hrf in Hrate.
  apply (sis_clock_expovariate_then now); [done|done|].
  intros d s6 Hd Hs6 E6.
  unfold dd_write at 1. apply returns_modify_then.
  unfold rec_time_read at 1.
  eapply returns_dd_read_then; [apply lookup_insert_eq|].
  unfold Q_add at 1. apply returns_modify_then.
  match goal with |- returns _ _ ?st =>
    assert (FastSIS_clock now st) as Hs7
  end.
  { apply sis_clock_Q_add; [|by apply num_le_add_nonneg].
    by eapply sis_clock_view; [|exact Hs6]. }
  match type of Hs7 with FastSIS_clock _ ?st => generalize dependent st end.
  intros s7 Hs7.
  apply returns_lift_then. intros vs _.
  apply returns_bind.
  apply (returns_mono _ (fun _ => FastSIS_clock now)).
  - intros ? s8 Hs8.
    apply (returns_of_frame FastSIS_view_clock); [sis_frame|].
    intros s9 E9. by eapply sis_clock_view.
  - apply (returns_for (FastSIS_clock now)); [|done].
    intros v s8 Hs8.
    apply returns_lift_then. intros tau Htau. apply Htf in Htau.
    eapply returns_mono; [|by apply find_next_trans_clock].
    by intros ? ? [? _].
Qed.

Lemma sis_process_rec_clock now u s :
  FastSIS_clock now s -> num_lt now (tmax (Q_ s)) = true ->
  returns (_process_rec_SIS_ now u) (fun _ => FastSIS_clock now) s.
Proof.
  intros Hs Hnow. unfold _process_rec_SIS_.
  apply returns_modify_then.
  apply (returns_of_frame FastSIS_view_clock); [sis_frame|].
  intros s' E. eapply sis_clock_view; [exact E|]. by apply sis_clock_append.
Qed.

Lemma sis_pop_and_run_clock s :
  (exists now, FastSIS_clock now s) ->
  returns (pop_and_run G tf rf)
    (fun _ s' => exists now, FastSIS_clock now s') s.
Proof using Htf Hrf.
  intros [now (H0 & Hnd & Hw & Hle & Hheap & HQ & Hexp)].
  unfold pop_and_run, Queue.pop_and_run.
  apply returns_gets_then.
  destruct (heapq.heappop _ _) as [[event heap]|] eqn:Hpop; [|done].
  apply returns_modify_then.
  pose proof (heappop_perm _ _ _ _ Hpop) as Hperm.
  assert (event ∈ _Q_ (Q_ s)) as Hev by (rewrite Hperm; by left).
  assert (FastSIS_clock (time event)
            (set_Q (mk_myQueue heap (tmax (Q_ s))) s)) as Hs'.
  { unfold FastSIS_clock. scbn. split_and!; try done.
    - eapply num_le_trans; [exact H0|]. by apply HQ.
    - intros t Ht. eapply num_le_trans; [by apply Hle|]. by apply HQ.
    - by eapply heappop_ordered; [apply Event_lt_orders| |].
    - intros e He. assert (e ∈ _Q_ (Q_ s)) as He'.
      { rewrite Hperm. by right. }
      split; [|by apply HQ]. apply num_lt_false.
      by eapply (heappop_least Event_lt Event_lt_orders). }
  assert (num_lt (time event)
            (tmax (Q_ (set_Q (mk_myQueue heap (tmax (Q_ s))) s))) = true)
    as Hnow by (by apply HQ).
  eapply returns_mono; [intros ? s' Hs''; exists (time event); exact Hs''|].
  destruct (function event); simpl.
  - by apply sis_process_trans_clock.
  - by apply sis_process_rec_clock.
Qed.

Lemma frame_sis_tmax_call h t :
  frame (fun s => tmax (Q_ s)) (call G tf rf h t).
Proof.
  destruct h; simpl;
    unfold _process_trans_SIS_, _process_rec_SIS_, _find_next_trans_SIS_,
      Q_add, status_read, rec_time_read;
    repeat first [ apply frame_modify; intros ?; apply queue_add_tmax
                 | frame_step ].
Qed.

Lemma frame_sis_tmax_pop_and_run :
  frame (fun s => tmax (Q_ s)) (pop_and_run G tf rf).
Proof.
  intros s. unfold pop_and_run, Queue.pop_and_run, bind, gets, modify.
  destruct (heapq.heappop _ _) as [[event heap]|] eqn:Hpop; [|done].
  by rewrite frame_sis_tmax_call.
Qed.

Lemma fast_SIS_body_clock fuel x rho full tm r :
  exp_draws r ->
  returns (fast_SIS_body fuel G tf rf x rho full)
    (fun out _ => nondecreasing (out_times out) /\
                  within tm (out_times out))
    (new G tm r).
Proof using Htf Hrf.
  intros Hexp.
  assert (FastSIS_clock (Fin 0) (new G tm r) /\
          tmax (Q_ (new G tm r)) = tm) as H0.
  { split; [|done]. unfold FastSIS_clock. scbn. split_and!; try done.
    - intros [|i] [|j] a b Hij; simpl; try done.
      intros [= <-] [= <-]. done.
    - intros t ->%list_elem_of_singleton. split; [done|by left].
    - intros t ->%list_elem_of_singleton. apply num_le_refl.
    - by intros e He%elem_of_nil. }
  revert H0. generalize (new G tm r). intros s [Hs Htmax].
  unfold fast_SIS_body.
  apply (sis_clock_frame_then (Fin 0)); [sis_frame|done|].
  intros x' s1 Hs1 E1.
  apply returns_lift_then. intros us Hus.
  apply returns_bind.
  eapply returns_mono;
    [|apply (returns_for (fun s' => FastSIS_clock (Fin 0) s' /\
                                    tmax (Q_ s') = tm))].
  - intros ? s2 [Hs2 E2]. apply returns_bind.
    eapply returns_mono;
      [|apply (FastSIS_run_queue_returns _ _
                 (fun s' => (exists now, FastSIS_clock now s') /\
                            tmax (Q_ s') = tm))].
    + intros ? s3 [[now Hs3] E3]. apply returns_gets_then.
      apply returns_ret. simpl.
      destruct Hs3 as (_ & Hnd & Hw & _). split.
      * by apply nondecreasing_drop.
      * intros t Ht. rewrite <- E3. apply Hw.
        apply list_elem_of_lookup in Ht as [i Hi].
        rewrite lookup_drop in Hi. by eapply list_elem_of_lookup_2.
    + intros s' [Hs' E'].
      pose proof (sis_pop_and_run_clock s' Hs') as Hrun.
      pose proof (frame_sis_tmax_pop_and_run s') as Hf.
      unfold returns in *.
      destruct (pop_and_run _ _ _ s') as [[[]|e] s'']; [|done].
      split; [done|]. simpl in Hf. congruence.
    + split; [by exists (Fin 0)|done].
  - intros u s2 [Hs2 E2].
    unfold Q_add, returns, modify. split.
    + apply sis_clock_Q_add; [done|apply num_le_refl].
    + scbn. by rewrite queue_add_tmax.
  - split; [done|congruence].
Qed.

End FastSISClock.

(** X20: the times that [fast_SIS] returns are in order and within the
    horizon.  With positive rates [tau] and [gamma] (and positive weights,
    when weights are used), the returned array [times] is nondecreasing,
    and each of its entries is at least 0 and, the initial time 0 apart,
    less than [tmax]. *)
Theorem fast_SIS_times_in_order (fuel : nat) (G : Graph) (tau gamma : Q)
    (initial_infecteds : option node_or_nodes) (rho : option Q)
    (horizon : num) (tw rw : option string) (full : bool)
    (r r' : RandomState) (out : FastSIS.output) (st : FastSIS.state) :
  (0 < tau)%Q -> (0 < gamma)%Q ->
  (forall u v w a, G_edge G u v w = Some a -> (0 < a)%Q) ->
  (forall u w a, G_node G u w = Some a -> (0 < a)%Q) ->
  exp_draws r ->
  FastSIS.fast_SIS fuel G tau gamma initial_infecteds rho horizon tw rw full r
  = (Ok (out, st), r') ->
  nondecreasing (FastSIS.out_times out) /\
  within horizon (FastSIS.out_times out).
Proof.
  intros Htau Hgamma Hedge Hnode Hexp. unfold FastSIS.fast_SIS.
  case_bool_decide; [discriminate|].
  destruct (rate_functions_positive G tau gamma tw rw Htau Hgamma Hedge Hnode)
    as [Htf Hrf].
  destruct (_get_rate_functions G tau gamma tw rw) as [tf rf].
  apply (with_locals_Ok _ _
           (fun out _ => nondecreasing (FastSIS.out_times out) /\
                         within horizon (FastSIS.out_times out))).
  by apply (fast_SIS_body_clock G tf rf Htf Hrf).
Qed.

Lemma fast_SIS_times_in_order_witness :
  match FastSIS.fast_SIS 10 path2 2 1 (Some (a_node 0%nat)) None (Fin 3) None
          None false (steady (2 # 3))
  with
  | (Ok (out, _), _) =>
      nondecreasing (FastSIS.out_times out) /\
      within (Fin 3) (FastSIS.out_times out)
  | (Raise _, _) => False
  end.
Proof.
  destruct (FastSIS.fast_SIS 10 path2 2 1 (Some (a_node 0%nat)) None (Fin 3)
              None None false (steady (2 # 3)))
    as [[[out st]|e] r'] eqn:E; [|vm_compute in E; discriminate E].
  refine (fast_SIS_times_in_order _ _ _ _ _ _ _ _ _ _ _ _ _ _ _ _ _ _ _ E).
  - reflexivity.
  - reflexivity.
  - intros u v w a Ha. discriminate Ha.
  - intros u w a Ha. discriminate Ha.
  - intros i. unfold Qle. simpl. lia.
Defined.

(** ** Gillespie: the run as a whole *)

Section GillespieRun.
Import Gillespie.
Context (G : Graph) (HG : simple_graph G).

Ltac gcbn :=
  cbn [status infected infected_neighbor_count risk_group times S_ I_ R_
       infection_times recovery_times total_trans_rate total_rec_rate
       total_rate next_time rand get_random set_random state_HasRandom
       set_status set_infected set_infected_neighbor_count set_risk_group
       set_times set_S set_I set_R set_infection_times set_recovery_times
       set_total_trans_rate set_total_rec_rate set_total_rate set_next_time
       set_rand] in *.






End GillespieRun.

Section GillespieRunLoop.
Import Gillespie.
Context (G : Graph) (HG : simple_graph G) (tau gamma : Q).
Hypothesis Htau : (0 <= tau)%Q.
Hypothesis Hgamma : (0 < gamma)%Q.

Ltac gcbn :=
  cbn [status infected infected_neighbor_count risk_group times S_ I_ R_
       infection_times recovery_times total_trans_rate total_rec_rate
       total_rate next_time rand get_random set_random state_HasRandom
       set_status set_infected set_infected_neighbor_count set_risk_group
       set_times set_S set_I set_R set_infection_times set_recovery_times
       set_total_trans_rate set_total_rec_rate set_total_rate set_next_time
       set_rand] in *.





End GillespieRunLoop.

Section GillespieRunWhole.
Import Gillespie.
Context (G : Graph) (HG : simple_graph G) (tau gamma : Q).
Hypothesis Htau : (0 <= tau)%Q.
Hypothesis Hgamma : (0 < gamma)%Q.





End GillespieRunWhole.



(** ** Event-driven SIR: the run as a whole *)

Lemma sum_list_with_drop {A} (f g : A -> nat) (l : list A) (v : A) (c : nat) :
  v ∈ l -> (forall w, g w <= f w)%nat -> (g v + c <= f v)%nat ->
  (sum_list_with g l + c <= sum_list_with f l)%nat.
Proof.
  intros Hv Hle Hc. induction Hv as [v l|v w l Hv IH]; simpl.
  - assert (sum_list_with g l <= sum_list_with f l)%nat as Hl.
    { clear -Hle. induction l as [|x l IH]; simpl; [done|].
      specialize (Hle x). lia. }
    lia.
  - specialize (Hle w). lia.
Qed.

Lemma sum_list_with_le {A} (f g : A -> nat) (l : list A) :
  (forall w, g w <= f w)%nat ->
  (sum_list_with g l <= sum_list_with f l)%nat.
Proof.
  intros Hle. induction l as [|x l IH]; simpl; [done|].
  specialize (Hle x). lia.
Qed.

Lemma sum_list_with_same {A} (f g : A -> nat) (l : list A) :
  (forall w, g w = f w) -> sum_list_with g l = sum_list_with f l.
Proof.
  intros Heq. induction l as [|x l IH]; simpl; [done|].
  by rewrite Heq, IH.
Qed.

Section FastSIRRun.
Import FastSIR.
Context (G : Graph) (tau gamma : Q).
Hypothesis Htau : ~ (tau == 0)%Q.
Hypothesis Hgamma : ~ (gamma == 0)%Q.
Hypothesis Hadj : neighbors_are_nodes G.

Ltac fcbn :=
  cbn [status Q_ times S_ I_ R_ rec_time pred_inf_time rand
       set_status set_Q set_times set_S set_I set_R set_rec_time
       set_pred_inf_time set_rand _Q_ tmax] in *.

Lemma FastSIR_status_read_runs {C} v (k : status_t -> M state C) post s :
  (forall m, (forall w, default sS (m !! w) = FastSIR_status s w) ->
             succeeds (k (FastSIR_status s v)) post (set_status m s)) ->
  succeeds (bind (status_read v) k) post s.
Proof.
  intros Hk. unfold succeeds, bind, status_read, dd_read.
  unfold FastSIR_status in *.
  destruct (status s !! v) as [st|] eqn:E.
  - specialize (Hk (status s) (fun _ => eq_refl)). simpl in Hk.
    by destruct s.
  - apply Hk. intros w. destruct (decide (v = w)) as [->|Hne].
    + by rewrite lookup_insert_eq, E.
    + by rewrite lookup_insert_ne.
Qed.

Lemma dd_read_runs_then {K V C} `{Countable K} (get : state -> gmap K V)
    (set : gmap K V -> state -> state) dflt k (K' : V -> M state C) post s :
  (forall v m, succeeds (K' v) post (set m s)) ->
  (forall v, succeeds (K' v) post s) ->
  succeeds (bind (dd_read get set dflt k) K') post s.
Proof.
  intros Hset Hsame. unfold succeeds, bind, dd_read.
  destruct (get s !! k) as [v|]; [apply Hsame|apply Hset].
Qed.

(** The queue after [Q.add]. *)
Lemma sound_Q_add e s :
  (forall u, FastSIR_target (function e) = Some u -> u ∈ G_nodes G) ->
  FastSIR_sound G s ->
  FastSIR_sound G (set_Q (Queue.add (Q_ s) e) s) /\
  (FastSIR_left G (set_Q (Queue.add (Q_ s) e) s) <= S (FastSIR_left G s))%nat.
Proof.
  intros He (Hq & HS & HI & HR). split.
  - split; [|done]. fcbn. intros x u Hx.
    apply queue_add_elem in Hx as [[-> _]|Hx]; [apply He|by apply Hq].
  - unfold FastSIR_left. fcbn.
    assert (length (_Q_ (Queue.add (Q_ s) e)) <= S (length (_Q_ (Q_ s))))%nat
      as Hlen.
    { unfold Queue.add. destruct (num_lt _ _); [|lia]. cbn [_Q_].
      rewrite heappush_perm. simpl. lia. }
    assert (sum_list_with (FastSIR_weight G (set_Q (Queue.add (Q_ s) e) s))
              (G_nodes G)
            = sum_list_with (FastSIR_weight G s) (G_nodes G)) as -> by done.
    lia.
Qed.

(** A state that differs in the dictionaries of times only. *)
Lemma sound_same s s' :
  Q_ s' = Q_ s -> FastSIR_traj s' = FastSIR_traj s ->
  (forall w, FastSIR_status s' w = FastSIR_status s w) ->
  FastSIR_sound G s ->
  FastSIR_sound G s' /\ FastSIR_left G s' = FastSIR_left G s.
Proof.
  intros EQ [= Et ES EI ER] Hst (Hq & HS & HI & HR). split.
  - split; [by rewrite EQ|]. by rewrite ES, EI, ER.
  - unfold FastSIR_left. rewrite EQ. f_equal.
    apply sum_list_with_same. intros w. unfold FastSIR_weight.
    by rewrite Hst.
Qed.

Lemma find_trans_runs t source target rt s :
  target ∈ G_nodes G -> FastSIR_sound G s ->
  succeeds (_find_trans_SIR_ t tau source target rt)
    (fun _ s' => FastSIR_sound G s' /\
                 (FastSIR_left G s' <= S (FastSIR_left G s))%nat) s.
Proof using Htau.
  intros Htarget Hs. unfold _find_trans_SIR_.
  apply FastSIR_status_read_runs. intros m Hm.
  destruct (decide (_ = sS)).
  2: { apply succeeds_ret.
       destruct (sound_same s (set_status m s)) as [Hs1 ->];
         [done|done|done|done|]. split; [done|lia]. }
  eapply succeeds_run_then; [by apply FastSIR_expovariate_run|].
  assert (forall inf_time s1,
            Q_ s1 = Q_ s -> FastSIR_traj s1 = FastSIR_traj s ->
            (forall w, FastSIR_status s1 w = FastSIR_status s w) ->
            forall p,
              succeeds
                (if num_lt inf_time (num_min rt p)
                 then Q_add (mkEvent inf_time (trans target)) ;;
                      dd_write pred_inf_time set_pred_inf_time target
                        inf_time
                 else ret tt)
                (fun _ s' => FastSIR_sound G s' /\
                             (FastSIR_left G s' <= S (FastSIR_left G s))%nat)
                s1) as Hrest.
  { intros inf_time s1 EQ Et Hst p.
    destruct (sound_same s s1 EQ Et Hst Hs) as [Hs1 E1]. rewrite <- E1.
    destruct (num_lt _ _); [|apply succeeds_ret; split; [done|lia]].
    unfold Q_add. apply succeeds_modify_then.
    unfold dd_write. apply succeeds_modify.
    destruct (sound_Q_add (mkEvent inf_time (trans target)) s1)
      as [Hs2 Hl2]; [by intros u [= <-]|done|].
    match goal with |- FastSIR_sound _ ?st /\ _ =>
      destruct (sound_same (set_Q (Queue.add (Q_ s1)
                                     (mkEvent inf_time (trans target))) s1)
                  st) as [Hs3 E3]; [done|done|done|done|]
    end.
    split; [done|]. by rewrite E3. }
  apply dd_read_runs_then.
  - intros p m'. by apply Hrest.
  - intros p. by apply Hrest.
Qed.

Lemma find_trans_loop_runs t u vs s :
  (forall v, v ∈ vs -> v ∈ G_nodes G) -> FastSIR_sound G s ->
  succeeds
    (for_ vs (fun v =>
       let! tau := lift (Ok tau) in
       let! rt := rec_time_read u in
       _find_trans_SIR_ t tau u v rt))
    (fun _ s' => FastSIR_sound G s' /\
                 (FastSIR_left G s' <= FastSIR_left G s + length vs)%nat) s.
Proof using Htau.
  intros Hvs Hs.
  eapply succeeds_mono;
    [|apply (succeeds_for_prefix
               (fun visited s' =>
                  FastSIR_sound G s' /\
                  (FastSIR_left G s'
                   <= FastSIR_left G s + length visited)%nat))].
  - by intros ? s' ?.
  - split; [done|simpl; lia].
  - intros visited v rest s1 Hl [Hs1 Hl1].
    assert (v ∈ G_nodes G) as Hv.
    { apply Hvs. rewrite Hl, elem_of_app, elem_of_cons. tauto. }
    eapply succeeds_result_then; [reflexivity|].
    unfold rec_time_read.
    assert (forall rt s2,
              Q_ s2 = Q_ s1 -> FastSIR_traj s2 = FastSIR_traj s1 ->
              (forall w, FastSIR_status s2 w = FastSIR_status s1 w) ->
              succeeds (_find_trans_SIR_ t tau u v rt)
                (fun _ s' =>
                   FastSIR_sound G s' /\
                   (FastSIR_left G s'
                    <= FastSIR_left G s + length (visited ++ [v]))%nat) s2)
      as Hrest.
    { intros rt s2 EQ Et Hst.
      destruct (sound_same s1 s2 EQ Et Hst Hs1) as [Hs2 E2].
      eapply succeeds_mono; [|by apply find_trans_runs].
      intros ? s' [Hs' Hl']. split; [done|].
      rewrite length_app. simpl. lia. }
    apply dd_read_runs_then.
    + intros rt m. by apply Hrest.
    + intros rt. by apply Hrest.
Qed.

Lemma weight_after_infection s s' u :
  u ∈ G_nodes G -> FastSIR_status s u = sS ->
  (forall w, FastSIR_status s' w = with_status (FastSIR_status s) u sI w) ->
  (sum_list_with (FastSIR_weight G s') (G_nodes G) + S (length (G_adj G u))
   <= sum_list_with (FastSIR_weight G s) (G_nodes G))%nat.
Proof.
  intros Hu HuS Hs'. apply (sum_list_with_drop _ _ _ u); [done|..].
  - intros w. unfold FastSIR_weight. rewrite Hs'. unfold with_status.
    destruct (decide (w = u)) as [->|Hw].
    + rewrite decide_False by done. lia.
    + done.
  - unfold FastSIR_weight. rewrite Hs'. unfold with_status. rewrite HuS.
    repeat case_decide; try done; lia.
Qed.

Lemma process_trans_runs t u s :
  u ∈ G_nodes G -> FastSIR_sound G s ->
  succeeds
    (_process_trans_SIR_ G (fun _ _ => Ok tau) (fun _ => Ok gamma) t u)
    (fun _ s' => FastSIR_sound G s' /\
                 (FastSIR_left G s' <= FastSIR_left G s)%nat) s.
Proof using Htau Hgamma Hadj.
  intros Hu Hs. unfold _process_trans_SIR_.
  apply FastSIR_status_read_runs. intros m Hm.
  destruct (decide (FastSIR_status s u = sS)) as [HuS|HuS].
  2: { apply succeeds_ret.
       destruct (sound_same s (set_status m s)) as [Hs1 ->]; done. }
  destruct Hs as (Hq & (x & HS) & (i & HI) & (r & HR)).
  unfold dd_write at 1. apply succeeds_modify_then.
  apply succeeds_modify_then.
  eapply succeeds_append_then; [exact HS|].
  eapply succeeds_append_then; [exact HI|].
  eapply succeeds_append_then; [exact HR|].
  eapply succeeds_result_then; [reflexivity|].
  eapply succeeds_run_then; [by apply FastSIR_expovariate_run|].
  unfold dd_write at 1. apply succeeds_modify_then.
  eapply succeeds_run_then.
  { unfold rec_time_read, dd_read. fcbn. by rewrite lookup_insert_eq. }
  unfold Q_add at 1. apply succeeds_modify_then.
  eapply succeeds_result_then.
  { unfold nx.neighbors, nx.has_node. by rewrite bool_decide_eq_true_2. }
  match goal with |- succeeds _ _ ?st => remember st as s1 eqn:E1 end.
  assert (FastSIR_sound G s1 /\
          (FastSIR_left G s1 + length (G_adj G u) <= FastSIR_left G s)%nat)
    as [Hs1 Hl1].
  { assert (forall w, FastSIR_status s1 w
                      = with_status (FastSIR_status s) u sI w) as Hst.
    { intros w. subst s1. unfold FastSIR_status at 1. fcbn.
      unfold with_status. case_decide as Hw.
      - subst. by rewrite lookup_insert_eq.
      - rewrite lookup_insert_ne by done. apply Hm. }
    pose proof (weight_after_infection s s1 u Hu HuS Hst) as Hw.
    split.
    - subst s1. split; [|fcbn; rewrite !last_snoc; split_and!; eauto].
      fcbn. intros e v He.
      apply queue_add_elem in He as [[-> _]|He]; [by intros [=]|by apply Hq].
    - unfold FastSIR_left.
      assert (length (_Q_ (Q_ s1)) <= S (length (_Q_ (Q_ s))))%nat as Hlen.
      { subst s1. fcbn. unfold Queue.add.
        destruct (num_lt _ _); [|fcbn; lia]. cbn [_Q_].
        rewrite heappush_perm. simpl. lia. }
      lia. }
  clear E1.
  eapply succeeds_mono; [|apply find_trans_loop_runs; [|done]].
  - intros ? s' [Hs' Hl']. split; [done|lia].
  - intros v Hv. by apply (Hadj u).
Qed.

Lemma process_rec_runs t u s :
  FastSIR_sound G s ->
  succeeds (_process_rec_SIR_ t u)
    (fun _ s' => FastSIR_sound G s' /\
                 (FastSIR_left G s' <= FastSIR_left G s)%nat) s.
Proof.
  intros (Hq & (x & HS) & (i & HI) & (r & HR)). unfold _process_rec_SIR_.
  apply succeeds_modify_then.
  eapply succeeds_append_then; [exact HS|].
  eapply succeeds_append_then; [exact HI|].
  eapply succeeds_append_then; [exact HR|].
  unfold dd_write. apply succeeds_modify. split.
  - split; [done|]. fcbn. rewrite !last_snoc. split_and!; eauto.
  - unfold FastSIR_left. fcbn.
    apply Nat.add_le_mono_l, sum_list_with_le. intros w.
    unfold FastSIR_weight, FastSIR_status. fcbn.
    destruct (decide (w = u)) as [->|Hw].
    + rewrite lookup_insert_eq. cbn [default].
      repeat case_decide; try done; lia.
    + by rewrite lookup_insert_ne.
Qed.

Lemma pop_and_run_runs s :
  FastSIR_sound G s -> _Q_ (Q_ s) ≠ [] ->
  succeeds
    (pop_and_run G
       (_process_trans_SIR_ G (fun _ _ => Ok tau) (fun _ => Ok gamma))
       (fun _ _ => Ok tau) (fun _ => Ok gamma))
    (fun _ s' => FastSIR_sound G s' /\
                 (S (FastSIR_left G s') <= FastSIR_left G s)%nat) s.
Proof using Htau Hgamma Hadj.
  intros Hs Hne. unfold pop_and_run, Queue.pop_and_run.
  apply succeeds_gets_then.
  destruct (heapq.heappop Event_lt (_Q_ (Q_ s))) as [[e heap]|] eqn:Epop.
  2: { by apply heappop_None in Epop. }
  apply heappop_perm in Epop. apply succeeds_modify_then.
  assert (FastSIR_sound G (set_Q (mk_myQueue heap (tmax (Q_ s))) s) /\
          S (FastSIR_left G (set_Q (mk_myQueue heap (tmax (Q_ s))) s))
          = FastSIR_left G s) as [Hs1 Hl1].
  { destruct Hs as (Hq & HS & HI & HR). split.
    - split; [|done]. fcbn. intros x u Hx. apply Hq. rewrite Epop.
      by right.
    - unfold FastSIR_left. fcbn. rewrite Epop. simpl.
      f_equal. }
  assert (forall u, FastSIR_target (function e) = Some u -> u ∈ G_nodes G)
    as Hnode.
  { intros u. apply (proj1 Hs). rewrite Epop. by left. }
  rewrite <- Hl1.
  destruct (function e) as [u|v|u]; cbn [call].
  - eapply succeeds_mono; [|apply process_trans_runs; [by apply Hnode|done]].
    intros ? s' [Hs' Hl']. split; [done|lia].
  - eapply succeeds_mono; [|apply process_trans_runs; [by apply Hnode|done]].
    intros ? s' [Hs' Hl']. split; [done|lia].
  - eapply succeeds_mono; [|by apply process_rec_runs].
    intros ? s' [Hs' Hl']. split; [done|lia].
Qed.

Lemma run_queue_runs fuel :
  forall s,
    FastSIR_sound G s -> (FastSIR_left G s <= fuel)%nat ->
    succeeds
      (run_queue fuel
         (pop_and_run G
            (_process_trans_SIR_ G (fun _ _ => Ok tau) (fun _ => Ok gamma))
            (fun _ _ => Ok tau) (fun _ => Ok gamma)))
      (fun _ _ => True) s.
Proof using Htau Hgamma Hadj.
  induction fuel as [|fuel IH]; intros s Hs Hfuel;
    cbn [run_queue]; apply succeeds_gets_then; unfold Queue.len;
    destruct (decide (length (_Q_ (Q_ s)) = 0%nat)) as [E|Hne].
  - by apply succeeds_ret.
  - unfold FastSIR_left in Hfuel. lia.
  - by apply succeeds_ret.
  - eapply succeeds_bind.
    + apply (pop_and_run_runs s Hs). intros E. apply Hne. by rewrite E.
    + intros ? s' [Hs' Hl']. apply IH; [done|lia].
Qed.

Lemma queue_initial_runs us tm r :
  (forall u, u ∈ us -> u ∈ G_nodes G) ->
  succeeds
    (for_ us (fun u =>
       let newevent := mkEvent (Fin 0) (initial_trans u) in
       dd_write pred_inf_time set_pred_inf_time u (Fin 0) ;;
       Q_add newevent))
    (fun _ s' => FastSIR_sound G s' /\
                 (FastSIR_left G s' <= events_bound G us)%nat)
    (new G tm r).
Proof.
  intros Hus.
  eapply succeeds_mono;
    [|apply (succeeds_for_prefix
               (fun visited s' =>
                  FastSIR_sound G s' /\
                  (FastSIR_left G s' <= events_bound G visited)%nat))].
  - by intros ? s' ?.
  - split.
    + split; [by intros e u He%elem_of_nil|]. simpl. split_and!; eauto.
    + unfold FastSIR_left, events_bound. simpl.
      apply sum_list_with_le. intros w. unfold FastSIR_weight.
      case_decide; lia.
  - intros visited u rest s' Hl [Hs' Hl'].
    unfold dd_write at 1. apply succeeds_modify_then.
    unfold Q_add. apply succeeds_modify.
    assert (u ∈ G_nodes G) as Hu.
    { apply Hus. rewrite Hl, elem_of_app, elem_of_cons. tauto. }
    match goal with |- FastSIR_sound _ (set_Q _ ?st) /\ _ =>
      destruct (sound_same s' st) as [Hs1 E1]; [done|done|done|done|];
      destruct (sound_Q_add (mkEvent (Fin 0) (initial_trans u)) st)
        as [Hs2 Hl2]; [by intros v [= <-]|done|]
    end.
    split; [done|]. unfold events_bound in *. rewrite length_app.
    cbn [length]. lia.
Qed.

Lemma fast_nonMarkov_SIR_body_runs fuel x us tm full r :
  (forall u, u ∈ us -> u ∈ G_nodes G) -> lists_initial G x us ->
  (events_bound G us <= fuel)%nat ->
  succeeds
    (fast_nonMarkov_SIR_body fuel G
       (_process_trans_SIR_ G (fun _ _ => Ok tau) (fun _ => Ok gamma))
       (fun _ _ => Ok tau) (fun _ => Ok gamma) (Some x) None full)
    (fun _ _ => True) (new G tm r).
Proof using Htau Hgamma Hadj.
  intros Hus Hx Hfuel. unfold fast_nonMarkov_SIR_body.
  eapply succeeds_run_then; [by apply (choose_initial_infecteds_lists G)|].
  eapply succeeds_result_then; [reflexivity|].
  eapply succeeds_bind; [by apply queue_initial_runs|].
  intros ? s1 [Hs1 Hl1].
  eapply succeeds_bind; [apply (run_queue_runs fuel s1 Hs1); lia|].
  intros ? s2 _. apply succeeds_gets_then. by apply succeeds_ret.
Qed.

End FastSIRRun.

(** X23: [fast_SIR] raises nothing and ends.  On a graph whose
    neighbours are nodes, with rates [tau] and [gamma] other than 0, no
    weights, and initial infecteds that are nodes of the graph, the call
    returns for every [tmax], after running at most one event for each
    initial infected, one recovery for each node and one transmission for
    each node and neighbour. *)
Theorem fast_SIR_returns (G : Graph) (fuel : nat) (tau gamma : Q)
    (x : node_or_nodes) (us : list node) (tmax : num) (full : bool)
    (r : RandomState) :
  neighbors_are_nodes G -> ~ (tau == 0)%Q -> ~ (gamma == 0)%Q ->
  (forall u, u ∈ us -> u ∈ G_nodes G) -> lists_initial G x us ->
  (events_bound G us <= fuel)%nat ->
  exists out st r',
    FastSIR.fast_SIR fuel G tau gamma (Some x) None tmax None None full r
    = (Ok (out, st), r').
Proof.
  intros Hadj Htau Hgamma Hus Hx Hfuel.
  destruct (fast_nonMarkov_SIR_body_runs G tau gamma Htau Hgamma Hadj fuel x
              us tmax full r Hus Hx Hfuel) as (out & st & E & _).
  exists out, st, (FastSIR.rand st).
  unfold FastSIR.fast_SIR, _get_rate_functions, FastSIR.fast_nonMarkov_SIR.
  rewrite bool_decide_eq_false_2 by (by intros [? _]).
  unfold with_locals. by rewrite E.
Qed.

Lemma fast_SIR_returns_witness :
  exists out st r',
    FastSIR.fast_SIR 5 path2 2 1 (Some (a_node 0%nat)) None (Fin 3) None
      None true (steady (1 # 2)) = (Ok (out, st), r').
Proof.
  apply (fast_SIR_returns path2 5 2 1 (a_node 0%nat) [0%nat] (Fin 3) true
           (steady (1 # 2))).
  - intros u v Hu Hv. apply (adj_nodes path2 path2_simple u v Hv).
  - by intros E.
  - by intros E.
  - intros u ->%list_elem_of_singleton. by left.
  - split; [by left|done].
  - vm_compute. lia.
Defined.

(** ** Event-driven SIR: the dictionaries of times *)

Lemma returns_conj {St A} (m : M St A) (P Q : A -> St -> Prop) s :
  returns m P s -> returns m Q s ->
  returns m (fun a s' => P a s' /\ Q a s') s.
Proof. unfold returns. by destruct (m s) as [[a|e] s']. Qed.

Lemma returns_keeps {St A} (m : M St A) (Inv : St -> Prop) s :
  keeps Inv m -> Inv s -> returns m (fun _ => Inv) s.
Proof.
  intros Hk Hs. specialize (Hk s Hs). unfold returns.
  by destruct (m s) as [[a|e] s'].
Qed.

(** An event in a queue has a finite time, as it is before the time
    limit. *)
Lemma queued_is_finite {H} (Q : myQueue H) e :
  queue_below Q -> e ∈ _Q_ Q -> exists t, time e = Fin t.
Proof.
  intros Hb He. specialize (Hb e He).
  destruct (time e) as [t|]; [by exists t|].
  exfalso. apply Hb. by destruct (tmax Q).
Qed.

Section FastSIRDated.
Import FastSIR.
Context (G : Graph) (tf : node -> node -> result Q) (rf : node -> result Q).
Hypothesis Hrf : forall u r, rf u = Ok r -> (0 < r)%Q.

Ltac fcbn :=
  cbn [status Q_ times S_ I_ R_ rec_time pred_inf_time rand
       set_status set_Q set_times set_S set_I set_R set_rec_time
       set_pred_inf_time set_rand _Q_ tmax] in *.

Lemma FastSIR_status_read_returns {C} v (k : status_t -> M state C) post s :
  (forall m, (forall w, default sS (m !! w) = FastSIR_status s w) ->
             returns (k (FastSIR_status s v)) post (set_status m s)) ->
  returns (bind (status_read v) k) post s.
Proof.
  intros Hk. unfold returns, bind, status_read, dd_read.
  unfold FastSIR_status in *.
  destruct (status s !! v) as [st|] eqn:E.
  - specialize (Hk (status s) (fun _ => eq_refl)). simpl in Hk.
    by destruct s.
  - apply Hk. intros w. destruct (decide (v = w)) as [->|Hne].
    + by rewrite lookup_insert_eq, E.
    + by rewrite lookup_insert_ne.
Qed.

Lemma dated_same s s' :
  (forall w, FastSIR_status s' w = FastSIR_status s w) ->
  FastSIR_dated_view s' = FastSIR_dated_view s -> FastSIR_dated s -> FastSIR_dated s'.
Proof.
  intros Hst [= EQ Er Ep] (H1 & H2 & H3). unfold FastSIR_dated.
  rewrite EQ, Er, Ep. split_and!; [|done|done].
  intros u. by rewrite Hst.
Qed.

Lemma dated_frame {A} (m : M state A) s :
  frame (fun s => (status s, FastSIR_dated_view s)) m -> FastSIR_dated s ->
  returns m (fun _ s' => FastSIR_dated s' /\ rec_time s' = rec_time s) s.
Proof.
  intros Hm Hs. apply (returns_of_frame (fun s => (status s, FastSIR_dated_view s)));
    [done|].
  intros s' [= Est EQ Er Ep]. split; [|done].
  apply (dated_same s); [|by unfold FastSIR_dated_view; rewrite EQ, Er, Ep|done].
  intros w. unfold FastSIR_status. by rewrite Est.
Qed.

(** Writing the predicted infection time of a susceptible node. *)
Lemma dated_pred_write target x s :
  FastSIR_status s target = sS -> FastSIR_dated s ->
  FastSIR_dated (set_pred_inf_time (<[target := x]> (pred_inf_time s)) s).
Proof.
  intros HS (H1 & H2 & H3). split_and!; [done| |done].
  intros u r Hr. fcbn.
  destruct (decide (u = target)) as [->|Hne].
  - exfalso. by apply (proj2 (H1 target)); [eexists|].
  - rewrite lookup_insert_ne by done. by apply H2.
Qed.

(** Queueing an event that is no recovery. *)
Lemma dated_Q_add e s :
  (forall u, function e <> rec u) -> FastSIR_dated s ->
  FastSIR_dated (set_Q (Queue.add (Q_ s) e) s).
Proof.
  intros He (H1 & H2 & H3). split_and!; [done|done|].
  intros x u Hx Hu. fcbn.
  apply queue_add_elem in Hx as [[-> _]|Hx]; [by destruct (He u)|].
  by apply (H3 x).
Qed.

Ltac dframe :=
  unfold status_read, rec_time_read, pred_inf_time_read;
  repeat first
    [ apply frame_expovariate; intros ? ?; reflexivity
    | frame_step ].

Lemma find_trans_dated t tau source target rt s :
  FastSIR_dated s ->
  returns (_find_trans_SIR_ t tau source target rt)
    (fun _ s' => FastSIR_dated s' /\ rec_time s' = rec_time s) s.
Proof.
  intros Hs. unfold _find_trans_SIR_.
  apply FastSIR_status_read_returns. intros m Hm.
  assert (FastSIR_dated (set_status m s)) as Hs1.
  { by apply (dated_same s). }
  destruct (decide (FastSIR_status s target = sS)) as [HS|HS];
    [|by apply returns_ret].
  assert (FastSIR_status (set_status m s) target = sS) as HS1.
  { unfold FastSIR_status at 1. fcbn. by rewrite Hm. }
  assert (rec_time (set_status m s) = rec_time s) as Er1 by done.
  revert Hs1 HS1 Er1. generalize (set_status m s). clear Hm m.
  intros s1 Hs1 HS1 Er1.
  apply returns_bind.
  eapply returns_mono; [|apply dated_frame; [dframe|exact Hs1]].
  intros delay s2 [Hs2 Er2].
  assert (FastSIR_status s2 target = sS) as HS2.
  { destruct (FastSIR_status s2 target) eqn:E; [done|exfalso..].
    - assert (is_Some (rec_time s2 !! target)) as Hr.
      { apply (proj1 Hs2). by rewrite E. }
      rewrite Er2 in Hr. apply (proj1 Hs1) in Hr. by rewrite HS1 in Hr.
    - assert (is_Some (rec_time s2 !! target)) as Hr.
      { apply (proj1 Hs2). by rewrite E. }
      rewrite Er2 in Hr. apply (proj1 Hs1) in Hr. by rewrite HS1 in Hr. }
  assert (forall p s3,
            FastSIR_dated s3 -> FastSIR_status s3 target = sS ->
            rec_time s3 = rec_time s ->
            returns
              (if num_lt (num_add t (Fin delay)) (num_min rt p)
               then Q_add (mkEvent (num_add t (Fin delay)) (trans target)) ;;
                    dd_write pred_inf_time set_pred_inf_time target
                      (num_add t (Fin delay))
               else ret tt)
              (fun _ s' => FastSIR_dated s' /\ rec_time s' = rec_time s) s3)
    as Hrest.
  { intros p s3 Hs3 HS3 Er3.
    destruct (num_lt _ _); [|by apply returns_ret].
    unfold Q_add, dd_write. apply returns_modify_then.
    unfold returns, modify. split; [|done].
    apply (dated_pred_write target _ (set_Q _ s3)); [done|].
    by apply dated_Q_add. }
  unfold returns, bind, pred_inf_time_read, dd_read.
  destruct (pred_inf_time s2 !! target) as [p|] eqn:Ep.
  - apply Hrest; [done|done|congruence].
  - apply Hrest; [by apply dated_pred_write|done|simpl; congruence].
Qed.

Lemma dated_expovariate_then {C} lambd (k : Q -> M state C) post s :
  (0 < lambd)%Q -> exp_draws (rand s) ->
  (forall d, (0 <= d)%Q ->
             returns (k d) post
               (set_rand (mkRandom (draws (rand s)) (S (cursor (rand s))))
                  s)) ->
  returns (bind (random.expovariate lambd) k) post s.
Proof.
  intros Hl Hexp Hk. unfold returns, bind.
  rewrite FastSIR_expovariate_run.
  2: { intros E. rewrite E in Hl. by apply Qlt_irrefl in Hl. }
  apply Hk. apply Qle_shift_div_l; [done|]. rewrite Qmult_0_l. apply Hexp.
Qed.

Lemma process_trans_dated q u s :
  FastSIR_dated s -> exp_draws (rand s) ->
  num_le (FastSIR_pred s u) (Fin q) ->
  returns (_process_trans_SIR_ G tf rf (Fin q) u) (fun _ => FastSIR_dated) s.
Proof using Hrf.
  intros Hs Hexp Hpred. unfold _process_trans_SIR_.
  apply FastSIR_status_read_returns. intros m Hm.
  destruct (decide (FastSIR_status s u = sS)) as [HS|HS].
  2: { apply returns_ret. by apply (dated_same s). }
  unfold dd_write at 1. apply returns_modify_then.
  apply returns_modify_then.
  apply returns_append_then. intros x _.
  apply returns_append_then. intros i _.
  apply returns_append_then. intros r _.
  apply returns_lift_then. intros rate Hrate. apply Hrf in Hrate.
  apply dated_expovariate_then; [done|exact Hexp|]. intros d Hd.
  unfold dd_write at 1. apply returns_modify_then.
  eapply returns_dd_read_then; [apply lookup_insert_eq|].
  unfold Q_add at 1. apply returns_modify_then.
  apply returns_lift_then. intros vs _.
  match goal with |- returns _ _ ?st => remember st as s1 eqn:E1 end.
  assert (FastSIR_dated s1 /\
          rec_time s1 !! u = Some (num_add (Fin q) (Fin d))) as [Hs1 Hr1].
  { subst s1. split; [|fcbn; apply lookup_insert_eq].
    destruct Hs as (H1 & H2 & H3).
    assert (exists p, pred_inf_time s !! u = Some p /\ num_le p (Fin q))
      as (p & Hp & Hpq).
    { unfold FastSIR_pred in Hpred.
      destruct (pred_inf_time s !! u) as [p|]; [by exists p|done]. }
    split_and!.
    - intros w. unfold FastSIR_status. fcbn.
      destruct (decide (w = u)) as [->|Hw].
      + rewrite !lookup_insert_eq. simpl. split; [by eexists|done].
      + rewrite !lookup_insert_ne by done. rewrite Hm. apply H1.
    - intros w r'. fcbn.
      destruct (decide (w = u)) as [->|Hw].
      + rewrite lookup_insert_eq. intros [= <-]. exists p. split; [done|].
        eapply num_le_trans; [exact Hpq|].
        exact (num_le_add_nonneg (Fin q) d Hd).
      + rewrite lookup_insert_ne by done. apply H2.
    - intros e w He Hw. fcbn.
      apply queue_add_elem in He as [[-> _]|He].
      + simpl in Hw. injection Hw as ->. rewrite lookup_insert_eq.
        by eexists.
      + destruct (decide (w = u)) as [->|Hne].
        * rewrite lookup_insert_eq. by eexists.
        * rewrite lookup_insert_ne by done. by apply (H3 e). }
  clear E1.
  eapply returns_mono;
    [|apply (returns_for
               (fun s' => FastSIR_dated s' /\
                          rec_time s' !! u
                          = Some (num_add (Fin q) (Fin d))))].
  - by intros ? s' [? _].
  - intros v s2 [Hs2 Hr2].
    apply returns_lift_then. intros tau _.
    unfold rec_time_read.
    eapply returns_dd_read_then; [exact Hr2|].
    eapply returns_mono; [|by apply find_trans_dated].
    intros ? s3 [Hs3 Er3]. split; [done|by rewrite Er3].
  - done.
Qed.

Lemma process_rec_dated t u s :
  FastSIR_dated s -> is_Some (rec_time s !! u) ->
  returns (_process_rec_SIR_ t u) (fun _ => FastSIR_dated) s.
Proof.
  intros (H1 & H2 & H3) Hu. unfold _process_rec_SIR_.
  apply returns_modify_then.
  apply returns_append_then. intros x _.
  apply returns_append_then. intros i _.
  apply returns_append_then. intros r _.
  unfold dd_write, returns, modify. split_and!; [|done|done].
  intros w. unfold FastSIR_status. fcbn.
  destruct (decide (w = u)) as [->|Hw].
  - rewrite lookup_insert_eq. simpl. done.
  - rewrite lookup_insert_ne by done. apply H1.
Qed.

(** The queue holds events before its time limit: every [Q.add] filters,
    and nothing else puts events into it. *)
Lemma keeps_below_call h t :
  keeps (fun s => queue_below (Q_ s))
    (call G (_process_trans_SIR_ G tf rf) tf rf h t).
Proof.
  assert (forall A (m : M state A),
            frame Q_ m -> keeps (fun s => queue_below (Q_ s)) m) as Hf.
  { intros A m. apply frame_keeps. by intros s s' ->. }
  assert (forall e, keeps (fun s => queue_below (Q_ s)) (Q_add e)) as Hadd.
  { intros e s Hs. by apply queue_add_below. }
  destruct h; cbn [call];
    unfold _process_trans_SIR_, _process_rec_SIR_, _find_trans_SIR_;
    repeat first
      [ apply Hadd
      | apply Hf; solve [dframe]
      | apply keeps_ret
      | apply keeps_bind; [|intros ?]
      | apply keeps_for; intros ?
      | match goal with
        | |- keeps _ (if ?b then _ else _) => destruct b
        end ].
Qed.

Lemma frame_draws_call h t :
  frame (fun s => draws (rand s))
    (call G (_process_trans_SIR_ G tf rf) tf rf h t).
Proof.
  destruct h; cbn [call];
    unfold _process_trans_SIR_, _process_rec_SIR_, _find_trans_SIR_, Q_add,
      status_read, rec_time_read, pred_inf_time_read;
    repeat first
      [ apply frame_next_expovariate; by intros ?
      | frame_step ].
Qed.

Lemma pop_and_run_dated s :
  FastSIR_dated_run s ->
  returns (pop_and_run G (_process_trans_SIR_ G tf rf) tf rf)
    (fun _ => FastSIR_dated_run) s.
Proof using Hrf.
  intros (Hb & Hp & Hd & Hexp). unfold FastSIR_dated_run.
  apply returns_conj; [|apply returns_conj; [|apply returns_conj]].
  - (* the time limit *)
    unfold pop_and_run, Queue.pop_and_run. apply returns_gets_then.
    destruct (heapq.heappop _ _) as [[event heap]|] eqn:Hpop; [|done].
    apply returns_modify_then.
    apply (returns_keeps _ (fun s => queue_below (Q_ s)));
      [apply keeps_below_call|].
    by eapply queue_pop_below.
  - apply (returns_keeps _ pred_inf_time_bounds_queue);
      [apply keeps_pop_and_run|done].
  - unfold pop_and_run, Queue.pop_and_run. apply returns_gets_then.
    destruct (heapq.heappop _ _) as [[event heap]|] eqn:Hpop; [|done].
    apply returns_modify_then.
    pose proof (heappop_perm _ _ _ _ Hpop) as Hperm.
    assert (event ∈ _Q_ (Q_ s)) as Hev by (rewrite Hperm; by left).
    destruct (queued_is_finite (Q_ s) event Hb Hev) as [q Hq].
    assert (FastSIR_dated (set_Q (mk_myQueue heap (tmax (Q_ s))) s)) as Hd'.
    { destruct Hd as (H1 & H2 & H3). split_and!; [done|done|].
      intros e u He. fcbn. apply H3. rewrite Hperm. by right. }
    destruct (function event) as [u|v|u] eqn:Ef; cbn [call]; rewrite Hq.
    + apply process_trans_dated; [done|done|].
      rewrite <- Hq. apply (Hp event u Hev). by rewrite Ef.
    + apply process_trans_dated; [done|done|].
      rewrite <- Hq. apply (Hp event v Hev). by rewrite Ef.
    + apply process_rec_dated; [done|]. by apply (proj2 (proj2 Hd) event).
  - unfold pop_and_run, Queue.pop_and_run. apply returns_gets_then.
    destruct (heapq.heappop _ _) as [[event heap]|] eqn:Hpop; [|done].
    apply returns_modify_then.
    apply (returns_of_frame (fun s => draws (rand s)));
      [apply frame_draws_call|].
    intros s' E. unfold exp_draws. rewrite E. exact Hexp.
Qed.

Lemma initial_dated_run s :
  queue_below (Q_ s) -> queued_initial s -> rec_time s = ∅ ->
  status s = ∅ -> exp_draws (rand s) -> FastSIR_dated_run s.
Proof.
  intros Hb Hq Hr Hst Hexp. split_and!; [done| |split_and!|done].
  - by apply queued_initial_bounds.
  - intros u. unfold FastSIR_status. rewrite Hst, Hr, !lookup_empty.
    split; [done|]. by intros [? ?].
  - intros u r. by rewrite Hr, lookup_empty.
  - intros e u He Hu. destruct (Hq e He) as (w & -> & _). done.
Qed.

Lemma queue_initial_dated us s :
  queue_below (Q_ s) -> queued_initial s -> rec_time s = ∅ ->
  status s = ∅ -> exp_draws (rand s) ->
  returns
    (for_ us (fun u =>
       let newevent := mkEvent (Fin 0) (initial_trans u) in
       dd_write pred_inf_time set_pred_inf_time u (Fin 0) ;;
       Q_add newevent))
    (fun _ => FastSIR_dated_run) s.
Proof.
  intros Hb Hq Hr Hst Hexp.
  eapply returns_mono;
    [|apply returns_conj;
      [apply returns_conj;
       [apply (returns_keeps _ queued_initial);
        [apply keeps_queue_initial|done]
       |apply (returns_keeps _ (fun s => queue_below (Q_ s))); [|done]]
      |apply (returns_frame
                (fun s => (rec_time s, status s, draws (rand s))))]].
  - intros ? s' [[Hq' Hb'] E]. cbv beta in E. injection E as Er Es Ed.
    apply initial_dated_run; [done|done|congruence|congruence|].
    unfold exp_draws. rewrite Ed. exact Hexp.
  - apply keeps_for. intros u. apply keeps_bind.
    + apply (frame_keeps Q_); [by intros ? ? ->|solve_frame].
    + intros ? s1 Hs1. by apply queue_add_below.
  - unfold Q_add. solve_frame.
Qed.

Lemma full_data_dated s :
  FastSIR_dated s ->
  infected_then_recovered
    (filter (fun '(node, _) => default sS (status s !! node) ≠ sS)
            (pred_inf_time s))
    (filter (fun '(node, _) => default sS (status s !! node) ≠ sS)
            (rec_time s)).
Proof.
  intros (H1 & H2 & H3). split.
  - intros u. split.
    + intros [t [Ht HS]%map_lookup_filter_Some].
      destruct (proj1 (H1 u) HS) as [r Hr]. exists r.
      by apply map_lookup_filter_Some.
    + intros [r [Hr HS]%map_lookup_filter_Some].
      destruct (H2 u r Hr) as (p & Hp & _). exists p.
      by apply map_lookup_filter_Some.
  - intros u t t' [Ht _]%map_lookup_filter_Some
      [Hr _]%map_lookup_filter_Some.
    destruct (H2 u t' Hr) as (p & Hp & Hle). congruence.
Qed.

Lemma fast_nonMarkov_SIR_body_dated fuel x rho tm r :
  exp_draws r ->
  returns (fast_nonMarkov_SIR_body fuel G (_process_trans_SIR_ G tf rf)
             tf rf x rho true)
    (fun out _ =>
       exists it rt,
         out_infection_time out = Some it /\
         out_recovery_time out = Some rt /\
         infected_then_recovered it rt)
    (new G tm r).
Proof using Hrf.
  intros Hexp. unfold fast_nonMarkov_SIR_body.
  apply (returns_bind_frame (fun s => (Q_ s, pred_inf_time s, rec_time s,
                                       status s, draws (rand s))));
    [apply frame_next_choose_initial_infecteds; by intros ?|].
  intros x' s1 E1. simpl in E1. injection E1 as EQ Ep Er Es Ed.
  apply returns_lift_then. intros us _.
  apply returns_bind.
  eapply returns_mono; [|apply queue_initial_dated].
  - intros ? s2 Hs2. apply returns_bind.
    eapply returns_mono;
      [|apply (FastSIR_run_queue_returns _ _ FastSIR_dated_run);
        [apply pop_and_run_dated|done]].
    intros ? s3 (_ & _ & Hd & _). apply returns_gets_then.
    apply returns_ret. cbn [out_infection_time out_recovery_time].
    eexists _, _. split; [done|]. split; [done|].
    by apply full_data_dated.
  - rewrite EQ. apply queue_init_below.
  - intros e He. rewrite EQ in He. by apply elem_of_nil in He.
  - done.
  - done.
  - unfold exp_draws. rewrite Ed. exact Hexp.
Qed.

End FastSIRDated.

(** X24: the full data of [fast_SIR].  With [gamma > 0] (and positive
    recovery weights, when they are used), whenever a call with
    [return_full_data] returns, the dictionaries [infection_time] and
    [recovery_time] have the same keys, and the recovery time of each node
    is not before its infection time. *)
Theorem fast_SIR_recovers_after_infection (fuel : nat) (G : Graph)
    (tau gamma : Q) (initial_infecteds : option node_or_nodes)
    (rho : option Q) (tmax : num) (tw rw : option string)
    (r r' : RandomState) (out : FastSIR.output) (st : FastSIR.state) :
  (0 < gamma)%Q ->
  (forall u w a, G_node G u w = Some a -> (0 < a)%Q) ->
  exp_draws r ->
  FastSIR.fast_SIR fuel G tau gamma initial_infecteds rho tmax tw rw true r
  = (Ok (out, st), r') ->
  exists it rt,
    FastSIR.out_infection_time out = Some it /\
    FastSIR.out_recovery_time out = Some rt /\
    infected_then_recovered it rt.
Proof.
  intros Hgamma Hnode Hexp. unfold FastSIR.fast_SIR.
  assert (forall u a, (_get_rate_functions G tau gamma tw rw).2 u = Ok a ->
                      (0 < a)%Q) as Hrf.
  { intros u a. unfold _get_rate_functions. destruct rw as [w|]; simpl.
    - destruct (G_node G u w) as [b|] eqn:E; [|done]. intros [= <-].
      apply Qmult_lt_0_compat; [done|]. by eapply Hnode.
    - by intros [= <-]. }
  destruct (_get_rate_functions G tau gamma tw rw) as [tf rf].
  unfold FastSIR.fast_nonMarkov_SIR. case_bool_decide; [discriminate|].
  apply (with_locals_Ok _ _
           (fun out _ =>
              exists it rt,
                FastSIR.out_infection_time out = Some it /\
                FastSIR.out_recovery_time out = Some rt /\
                infected_then_recovered it rt)).
  by apply (fast_nonMarkov_SIR_body_dated G tf rf Hrf).
Qed.

Lemma fast_SIR_recovers_after_infection_witness :
  match FastSIR.fast_SIR 10 path2 4 1 (Some (a_node 0%nat)) None (Fin 9) None
          None true (steady (2 # 3))
  with
  | (Ok (out, _), _) =>
      exists it rt,
        FastSIR.out_infection_time out = Some it /\
        FastSIR.out_recovery_time out = Some rt /\
        infected_then_recovered it rt
  | (Raise _, _) => False
  end.
Proof.
  destruct (FastSIR.fast_SIR 10 path2 4 1 (Some (a_node 0%nat)) None (Fin 9)
              None None true (steady (2 # 3)))
    as [[[out st]|e] r'] eqn:E; [|vm_compute in E; discriminate E].
  refine (fast_SIR_recovers_after_infection _ _ _ _ _ _ _ _ _ _ _ _ _ _ _ _
            E).
  - reflexivity.
  - intros u w a Ha. discriminate Ha.
  - intros i. unfold Qle. simpl. lia.
Defined.

(** ** Gillespie: the SIS loop *)

Section GillespieSISRun.
Import Gillespie.
Context (G : Graph) (HG : simple_graph G) (tau gamma : Q).
Hypothesis Htau : (0 <= tau)%Q.
Hypothesis Hgamma : (0 < gamma)%Q.

Ltac gcbn :=
  cbn [status infected infected_neighbor_count risk_group times S_ I_ R_
       infection_times recovery_times total_trans_rate total_rec_rate
       total_rate next_time rand get_random set_random state_HasRandom
       set_status set_infected set_infected_neighbor_count set_risk_group
       set_times set_S set_I set_R set_infection_times set_recovery_times
       set_total_trans_rate set_total_rec_rate set_total_rate set_next_time
       set_rand] in *.








End GillespieSISRun.


